(** * The template parser of denjucks 1.1.1 (src/parser.js)

    A shallow embedding of the recursive-descent parser that turns the
    lexer's token stream into a template AST, and the properties of it that
    the specification states.

    Conventions of the embedding:
    - a JavaScript string is a [string] of 8-bit code units (the Latin-1 part
      of UTF-16);
    - [null] and [undefined] are [None] for tokens, positions and optional
      arguments, and the node [Null] where a node is expected;
    - the parser object is the record [Parser]; a method is a function in the
      monad [M], which threads the parser and keeps the mutations made so far
      when an exception is thrown (as a mutated JavaScript object does);
    - a Number is an IEEE 754 binary64: [parseInt] and [parseFloat] round
      the decimal literal to the nearest one (ties to even), computed with
      the Standard Library's [SpecFloat];
    - [new RegExp] belongs to the JavaScript engine, which is a parameter of
      the grammar (the class [Engine]): the properties hold for every
      engine, and the examples run on [example_engine];
    - recursion and [while] loops take a [fuel] argument; running out of it
      is the outcome [OutOfFuel], which is not an exception. *)

From Stdlib Require Import String Ascii List ZArith Bool Arith Lia.
From Stdlib Require Import SpecFloat.
Import ListNotations.
Open Scope string_scope.
Open Scope list_scope.

(** ** JavaScript strings *)

(** The characters of the regular expression class [\s] below code 256. *)
Definition is_space (c : ascii) : bool :=
  match nat_of_ascii c with
  | 9 | 10 | 11 | 12 | 13 | 32 | 160 => true
  | _ => false
  end.

(** [s.charAt(i)]: the one-character string at index [i], the empty string
    when [i] is out of range. *)
Definition charAt (s : string) (i : Z) : string :=
  if (i <? 0)%Z then ""
  else match String.get (Z.to_nat i) s with
       | Some c => String c ""
       | None => ""
       end.

Definition strlen (s : string) : Z := Z.of_nat (String.length s).

(** [s.replace(/^\s*/, '')]. *)
Fixpoint trim_leading (s : string) : string :=
  match s with
  | String c r => if is_space c then trim_leading r else s
  | EmptyString => EmptyString
  end.

Fixpoint all_space (s : string) : bool :=
  match s with
  | String c r => is_space c && all_space r
  | EmptyString => true
  end.

(** [s.replace(/\s*$/, '')]: the first (leftmost) match of [\s*$] is the
    maximal run of whitespace that ends the string. *)
Fixpoint trim_trailing (s : string) : string :=
  match s with
  | String c r => if all_space s then EmptyString else String c (trim_trailing r)
  | EmptyString => EmptyString
  end.

(** ** Tokens (the lexer's output) *)

(** Modelled from the spec: the token types of lexer.js, which is not among
    the sources; the parser only compares them and prints them. *)
Inductive token_type :=
| TOKEN_STRING | TOKEN_WHITESPACE | TOKEN_DATA
| TOKEN_BLOCK_START | TOKEN_BLOCK_END
| TOKEN_VARIABLE_START | TOKEN_VARIABLE_END
| TOKEN_COMMENT
| TOKEN_LEFT_PAREN | TOKEN_RIGHT_PAREN
| TOKEN_LEFT_BRACKET | TOKEN_RIGHT_BRACKET
| TOKEN_LEFT_CURLY | TOKEN_RIGHT_CURLY
| TOKEN_OPERATOR | TOKEN_COMMA | TOKEN_COLON | TOKEN_TILDE | TOKEN_PIPE
| TOKEN_INT | TOKEN_FLOAT | TOKEN_BOOLEAN | TOKEN_NONE
| TOKEN_SYMBOL | TOKEN_REGEX.

Definition token_type_eq_dec (a b : token_type) : {a = b} + {a <> b}.
Proof. decide equality. Defined.

(** [a === b] on token types. *)
Definition type_is (a b : token_type) : bool :=
  if token_type_eq_dec a b then true else false.

(** The value a token carries: a string, or for a [TOKEN_REGEX] the object
    [{body, flags}]. *)
Inductive tokval :=
| TStr (s : string)
| TRegex (body flags : string).

Record token := mkToken {
  tok_type : token_type;
  tok_value : tokval;
  tok_lineno : nat;
  tok_colno : nat
}.

(** [v === s] for a string [s]: an object is never equal to a string. *)
Definition value_is (v : tokval) (s : string) : bool :=
  match v with
  | TStr s' => String.eqb s' s
  | TRegex _ _ => false
  end.

(** [v === w] on token values; two regex objects are taken to be distinct
    objects. *)
Definition tokval_eqb (v w : tokval) : bool :=
  match w with
  | TStr s => value_is v s
  | TRegex _ _ => false
  end.

(** ['' + v]. *)
Definition to_string (v : tokval) : string :=
  match v with
  | TStr s => s
  | TRegex _ _ => "[object Object]"
  end.

(** [!v] is false exactly for the values below. *)
Definition truthy (v : tokval) : bool :=
  match v with
  | TStr EmptyString => false
  | _ => true
  end.

(** [lib.indexOf(arr, v) !== -1]. *)
Definition indexOf_found (arr : list string) (v : tokval) : bool :=
  existsb (value_is v) arr.

(** The delimiters the lexer was configured with ([this.tokens.tags]). *)
Record lexer_tags := mkTags {
  VARIABLE_START : string;
  VARIABLE_END : string;
  COMMENT_START : string;
  COMMENT_END : string
}.

(** A match of the raw-block regular expression: [matches[0..2]]. *)
Record raw_match := mkRawMatch {
  m_all : string;
  m_pre : string;
  m_blockName : string
}.

(** The token source [this.tokens]. lexer.js is not among the sources: the
    state of the lexer is represented by the tokens it has still to deliver,
    and its two character-level methods used by [parseRaw] are carried as
    functions on that state ([_extractRegex] is given the tag name the
    regular expression is built from). *)
Record tokenizer := mkTokenizer {
  stream : list token;
  tags : lexer_tags;
  _extractRegex : string -> list token -> option raw_match * list token;
  backN : Z -> list token -> list token
}.

Definition set_stream (ts : list token) (l : tokenizer) : tokenizer :=
  mkTokenizer ts (tags l) (_extractRegex l) (backN l).

(** [this.tokens.nextToken()]: the next token, [null] at the end. *)
Definition lex_nextToken (l : tokenizer) : option token * tokenizer :=
  match stream l with
  | [] => (None, l)
  | t :: r => (Some t, set_stream r l)
  end.

(** ** Values of literals *)

(** A Number is an IEEE 754 binary64. The finite integral ones are [VNum z]
    (but [-0], which is [VNegZero]); a finite number that is no integer is
    [VFloat neg m e], the number [m * 2^e] for an odd [m] and [e < 0],
    negated when [neg]. *)
Inductive jsval :=
| VStr (s : string)
| VObj (body flags : string)     (* a regex token's value used as it is *)
| VNum (z : Z)
| VNegZero
| VFloat (neg : bool) (m : positive) (e : Z)
| VInfinity (neg : bool)
| VNaN
| VBool (b : bool)
| VNull
| VRegExp (body flags : string). (* [new RegExp(body, flags)] *)

Definition of_tokval (v : tokval) : jsval :=
  match v with
  | TStr s => VStr s
  | TRegex b f => VObj b f
  end.

(** [m] without its factors 2, as far as [n] of them. *)
Fixpoint odd_part (m : positive) (n : nat) : positive * nat :=
  match n, m with
  | S n', xO m' => odd_part m' n'
  | _, _ => (m, n)
  end.

Definition of_binary64 (x : spec_float) : jsval :=
  match x with
  | S754_zero false => VNum 0
  | S754_zero true => VNegZero
  | S754_infinity neg => VInfinity neg
  | S754_nan => VNaN
  | S754_finite neg m e =>
      let signed := fun z : Z => if neg then (- z)%Z else z in
      if (0 <=? e)%Z then VNum (signed (Z.pos m * 2 ^ e)%Z)
      else
        let (m', n') := odd_part m (Z.to_nat (- e)) in
        match n' with
        | O => VNum (signed (Z.pos m'))
        | S _ => VFloat neg m' (- Z.of_nat n')
        end
  end.

(** The Number nearest to [n * 10^e10] (ties to even), negated when
    [neg]: the Number value of a decimal literal. *)
Definition decimal (neg : bool) (n : Z) (e10 : Z) : jsval :=
  if (0 <=? e10)%Z
  then of_binary64
         (binary_normalize 53 1024
            (if neg then (- (n * 10 ^ e10))%Z else (n * 10 ^ e10)%Z) 0 neg)
  else of_binary64
         (SFdiv 53 1024
            (match n with
             | Zpos m => S754_finite neg m 0
             | _ => S754_zero neg
             end)
            (S754_finite false (Z.to_pos (10 ^ (- e10))) 0)).

Definition is_digit (c : ascii) : bool :=
  let n := nat_of_ascii c in ((48 <=? n) && (n <=? 57))%nat.

Definition digit_val (c : ascii) : Z := Z.of_nat (nat_of_ascii c - 48).

(** The decimal digits that [s] begins with: their value after the digits
    of [acc], how many they are, and what follows them. *)
Fixpoint digit_run (s : string) (acc : Z) (count : nat)
  : Z * nat * string :=
  match s with
  | String c r =>
      if is_digit c then digit_run r (10 * acc + digit_val c)%Z (S count)
      else (acc, count, s)
  | EmptyString => (acc, count, s)
  end.

(** An optional sign. *)
Definition signed_rest (s : string) : bool * string :=
  match s with
  | String "-"%char r => (true, r)
  | String "+"%char r => (false, r)
  | _ => (false, s)
  end.

(** [parseInt(s, 10)]: leading whitespace, an optional sign, the longest
    run of decimal digits, as the nearest Number; NaN without a digit. *)
Definition parseInt10 (s : string) : jsval :=
  let (neg, r) := signed_rest (trim_leading s) in
  let '(n, count, _) := digit_run r 0 0 in
  match count with
  | O => VNaN
  | S _ => decimal neg n 0
  end.

(** [parseInt(v, 10)]; an object is read as ['[object Object]']. *)
Definition js_parseInt (v : tokval) : jsval :=
  match v with
  | TStr s => parseInt10 s
  | TRegex _ _ => VNaN
  end.

(** The exponent part that [s] begins with: [e] or [E], an optional sign,
    digits; 0 when there is none. *)
Definition exponent_part (s : string) : Z :=
  match s with
  | String c r =>
      if (Ascii.eqb c "e" || Ascii.eqb c "E")%bool
      then let (neg, r') := signed_rest r in
           let '(n, count, _) := digit_run r' 0 0 in
           match count with
           | O => 0%Z
           | S _ => if neg then (- n)%Z else n
           end
      else 0%Z
  | EmptyString => 0%Z
  end.

(** [parseFloat(s)]: leading whitespace, then the longest prefix that is a
    decimal literal (a sign, [Infinity] or digits with an optional fraction
    and exponent), as the nearest Number; NaN when there is none. *)
Definition parseFloat_string (s : string) : jsval :=
  let (neg, r) := signed_rest (trim_leading s) in
  if String.prefix "Infinity" r then VInfinity neg
  else
    let '(ip, ni, r1) := digit_run r 0 0 in
    let '(n, nf, r2) :=
      match r1 with
      | String "."%char r' => digit_run r' ip 0
      | _ => (ip, O, r1)
      end in
    match (ni + nf)%nat with
    | O => VNaN
    | S _ => decimal neg n (exponent_part r2 - Z.of_nat nf)
    end.

Definition js_parseFloat (v : tokval) : jsval :=
  match v with
  | TStr s => parseFloat_string s
  | TRegex _ _ => VNaN
  end.

(** ** The engine

    [new RegExp(body, flags)] is the engine's: it returns the object, or
    throws a [SyntaxError] when the flags or the pattern are not
    well-formed. [regexp_syntax_error body flags] is the message of that
    error, if there is one. *)
Class Engine := {
  regexp_syntax_error : string -> string -> option string
}.

(** [new RegExp(v.body, v.flags)]: the message of the [SyntaxError], or the
    object. Both properties are [undefined] on a string, which gives the
    empty pattern. *)
Definition js_RegExp {engine : Engine} (v : tokval) : string + jsval :=
  match v with
  | TRegex b f =>
      match regexp_syntax_error b f with
      | Some msg => inl msg
      | None => inr (VRegExp b f)
      end
  | TStr _ => inr (VRegExp "(?:)" "")
  end.

(** The engine of the examples: it checks the flags of a regular expression
    as ECMAScript does (each of [d], [g], [i], [m], [s], [u], [v], [y] at
    most once, [u] and [v] not together) and takes every pattern; no
    pattern of the examples is malformed. *)
Fixpoint regexp_flags_ok (flags : string) (seen : list ascii) : bool :=
  match flags with
  | String c r =>
      existsb (Ascii.eqb c)
        ["d"; "g"; "i"; "m"; "s"; "u"; "v"; "y"]%char
      && negb (existsb (Ascii.eqb c) seen)
      && negb (Ascii.eqb c "u" && existsb (Ascii.eqb "v"%char) seen)
      && negb (Ascii.eqb c "v" && existsb (Ascii.eqb "u"%char) seen)
      && regexp_flags_ok r (c :: seen)
  | EmptyString => true
  end.

Definition example_engine : Engine := {|
  regexp_syntax_error _ flags :=
    if regexp_flags_ok flags [] then None
    else Some ("Invalid flags supplied to RegExp constructor '"
               ++ flags ++ "'")%string
|}.

(** ** AST nodes (nodes.js) *)

(** One constructor for each class of nodes.js that the parser builds, with
    the fields of the class in their order there; [Set_] is the class [Set],
    and [Null] stands for [null] and [undefined]. *)

#[local] Set Warnings "-register-all".


Definition pos := option nat.

Inductive node :=
| Null
| Root (lineno colno : pos) (children : list node)
| NodeList (lineno colno : pos) (children : list node)
| Output (lineno colno : pos) (children : list node)
| TemplateData (lineno colno : pos) (value : tokval)
| Literal (lineno colno : pos) (value : jsval)
| Symbol (lineno colno : pos) (value : tokval)
| Group (lineno colno : pos) (children : list node)
| Array (lineno colno : pos) (children : list node)
| Dict (lineno colno : pos) (children : list node)
| Pair (lineno colno : pos) (key value : node)
| KeywordArgs (lineno colno : pos) (children : list node)
| FunCall (lineno colno : pos) (name args : node)
| Filter (lineno colno : pos) (name args : node)
| LookupVal (lineno colno : pos) (target val : node)
| If (lineno colno : pos) (cond body else_ : node)
| IfAsync (lineno colno : pos) (cond body else_ : node)
| InlineIf (lineno colno : pos) (cond body else_ : node)
| For (lineno colno : pos) (arr name body else_ : node)
| AsyncEach (lineno colno : pos) (arr name body else_ : node)
| AsyncAll (lineno colno : pos) (arr name body else_ : node)
| Macro (lineno colno : pos) (name args body : node)
| Caller (lineno colno : pos) (name args body : node)
| Import (lineno colno : pos) (template target : node)
         (withContext : option bool)
| FromImport (lineno colno : pos) (template names : node)
             (withContext : option bool)
| Block (lineno colno : pos) (name body : node)
| Extends (lineno colno : pos) (template : node)
| Include (lineno colno : pos) (template : node) (ignoreMissing : bool)
| Set_ (lineno colno : pos) (targets : list node) (value body : node)
| Capture (lineno colno : pos) (body : node)
| Compare (lineno colno : pos) (expr : node) (ops : list node)
| CompareOperand (lineno colno : pos) (expr : node) (type : tokval)
| Or (lineno colno : pos) (left right : node)
| And (lineno colno : pos) (left right : node)
| In (lineno colno : pos) (left right : node)
| Concat (lineno colno : pos) (left right : node)
| Add (lineno colno : pos) (left right : node)
| Sub (lineno colno : pos) (left right : node)
| Mul (lineno colno : pos) (left right : node)
| Div (lineno colno : pos) (left right : node)
| FloorDiv (lineno colno : pos) (left right : node)
| Mod (lineno colno : pos) (left right : node)
| Pow (lineno colno : pos) (left right : node)
| Not (lineno colno : pos) (target : node)
| Neg (lineno colno : pos) (target : node)
| Pos (lineno colno : pos) (target : node).

(** [n.lineno] and [n.colno]. The parser reads them from the nodes that
    [parsePrimary], [parseExpression] and [parseFilterName] return and from
    nodes it has just built; none of them is [Null] (see
    [parseExpression_not_null] and [parsePrimary_not_null] below). *)
Definition lineno (n : node) : pos :=
  match n with
  | Null => None
  | Root l _ _ | NodeList l _ _ | Output l _ _ | TemplateData l _ _
  | Literal l _ _ | Symbol l _ _ | Group l _ _ | Array l _ _ | Dict l _ _
  | Pair l _ _ _ | KeywordArgs l _ _ | FunCall l _ _ _ | Filter l _ _ _
  | LookupVal l _ _ _ | If l _ _ _ _ | IfAsync l _ _ _ _
  | InlineIf l _ _ _ _ | For l _ _ _ _ _ | AsyncEach l _ _ _ _ _
  | AsyncAll l _ _ _ _ _ | Macro l _ _ _ _ | Caller l _ _ _ _
  | Import l _ _ _ _ | FromImport l _ _ _ _ | Block l _ _ _
  | Extends l _ _ | Include l _ _ _ | Set_ l _ _ _ _ | Capture l _ _
  | Compare l _ _ _ | CompareOperand l _ _ _ | Or l _ _ _ | And l _ _ _
  | In l _ _ _ | Concat l _ _ _ | Add l _ _ _ | Sub l _ _ _ | Mul l _ _ _
  | Div l _ _ _ | FloorDiv l _ _ _ | Mod l _ _ _ | Pow l _ _ _
  | Not l _ _ | Neg l _ _ | Pos l _ _ => l
  end.

Definition colno (n : node) : pos :=
  match n with
  | Null => None
  | Root _ c _ | NodeList _ c _ | Output _ c _ | TemplateData _ c _
  | Literal _ c _ | Symbol _ c _ | Group _ c _ | Array _ c _ | Dict _ c _
  | Pair _ c _ _ | KeywordArgs _ c _ | FunCall _ c _ _ | Filter _ c _ _
  | LookupVal _ c _ _ | If _ c _ _ _ | IfAsync _ c _ _ _
  | InlineIf _ c _ _ _ | For _ c _ _ _ _ | AsyncEach _ c _ _ _ _
  | AsyncAll _ c _ _ _ _ | Macro _ c _ _ _ | Caller _ c _ _ _
  | Import _ c _ _ _ | FromImport _ c _ _ _ | Block _ c _ _
  | Extends _ c _ | Include _ c _ _ | Set_ _ c _ _ _ | Capture _ c _
  | Compare _ c _ _ | CompareOperand _ c _ _ | Or _ c _ _ | And _ c _ _
  | In _ c _ _ | Concat _ c _ _ | Add _ c _ _ | Sub _ c _ _ | Mul _ c _ _
  | Div _ c _ _ | FloorDiv _ c _ _ | Mod _ c _ _ | Pow _ c _ _
  | Not _ c _ | Neg _ c _ | Pos _ c _ => c
  end.

(** [!n]. *)
Definition is_null (n : node) : bool :=
  match n with Null => true | _ => false end.

(** [n instanceof nodes.Symbol]. *)
Definition is_Symbol (n : node) : bool :=
  match n with Symbol _ _ _ => true | _ => false end.

(** [n instanceof nodes.KeywordArgs]. *)
Definition is_KeywordArgs (n : node) : bool :=
  match n with KeywordArgs _ _ _ => true | _ => false end.

(** [n.children], for the nodes that have the field. *)
Definition children_of (n : node) : option (list node) :=
  match n with
  | Root _ _ ch | NodeList _ _ ch | Output _ _ ch | Group _ _ ch
  | Array _ _ ch | Dict _ _ ch | KeywordArgs _ _ ch => Some ch
  | _ => None
  end.

(** [n.value] when it is a string: the only case in which
    [n.value.charAt] can be called. *)
Definition value_string (n : node) : option string :=
  match n with
  | Symbol _ _ (TStr s) => Some s
  | Literal _ _ (VStr s) => Some s
  | TemplateData _ _ (TStr s) => Some s
  | _ => None
  end.

(** ** The parser object and the monad of its methods *)

Record Parser := mkParser {
  tokens : tokenizer;
  peeked : option token;
  breakOnBlocks : option (list string);
  dropLeadingWhitespace : bool
}.

(** [new Parser(tokens)]. *)
Definition init (tokens : tokenizer) : Parser :=
  mkParser tokens None None false.

Definition set_tokens (l : tokenizer) (p : Parser) : Parser :=
  mkParser l (peeked p) (breakOnBlocks p) (dropLeadingWhitespace p).

Definition set_peeked (t : option token) (p : Parser) : Parser :=
  mkParser (tokens p) t (breakOnBlocks p) (dropLeadingWhitespace p).

Definition set_breakOnBlocks (b : option (list string)) (p : Parser) : Parser :=
  mkParser (tokens p) (peeked p) b (dropLeadingWhitespace p).

Definition set_dropLeadingWhitespace (b : bool) (p : Parser) : Parser :=
  mkParser (tokens p) (peeked p) (breakOnBlocks p) b.

(** What a method can throw: [lib.TemplateError(msg, lineno, colno)], a plain
    [Error(msg)], the [TypeError] of the engine when a property of [null] or
    [undefined] is read or a non-function is called, and the [SyntaxError]
    of [new RegExp]. *)
Inductive exn :=
| TemplateError (msg : string) (lineno colno : pos)
| Error (msg : string)
| TypeError (msg : string)
| SyntaxError (msg : string).

Inductive outcome (A : Type) :=
| Ret (a : A)
| Throw (e : exn)
| OutOfFuel.

Arguments Ret {A} a.
Arguments Throw {A} e.
Arguments OutOfFuel {A}.

Definition M (A : Type) : Type := Parser -> outcome A * Parser.

Definition ret {A} (a : A) : M A := fun p => (Ret a, p).

Definition throw {A} (e : exn) : M A := fun p => (Throw e, p).

Definition out_of_fuel {A} : M A := fun p => (OutOfFuel, p).

Definition bind {A B} (m : M A) (k : A -> M B) : M B :=
  fun p =>
    match m p with
    | (Ret a, p') => k a p'
    | (Throw e, p') => (Throw e, p')
    | (OutOfFuel, p') => (OutOfFuel, p')
    end.

Definition get {A} (f : Parser -> A) : M A := fun p => (Ret (f p), p).

Definition modify (f : Parser -> Parser) : M unit := fun p => (Ret tt, f p).

Declare Scope parser_scope.
Delimit Scope parser_scope with parser.
Notation "x <- m ;; k" := (bind m (fun x => k))
  (at level 61, m at next level, right associativity) : parser_scope.
Notation "m ;; k" := (bind m (fun _ => k))
  (at level 61, right associativity) : parser_scope.
Open Scope parser_scope.

(** Reading a property of a token that may be [null]. *)
Definition deref (tok : option token) : M token :=
  match tok with
  | Some t => ret t
  | None => throw (TypeError "Cannot read properties of null")
  end.

Definition lineno_of (tok : token) : pos := Some (tok_lineno tok).
Definition colno_of (tok : token) : pos := Some (tok_colno tok).

(** ** The token cursor *)

Definition is_whitespace (tok : token) : bool :=
  type_is (tok_type tok) TOKEN_WHITESPACE.

(** [while(tok && tok.type === lexer.TOKEN_WHITESPACE) tok = this.tokens.nextToken();]
    for a lexer that has [ts] still to deliver. *)
Fixpoint skip_whitespace (tok : option token) (ts : list token) {struct ts}
  : option token * list token :=
  match tok with
  | Some t =>
      if is_whitespace t
      then match ts with
           | [] => (None, [])
           | t' :: r => skip_whitespace (Some t') r
           end
      else (tok, ts)
  | None => (None, ts)
  end.

(** The part of [nextToken] that reads the lexer. *)
Definition readToken (withWhitespace : bool) : M (option token) :=
  fun p =>
    let (tok, l) := lex_nextToken (tokens p) in
    if withWhitespace then (Ret tok, set_tokens l p)
    else let (tok', ts) := skip_whitespace tok (stream l) in
         (Ret tok', set_tokens (set_stream ts l) p).

Definition nextToken (withWhitespace : bool) : M (option token) :=
  fun p =>
    match peeked p with
    | Some tok =>
        if negb withWhitespace && is_whitespace tok
        then readToken withWhitespace (set_peeked None p)
        else (Ret (Some tok), set_peeked None p)
    | None => readToken withWhitespace p
    end.

Definition peekToken : M (option token) :=
  fun p =>
    match peeked p with
    | Some tok => (Ret (Some tok), p)
    | None =>
        (tok <- nextToken false ;;
         modify (set_peeked tok) ;;
         ret tok) p
    end.

Definition pushToken (tok : option token) : M unit :=
  fun p =>
    match peeked p with
    | Some _ =>
        (Throw (Error "pushToken: can only push one token on between reads"), p)
    | None => (Ret tt, set_peeked tok p)
    end.

Definition succ_pos (x : pos) : pos := option_map S x.

Definition is_undefined (x : pos) : bool :=
  match x with None => true | Some _ => false end.

Definition fail {A} (msg : string) (lineno colno : pos) : M A :=
  lc <- (if is_undefined lineno || is_undefined colno
         then t <- peekToken ;;
              match t with
              | Some _ =>
                  tok <- peekToken ;;
                  tok <- deref tok ;;
                  ret (lineno_of tok, colno_of tok)
              | None => ret (lineno, colno)
              end
         else ret (lineno, colno)) ;;
  throw (TemplateError msg (succ_pos (fst lc)) (succ_pos (snd lc))).

Definition skip (type : token_type) : M bool :=
  tok <- nextToken false ;;
  match tok with
  | Some t =>
      if type_is (tok_type t) type then ret true
      else pushToken tok ;; ret false
  | None => pushToken tok ;; ret false
  end.

Definition skipValue (type : token_type) (val : tokval) : M bool :=
  tok <- nextToken false ;;
  match tok with
  | Some t =>
      if type_is (tok_type t) type && tokval_eqb (tok_value t) val then ret true
      else pushToken tok ;; ret false
  | None => pushToken tok ;; ret false
  end.

Definition skipSymbol (val : tokval) : M bool :=
  skipValue TOKEN_SYMBOL val.

(** [tok.value.charAt(i) === '-']; calling [charAt] on a regex object is a
    [TypeError]. *)
Definition value_charAt_is_dash (v : tokval) (i : Z) : M bool :=
  match v with
  | TStr s => ret (String.eqb (charAt s i) "-")
  | TRegex _ _ => throw (TypeError "tok.value.charAt is not a function")
  end.

Definition value_length (v : tokval) : Z :=
  match v with
  | TStr s => strlen s
  | TRegex _ _ => 0
  end.

Definition name_is_falsy (name : option tokval) : bool :=
  match name with
  | None => true
  | Some v => negb (truthy v)
  end.

Definition name_text (name : option tokval) : string :=
  match name with
  | None => "undefined"
  | Some v => to_string v
  end.

Definition advanceAfterBlockEnd (name : option tokval) : M token :=
  name <- (if name_is_falsy name
           then tok <- peekToken ;;
                match tok with
                | None => fail "unexpected end of file" None None
                | Some t =>
                    (if negb (type_is (tok_type t) TOKEN_SYMBOL)
                     then fail ("advanceAfterBlockEnd: expected symbol token or "
                                ++ "explicit name to be passed") None None
                     else ret tt) ;;
                    nt <- nextToken false ;;
                    nt <- deref nt ;;
                    ret (Some (tok_value nt))
                end
           else ret name) ;;
  tok <- nextToken false ;;
  match tok with
  | Some t =>
      if type_is (tok_type t) TOKEN_BLOCK_END
      then dash <- value_charAt_is_dash (tok_value t) 0 ;;
           (if dash then modify (set_dropLeadingWhitespace true) else ret tt) ;;
           ret t
      else fail ("expected block end in " ++ name_text name ++ " statement")
             None None
  | None =>
      fail ("expected block end in " ++ name_text name ++ " statement")
        None None
  end.

Definition advanceAfterVariableEnd : M unit :=
  tok <- nextToken false ;;
  match tok with
  | Some t =>
      if type_is (tok_type t) TOKEN_VARIABLE_END
      then tg <- get (fun p => tags (tokens p)) ;;
           dash <- value_charAt_is_dash (tok_value t)
                     (value_length (tok_value t)
                      - strlen (VARIABLE_END tg) - 1) ;;
           modify (set_dropLeadingWhitespace dash)
      else pushToken tok ;; fail "expected variable end" None None
  | None => pushToken tok ;; fail "expected variable end" None None
  end.

(** ** The grammar

    [type_name] gives the string that lexer.js uses for a token type; the
    parser prints it in the message of [expect] and of the top-level
    driver. The grammar and what is proved of it below hold for every
    engine. *)

Section WithEngine.

Context {engine : Engine}.

Section Grammar.

Variable type_name : token_type -> string.

Definition expect (type : token_type) : M token :=
  tok <- nextToken false ;;
  tok <- deref tok ;;
  if negb (type_is (tok_type tok) type)
  then fail ("expected " ++ type_name type ++ ", got "
             ++ type_name (tok_type tok))
         (lineno_of tok) (colno_of tok)
  else ret tok.

(** The loop shared by the left-associative binary levels:
    [while(skipOp()) { node2 = operand(); node = new mk(node.lineno, node.colno, node, node2); }
     return node;] *)
Fixpoint binop_loop (fuel : nat) (skipOp : M bool) (operand : M node)
  (mk : pos -> pos -> node -> node -> node) (nd : node) : M node :=
  match fuel with
  | O => out_of_fuel
  | S n =>
      b <- skipOp ;;
      if b
      then nd2 <- operand ;;
           binop_loop n skipOp operand mk (mk (lineno nd) (colno nd) nd nd2)
      else ret nd
  end.

Fixpoint parseFilterName_loop (fuel : nat) (name : tokval) : M tokval :=
  match fuel with
  | O => out_of_fuel
  | S n =>
      b <- skipValue TOKEN_OPERATOR (TStr ".") ;;
      if b
      then tok <- expect TOKEN_SYMBOL ;;
           parseFilterName_loop n
             (TStr (to_string name ++ "." ++ to_string (tok_value tok)))
      else ret name
  end.

Definition parseFilterName (fuel : nat) : M node :=
  tok <- expect TOKEN_SYMBOL ;;
  name <- parseFilterName_loop fuel (tok_value tok) ;;
  ret (Symbol (lineno_of tok) (colno_of tok) name).

Definition compareOps : list string :=
  ["=="; "==="; "!="; "!=="; "<"; ">"; "<="; ">="].

(** The node class an opening delimiter starts, and whether it is a [Dict]. *)
Definition aggregate_of (type : token_type)
  : option ((pos -> pos -> list node -> node) * bool) :=
  match type with
  | TOKEN_LEFT_PAREN => Some (Group, false)
  | TOKEN_LEFT_BRACKET => Some (Array, false)
  | TOKEN_LEFT_CURLY => Some (Dict, true)
  | _ => None
  end.

Definition is_closing (type : token_type) : bool :=
  type_is type TOKEN_RIGHT_PAREN || type_is type TOKEN_RIGHT_BRACKET
  || type_is type TOKEN_RIGHT_CURLY.

(** [n.args], for the nodes that have the field. *)
Definition args_of (n : node) : option node :=
  match n with
  | FunCall _ _ _ args | Filter _ _ _ args | Macro _ _ _ args _
  | Caller _ _ _ args _ => Some args
  | _ => None
  end.

(** [n.args.children]. *)
Definition args_children (n : node) : M (list node) :=
  match args_of n with
  | Some args =>
      match children_of args with
      | Some ch => ret ch
      | None => throw (TypeError "Cannot read properties of undefined")
      end
  | None => throw (TypeError "Cannot read properties of undefined")
  end.

(** The literal value of the token [parsePrimary] starts with: [val], or
    [None] when [val] stays [undefined]. *)
Definition literal_value (tok : token) : M (option jsval) :=
  match tok_type tok with
  | TOKEN_STRING => ret (Some (of_tokval (tok_value tok)))
  | TOKEN_INT => ret (Some (js_parseInt (tok_value tok)))
  | TOKEN_FLOAT => ret (Some (js_parseFloat (tok_value tok)))
  | TOKEN_BOOLEAN =>
      if value_is (tok_value tok) "true" then ret (Some (VBool true))
      else if value_is (tok_value tok) "false" then ret (Some (VBool false))
      else fail ("invalid boolean: " ++ to_string (tok_value tok))
             (lineno_of tok) (colno_of tok)
  | TOKEN_NONE => ret (Some VNull)
  | TOKEN_REGEX =>
      match js_RegExp (tok_value tok) with
      | inl msg => throw (SyntaxError msg)
      | inr re => ret (Some re)
      end
  | _ => ret None
  end.

Fixpoint parseExpression (fuel : nat) {struct fuel} : M node :=
  match fuel with
  | O => out_of_fuel
  | S n => parseInlineIf n
  end

with parseInlineIf (fuel : nat) {struct fuel} : M node :=
  match fuel with
  | O => out_of_fuel
  | S n =>
      nd <- parseOr n ;;
      b <- skipSymbol (TStr "if") ;;
      if b
      then cond_node <- parseOr n ;;
           e <- skipSymbol (TStr "else") ;;
           if e
           then else_ <- parseOr n ;;
                ret (InlineIf (lineno nd) (colno nd) cond_node nd else_)
           else ret (InlineIf (lineno nd) (colno nd) cond_node nd Null)
      else ret nd
  end

with parseOr (fuel : nat) {struct fuel} : M node :=
  match fuel with
  | O => out_of_fuel
  | S n =>
      nd <- parseAnd n ;;
      binop_loop n (skipSymbol (TStr "or")) (parseAnd n) Or nd
  end

with parseAnd (fuel : nat) {struct fuel} : M node :=
  match fuel with
  | O => out_of_fuel
  | S n =>
      nd <- parseNot n ;;
      binop_loop n (skipSymbol (TStr "and")) (parseNot n) And nd
  end

with parseNot (fuel : nat) {struct fuel} : M node :=
  match fuel with
  | O => out_of_fuel
  | S n =>
      tok <- peekToken ;;
      b <- skipSymbol (TStr "not") ;;
      if b
      then tok <- deref tok ;;
           target <- parseNot n ;;
           ret (Not (lineno_of tok) (colno_of tok) target)
      else parseIn n
  end

with parseIn (fuel : nat) {struct fuel} : M node :=
  match fuel with
  | O => out_of_fuel
  | S n => nd <- parseCompare n ;; parseIn_loop n nd
  end

with parseIn_loop (fuel : nat) (nd : node) {struct fuel} : M node :=
  match fuel with
  | O => out_of_fuel
  | S n =>
      tok <- nextToken false ;;
      match tok with
      | None => ret nd
      | Some t =>
          let invert :=
            type_is (tok_type t) TOKEN_SYMBOL && value_is (tok_value t) "not" in
          (if negb invert then pushToken tok else ret tt) ;;
          b <- skipSymbol (TStr "in") ;;
          if b
          then nd2 <- parseCompare n ;;
               let nd' := In (lineno nd) (colno nd) nd nd2 in
               parseIn_loop n
                 (if invert then Not (lineno nd') (colno nd') nd' else nd')
          else (if invert then pushToken tok else ret tt) ;;
               ret nd
      end
  end

with parseCompare (fuel : nat) {struct fuel} : M node :=
  match fuel with
  | O => out_of_fuel
  | S n =>
      expr <- parseConcat n ;;
      ops <- parseCompare_loop n [] ;;
      match ops with
      | op0 :: _ => ret (Compare (lineno op0) (colno op0) expr ops)
      | [] => ret expr
      end
  end

with parseCompare_loop (fuel : nat) (ops : list node) {struct fuel} : M (list node) :=
  match fuel with
  | O => out_of_fuel
  | S n =>
      tok <- nextToken false ;;
      match tok with
      | None => ret ops
      | Some t =>
          if indexOf_found compareOps (tok_value t)
          then expr <- parseConcat n ;;
               parseCompare_loop n
                 (ops ++ [CompareOperand (lineno_of t) (colno_of t) expr
                            (tok_value t)])
          else pushToken tok ;; ret ops
      end
  end

with parseConcat (fuel : nat) {struct fuel} : M node :=
  match fuel with
  | O => out_of_fuel
  | S n =>
      nd <- parseAdd n ;;
      binop_loop n (skipValue TOKEN_TILDE (TStr "~")) (parseAdd n) Concat nd
  end

with parseAdd (fuel : nat) {struct fuel} : M node :=
  match fuel with
  | O => out_of_fuel
  | S n =>
      nd <- parseSub n ;;
      binop_loop n (skipValue TOKEN_OPERATOR (TStr "+")) (parseSub n) Add nd
  end

with parseSub (fuel : nat) {struct fuel} : M node :=
  match fuel with
  | O => out_of_fuel
  | S n =>
      nd <- parseMul n ;;
      binop_loop n (skipValue TOKEN_OPERATOR (TStr "-")) (parseMul n) Sub nd
  end

with parseMul (fuel : nat) {struct fuel} : M node :=
  match fuel with
  | O => out_of_fuel
  | S n =>
      nd <- parseDiv n ;;
      binop_loop n (skipValue TOKEN_OPERATOR (TStr "*")) (parseDiv n) Mul nd
  end

with parseDiv (fuel : nat) {struct fuel} : M node :=
  match fuel with
  | O => out_of_fuel
  | S n =>
      nd <- parseFloorDiv n ;;
      binop_loop n (skipValue TOKEN_OPERATOR (TStr "/")) (parseFloorDiv n)
        Div nd
  end

with parseFloorDiv (fuel : nat) {struct fuel} : M node :=
  match fuel with
  | O => out_of_fuel
  | S n =>
      nd <- parseMod n ;;
      binop_loop n (skipValue TOKEN_OPERATOR (TStr "//")) (parseMod n)
        FloorDiv nd
  end

with parseMod (fuel : nat) {struct fuel} : M node :=
  match fuel with
  | O => out_of_fuel
  | S n =>
      nd <- parsePow n ;;
      binop_loop n (skipValue TOKEN_OPERATOR (TStr "%")) (parsePow n) Mod nd
  end

with parsePow (fuel : nat) {struct fuel} : M node :=
  match fuel with
  | O => out_of_fuel
  | S n =>
      nd <- parseUnary n false ;;
      binop_loop n (skipValue TOKEN_OPERATOR (TStr "**")) (parseUnary n false)
        Pow nd
  end

with parseUnary (fuel : nat) (noFilters : bool) {struct fuel} : M node :=
  match fuel with
  | O => out_of_fuel
  | S n =>
      tok <- peekToken ;;
      nd <- (neg <- skipValue TOKEN_OPERATOR (TStr "-") ;;
             if neg
             then tok <- deref tok ;;
                  target <- parseUnary n true ;;
                  ret (Neg (lineno_of tok) (colno_of tok) target)
             else
               pos <- skipValue TOKEN_OPERATOR (TStr "+") ;;
               if pos
               then tok <- deref tok ;;
                    target <- parseUnary n true ;;
                    ret (Pos (lineno_of tok) (colno_of tok) target)
               else parsePrimary n false) ;;
      if negb noFilters then parseFilter n nd else ret nd
  end

with parsePrimary (fuel : nat) (noPostfix : bool) {struct fuel} : M node :=
  match fuel with
  | O => out_of_fuel
  | S n =>
      tok <- nextToken false ;;
      match tok with
      | None => fail "expected expression, got end of file" None None
      | Some t =>
          val <- literal_value t ;;
          nd <- match val with
                | Some v => ret (Literal (lineno_of t) (colno_of t) v)
                | None =>
                    if type_is (tok_type t) TOKEN_SYMBOL
                    then ret (Symbol (lineno_of t) (colno_of t) (tok_value t))
                    else pushToken tok ;; parseAggregate n
                end ;;
          nd <- (if negb noPostfix then parsePostfix n nd else ret nd) ;;
          if negb (is_null nd) then ret nd
          else fail ("unexpected token: " ++ to_string (tok_value t))
                 (lineno_of t) (colno_of t)
      end
  end

with parsePostfix (fuel : nat) (nd : node) {struct fuel} : M node :=
  match fuel with
  | O => out_of_fuel
  | S n =>
      tok <- peekToken ;;
      match tok with
      | None => ret nd
      | Some t =>
          if type_is (tok_type t) TOKEN_LEFT_PAREN
          then args <- parseSignature n false false ;;
               parsePostfix n (FunCall (lineno_of t) (colno_of t) nd args)
          else if type_is (tok_type t) TOKEN_LEFT_BRACKET
          then lookup <- parseAggregate n ;;
               match children_of lookup with
               | None => throw (TypeError "Cannot read properties of null")
               | Some ch =>
                   (if (1 <? length ch)%nat then fail "invalid index" None None
                    else ret tt) ;;
                   parsePostfix n
                     (LookupVal (lineno_of t) (colno_of t) nd (nth 0 ch Null))
               end
          else if type_is (tok_type t) TOKEN_OPERATOR
                  && value_is (tok_value t) "."
          then nextToken false ;;
               val <- nextToken false ;;
               val <- deref val ;;
               (if negb (type_is (tok_type val) TOKEN_SYMBOL)
                then fail ("expected name as lookup value, got "
                           ++ to_string (tok_value val))
                       (lineno_of val) (colno_of val)
                else ret tt) ;;
               parsePostfix n
                 (LookupVal (lineno_of t) (colno_of t) nd
                    (Literal (lineno_of val) (colno_of val)
                       (of_tokval (tok_value val))))
          else ret nd
      end
  end

with parseFilterArgs (fuel : nat) (nd : node) {struct fuel} : M (list node) :=
  match fuel with
  | O => out_of_fuel
  | S n =>
      tok <- peekToken ;;
      tok <- deref tok ;;
      if type_is (tok_type tok) TOKEN_LEFT_PAREN
      then call <- parsePostfix n nd ;; args_children call
      else ret []
  end

with parseFilter (fuel : nat) (nd : node) {struct fuel} : M node :=
  match fuel with
  | O => out_of_fuel
  | S n =>
      b <- skip TOKEN_PIPE ;;
      if b
      then name <- parseFilterName n ;;
           args <- parseFilterArgs n nd ;;
           parseFilter n
             (Filter (lineno name) (colno name) name
                (NodeList (lineno name) (colno name) (nd :: args)))
      else ret nd
  end

with parseAggregate (fuel : nat) {struct fuel} : M node :=
  match fuel with
  | O => out_of_fuel
  | S n =>
      tok <- nextToken false ;;
      tok <- deref tok ;;
      match aggregate_of (tok_type tok) with
      | None => ret Null
      | Some (mk, dict) =>
          children <- parseAggregate_loop n tok dict [] ;;
          ret (mk (lineno_of tok) (colno_of tok) children)
      end
  end

with parseAggregate_loop (fuel : nat) (tok : token) (dict : bool)
  (children : list node) {struct fuel} : M (list node) :=
  match fuel with
  | O => out_of_fuel
  | S n =>
      t <- peekToken ;;
      t <- deref t ;;
      if is_closing (tok_type t)
      then nextToken false ;; ret children
      else
        (if (0 <? length children)%nat
         then b <- skip TOKEN_COMMA ;;
              if negb b
              then fail "parseAggregate: expected comma after expression"
                     (lineno_of tok) (colno_of tok)
              else ret tt
         else ret tt) ;;
        if dict
        then key <- parsePrimary n false ;;
             b <- skip TOKEN_COLON ;;
             (if negb b
              then fail "parseAggregate: expected colon after dict key"
                     (lineno_of tok) (colno_of tok)
              else ret tt) ;;
             value <- parseExpression n ;;
             parseAggregate_loop n tok dict
               (children ++ [Pair (lineno key) (colno key) key value])
        else expr <- parseExpression n ;;
             parseAggregate_loop n tok dict (children ++ [expr])
  end

with parseSignature (fuel : nat) (tolerant noParens : bool) {struct fuel} : M node :=
  match fuel with
  | O => out_of_fuel
  | S n =>
      tok <- peekToken ;;
      tok <- deref tok ;;
      if negb noParens && negb (type_is (tok_type tok) TOKEN_LEFT_PAREN)
      then if tolerant then ret Null
           else fail "expected arguments" (lineno_of tok) (colno_of tok)
      else
        tok <- (if type_is (tok_type tok) TOKEN_LEFT_PAREN
                then t <- nextToken false ;; deref t
                else ret tok) ;;
        parseSignature_loop n noParens tok [] [] false
  end

with parseSignature_loop (fuel : nat) (noParens : bool) (open : token)
  (args kwargs : list node) (checkComma : bool) {struct fuel} : M node :=
  match fuel with
  | O => out_of_fuel
  | S n =>
      let done :=
        ret (NodeList (lineno_of open) (colno_of open)
               (args ++ if (0 <? length kwargs)%nat
                        then [KeywordArgs (lineno_of open) (colno_of open)
                                kwargs]
                        else [])) in
      tok <- peekToken ;;
      tok <- deref tok ;;
      if negb noParens && type_is (tok_type tok) TOKEN_RIGHT_PAREN
      then nextToken false ;; done
      else if noParens && type_is (tok_type tok) TOKEN_BLOCK_END
      then done
      else
        noComma <- (if checkComma
                    then b <- skip TOKEN_COMMA ;; ret (negb b)
                    else ret false) ;;
        if noComma
        then fail "parseSignature: expected comma after expression"
               (lineno_of tok) (colno_of tok)
        else
          arg <- parseExpression n ;;
          eq <- skipValue TOKEN_OPERATOR (TStr "=") ;;
          if eq
          then value <- parseExpression n ;;
               parseSignature_loop n noParens open args
                 (kwargs ++ [Pair (lineno arg) (colno arg) arg value]) true
          else parseSignature_loop n noParens open (args ++ [arg]) kwargs true
  end.


(** *** Statements *)

Definition dquote : string := String (ascii_of_nat 34) "".

(** [a() || b()]. *)
Definition orM (a b : M bool) : M bool :=
  x <- a ;; if x then ret true else b.

(** [if(c) this.fail(msg, lineno, colno);] *)
Definition fail_if (c : bool) (msg : string) (lineno colno : pos) : M unit :=
  if c then fail msg lineno colno else ret tt.

Definition parseWithContext : M (option bool) :=
  tok <- peekToken ;;
  w <- skipSymbol (TStr "with") ;;
  withContext <- (if w then ret (Some true)
                  else wo <- skipSymbol (TStr "without") ;;
                       if wo then ret (Some false) else ret None) ;;
  match withContext with
  | Some _ =>
      c <- skipSymbol (TStr "context") ;;
      if negb c
      then tok <- deref tok ;;
           fail "parseFrom: expected context after with/without"
             (lineno_of tok) (colno_of tok)
      else ret withContext
  | None => ret withContext
  end.

Definition parseImport (fuel : nat) : M node :=
  importTok <- peekToken ;;
  b <- skipSymbol (TStr "import") ;;
  importTok <- deref importTok ;;
  fail_if (negb b) "parseImport: expected import"
    (lineno_of importTok) (colno_of importTok) ;;
  template <- parseExpression fuel ;;
  b <- skipSymbol (TStr "as") ;;
  fail_if (negb b) ("parseImport: expected " ++ dquote ++ "as" ++ dquote
                    ++ " keyword")
    (lineno_of importTok) (colno_of importTok) ;;
  target <- parseExpression fuel ;;
  withContext <- parseWithContext ;;
  advanceAfterBlockEnd (Some (tok_value importTok)) ;;
  ret (Import (lineno_of importTok) (colno_of importTok) template target
         withContext).

(** [name.value.charAt(0) === '_']. *)
Definition starts_with_underscore (name : node) : M bool :=
  match value_string name with
  | Some s => ret (String.eqb (charAt s 0) "_")
  | None => throw (TypeError "name.value.charAt is not a function")
  end.

(** The [while(1)] loop of [parseFrom]; it returns [names.children] and
    [withContext]. *)
Fixpoint parseFrom_loop (fuel : nat) (fromTok : token) (names : list node)
  (withContext : option bool) {struct fuel}
  : M (list node * option bool) :=
  match fuel with
  | O => out_of_fuel
  | S n =>
      nextTok <- peekToken ;;
      nextTok <- deref nextTok ;;
      if type_is (tok_type nextTok) TOKEN_BLOCK_END
      then
        fail_if (negb (0 <? length names)%nat)
          "parseFrom: Expected at least one import name"
          (lineno_of fromTok) (colno_of fromTok) ;;
        dash <- value_charAt_is_dash (tok_value nextTok) 0 ;;
        (if dash then modify (set_dropLeadingWhitespace true) else ret tt) ;;
        nextToken false ;;
        ret (names, withContext)
      else
        noComma <- (if (0 <? length names)%nat
                    then b <- skip TOKEN_COMMA ;; ret (negb b)
                    else ret false) ;;
        fail_if noComma "parseFrom: expected comma"
          (lineno_of fromTok) (colno_of fromTok) ;;
        name <- parsePrimary n false ;;
        underscore <- starts_with_underscore name ;;
        fail_if underscore
          ("parseFrom: names starting with an underscore "
           ++ "cannot be imported")
          (lineno name) (colno name) ;;
        as_ <- skipSymbol (TStr "as") ;;
        names' <- (if as_
                   then alias <- parsePrimary n false ;;
                        ret (names ++ [Pair (lineno name) (colno name)
                                         name alias])
                   else ret (names ++ [name])) ;;
        withContext' <- parseWithContext ;;
        parseFrom_loop n fromTok names' withContext'
  end.

Definition parseFrom (fuel : nat) : M node :=
  fromTok <- peekToken ;;
  b <- skipSymbol (TStr "from") ;;
  fail_if (negb b) "parseFrom: expected from" None None ;;
  fromTok <- deref fromTok ;;
  template <- parseExpression fuel ;;
  b <- skipSymbol (TStr "import") ;;
  fail_if (negb b) "parseFrom: expected import"
    (lineno_of fromTok) (colno_of fromTok) ;;
  r <- parseFrom_loop fuel fromTok [] None ;;
  ret (FromImport (lineno_of fromTok) (colno_of fromTok) template
         (NodeList None None (fst r)) (snd r)).

Definition parseExtends (fuel : nat) : M node :=
  let tagName := "extends" in
  tag <- peekToken ;;
  b <- skipSymbol (TStr tagName) ;;
  fail_if (negb b) ("parseTemplateRef: expected " ++ tagName) None None ;;
  tag <- deref tag ;;
  template <- parseExpression fuel ;;
  advanceAfterBlockEnd (Some (tok_value tag)) ;;
  ret (Extends (lineno_of tag) (colno_of tag) template).

Definition parseInclude (fuel : nat) : M node :=
  let tagName := "include" in
  tag <- peekToken ;;
  b <- skipSymbol (TStr tagName) ;;
  fail_if (negb b) ("parseInclude: expected " ++ tagName) None None ;;
  tag <- deref tag ;;
  template <- parseExpression fuel ;;
  ignore <- skipSymbol (TStr "ignore") ;;
  ignoreMissing <- (if ignore then skipSymbol (TStr "missing")
                    else ret false) ;;
  advanceAfterBlockEnd (Some (tok_value tag)) ;;
  ret (Include (lineno_of tag) (colno_of tag) template ignoreMissing).

(** [this.tokens._extractRegex(rawBlockRegex)] and [this.tokens.backN(n)]. *)
Definition extractRegex (tagName : string) : M (option raw_match) :=
  fun p =>
    let l := tokens p in
    let (m, ts) := _extractRegex l tagName (stream l) in
    (Ret m, set_tokens (set_stream ts l) p).

Definition lexer_backN (n : Z) : M unit :=
  modify (fun p =>
            let l := tokens p in
            set_tokens (set_stream (backN l n (stream l)) l) p).

Fixpoint parseRaw_loop (fuel : nat) (tagName endTagName : string)
  (rawLevel : Z) (str : string) {struct fuel} : M string :=
  match fuel with
  | O => out_of_fuel
  | S n =>
      matches <- extractRegex tagName ;;
      match matches with
      | None => ret str
      | Some m =>
          if (0 <? rawLevel)%Z
          then
            let rawLevel' :=
              if String.eqb (m_blockName m) tagName then (rawLevel + 1)%Z
              else if String.eqb (m_blockName m) endTagName
                   then (rawLevel - 1)%Z
                   else rawLevel in
            if (rawLevel' =? 0)%Z
            then lexer_backN (strlen (m_all m) - strlen (m_pre m)) ;;
                 parseRaw_loop n tagName endTagName rawLevel'
                   (str ++ m_pre m)
            else parseRaw_loop n tagName endTagName rawLevel'
                   (str ++ m_all m)
          else ret str
      end
  end.

Definition parseRaw (fuel : nat) (tagName : option string) : M node :=
  let tagName := match tagName with
                 | Some (String c r) => String c r
                 | _ => "raw"
                 end in
  let endTagName := ("end" ++ tagName)%string in
  begun <- advanceAfterBlockEnd None ;;
  str <- parseRaw_loop fuel tagName endTagName 1 "" ;;
  ret (Output (lineno_of begun) (colno_of begun)
         [TemplateData (lineno_of begun) (colno_of begun) (TStr str)]).

(** [while(this.skip(lexer.TOKEN_COMMA)) { prim = this.parsePrimary(); node.name.addChild(prim); }]
    of [parseFor], on the children of [node.name]. *)
Fixpoint parseFor_targets (fuel : nat) (children : list node) {struct fuel}
  : M (list node) :=
  match fuel with
  | O => out_of_fuel
  | S n =>
      b <- skip TOKEN_COMMA ;;
      if b
      then prim <- parsePrimary n false ;;
           parseFor_targets n (children ++ [prim])
      else ret children
  end.

(** [while((target = this.parsePrimary())) { node.targets.push(target); if(!this.skip(lexer.TOKEN_COMMA)) break; }]
    of [parseSet]. *)
Fixpoint parseSet_targets (fuel : nat) (targets : list node) {struct fuel}
  : M (list node) :=
  match fuel with
  | O => out_of_fuel
  | S n =>
      target <- parsePrimary n false ;;
      if is_null target then ret targets
      else b <- skip TOKEN_COMMA ;;
           if negb b then ret (targets ++ [target])
           else parseSet_targets n (targets ++ [target])
  end.

(** The end of [parseCall]: [macroCall] with the pair for [caller] added to
    the keyword arguments at the end of [macroCall.args.children], which are
    created when the last child is not a [KeywordArgs]. *)
Definition add_caller (macroCall pair : node) : M node :=
  match macroCall with
  | FunCall l c name (NodeList al ac args) =>
      match rev args with
      | KeywordArgs kl kc kwargs :: front =>
          ret (FunCall l c name
                 (NodeList al ac
                    (rev front ++ [KeywordArgs kl kc (kwargs ++ [pair])])))
      | _ =>
          ret (FunCall l c name
                 (NodeList al ac (args ++ [KeywordArgs None None [pair]])))
      end
  | _ => throw (TypeError "Cannot read properties of undefined")
  end.

(** The branch of [parseNodes] for a [TOKEN_DATA] token: the node pushed on
    [buf]. *)
Definition parseNodes_data (tok : token) : M node :=
  nextToken_ <- peekToken ;;
  drop <- get dropLeadingWhitespace ;;
  data <- (if drop
           then match tok_value tok with
                | TStr s =>
                    modify (set_dropLeadingWhitespace false) ;;
                    ret (TStr (trim_leading s))
                | TRegex _ _ => throw (TypeError "data.replace is not a function")
                end
           else ret (tok_value tok)) ;;
  tg <- get (fun p => tags (tokens p)) ;;
  strip <- match nextToken_ with
           | None => ret false
           | Some nt =>
               let nextVal := tok_value nt in
               if type_is (tok_type nt) TOKEN_BLOCK_START
               then value_charAt_is_dash nextVal (value_length nextVal - 1)
               else if type_is (tok_type nt) TOKEN_VARIABLE_START
               then value_charAt_is_dash nextVal (strlen (VARIABLE_START tg))
               else if type_is (tok_type nt) TOKEN_COMMENT
               then value_charAt_is_dash nextVal (strlen (COMMENT_START tg))
               else ret false
           end ;;
  data <- (if strip
           then match data with
                | TStr s => ret (TStr (trim_trailing s))
                | TRegex _ _ => throw (TypeError "data.replace is not a function")
                end
           else ret data) ;;
  ret (Output (lineno_of tok) (colno_of tok)
         [TemplateData (lineno_of tok) (colno_of tok) data]).

(** The parser as an extension sees it ([ext.parse(this, nodes, lexer)]):
    besides the cursor operations above, which need no fuel, the routines it
    may re-enter. *)
Record parser_api := mkApi {
  api_parseExpression : M node;
  api_parsePrimary : bool -> M node;
  api_parseSignature : bool -> bool -> M node;
  api_parseUntilBlocks : list string -> M node
}.

Record extension := mkExtension {
  ext_tags : list string;
  ext_parse : parser_api -> M node
}.

Variable extensions : list extension.

Fixpoint parseFor (fuel : nat) {struct fuel} : M node :=
  match fuel with
  | O => out_of_fuel
  | S n =>
      forTok <- peekToken ;;
      kind <- (f <- skipSymbol (TStr "for") ;;
               if f then ret (For, "endfor")
               else
                 e <- skipSymbol (TStr "asyncEach") ;;
                 if e then ret (AsyncEach, "endeach")
                 else
                   a <- skipSymbol (TStr "asyncAll") ;;
                   if a then ret (AsyncAll, "endall")
                   else forTok <- deref forTok ;;
                        fail "parseFor: expected for{Async}"
                          (lineno_of forTok) (colno_of forTok)) ;;
      let endBlock := snd kind in
      forTok <- deref forTok ;;
      name <- parsePrimary n false ;;
      fail_if (negb (is_Symbol name))
        "parseFor: variable name expected for loop" None None ;;
      tok <- peekToken ;;
      tok <- deref tok ;;
      name <- (if type_is (tok_type tok) TOKEN_COMMA
               then children <- parseFor_targets n [name] ;;
                    ret (Array (lineno name) (colno name) children)
               else ret name) ;;
      i <- skipSymbol (TStr "in") ;;
      fail_if (negb i)
        ("parseFor: expected " ++ dquote ++ "in" ++ dquote
         ++ " keyword for loop")
        (lineno_of forTok) (colno_of forTok) ;;
      arr <- parseExpression n ;;
      advanceAfterBlockEnd (Some (tok_value forTok)) ;;
      body <- parseUntilBlocks n [endBlock; "else"] ;;
      e <- skipSymbol (TStr "else") ;;
      else_ <- (if e
                then advanceAfterBlockEnd (Some (TStr "else")) ;;
                     parseUntilBlocks n [endBlock]
                else ret Null) ;;
      advanceAfterBlockEnd None ;;
      ret (fst kind (lineno_of forTok) (colno_of forTok) arr name body else_)
  end

with parseMacro (fuel : nat) {struct fuel} : M node :=
  match fuel with
  | O => out_of_fuel
  | S n =>
      macroTok <- peekToken ;;
      b <- skipSymbol (TStr "macro") ;;
      fail_if (negb b) "expected macro" None None ;;
      name <- parsePrimary n true ;;
      args <- parseSignature n false false ;;
      macroTok <- deref macroTok ;;
      advanceAfterBlockEnd (Some (tok_value macroTok)) ;;
      body <- parseUntilBlocks n ["endmacro"] ;;
      advanceAfterBlockEnd None ;;
      ret (Macro (lineno_of macroTok) (colno_of macroTok) name args body)
  end

with parseCall (fuel : nat) {struct fuel} : M node :=
  match fuel with
  | O => out_of_fuel
  | S n =>
      callTok <- peekToken ;;
      b <- skipSymbol (TStr "call") ;;
      fail_if (negb b) "expected call" None None ;;
      sig <- parseSignature n true false ;;
      let callerArgs := if is_null sig then NodeList None None [] else sig in
      macroCall <- parsePrimary n false ;;
      callTok <- deref callTok ;;
      advanceAfterBlockEnd (Some (tok_value callTok)) ;;
      body <- parseUntilBlocks n ["endcall"] ;;
      advanceAfterBlockEnd None ;;
      let l := lineno_of callTok in
      let c := colno_of callTok in
      let callerName := Symbol l c (TStr "caller") in
      let callerNode := Caller l c callerName callerArgs body in
      macroCall' <- add_caller macroCall (Pair l c callerName callerNode) ;;
      ret (Output l c [macroCall'])
  end

with parseBlock (fuel : nat) {struct fuel} : M node :=
  match fuel with
  | O => out_of_fuel
  | S n =>
      tag <- peekToken ;;
      b <- skipSymbol (TStr "block") ;;
      tag <- deref tag ;;
      fail_if (negb b) "parseBlock: expected block"
        (lineno_of tag) (colno_of tag) ;;
      name <- parsePrimary n false ;;
      fail_if (negb (is_Symbol name)) "parseBlock: variable name expected"
        (lineno_of tag) (colno_of tag) ;;
      advanceAfterBlockEnd (Some (tok_value tag)) ;;
      body <- parseUntilBlocks n ["endblock"] ;;
      skipSymbol (TStr "endblock") ;;
      match name with
      | Symbol _ _ v => skipSymbol v
      | _ => ret false
      end ;;
      tok <- peekToken ;;
      match tok with
      | None =>
          fail "parseBlock: expected endblock, got end of file" None None
      | Some t =>
          advanceAfterBlockEnd (Some (tok_value t)) ;;
          ret (Block (lineno_of tag) (colno_of tag) name body)
      end
  end

with parseIf (fuel : nat) {struct fuel} : M node :=
  match fuel with
  | O => out_of_fuel
  | S n =>
      tag <- peekToken ;;
      i <- orM (skipSymbol (TStr "if"))
             (orM (skipSymbol (TStr "elif")) (skipSymbol (TStr "elseif"))) ;;
      mk <- (if i then ret If
             else a <- skipSymbol (TStr "ifAsync") ;;
                  if a then ret IfAsync
                  else tag <- deref tag ;;
                       fail "parseIf: expected if, elif, or elseif"
                         (lineno_of tag) (colno_of tag)) ;;
      tag <- deref tag ;;
      cond <- parseExpression n ;;
      advanceAfterBlockEnd (Some (tok_value tag)) ;;
      body <- parseUntilBlocks n ["elif"; "elseif"; "else"; "endif"] ;;
      tok <- peekToken ;;
      let v := match tok with
               | Some t => tok_value t
               | None => TStr ""
               end in
      else_ <- (if value_is v "elseif" || value_is v "elif"
                then parseIf n
                else if value_is v "else"
                then advanceAfterBlockEnd None ;;
                     e <- parseUntilBlocks n ["endif"] ;;
                     advanceAfterBlockEnd None ;;
                     ret e
                else if value_is v "endif"
                then advanceAfterBlockEnd None ;; ret Null
                else fail ("parseIf: expected elif, else, or endif, "
                           ++ "got end of file") None None) ;;
      ret (mk (lineno_of tag) (colno_of tag) cond body else_)
  end

with parseSet (fuel : nat) {struct fuel} : M node :=
  match fuel with
  | O => out_of_fuel
  | S n =>
      tag <- peekToken ;;
      b <- skipSymbol (TStr "set") ;;
      tag <- deref tag ;;
      fail_if (negb b) "parseSet: expected set"
        (lineno_of tag) (colno_of tag) ;;
      targets <- parseSet_targets n [] ;;
      eq <- skipValue TOKEN_OPERATOR (TStr "=") ;;
      if negb eq
      then
        be <- skip TOKEN_BLOCK_END ;;
        fail_if (negb be) "parseSet: expected = or block end in set tag"
          (lineno_of tag) (colno_of tag) ;;
        captured <- parseUntilBlocks n ["endset"] ;;
        advanceAfterBlockEnd None ;;
        ret (Set_ (lineno_of tag) (colno_of tag) targets Null
               (Capture (lineno_of tag) (colno_of tag) captured))
      else
        value <- parseExpression n ;;
        advanceAfterBlockEnd (Some (tok_value tag)) ;;
        ret (Set_ (lineno_of tag) (colno_of tag) targets value Null)
  end

with parseFilterStatement (fuel : nat) {struct fuel} : M node :=
  match fuel with
  | O => out_of_fuel
  | S n =>
      filterTok <- peekToken ;;
      b <- skipSymbol (TStr "filter") ;;
      fail_if (negb b) "parseFilterStatement: expected filter" None None ;;
      name <- parseFilterName n ;;
      args <- parseFilterArgs n name ;;
      filterTok <- deref filterTok ;;
      advanceAfterBlockEnd (Some (tok_value filterTok)) ;;
      captured <- parseUntilBlocks n ["endfilter"] ;;
      let body := Capture (lineno name) (colno name) captured in
      advanceAfterBlockEnd None ;;
      ret (Output (lineno name) (colno name)
             [Filter (lineno name) (colno name) name
                (NodeList (lineno name) (colno name) (body :: args))])
  end

with parseStatement (fuel : nat) {struct fuel} : M node :=
  match fuel with
  | O => out_of_fuel
  | S n =>
      tok <- peekToken ;;
      tok <- deref tok ;;
      fail_if (negb (type_is (tok_type tok) TOKEN_SYMBOL)) "tag name expected"
        (lineno_of tok) (colno_of tok) ;;
      blocks <- get breakOnBlocks ;;
      let v := tok_value tok in
      if match blocks with
         | Some names => indexOf_found names v
         | None => false
         end
      then ret Null
      else if value_is v "raw" then parseRaw n None
      else if value_is v "verbatim" then parseRaw n (Some "verbatim")
      else if value_is v "if" || value_is v "ifAsync" then parseIf n
      else if value_is v "for" || value_is v "asyncEach"
              || value_is v "asyncAll" then parseFor n
      else if value_is v "block" then parseBlock n
      else if value_is v "extends" then parseExtends n
      else if value_is v "include" then parseInclude n
      else if value_is v "set" then parseSet n
      else if value_is v "macro" then parseMacro n
      else if value_is v "call" then parseCall n
      else if value_is v "import" then parseImport n
      else if value_is v "from" then parseFrom n
      else if value_is v "filter" then parseFilterStatement n
      else
        match find (fun ext => indexOf_found (ext_tags ext) v) extensions with
        | Some ext =>
            ext_parse ext
              (mkApi (parseExpression n) (parsePrimary n) (parseSignature n)
                 (parseUntilBlocks n))
        | None =>
            fail ("unknown block tag: " ++ to_string v)
              (lineno_of tok) (colno_of tok)
        end
  end

with parseUntilBlocks (fuel : nat) (blockNames : list string) {struct fuel}
  : M node :=
  match fuel with
  | O => out_of_fuel
  | S n =>
      prev <- get breakOnBlocks ;;
      modify (set_breakOnBlocks (Some blockNames)) ;;
      ret_ <- parse n ;;
      modify (set_breakOnBlocks prev) ;;
      ret ret_
  end

with parseNodes (fuel : nat) (buf : list node) {struct fuel}
  : M (list node) :=
  match fuel with
  | O => out_of_fuel
  | S n =>
      tok <- nextToken false ;;
      match tok with
      | None => ret buf
      | Some t =>
          if type_is (tok_type t) TOKEN_DATA
          then nd <- parseNodes_data t ;;
               parseNodes n (buf ++ [nd])
          else if type_is (tok_type t) TOKEN_BLOCK_START
          then modify (set_dropLeadingWhitespace false) ;;
               nd <- parseStatement n ;;
               if is_null nd then ret buf
               else parseNodes n (buf ++ [nd])
          else if type_is (tok_type t) TOKEN_VARIABLE_START
          then e <- parseExpression n ;;
               modify (set_dropLeadingWhitespace false) ;;
               advanceAfterVariableEnd ;;
               parseNodes n (buf ++ [Output (lineno_of t) (colno_of t) [e]])
          else if type_is (tok_type t) TOKEN_COMMENT
          then tg <- get (fun p => tags (tokens p)) ;;
               dash <- value_charAt_is_dash (tok_value t)
                         (value_length (tok_value t)
                          - strlen (COMMENT_END tg) - 1) ;;
               modify (set_dropLeadingWhitespace dash) ;;
               parseNodes n buf
          else fail ("Unexpected token at top-level: "
                     ++ type_name (tok_type t))
                 (lineno_of t) (colno_of t)
      end
  end

with parse (fuel : nat) {struct fuel} : M node :=
  match fuel with
  | O => out_of_fuel
  | S n =>
      children <- parseNodes n [] ;;
      ret (NodeList (Some 0) (Some 0) children)
  end.

Definition parseAsRoot (fuel : nat) : M node :=
  children <- parseNodes fuel [] ;;
  ret (Root (Some 0) (Some 0) children).

End Grammar.

(** The exported [parse(src, extensions, opts)], from the lexer that
    [lexer.lex(src, opts)] returns. *)
Definition parse_lexed (type_name : token_type -> string)
  (extensions : list extension) (fuel : nat) (lexed : tokenizer)
  : outcome node * Parser :=
  parseAsRoot type_name extensions fuel (init lexed).

(** ** A lexer to run the parser on

    The strings lexer.js gives its token types, the default delimiters, and
    a token source that delivers a given list of tokens and contains no raw
    block. *)

Definition lexer_type_name (type : token_type) : string :=
  match type with
  | TOKEN_STRING => "string"
  | TOKEN_WHITESPACE => "whitespace"
  | TOKEN_DATA => "data"
  | TOKEN_BLOCK_START => "block-start"
  | TOKEN_BLOCK_END => "block-end"
  | TOKEN_VARIABLE_START => "variable-start"
  | TOKEN_VARIABLE_END => "variable-end"
  | TOKEN_COMMENT => "comment"
  | TOKEN_LEFT_PAREN => "left-paren"
  | TOKEN_RIGHT_PAREN => "right-paren"
  | TOKEN_LEFT_BRACKET => "left-bracket"
  | TOKEN_RIGHT_BRACKET => "right-bracket"
  | TOKEN_LEFT_CURLY => "left-curly"
  | TOKEN_RIGHT_CURLY => "right-curly"
  | TOKEN_OPERATOR => "operator"
  | TOKEN_COMMA => "comma"
  | TOKEN_COLON => "colon"
  | TOKEN_TILDE => "tilde"
  | TOKEN_PIPE => "pipe"
  | TOKEN_INT => "int"
  | TOKEN_FLOAT => "float"
  | TOKEN_BOOLEAN => "boolean"
  | TOKEN_NONE => "none"
  | TOKEN_SYMBOL => "symbol"
  | TOKEN_REGEX => "regex"
  end.

Definition default_tags : lexer_tags := mkTags "{{" "}}" "{#" "#}".

Definition lexer_of (ts : list token) : tokenizer :=
  mkTokenizer ts default_tags (fun _ rest => (None, rest)) (fun _ rest => rest).

(** A token on line 0 with a string value. *)
Definition tk (type : token_type) (value : string) (col : nat) : token :=
  mkToken type (TStr value) 0 col.

Definition ws (col : nat) : token := tk TOKEN_WHITESPACE " " col.

(** [a + b - c }}] *)
Definition tokens_a_plus_b_minus_c : list token :=
  [tk TOKEN_SYMBOL "a" 0; ws 1; tk TOKEN_OPERATOR "+" 2; ws 3;
   tk TOKEN_SYMBOL "b" 4; ws 5; tk TOKEN_OPERATOR "-" 6; ws 7;
   tk TOKEN_SYMBOL "c" 8; ws 9; tk TOKEN_VARIABLE_END "}}" 10].

(** [{{ 1 + 2 * 3 ** 2 }}], the token at index [i] of the stream being at
    the position [at_ i]. *)
Definition tokens_arith (at_ : nat -> nat * nat) : list token :=
  let t i type value :=
    mkToken type (TStr value) (fst (at_ i)) (snd (at_ i)) in
  [t 0 TOKEN_VARIABLE_START "{{"; t 1 TOKEN_WHITESPACE " ";
   t 2 TOKEN_INT "1"; t 3 TOKEN_WHITESPACE " ";
   t 4 TOKEN_OPERATOR "+"; t 5 TOKEN_WHITESPACE " ";
   t 6 TOKEN_INT "2"; t 7 TOKEN_WHITESPACE " ";
   t 8 TOKEN_OPERATOR "*"; t 9 TOKEN_WHITESPACE " ";
   t 10 TOKEN_INT "3"; t 11 TOKEN_WHITESPACE " ";
   t 12 TOKEN_OPERATOR "**"; t 13 TOKEN_WHITESPACE " ";
   t 14 TOKEN_INT "2"; t 15 TOKEN_WHITESPACE " ";
   t 16 TOKEN_VARIABLE_END "}}"].

(** The columns of the tokens of [{{ 1 + 2 * 3 ** 2 }}]. *)
Definition columns_arith (i : nat) : nat * nat :=
  (0, nth i [0; 2; 3; 4; 5; 6; 7; 8; 9; 10; 11; 12; 13; 15; 16; 17; 18] 0).

(** [{% from "t" import _x %}] *)
Definition tokens_from_underscore : list token :=
  [tk TOKEN_BLOCK_START "{%" 0; ws 2; tk TOKEN_SYMBOL "from" 3; ws 7;
   tk TOKEN_STRING "t" 8; ws 11; tk TOKEN_SYMBOL "import" 12; ws 18;
   tk TOKEN_SYMBOL "_x" 19; ws 21; tk TOKEN_BLOCK_END "%}" 22].

(** [{% for k, 1, [a] in d %}x{% endfor %}] *)
Definition tokens_for_targets : list token :=
  [tk TOKEN_BLOCK_START "{%" 0; ws 2; tk TOKEN_SYMBOL "for" 3; ws 6;
   tk TOKEN_SYMBOL "k" 7; tk TOKEN_COMMA "," 8; ws 9;
   tk TOKEN_INT "1" 10; tk TOKEN_COMMA "," 11; ws 12;
   tk TOKEN_LEFT_BRACKET "[" 13; tk TOKEN_SYMBOL "a" 14;
   tk TOKEN_RIGHT_BRACKET "]" 15; ws 16;
   tk TOKEN_SYMBOL "in" 17; ws 19; tk TOKEN_SYMBOL "d" 20; ws 21;
   tk TOKEN_BLOCK_END "%}" 22; tk TOKEN_DATA "x" 24;
   tk TOKEN_BLOCK_START "{%" 25; ws 27; tk TOKEN_SYMBOL "endfor" 28; ws 34;
   tk TOKEN_BLOCK_END "%}" 35].

(** [{% for 1 in d %}] *)
Definition tokens_for_literal : list token :=
  [tk TOKEN_BLOCK_START "{%" 0; ws 2; tk TOKEN_SYMBOL "for" 3; ws 6;
   tk TOKEN_INT "1" 7; ws 8; tk TOKEN_SYMBOL "in" 9; ws 11;
   tk TOKEN_SYMBOL "d" 12; ws 13; tk TOKEN_BLOCK_END "%}" 14].

(** [{% for r/a/gg in d %}x{% endfor %}], with the flag [g] twice. *)
Definition tokens_for_regex : list token :=
  [tk TOKEN_BLOCK_START "{%" 0; ws 2; tk TOKEN_SYMBOL "for" 3; ws 6;
   mkToken TOKEN_REGEX (TRegex "a" "gg") 0 7; ws 13;
   tk TOKEN_SYMBOL "in" 14; ws 16; tk TOKEN_SYMBOL "d" 17; ws 18;
   tk TOKEN_BLOCK_END "%}" 19; tk TOKEN_DATA "x" 21;
   tk TOKEN_BLOCK_START "{%" 22; ws 24; tk TOKEN_SYMBOL "endfor" 25; ws 31;
   tk TOKEN_BLOCK_END "%}" 32].

(** [{% if x -%}   hi {% endif %}] *)
Definition tokens_if_dash : list token :=
  [tk TOKEN_BLOCK_START "{%" 0; ws 2; tk TOKEN_SYMBOL "if" 3; ws 5;
   tk TOKEN_SYMBOL "x" 6; ws 7; tk TOKEN_BLOCK_END "-%}" 8;
   tk TOKEN_DATA "   hi " 11; tk TOKEN_BLOCK_START "{%" 17; ws 19;
   tk TOKEN_SYMBOL "endif" 20; ws 25; tk TOKEN_BLOCK_END "%}" 26].

(** [{% set x -%}  a{% endset %}] *)
Definition tokens_set_dash : list token :=
  [tk TOKEN_BLOCK_START "{%" 0; ws 2; tk TOKEN_SYMBOL "set" 3; ws 6;
   tk TOKEN_SYMBOL "x" 7; ws 8; tk TOKEN_BLOCK_END "-%}" 9;
   tk TOKEN_DATA "  a" 12; tk TOKEN_BLOCK_START "{%" 15; ws 17;
   tk TOKEN_SYMBOL "endset" 18; ws 24; tk TOKEN_BLOCK_END "%}" 25].

(** [{% from "t" import x -%}  a] *)
Definition tokens_from_dash : list token :=
  [tk TOKEN_BLOCK_START "{%" 0; ws 2; tk TOKEN_SYMBOL "from" 3; ws 7;
   tk TOKEN_STRING "t" 8; ws 11; tk TOKEN_SYMBOL "import" 12; ws 18;
   tk TOKEN_SYMBOL "x" 19; ws 21; tk TOKEN_BLOCK_END "-%}" 22;
   tk TOKEN_DATA "  a" 25].

(** [{{ a |], a template that ends inside a filter. *)
Definition tokens_unfinished_filter : list token :=
  [tk TOKEN_VARIABLE_START "{{" 0; ws 2; tk TOKEN_SYMBOL "a" 3; ws 4;
   tk TOKEN_PIPE "|" 5].

(** [{{ a not b }}], in which [parseIn] pushes two tokens back. *)
Definition tokens_a_not_b : list token :=
  [tk TOKEN_VARIABLE_START "{{" 0; ws 2; tk TOKEN_SYMBOL "a" 3; ws 4;
   tk TOKEN_SYMBOL "not" 5; ws 8; tk TOKEN_SYMBOL "b" 9; ws 10;
   tk TOKEN_VARIABLE_END "}}" 11].

(** ** Parsers for the examples *)

Definition if_blocks : list string := ["elif"; "elseif"; "else"; "endif"].

(** The body [hi{% endif %}] of an [if] inside a [for]. *)
Definition parser_in_if_body : Parser :=
  set_breakOnBlocks (Some ["endfor"; "else"])
    (init (lexer_of [tk TOKEN_DATA "hi" 10; tk TOKEN_BLOCK_START "{%" 12;
                     ws 14; tk TOKEN_SYMBOL "endif" 15; ws 20;
                     tk TOKEN_BLOCK_END "%}" 21])).


Definition sym (name : string) (col : nat) : node :=
  Symbol (Some 0) (Some col) (TStr name).

Definition parser_at_variable_end : Parser :=
  mkParser (lexer_of []) (Some (tk TOKEN_VARIABLE_END "}}" 10)) None false.

Definition parser_with_pushed_whitespace : Parser :=
  mkParser (lexer_of [ws 4; tk TOKEN_SYMBOL "x" 5]) (Some (ws 3)) None false.

(** The parser inside [{% from "t" import _x %}], before the names. *)
Definition parser_at_import_names : Parser :=
  init (lexer_of [ws 18; tk TOKEN_SYMBOL "_x" 19; ws 21;
                  tk TOKEN_BLOCK_END "%}" 22]).

Definition parser_at_block_end : Parser :=
  mkParser (lexer_of []) (Some (tk TOKEN_BLOCK_END "%}" 22)) None false.

(** The parser inside [{% for 1 in d %}], after the block start. *)
Definition parser_at_for_literal : Parser :=
  init (lexer_of (tl tokens_for_literal)).

Definition parser_at_for_regex : Parser :=
  init (lexer_of (tl tokens_for_regex)).

(** The rest of [{% if x -%}   hi {% endif %}] after the block end. *)
Definition tokens_after_dash : list token :=
  [tk TOKEN_DATA "   hi " 11; tk TOKEN_BLOCK_START "{%" 17; ws 19;
   tk TOKEN_SYMBOL "endif" 20; ws 25; tk TOKEN_BLOCK_END "%}" 26].

(** The parser inside [{% if x -%}   hi {% endif %}], after the
    condition. *)
Definition parser_at_dash : Parser :=
  init (lexer_of (ws 7 :: tk TOKEN_BLOCK_END "-%}" 8 :: tokens_after_dash)).

(** * Notions used in the statements *)

(** ** Fuel *)

(** [m2] does what [m1] does wherever [m1] does not run out of fuel. *)
Definition fuel_le {A} (m1 m2 : M A) : Prop :=
  forall p r p', m1 p = (r, p') -> r <> OutOfFuel -> m2 p = (r, p').

(** What an extension is given at two amounts of fuel. *)
Definition api_le (a b : parser_api) : Prop :=
  fuel_le (api_parseExpression a) (api_parseExpression b)
  /\ (forall noPostfix,
         fuel_le (api_parsePrimary a noPostfix) (api_parsePrimary b noPostfix))
  /\ (forall tolerant noParens,
         fuel_le (api_parseSignature a tolerant noParens)
           (api_parseSignature b tolerant noParens))
  /\ (forall blockNames,
         fuel_le (api_parseUntilBlocks a blockNames)
           (api_parseUntilBlocks b blockNames)).

(** An extension whose hook does not observe the fuel of the parser. *)
Definition ext_monotone (ext : extension) : Prop :=
  forall a b, api_le a b -> fuel_le (ext_parse ext a) (ext_parse ext b).

(** The routines of the expression grammar, compared at [n] and [m]. *)
Definition expr_mono (tn : token_type -> string) (n m : nat) : Prop :=
  fuel_le (parseExpression tn n) (parseExpression tn m)
  /\ fuel_le (parseInlineIf tn n) (parseInlineIf tn m)
  /\ fuel_le (parseOr tn n) (parseOr tn m)
  /\ fuel_le (parseAnd tn n) (parseAnd tn m)
  /\ fuel_le (parseNot tn n) (parseNot tn m)
  /\ fuel_le (parseIn tn n) (parseIn tn m)
  /\ (forall nd, fuel_le (parseIn_loop tn n nd) (parseIn_loop tn m nd))
  /\ fuel_le (parseCompare tn n) (parseCompare tn m)
  /\ (forall ops,
         fuel_le (parseCompare_loop tn n ops) (parseCompare_loop tn m ops))
  /\ fuel_le (parseConcat tn n) (parseConcat tn m)
  /\ fuel_le (parseAdd tn n) (parseAdd tn m)
  /\ fuel_le (parseSub tn n) (parseSub tn m)
  /\ fuel_le (parseMul tn n) (parseMul tn m)
  /\ fuel_le (parseDiv tn n) (parseDiv tn m)
  /\ fuel_le (parseFloorDiv tn n) (parseFloorDiv tn m)
  /\ fuel_le (parseMod tn n) (parseMod tn m)
  /\ fuel_le (parsePow tn n) (parsePow tn m)
  /\ (forall noFilters,
         fuel_le (parseUnary tn n noFilters) (parseUnary tn m noFilters))
  /\ (forall noPostfix,
         fuel_le (parsePrimary tn n noPostfix) (parsePrimary tn m noPostfix))
  /\ (forall nd, fuel_le (parsePostfix tn n nd) (parsePostfix tn m nd))
  /\ (forall nd, fuel_le (parseFilterArgs tn n nd) (parseFilterArgs tn m nd))
  /\ (forall nd, fuel_le (parseFilter tn n nd) (parseFilter tn m nd))
  /\ fuel_le (parseAggregate tn n) (parseAggregate tn m)
  /\ (forall tok dict children,
         fuel_le (parseAggregate_loop tn n tok dict children)
           (parseAggregate_loop tn m tok dict children))
  /\ (forall tolerant noParens,
         fuel_le (parseSignature tn n tolerant noParens)
           (parseSignature tn m tolerant noParens))
  /\ (forall noParens open args kwargs checkComma,
         fuel_le (parseSignature_loop tn n noParens open args kwargs checkComma)
           (parseSignature_loop tn m noParens open args kwargs checkComma)).

(** The routines of the statement grammar, compared at [n] and [m]. *)
Definition stmt_mono (tn : token_type -> string) (ex : list extension)
  (n m : nat) : Prop :=
  fuel_le (parseFor tn ex n) (parseFor tn ex m)
  /\ fuel_le (parseMacro tn ex n) (parseMacro tn ex m)
  /\ fuel_le (parseCall tn ex n) (parseCall tn ex m)
  /\ fuel_le (parseBlock tn ex n) (parseBlock tn ex m)
  /\ fuel_le (parseIf tn ex n) (parseIf tn ex m)
  /\ fuel_le (parseSet tn ex n) (parseSet tn ex m)
  /\ fuel_le (parseFilterStatement tn ex n) (parseFilterStatement tn ex m)
  /\ fuel_le (parseStatement tn ex n) (parseStatement tn ex m)
  /\ (forall blockNames,
         fuel_le (parseUntilBlocks tn ex n blockNames)
           (parseUntilBlocks tn ex m blockNames))
  /\ (forall buf, fuel_le (parseNodes tn ex n buf) (parseNodes tn ex m buf))
  /\ fuel_le (parse tn ex n) (parse tn ex m).

(** ** Results *)

(** What [m] returns, when it returns, satisfies [P]. *)
Definition returns {A} (P : A -> Prop) (m : M A) : Prop :=
  forall p a p', m p = (Ret a, p') -> P a.

Definition not_null (nd : node) : Prop := is_null nd = false.

(** The routines of the expression grammar that return a node of their
    own. *)
Definition expr_not_null (tn : token_type -> string) (n : nat) : Prop :=
  returns not_null (parseExpression tn n)
  /\ returns not_null (parseInlineIf tn n)
  /\ returns not_null (parseOr tn n)
  /\ returns not_null (parseAnd tn n)
  /\ returns not_null (parseNot tn n)
  /\ returns not_null (parseIn tn n)
  /\ (forall nd, not_null nd -> returns not_null (parseIn_loop tn n nd))
  /\ returns not_null (parseCompare tn n)
  /\ returns not_null (parseConcat tn n)
  /\ returns not_null (parseAdd tn n)
  /\ returns not_null (parseSub tn n)
  /\ returns not_null (parseMul tn n)
  /\ returns not_null (parseDiv tn n)
  /\ returns not_null (parseFloorDiv tn n)
  /\ returns not_null (parseMod tn n)
  /\ returns not_null (parsePow tn n)
  /\ (forall noFilters, returns not_null (parseUnary tn n noFilters))
  /\ (forall noPostfix, returns not_null (parsePrimary tn n noPostfix))
  /\ (forall nd, not_null nd -> returns not_null (parseFilter tn n nd)).

(** ** Chains of [+] and [-]

    [parseAdd] calls [parseSub] for its operands, so [-] binds tighter than
    [+]. A chain is its first operand and the list of the operators with the
    operands that follow them. *)

Inductive additive := Plus | Minus.

(** The node built so far for the operands joined by [+] ([sum], absent
    before the first [+]) and the node of the current run of [-]
    ([group]). *)
Definition close_group (sum : option node) (group : node) : node :=
  match sum with
  | None => group
  | Some s => Add (lineno s) (colno s) s group
  end.

Fixpoint chain_tree (sum : option node) (group : node)
  (items : list (additive * node)) : node :=
  match items with
  | [] => close_group sum group
  | (Minus, b) :: rest =>
      chain_tree sum (Sub (lineno group) (colno group) group b) rest
  | (Plus, b) :: rest => chain_tree (Some (close_group sum group)) b rest
  end.

Definition plus : M bool := skipValue TOKEN_OPERATOR (TStr "+").
Definition minus : M bool := skipValue TOKEN_OPERATOR (TStr "-").

(** The parser reads the rest of a chain from [p] to [p']: after an operand
    it looks for [-] first (the loop of [parseSub]) and only then for [+]
    (the loop of [parseAdd]); the operands are what [parseMul] returns. *)
Inductive reads_chain (type_name : token_type -> string) (n : nat)
  : Parser -> list (additive * node) -> Parser -> Prop :=
| reads_end p p1 p2 :
    minus p = (Ret false, p1) ->
    plus p1 = (Ret false, p2) ->
    reads_chain type_name n p [] p2
| reads_minus p p1 b p2 items p' :
    minus p = (Ret true, p1) ->
    parseMul type_name n p1 = (Ret b, p2) ->
    reads_chain type_name n p2 items p' ->
    reads_chain type_name n p ((Minus, b) :: items) p'
| reads_plus p p1 p2 b p3 items p' :
    minus p = (Ret false, p1) ->
    plus p1 = (Ret true, p2) ->
    parseMul type_name n p2 = (Ret b, p3) ->
    reads_chain type_name n p3 items p' ->
    reads_chain type_name n p ((Plus, b) :: items) p'.

(** ** Positions and texts *)

Definition line_at (at_ : nat -> nat * nat) (i : nat) : pos :=
  Some (fst (at_ i)).

Definition col_at (at_ : nat -> nat * nat) (i : nat) : pos :=
  Some (snd (at_ i)).

(** The first character of a text is not whitespace. *)
Definition no_leading_space (s : string) : bool :=
  match s with
  | String c _ => negb (is_space c)
  | EmptyString => true
  end.

(** The text pushed for a [TOKEN_DATA] token when the latch is set. *)
Definition trimmed (strip : bool) (text : string) : string :=
  if strip then trim_trailing (trim_leading text) else trim_leading text.

(** ** The tokens still to be read *)

(** The token in the pushback slot, if any, followed by the tokens the lexer
    has still to deliver. *)
Definition pending (p : Parser) : list token :=
  match peeked p with
  | Some t => t :: stream (tokens p)
  | None => stream (tokens p)
  end.

(** The tokens a reader that skips whitespace sees. *)
Definition significant (ts : list token) : list token :=
  filter (fun t => negb (is_whitespace t)) ts.

Definition upcoming (p : Parser) : list token := significant (pending p).

(** The pushback slot holds no whitespace token. (The parser reads with
    [nextToken()] only, so it never puts one there itself.) *)
Definition clean (p : Parser) : Prop :=
  match peeked p with
  | Some t => is_whitespace t = false
  | None => True
  end.

(** [p'] differs from [p] in the cursor only: the pushback slot and the
    tokens the lexer has delivered. *)
Definition same_context (p p' : Parser) : Prop :=
  breakOnBlocks p' = breakOnBlocks p
  /\ dropLeadingWhitespace p' = dropLeadingWhitespace p
  /\ set_stream [] (tokens p') = set_stream [] (tokens p).

(** Whether [skip(type)] and [skipValue(type, val)] take the token [t]. *)
Definition has_type (type : token_type) (t : token) : bool :=
  type_is (tok_type t) type.

Definition has_type_value (type : token_type) (val : tokval) (t : token)
  : bool :=
  type_is (tok_type t) type && tokval_eqb (tok_value t) val.

(** Whether the first of [ts] satisfies [f]; [false] when there is none. *)
Definition first_is (f : token -> bool) (ts : list token) : bool :=
  match ts with
  | t :: _ => f t
  | [] => false
  end.

(** The parser before the last of [{{ a not ]: one token is left. *)
Definition parser_with_one_symbol : Parser :=
  init (lexer_of [ws 4; tk TOKEN_SYMBOL "x" 5; ws 6]).

(** The end of the input: nothing but whitespace is left to read. *)
Definition at_end (p : Parser) : Prop := clean p /\ upcoming p = [].

(** The [TypeError] of reading a property of [null]. *)
Definition null_TypeError : exn := TypeError "Cannot read properties of null".

(** The error of [parsePrimary] at the end of the input. *)
Definition no_expression : exn :=
  TemplateError "expected expression, got end of file" None None.

(** [m] throws [e] from [p]. *)
Definition throws {A} (m : M A) (p : Parser) (e : exn) : Prop :=
  exists p', m p = (Throw e, p').

(** A parser that has only whitespace left. *)
Definition parser_at_end : Parser := init (lexer_of [ws 7]).

(** ** What a routine leaves untouched *)

(** [m] changes nothing but the cursor, whatever its outcome. *)
Definition moves_cursor_only {A} (m : M A) : Prop :=
  forall p r p', m p = (r, p') -> same_context p p'.

(** [P] holds of every routine of the expression grammar at the fuel
    [n]. *)
Definition expr_all (P : forall A : Type, M A -> Prop)
  (tn : token_type -> string) (n : nat) : Prop :=
  P _ (parseExpression tn n)
  /\ P _ (parseInlineIf tn n)
  /\ P _ (parseOr tn n)
  /\ P _ (parseAnd tn n)
  /\ P _ (parseNot tn n)
  /\ P _ (parseIn tn n)
  /\ (forall nd, P _ (parseIn_loop tn n nd))
  /\ P _ (parseCompare tn n)
  /\ (forall ops, P _ (parseCompare_loop tn n ops))
  /\ P _ (parseConcat tn n)
  /\ P _ (parseAdd tn n)
  /\ P _ (parseSub tn n)
  /\ P _ (parseMul tn n)
  /\ P _ (parseDiv tn n)
  /\ P _ (parseFloorDiv tn n)
  /\ P _ (parseMod tn n)
  /\ P _ (parsePow tn n)
  /\ (forall noFilters, P _ (parseUnary tn n noFilters))
  /\ (forall noPostfix, P _ (parsePrimary tn n noPostfix))
  /\ (forall nd, P _ (parsePostfix tn n nd))
  /\ (forall nd, P _ (parseFilterArgs tn n nd))
  /\ (forall nd, P _ (parseFilter tn n nd))
  /\ P _ (parseAggregate tn n)
  /\ (forall tok dict children,
         P _ (parseAggregate_loop tn n tok dict children))
  /\ (forall tolerant noParens, P _ (parseSignature tn n tolerant noParens))
  /\ (forall noParens open args kwargs checkComma,
         P _ (parseSignature_loop tn n noParens open args kwargs checkComma)).

(** [P] holds of every routine of the statement grammar at the fuel
    [n]. *)
Definition stmt_all (P : forall A : Type, M A -> Prop)
  (tn : token_type -> string) (ex : list extension) (n : nat) : Prop :=
  P _ (parseFor tn ex n)
  /\ P _ (parseMacro tn ex n)
  /\ P _ (parseCall tn ex n)
  /\ P _ (parseBlock tn ex n)
  /\ P _ (parseIf tn ex n)
  /\ P _ (parseSet tn ex n)
  /\ P _ (parseFilterStatement tn ex n)
  /\ P _ (parseStatement tn ex n)
  /\ (forall blockNames, P _ (parseUntilBlocks tn ex n blockNames))
  /\ (forall buf, P _ (parseNodes tn ex n buf))
  /\ P _ (parse tn ex n).

(** [P] holds of the routines an extension is given. *)
Definition api_all (P : forall A : Type, M A -> Prop) (a : parser_api)
  : Prop :=
  P _ (api_parseExpression a)
  /\ (forall noPostfix, P _ (api_parsePrimary a noPostfix))
  /\ (forall tolerant noParens, P _ (api_parseSignature a tolerant noParens))
  /\ (forall blockNames, P _ (api_parseUntilBlocks a blockNames)).

(** The parser in [{% if x.y | f(1) -%}] after the tag name, inside a
    [for] block and with the latch set. *)
Definition parser_in_condition : Parser :=
  mkParser
    (lexer_of [ws 5; tk TOKEN_SYMBOL "x" 6; tk TOKEN_OPERATOR "." 7;
               tk TOKEN_SYMBOL "y" 8; ws 9; tk TOKEN_PIPE "|" 10; ws 11;
               tk TOKEN_SYMBOL "f" 12; tk TOKEN_LEFT_PAREN "(" 13;
               tk TOKEN_INT "1" 14; tk TOKEN_RIGHT_PAREN ")" 15; ws 16;
               tk TOKEN_BLOCK_END "-%}" 17])
    None (Some ["endfor"; "else"]) true.

(** [m], when it returns, leaves the block names of the enclosing
    [parseUntilBlocks] as they were. *)
Definition keeps_blocks {A} (m : M A) : Prop :=
  forall p a p', m p = (Ret a, p') -> breakOnBlocks p' = breakOnBlocks p.

(** An extension is tidy when its hook, given routines that keep the block
    names, keeps them too and returns a node. *)
Definition ext_tidy (ext : extension) : Prop :=
  forall a, api_all (@keeps_blocks) a ->
            keeps_blocks (ext_parse ext a)
            /\ returns not_null (ext_parse ext a).

(** The parser stands before a tag that ends the nested parse: the name of
    the tag is in the pushback slot and among the block names. *)
Definition at_block (names : list string) (p : Parser) : Prop :=
  exists t,
    peeked p = Some t
    /\ tok_type t = TOKEN_SYMBOL
    /\ indexOf_found names (tok_value t) = true.

(** Where the node parser stops: at the end of the input, or before a tag
    named in [breakOnBlocks]. *)
Definition stopped (p : Parser) : Prop :=
  pending p = []
  \/ exists names, breakOnBlocks p = Some names /\ at_block names p.

(** ** The positions of errors *)

(** A position counted from 1: a [TemplateError] carries no line or column
    that is zero. *)
Definition one_based (e : exn) : Prop :=
  match e with
  | TemplateError _ l c => l <> Some 0 /\ c <> Some 0
  | _ => True
  end.

(** What [m] throws has its position counted from 1. *)
Definition throws_one_based {A} (m : M A) : Prop :=
  forall p e p', m p = (Throw e, p') -> one_based e.

(** An extension whose hook reports positions as the parser does. *)
Definition ext_one_based (ext : extension) : Prop :=
  forall a, api_all (@throws_one_based) a ->
            throws_one_based (ext_parse ext a).

(** ** The binary levels

    The ten routines from [parseOr] to [parsePow] have one shape: an
    operand, then a loop that reads an operator and another operand. *)

Inductive binary_level :=
| level_or | level_and | level_concat | level_add | level_sub | level_mul
| level_div | level_floordiv | level_mod | level_pow.

Definition level_routine (tn : token_type -> string) (l : binary_level)
  (fuel : nat) : M node :=
  match l with
  | level_or => parseOr tn fuel
  | level_and => parseAnd tn fuel
  | level_concat => parseConcat tn fuel
  | level_add => parseAdd tn fuel
  | level_sub => parseSub tn fuel
  | level_mul => parseMul tn fuel
  | level_div => parseDiv tn fuel
  | level_floordiv => parseFloorDiv tn fuel
  | level_mod => parseMod tn fuel
  | level_pow => parsePow tn fuel
  end.

(** The routine a level calls for its operands: the next tighter level. *)
Definition level_operand (tn : token_type -> string) (l : binary_level)
  (fuel : nat) : M node :=
  match l with
  | level_or => parseAnd tn fuel
  | level_and => parseNot tn fuel
  | level_concat => parseAdd tn fuel
  | level_add => parseSub tn fuel
  | level_sub => parseMul tn fuel
  | level_mul => parseDiv tn fuel
  | level_div => parseFloorDiv tn fuel
  | level_floordiv => parseMod tn fuel
  | level_mod => parsePow tn fuel
  | level_pow => parseUnary tn fuel false
  end.

(** The test for the operator of a level. *)
Definition level_operator (l : binary_level) : M bool :=
  match l with
  | level_or => skipSymbol (TStr "or")
  | level_and => skipSymbol (TStr "and")
  | level_concat => skipValue TOKEN_TILDE (TStr "~")
  | level_add => skipValue TOKEN_OPERATOR (TStr "+")
  | level_sub => skipValue TOKEN_OPERATOR (TStr "-")
  | level_mul => skipValue TOKEN_OPERATOR (TStr "*")
  | level_div => skipValue TOKEN_OPERATOR (TStr "/")
  | level_floordiv => skipValue TOKEN_OPERATOR (TStr "//")
  | level_mod => skipValue TOKEN_OPERATOR (TStr "%")
  | level_pow => skipValue TOKEN_OPERATOR (TStr "**")
  end.

(** The node class of a level. *)
Definition level_node (l : binary_level)
  : pos -> pos -> node -> node -> node :=
  match l with
  | level_or => Or
  | level_and => And
  | level_concat => Concat
  | level_add => Add
  | level_sub => Sub
  | level_mul => Mul
  | level_div => Div
  | level_floordiv => FloorDiv
  | level_mod => Mod
  | level_pow => Pow
  end.

(** The loop of a level reads the operands [nds] from [p] to [p']: each
    follows an operator, and no operator follows the last. *)
Inductive reads_operands (skipOp : M bool) (operand : M node)
  : Parser -> list node -> Parser -> Prop :=
| operands_end p p' :
    skipOp p = (Ret false, p') ->
    reads_operands skipOp operand p [] p'
| operands_more p p1 nd p2 nds p' :
    skipOp p = (Ret true, p1) ->
    operand p1 = (Ret nd, p2) ->
    reads_operands skipOp operand p2 nds p' ->
    reads_operands skipOp operand p (nd :: nds) p'.

(** The operands joined from the left, every node at the position of its
    left operand. *)
Definition left_nested (mk : pos -> pos -> node -> node -> node)
  (first : node) (rest : list node) : node :=
  fold_left (fun acc nd => mk (lineno acc) (colno acc) acc nd) rest first.

(** [2 ** 3 ** 2 }}] *)
Definition tokens_power_tower : list token :=
  [tk TOKEN_INT "2" 3; ws 4; tk TOKEN_OPERATOR "**" 5; ws 7;
   tk TOKEN_INT "3" 8; ws 9; tk TOKEN_OPERATOR "**" 10; ws 12;
   tk TOKEN_INT "2" 13; ws 14; tk TOKEN_VARIABLE_END "}}" 15].

Definition int_literal (z : Z) (col : nat) : node :=
  Literal (Some 0) (Some col) (VNum z).

Definition parser_at_variable_end_15 : Parser :=
  mkParser (lexer_of []) (Some (tk TOKEN_VARIABLE_END "}}" 15)) None false.

(** ** Comparisons *)

(** The loop of [parseCompare] reads the operands [ops] from [p] to [p']:
    each follows a token whose value is one of [compareOps]; the loop ends
    at the end of the input or at another token, which it pushes back. *)
Inductive reads_comparisons (tn : token_type -> string) (n : nat)
  : Parser -> list node -> Parser -> Prop :=
| comparisons_eof p p' :
    nextToken false p = (Ret None, p') ->
    reads_comparisons tn n p [] p'
| comparisons_end p t p1 :
    nextToken false p = (Ret (Some t), p1) ->
    indexOf_found compareOps (tok_value t) = false ->
    reads_comparisons tn n p [] (set_peeked (Some t) p1)
| comparisons_more p t p1 expr p2 ops p' :
    nextToken false p = (Ret (Some t), p1) ->
    indexOf_found compareOps (tok_value t) = true ->
    parseConcat tn n p1 = (Ret expr, p2) ->
    reads_comparisons tn n p2 ops p' ->
    reads_comparisons tn n p
      (CompareOperand (lineno_of t) (colno_of t) expr (tok_value t) :: ops) p'.

(** What [parseCompare] returns for the first operand and the operands read
    by its loop. *)
Definition comparison (expr : node) (ops : list node) : node :=
  match ops with
  | op0 :: _ => Compare (lineno op0) (colno op0) expr ops
  | [] => expr
  end.

(** [a < b <= c }}] *)
Definition tokens_comparison : list token :=
  [tk TOKEN_SYMBOL "a" 3; ws 4; tk TOKEN_OPERATOR "<" 5; ws 6;
   tk TOKEN_SYMBOL "b" 7; ws 8; tk TOKEN_OPERATOR "<=" 9; ws 11;
   tk TOKEN_SYMBOL "c" 12; ws 13; tk TOKEN_VARIABLE_END "}}" 14].

(** ** [in] and [not in] *)

Definition is_symbol (name : string) (t : token) : bool :=
  type_is (tok_type t) TOKEN_SYMBOL && value_is (tok_value t) name.

(** The parser in [{{ a not b }}] after [a]. *)
Definition parser_at_not : Parser :=
  init (lexer_of [ws 4; tk TOKEN_SYMBOL "not" 5; ws 8; tk TOKEN_SYMBOL "b" 9;
                  ws 10; tk TOKEN_VARIABLE_END "}}" 11]).

(** ** Dotted filter names *)

(** The operator [.] of a dotted name. *)
Definition is_dot (t : token) : bool :=
  has_type_value TOKEN_OPERATOR (TStr ".") t.

(** The tokens of the parts of a name after the first: a dot and a symbol
    for each. *)
Definition dotted (parts : list (token * token)) : list token :=
  flat_map (fun ds => [fst ds; snd ds]) parts.

(** The name that [parseFilterName] builds from the first part and the
    parts after it. *)
Definition dotted_name (first : tokval) (parts : list (token * token))
  : tokval :=
  fold_left
    (fun name ds => TStr (to_string name ++ "." ++ to_string (tok_value (snd ds))))
    parts first.

Definition is_part (ds : token * token) : Prop :=
  is_dot (fst ds) = true /\ tok_type (snd ds) = TOKEN_SYMBOL.

(** [a.b.c }}] after the pipe of [{{ x | a.b.c }}] *)
Definition parser_at_filter_name : Parser :=
  init (lexer_of [ws 6; tk TOKEN_SYMBOL "a" 7; tk TOKEN_OPERATOR "." 8;
                  tk TOKEN_SYMBOL "b" 9; tk TOKEN_OPERATOR "." 10;
                  tk TOKEN_SYMBOL "c" 11; ws 12;
                  tk TOKEN_VARIABLE_END "}}" 13]).

(** ** Templates without tags *)

(** A [TOKEN_DATA] token as the lexer makes it. *)
Definition is_data (t : token) : Prop :=
  tok_type t = TOKEN_DATA /\ exists s, tok_value t = TStr s.

(** The node of a [TOKEN_DATA] token whose text is kept as it is. *)
Definition data_output (t : token) : node :=
  Output (lineno_of t) (colno_of t)
    [TemplateData (lineno_of t) (colno_of t) (tok_value t)].

(** ** Tag names *)

(** The tags that [parseStatement] knows itself. *)
Definition builtin_tags : list string :=
  ["raw"; "verbatim"; "if"; "ifAsync"; "for"; "asyncEach"; "asyncAll";
   "block"; "extends"; "include"; "set"; "macro"; "call"; "import"; "from";
   "filter"].

(** Whether [name] is among the block names the parser is to stop at. *)
Definition breaks_on (p : Parser) (name : tokval) : bool :=
  match breakOnBlocks p with
  | Some names => indexOf_found names name
  | None => false
  end.

(** The parser after the block start of [{% endif %}], at the top level. *)
Definition parser_at_stray_endif : Parser :=
  init (lexer_of [ws 2; tk TOKEN_SYMBOL "endif" 3; ws 8;
                  tk TOKEN_BLOCK_END "%}" 9]).

(** ** Whitespace control before a marker *)

(** The last character of a text is whitespace. *)
Fixpoint ends_with_space (s : string) : bool :=
  match s with
  | EmptyString => false
  | String c EmptyString => is_space c
  | String _ r => ends_with_space r
  end.

(** The token [nt], found after a text, asks for the whitespace that ends
    the text to be removed: a block start written [{%-], a variable start
    written [{{-], or a comment written [{#- ... #}] (with the delimiters
    [tg] of the lexer). *)
Definition strips_before (tg : lexer_tags) (nt : token) : Prop :=
  (tok_type nt = TOKEN_BLOCK_START
   /\ exists start, tok_value nt = TStr (start ++ "-"))
  \/ (tok_type nt = TOKEN_VARIABLE_START
      /\ exists rest, tok_value nt = TStr (VARIABLE_START tg ++ "-" ++ rest))
  \/ (tok_type nt = TOKEN_COMMENT
      /\ exists rest, tok_value nt = TStr (COMMENT_START tg ++ "-" ++ rest)).

(** The parser after the text of [a  {%- if x %}]. *)
Definition parser_before_dash : Parser :=
  init (lexer_of [tk TOKEN_BLOCK_START "{%-" 3; ws 6; tk TOKEN_SYMBOL "if" 7]).

(** ** Comments *)

(** The parser before [{# note #}  a] with the latch set by a preceding
    [-%}]. *)
Definition parser_before_comment : Parser :=
  set_dropLeadingWhitespace true
    (init (lexer_of [tk TOKEN_COMMENT "{# note #}" 12;
                     tk TOKEN_DATA "  a" 22])).

(** ** [with context] *)

(** The parser at [with context %}]. *)
Definition parser_at_with_context : Parser :=
  init (lexer_of [ws 20; tk TOKEN_SYMBOL "with" 21; ws 25;
                  tk TOKEN_SYMBOL "context" 26; ws 33;
                  tk TOKEN_BLOCK_END "%}" 34]).

(** ** Argument lists *)

(** An argument as it is written: an expression, or [key = value]. *)
Inductive argument :=
| positional (arg : node)
| keyword (key value : node).

Definition positionals (items : list argument) : list node :=
  flat_map (fun i => match i with
                     | positional arg => [arg]
                     | keyword _ _ => []
                     end) items.

Definition keywords (items : list argument) : list node :=
  flat_map (fun i => match i with
                     | positional _ => []
                     | keyword key value =>
                         [Pair (lineno key) (colno key) key value]
                     end) items.

(** The node of an argument list opened by the token [open], which has
    read the positional arguments [args] and the pairs [kwargs]. *)
Definition signature (open : token) (args kwargs : list node) : node :=
  NodeList (lineno_of open) (colno_of open)
    (args ++ match kwargs with
             | [] => []
             | _ :: _ => [KeywordArgs (lineno_of open) (colno_of open) kwargs]
             end).

(** The comma the loop of [parseSignature] wants before every argument but
    the first. *)
Definition reads_comma (checkComma : bool) (p p' : Parser) : Prop :=
  if checkComma then skip TOKEN_COMMA p = (Ret true, p') else p' = p.

(** The loop of [parseSignature] reads the arguments [items] from [p] to
    [p'], the expressions with the fuel [n]. *)
Inductive reads_arguments (tn : token_type -> string) (n : nat)
  (noParens : bool) : bool -> Parser -> list argument -> Parser -> Prop :=
| arguments_closed checkComma p t p0 u p' :
    peekToken p = (Ret (Some t), p0) ->
    negb noParens && type_is (tok_type t) TOKEN_RIGHT_PAREN = true ->
    nextToken false p0 = (Ret u, p') ->
    reads_arguments tn n noParens checkComma p [] p'
| arguments_at_block_end checkComma p t p0 :
    peekToken p = (Ret (Some t), p0) ->
    negb noParens && type_is (tok_type t) TOKEN_RIGHT_PAREN = false ->
    noParens && type_is (tok_type t) TOKEN_BLOCK_END = true ->
    reads_arguments tn n noParens checkComma p [] p0
| arguments_positional checkComma p t p0 p1 arg p2 p3 items p' :
    peekToken p = (Ret (Some t), p0) ->
    negb noParens && type_is (tok_type t) TOKEN_RIGHT_PAREN = false ->
    noParens && type_is (tok_type t) TOKEN_BLOCK_END = false ->
    reads_comma checkComma p0 p1 ->
    parseExpression tn n p1 = (Ret arg, p2) ->
    skipValue TOKEN_OPERATOR (TStr "=") p2 = (Ret false, p3) ->
    reads_arguments tn n noParens true p3 items p' ->
    reads_arguments tn n noParens checkComma p (positional arg :: items) p'
| arguments_keyword checkComma p t p0 p1 key p2 p3 value p4 items p' :
    peekToken p = (Ret (Some t), p0) ->
    negb noParens && type_is (tok_type t) TOKEN_RIGHT_PAREN = false ->
    noParens && type_is (tok_type t) TOKEN_BLOCK_END = false ->
    reads_comma checkComma p0 p1 ->
    parseExpression tn n p1 = (Ret key, p2) ->
    skipValue TOKEN_OPERATOR (TStr "=") p2 = (Ret true, p3) ->
    parseExpression tn n p3 = (Ret value, p4) ->
    reads_arguments tn n noParens true p4 items p' ->
    reads_arguments tn n noParens checkComma p (keyword key value :: items) p'.

(** [(x=1, a, y=2, b) }}] *)
Definition tokens_mixed_arguments : list token :=
  [tk TOKEN_LEFT_PAREN "(" 4; tk TOKEN_SYMBOL "x" 5; tk TOKEN_OPERATOR "=" 6;
   tk TOKEN_INT "1" 7; tk TOKEN_COMMA "," 8; ws 9; tk TOKEN_SYMBOL "a" 10;
   tk TOKEN_COMMA "," 11; ws 12; tk TOKEN_SYMBOL "y" 13;
   tk TOKEN_OPERATOR "=" 14; tk TOKEN_INT "2" 15; tk TOKEN_COMMA "," 16;
   ws 17; tk TOKEN_SYMBOL "b" 18; tk TOKEN_RIGHT_PAREN ")" 19; ws 20;
   tk TOKEN_VARIABLE_END "}}" 21].

(** ** Tokens that start no expression *)

(** The token types [parsePrimary] makes a node of: the literals, a symbol,
    and the delimiters that open an aggregate. *)
Definition starts_primary (type : token_type) : bool :=
  match type with
  | TOKEN_STRING | TOKEN_INT | TOKEN_FLOAT | TOKEN_BOOLEAN | TOKEN_NONE
  | TOKEN_REGEX | TOKEN_SYMBOL | TOKEN_LEFT_PAREN | TOKEN_LEFT_BRACKET
  | TOKEN_LEFT_CURLY => true
  | _ => false
  end.

(** The tokens [parsePostfix] goes on with: [(], [[] and [.]. *)
Definition starts_postfix (t : token) : bool :=
  type_is (tok_type t) TOKEN_LEFT_PAREN
  || type_is (tok_type t) TOKEN_LEFT_BRACKET
  || type_is (tok_type t) TOKEN_OPERATOR && value_is (tok_value t) ".".

(** The parser at [}}] in [{{ }}]. *)
Definition parser_at_empty_output : Parser :=
  init (lexer_of [ws 2; tk TOKEN_VARIABLE_END "}}" 3]).

(** The parser at [[] }}] in [{{ x[] }}]. *)
Definition parser_at_empty_index : Parser :=
  init (lexer_of [tk TOKEN_LEFT_BRACKET "[" 4; tk TOKEN_RIGHT_BRACKET "]" 5;
                  ws 6; tk TOKEN_VARIABLE_END "}}" 7]).

(** ** Names in an expression *)

(** A name: a symbol other than [not]. *)
Definition is_name (t : token) : bool :=
  type_is (tok_type t) TOKEN_SYMBOL && negb (value_is (tok_value t) "not").

Definition name_node (t : token) : node :=
  Symbol (lineno_of t) (colno_of t) (tok_value t).

(** A token at which every routine of the expression grammar stops: no
    symbol, operator, tilde, pipe, [(] or [[], and no comparison operator
    by its value. *)
Definition ends_expression (d : token) : bool :=
  negb (type_is (tok_type d) TOKEN_SYMBOL
        || type_is (tok_type d) TOKEN_OPERATOR
        || type_is (tok_type d) TOKEN_TILDE
        || type_is (tok_type d) TOKEN_PIPE
        || type_is (tok_type d) TOKEN_LEFT_PAREN
        || type_is (tok_type d) TOKEN_LEFT_BRACKET)
  && negb (indexOf_found compareOps (tok_value d)).

(** [m], run from [p], returns [a] and leaves the tokens [r] to read. *)
Definition yields {A} (m : M A) (p : Parser) (a : A) (r : list token)
  : Prop :=
  exists p', m p = (Ret a, p') /\ upcoming p' = r /\ clean p'.

(** The tokens of [, b] for every comma and name of [more]. *)
Definition more_names (more : list (token * token)) : list token :=
  flat_map (fun cb => [fst cb; snd cb]) more.

(** Every pair of [more] is a comma and a name. *)
Definition separated_names (more : list (token * token)) : bool :=
  forallb (fun cb => type_is (tok_type (fst cb)) TOKEN_COMMA
                     && ends_expression (fst cb) && is_name (snd cb)) more.

(** The position [fail] reports without one of its own: that of the next
    token, counted from 1, or none at the end of the input. *)
Definition reported_line (rest : list token) : pos :=
  option_map (fun t => S (tok_lineno t)) (hd_error rest).

Definition reported_column (rest : list token) : pos :=
  option_map (fun t => S (tok_colno t)) (hd_error rest).

(** The parsers at [[a] }}] in [{{ x[a] }}], at [[a, b] }}] in
    [{{ x[a, b] }}], and at [.a }}] and [.1 }}]. *)
Definition parser_at_one_index : Parser :=
  init (lexer_of [tk TOKEN_LEFT_BRACKET "[" 4; tk TOKEN_SYMBOL "a" 5;
                  tk TOKEN_RIGHT_BRACKET "]" 6; ws 7;
                  tk TOKEN_VARIABLE_END "}}" 8]).

Definition parser_at_two_indices : Parser :=
  init (lexer_of [tk TOKEN_LEFT_BRACKET "[" 4; tk TOKEN_SYMBOL "a" 5;
                  tk TOKEN_COMMA "," 6; ws 7; tk TOKEN_SYMBOL "b" 8;
                  tk TOKEN_RIGHT_BRACKET "]" 9; ws 10;
                  tk TOKEN_VARIABLE_END "}}" 11]).

Definition parser_at_dot_name : Parser :=
  init (lexer_of [tk TOKEN_OPERATOR "." 4; tk TOKEN_SYMBOL "a" 5; ws 6;
                  tk TOKEN_VARIABLE_END "}}" 7]).

Definition parser_at_dot_number : Parser :=
  init (lexer_of [tk TOKEN_OPERATOR "." 4; tk TOKEN_INT "1" 5; ws 6;
                  tk TOKEN_VARIABLE_END "}}" 7]).

(** ** Termination *)

(** The number of tokens still to be read, whitespace included. *)
Definition size (p : Parser) : nat := length (pending p).

(** A lexer in whose input the regular expression of [parseRaw] finds
    nothing: [_extractRegex] returns [null] and leaves the input as it
    is. *)
Definition plain_lexer (l : tokenizer) : Prop :=
  forall tagName ts, _extractRegex l tagName ts = (None, ts).

(** [p] has at most [k] tokens to read, from the lexer [l] at some point of
    its input. *)
Definition within (l : tokenizer) (k : nat) (p : Parser) : Prop :=
  size p <= k /\ set_stream [] (tokens p) = set_stream [] l.

(** The bound on what is left after a token has been consumed out of at
    most [k]. *)
Definition one_less (k : nat) : option nat :=
  match k with
  | O => None
  | S j => Some j
  end.

(** The routine [m], given as a function of its fuel and run from a parser
    with at most [k] tokens to read, comes to an end: from some fuel on it
    returns or throws, with the same outcome and parser whatever the fuel;
    when it returns [a], at most [k'] tokens are left, where
    [post a = Some k']. *)
Definition halts {A} (l : tokenizer) (m : nat -> M A)
  (post : A -> option nat) (k : nat) : Prop :=
  forall p,
    within l k p ->
    exists n0 r p',
      (forall n, n0 <= n -> m n p = (r, p'))
      /\ match r with
         | Ret a =>
             match post a with
             | Some k' => within l k' p'
             | None => False
             end
         | Throw _ => True
         | OutOfFuel => False
         end.

(** Every routine of the expression grammar halts at the level [k]: those
    that consume a token when they return leave less than they found. *)
Definition expr_halts (l : tokenizer) (tn : token_type -> string) (k : nat)
  : Prop :=
  halts l (parseExpression tn) (fun _ => one_less k) k
  /\ halts l (parseInlineIf tn) (fun _ => one_less k) k
  /\ halts l (parseOr tn) (fun _ => one_less k) k
  /\ halts l (parseAnd tn) (fun _ => one_less k) k
  /\ halts l (parseNot tn) (fun _ => one_less k) k
  /\ halts l (parseIn tn) (fun _ => one_less k) k
  /\ (forall nd,
         halts l (fun n => parseIn_loop tn n nd) (fun _ => Some k) k)
  /\ halts l (parseCompare tn) (fun _ => one_less k) k
  /\ (forall ops,
         halts l (fun n => parseCompare_loop tn n ops) (fun _ => Some k) k)
  /\ halts l (parseConcat tn) (fun _ => one_less k) k
  /\ halts l (parseAdd tn) (fun _ => one_less k) k
  /\ halts l (parseSub tn) (fun _ => one_less k) k
  /\ halts l (parseMul tn) (fun _ => one_less k) k
  /\ halts l (parseDiv tn) (fun _ => one_less k) k
  /\ halts l (parseFloorDiv tn) (fun _ => one_less k) k
  /\ halts l (parseMod tn) (fun _ => one_less k) k
  /\ halts l (parsePow tn) (fun _ => one_less k) k
  /\ (forall noFilters,
         halts l (fun n => parseUnary tn n noFilters)
           (fun _ => one_less k) k)
  /\ (forall noPostfix,
         halts l (fun n => parsePrimary tn n noPostfix)
           (fun _ => one_less k) k)
  /\ (forall nd,
         halts l (fun n => parsePostfix tn n nd) (fun _ => Some k) k)
  /\ (forall nd,
         halts l (fun n => parseFilterArgs tn n nd) (fun _ => Some k) k)
  /\ (forall nd,
         halts l (fun n => parseFilter tn n nd) (fun _ => Some k) k)
  /\ halts l (parseAggregate tn) (fun _ => one_less k) k
  /\ (forall tok dict children,
         halts l (fun n => parseAggregate_loop tn n tok dict children)
           (fun _ => Some k) k)
  /\ (forall tolerant noParens,
         halts l (fun n => parseSignature tn n tolerant noParens)
           (fun _ => if tolerant || noParens then Some k else one_less k) k)
  /\ (forall noParens open args kwargs checkComma,
         halts l
           (fun n => parseSignature_loop tn n noParens open args kwargs
                       checkComma)
           (fun _ => Some k) k).

(** Every routine of the statement grammar halts at the level [k], without
    extensions. *)
Definition stmt_halts (l : tokenizer) (tn : token_type -> string) (k : nat)
  : Prop :=
  halts l (parseFor tn []) (fun _ => Some k) k
  /\ halts l (parseMacro tn []) (fun _ => Some k) k
  /\ halts l (parseCall tn []) (fun _ => Some k) k
  /\ halts l (parseBlock tn []) (fun _ => Some k) k
  /\ halts l (parseIf tn []) (fun _ => Some k) k
  /\ halts l (parseSet tn []) (fun _ => Some k) k
  /\ halts l (parseFilterStatement tn []) (fun _ => Some k) k
  /\ halts l (parseStatement tn []) (fun _ => Some k) k
  /\ (forall blockNames,
         halts l (fun n => parseUntilBlocks tn [] n blockNames)
           (fun _ => Some k) k)
  /\ (forall buf,
         halts l (fun n => parseNodes tn [] n buf) (fun _ => Some k) k)
  /\ halts l (parse tn []) (fun _ => Some k) k.


(** * Properties *)

(** ** The monad *)

Lemma bind_Ret {A B} (m : M A) (k : A -> M B) p a p1 :
  m p = (Ret a, p1) -> bind m k p = k a p1.
Proof. intros H. unfold bind. rewrite H. reflexivity. Qed.

Lemma bind_Throw {A B} (m : M A) (k : A -> M B) p e p1 :
  m p = (Throw e, p1) -> bind m k p = (Throw e, p1).
Proof. intros H. unfold bind. rewrite H. reflexivity. Qed.

Lemma bind_OutOfFuel {A B} (m : M A) (k : A -> M B) p p1 :
  m p = (OutOfFuel, p1) -> bind m k p = (OutOfFuel, p1).
Proof. intros H. unfold bind. rewrite H. reflexivity. Qed.

Lemma bind_ret {A B} (a : A) (k : A -> M B) p : bind (ret a) k p = k a p.
Proof. reflexivity. Qed.

Lemma bind_Ret_inv {A B} (m : M A) (k : A -> M B) p b p2 :
  bind m k p = (Ret b, p2) ->
  exists a p1, m p = (Ret a, p1) /\ k a p1 = (Ret b, p2).
Proof.
  unfold bind. destruct (m p) as [[a | e |] p1]; intros H.
  - exists a, p1. split; [reflexivity | exact H].
  - discriminate H.
  - discriminate H.
Qed.

(** ** The token cursor *)

Section Cursor.

Lemma set_peeked_same p : peeked p = None -> set_peeked None p = p.
Proof. destruct p as [l pk b d]. simpl. intros ->. reflexivity. Qed.

Lemma set_peeked_back p tok :
  peeked p = Some tok -> set_peeked (Some tok) (set_peeked None p) = p.
Proof. destruct p as [l pk b d]. simpl. intros ->. reflexivity. Qed.

(** The loop that skips whitespace never stops on a whitespace token. *)
Lemma skip_whitespace_result ts : forall tok tok' ts',
  skip_whitespace tok ts = (Some tok', ts') -> is_whitespace tok' = false.
Proof.
  induction ts as [| t r IH]; intros tok tok' ts' H.
  - destruct tok as [t0 |]; simpl in H.
    + destruct (is_whitespace t0) eqn:E.
      * discriminate H.
      * injection H as -> _. exact E.
    + discriminate H.
  - destruct tok as [t0 |]; simpl in H.
    + destruct (is_whitespace t0) eqn:E.
      * exact (IH _ _ _ H).
      * injection H as -> _. exact E.
    + discriminate H.
Qed.

Lemma is_whitespace_false tok :
  is_whitespace tok = false -> tok_type tok <> TOKEN_WHITESPACE.
Proof.
  unfold is_whitespace, type_is.
  destruct (token_type_eq_dec (tok_type tok) TOKEN_WHITESPACE).
  - discriminate.
  - intros _. assumption.
Qed.

Lemma is_whitespace_true tok :
  tok_type tok = TOKEN_WHITESPACE -> is_whitespace tok = true.
Proof.
  unfold is_whitespace, type_is. intros ->.
  destruct (token_type_eq_dec TOKEN_WHITESPACE TOKEN_WHITESPACE);
    [reflexivity | contradiction].
Qed.

Lemma readToken_result p tok p' :
  readToken false p = (Ret (Some tok), p') -> is_whitespace tok = false.
Proof.
  unfold readToken.
  destruct (lex_nextToken (tokens p)) as [t l].
  destruct (skip_whitespace t (stream l)) as [t' ts] eqn:E.
  intros H. injection H as -> _.
  exact (skip_whitespace_result _ _ _ _ E).
Qed.

(** [nextToken] and [peekToken] never throw. *)
Lemma nextToken_returns w p : exists tok p', nextToken w p = (Ret tok, p').
Proof.
  assert (R : forall q, exists tok q', readToken w q = (Ret tok, q')).
  { intros q. unfold readToken.
    destruct (lex_nextToken (tokens q)) as [t l].
    destruct w.
    - eauto.
    - destruct (skip_whitespace t (stream l)) as [t' ts]. eauto. }
  unfold nextToken. destruct (peeked p) as [tok |].
  - destruct (negb w && is_whitespace tok); [apply R | eauto].
  - apply R.
Qed.

(** C6: after [pushToken(tok)] on an empty pushback slot, [peekToken()] and
    [nextToken(true)] return [tok]; [peekToken] leaves it in the slot and
    [nextToken] empties the slot again. *)
Theorem pushToken_then_read p tok :
  peeked p = None ->
  pushToken (Some tok) p = (Ret tt, set_peeked (Some tok) p)
  /\ peekToken (set_peeked (Some tok) p)
     = (Ret (Some tok), set_peeked (Some tok) p)
  /\ nextToken true (set_peeked (Some tok) p) = (Ret (Some tok), p).
Proof.
  intros H. split; [| split].
  - unfold pushToken. rewrite H. reflexivity.
  - reflexivity.
  - unfold nextToken. simpl. destruct p as [l pk b d]. simpl in H.
    subst pk. reflexivity.
Qed.

(** C7, as the code has it: [pushToken] on a full pushback slot throws a
    plain [Error], which carries no position, with the message below; the
    parser is left as it was. *)
Theorem pushToken_twice p tok held :
  peeked p = Some held ->
  pushToken tok p
  = (Throw (Error "pushToken: can only push one token on between reads"), p).
Proof. intros H. unfold pushToken. rewrite H. reflexivity. Qed.

End Cursor.

(** [fail] never returns. *)
Lemma fail_not_Ret {A} msg l c p (r : A) p' : fail msg l c p <> (Ret r, p').
Proof.
  unfold fail, bind.
  match goal with
  | |- context [match ?m p with _ => _ end] => destruct (m p) as [[lc | e |] q]
  end; discriminate.
Qed.

(** ** Fuel

    A routine that has returned or thrown with some fuel does the same with
    more: the outcomes below do not depend on the fuel that was given, as
    long as it is enough. *)

Lemma fuel_le_refl {A} (m : M A) : fuel_le m m.
Proof. intros p r p' H _. exact H. Qed.

Lemma fuel_le_out_of_fuel {A} (m : M A) : fuel_le out_of_fuel m.
Proof. intros p r p' H Hr. injection H as <- _. contradiction. Qed.

Lemma fuel_le_bind {A B} (m1 m2 : M A) (k1 k2 : A -> M B) :
  fuel_le m1 m2 -> (forall a, fuel_le (k1 a) (k2 a)) ->
  fuel_le (bind m1 k1) (bind m2 k2).
Proof.
  intros Hm Hk p r p'. unfold bind.
  destruct (m1 p) as [[a | e |] p1] eqn:E; intros H Hr.
  - rewrite (Hm p _ _ E); [| discriminate]. exact (Hk a p1 r p' H Hr).
  - rewrite (Hm p _ _ E); [| discriminate]. exact H.
  - injection H as <- _. contradiction.
Qed.

(** Both sides are the same routine at two amounts of fuel: descend through
    [bind] and the case distinctions they share, down to the recursive
    calls, which the hypotheses compare. *)
Ltac mono :=
  repeat first
    [ match goal with |- fuel_le ?m ?m => simple apply fuel_le_refl end
    | match goal with H : _ |- fuel_le _ _ => simple apply H end
    | match goal with |- _ <= _ => first [assumption | lia] end
    | simple apply fuel_le_bind; [| intro ]
    | match goal with
      | |- fuel_le (match ?x with _ => _ end) (match ?x with _ => _ end) =>
          destruct x eqn:?
      end
    | progress cbv beta zeta ].

Section Fuel.

Variable type_name : token_type -> string.

Lemma binop_loop_mono skipOp op1 op2 mk :
  fuel_le op1 op2 ->
  forall n m, n <= m ->
  forall nd,
    fuel_le (binop_loop n skipOp op1 mk nd) (binop_loop m skipOp op2 mk nd).
Proof.
  intros Hop. induction n as [| n IH]; intros m Hm nd.
  - apply fuel_le_out_of_fuel.
  - destruct m as [| m]; [lia |]. specialize (IH m (le_S_n _ _ Hm)).
    simpl. mono.
Qed.

Lemma parseFilterName_loop_mono : forall n m, n <= m ->
  forall name,
    fuel_le (parseFilterName_loop type_name n name)
      (parseFilterName_loop type_name m name).
Proof.
  induction n as [| n IH]; intros m Hm name.
  - apply fuel_le_out_of_fuel.
  - destruct m as [| m]; [lia |]. specialize (IH m (le_S_n _ _ Hm)).
    simpl. mono.
Qed.

Lemma parseFilterName_mono n m :
  n <= m -> fuel_le (parseFilterName type_name n) (parseFilterName type_name m).
Proof.
  intros Hm. pose proof (parseFilterName_loop_mono n m Hm) as L.
  unfold parseFilterName. mono.
Qed.

Lemma expr_mono_all : forall n m, n <= m -> expr_mono type_name n m.
Proof.
  induction n as [| n IH]; intros m Hm.
  - unfold expr_mono.
    repeat apply conj; intros; apply fuel_le_out_of_fuel.
  - destruct m as [| m]; [lia |].
    assert (Hnm : n <= m) by lia.
    pose proof binop_loop_mono as BL.
    pose proof (parseFilterName_mono n m Hnm) as FN.
    specialize (IH m Hnm). unfold expr_mono in IH.
    decompose [and] IH. clear IH.
    unfold expr_mono.
    repeat apply conj; intros; simpl; solve [mono].
Qed.

Ltac expr_facts n m H :=
  let E := fresh "E" in
  pose proof (expr_mono_all n m H) as E; unfold expr_mono in E;
  decompose [and] E; clear E.

Lemma parseExpression_mono n m :
  n <= m -> fuel_le (parseExpression type_name n) (parseExpression type_name m).
Proof. intros H. expr_facts n m H. assumption. Qed.

Lemma parseFrom_loop_mono : forall n m, n <= m ->
  forall fromTok names withContext,
    fuel_le (parseFrom_loop type_name n fromTok names withContext)
      (parseFrom_loop type_name m fromTok names withContext).
Proof.
  induction n as [| n IH]; intros m Hm fromTok names withContext.
  - apply fuel_le_out_of_fuel.
  - destruct m as [| m]; [lia |]. assert (Hnm : n <= m) by lia.
    specialize (IH m Hnm). expr_facts n m Hnm. simpl. mono.
Qed.

Lemma parseFor_targets_mono : forall n m, n <= m ->
  forall children,
    fuel_le (parseFor_targets type_name n children)
      (parseFor_targets type_name m children).
Proof.
  induction n as [| n IH]; intros m Hm children.
  - apply fuel_le_out_of_fuel.
  - destruct m as [| m]; [lia |]. assert (Hnm : n <= m) by lia.
    specialize (IH m Hnm). expr_facts n m Hnm. simpl. mono.
Qed.

Lemma parseSet_targets_mono : forall n m, n <= m ->
  forall targets,
    fuel_le (parseSet_targets type_name n targets)
      (parseSet_targets type_name m targets).
Proof.
  induction n as [| n IH]; intros m Hm targets.
  - apply fuel_le_out_of_fuel.
  - destruct m as [| m]; [lia |]. assert (Hnm : n <= m) by lia.
    specialize (IH m Hnm). expr_facts n m Hnm. simpl. mono.
Qed.

Lemma parseRaw_loop_mono : forall n m, n <= m ->
  forall tagName endTagName rawLevel str,
    fuel_le (parseRaw_loop n tagName endTagName rawLevel str)
      (parseRaw_loop m tagName endTagName rawLevel str).
Proof.
  induction n as [| n IH]; intros m Hm tagName endTagName rawLevel str.
  - apply fuel_le_out_of_fuel.
  - destruct m as [| m]; [lia |]. assert (Hnm : n <= m) by lia.
    specialize (IH m Hnm). simpl. mono.
Qed.

Lemma parseRaw_mono n m tagName :
  n <= m -> fuel_le (parseRaw n tagName) (parseRaw m tagName).
Proof.
  intros H. pose proof (parseRaw_loop_mono n m H) as RL.
  unfold parseRaw. mono.
Qed.

Lemma parseImport_mono n m :
  n <= m -> fuel_le (parseImport type_name n) (parseImport type_name m).
Proof. intros H. expr_facts n m H. unfold parseImport. mono. Qed.

Lemma parseFrom_mono n m :
  n <= m -> fuel_le (parseFrom type_name n) (parseFrom type_name m).
Proof.
  intros H. pose proof (parseFrom_loop_mono n m H) as FL. expr_facts n m H.
  unfold parseFrom. mono.
Qed.

Lemma parseExtends_mono n m :
  n <= m -> fuel_le (parseExtends type_name n) (parseExtends type_name m).
Proof. intros H. expr_facts n m H. unfold parseExtends. mono. Qed.

Lemma parseInclude_mono n m :
  n <= m -> fuel_le (parseInclude type_name n) (parseInclude type_name m).
Proof. intros H. expr_facts n m H. unfold parseInclude. mono. Qed.

Variable extensions : list extension.
Hypothesis extensions_monotone : Forall ext_monotone extensions.

Lemma stmt_mono_all : forall n m, n <= m -> stmt_mono type_name extensions n m.
Proof.
  induction n as [| n IH]; intros m Hm.
  - unfold stmt_mono.
    repeat apply conj; intros; apply fuel_le_out_of_fuel.
  - destruct m as [| m]; [lia |].
    assert (Hnm : n <= m) by lia.
    pose proof (parseFilterName_mono n m Hnm) as FN.
    pose proof (parseFor_targets_mono n m Hnm) as FT.
    pose proof (parseSet_targets_mono n m Hnm) as ST.
    pose proof (fun t => parseRaw_mono n m t Hnm) as RW.
    pose proof (parseExtends_mono n m Hnm) as PE.
    pose proof (parseInclude_mono n m Hnm) as PI.
    pose proof (parseImport_mono n m Hnm) as PM.
    pose proof (parseFrom_mono n m Hnm) as PF.
    specialize (IH m Hnm). unfold stmt_mono in IH.
    decompose [and] IH. clear IH.
    expr_facts n m Hnm.
    unfold stmt_mono.
    repeat apply conj; intros; simpl; try solve [mono].
    mono.
    match goal with
    | F : find _ extensions = Some ?e |- _ =>
        apply find_some in F; destruct F as [F _];
        apply (proj1 (Forall_forall _ _) extensions_monotone e F)
    end.
    unfold api_le. simpl. repeat apply conj; intros; mono.
Qed.

(** More fuel does not change what [parseAsRoot] does. *)
Lemma parseAsRoot_mono n m :
  n <= m ->
  fuel_le (parseAsRoot type_name extensions n)
    (parseAsRoot type_name extensions m).
Proof.
  intros H. pose proof (stmt_mono_all n m H) as S. unfold stmt_mono in S.
  decompose [and] S. unfold parseAsRoot. mono.
Qed.

Lemma parse_lexed_mono n m lexed r p' :
  n <= m ->
  parse_lexed type_name extensions n lexed = (r, p') ->
  r <> OutOfFuel ->
  parse_lexed type_name extensions m lexed = (r, p').
Proof.
  intros H E Hr. exact (parseAsRoot_mono n m H _ _ _ E Hr).
Qed.

End Fuel.

(** ** The nodes the expression routines return

    [lineno] and [colno] are read from the results of the routines below;
    none of them returns [Null] ([parsePrimary] fails instead), so that no
    [TypeError] is lost by giving [Null] no position. *)

Lemma returns_bind {A B} (Q : A -> Prop) (P : B -> Prop) (m : M A)
  (k : A -> M B) :
  returns Q m -> (forall a, Q a -> returns P (k a)) -> returns P (bind m k).
Proof.
  intros Hm Hk p b p' H. apply bind_Ret_inv in H.
  destruct H as (a & p1 & H1 & H2). exact (Hk a (Hm _ _ _ H1) _ _ _ H2).
Qed.

Lemma returns_any {A} (m : M A) : returns (fun _ => True) m.
Proof. intros p a p' _. exact I. Qed.

Lemma returns_ret {A} (P : A -> Prop) a : P a -> returns P (ret a).
Proof. intros H p a' p' E. injection E as <- _. exact H. Qed.

Lemma returns_fail {A} (P : A -> Prop) msg l c : returns P (fail msg l c).
Proof. intros p a p' E. exfalso. exact (fail_not_Ret _ _ _ _ _ _ E). Qed.

Lemma returns_out_of_fuel {A} (P : A -> Prop) : returns P out_of_fuel.
Proof. intros p a p' E. discriminate E. Qed.

Ltac nn :=
  repeat first
    [ simple apply returns_fail
    | simple apply returns_out_of_fuel
    | simple apply returns_ret
    | match goal with H : _ |- returns not_null _ => simple apply H end
    | match goal with
      | |- not_null _ =>
          first [ assumption | reflexivity
                | apply negb_true_iff; assumption ]
      end
    | match goal with
      | |- not_null (match ?x with _ => _ end) => destruct x
      end
    | simple eapply returns_bind;
      [ first [ match goal with H : _ |- returns _ _ => simple apply H end
              | solve [refine (_ : returns not_null _); nn]
              | simple apply returns_any ]
      | cbv beta; intros ? ? ]
    | match goal with
      | |- returns _ (match ?x with _ => _ end) => destruct x eqn:?
      end
    | match goal with |- forall _, _ => intro end
    | progress cbv beta zeta ].

Section Results.

Variable type_name : token_type -> string.

Lemma binop_loop_not_null skipOp operand mk :
  (forall l c a b, not_null (mk l c a b)) ->
  forall n nd,
    not_null nd -> returns not_null (binop_loop n skipOp operand mk nd).
Proof.
  intros Hmk. induction n as [| n IH]; intros nd Hnd; simpl.
  - apply returns_out_of_fuel.
  - nn. apply Hmk.
Qed.

Lemma expr_not_null_all : forall n, expr_not_null type_name n.
Proof.
  induction n as [| n IH].
  - unfold expr_not_null.
    repeat apply conj; intros; apply returns_out_of_fuel.
  - unfold expr_not_null in IH. decompose [and] IH. clear IH.
    pose proof binop_loop_not_null as BL.
    unfold expr_not_null.
    repeat apply conj; intros; simpl; solve [nn].
Qed.

(** No expression is [Null], and no primary. *)
Lemma parseExpression_not_null n p nd p' :
  parseExpression type_name n p = (Ret nd, p') -> nd <> Null.
Proof.
  intros H E. subst nd.
  pose proof (expr_not_null_all n) as N. unfold expr_not_null in N.
  destruct N as [N _]. discriminate (N _ _ _ H).
Qed.

Lemma parsePrimary_not_null n noPostfix p nd p' :
  parsePrimary type_name n noPostfix p = (Ret nd, p') -> nd <> Null.
Proof.
  intros H E. subst nd.
  pose proof (expr_not_null_all n) as N. unfold expr_not_null in N.
  decompose [and] N.
  match goal with
  | K : forall noPostfix, returns not_null (parsePrimary _ _ noPostfix) |- _ =>
      discriminate (K _ _ _ _ H)
  end.
Qed.

End Results.

(** ** The grammar *)

Section GrammarFacts.

Variable type_name : token_type -> string.
Variable extensions : list extension.

Lemma bind_assoc {A B C} (m : M A) (f : A -> M B) (g : B -> M C) p :
  bind (bind m f) g p = bind m (fun x => bind (f x) g) p.
Proof. unfold bind. destruct (m p) as [[a | e |] p1]; reflexivity. Qed.

(** *** parseUntilBlocks *)

Lemma parseUntilBlocks_S n blockNames :
  parseUntilBlocks type_name extensions (S n) blockNames
  = (prev <- get breakOnBlocks ;;
     modify (set_breakOnBlocks (Some blockNames)) ;;
     ret_ <- parse type_name extensions n ;;
     modify (set_breakOnBlocks prev) ;;
     ret ret_).
Proof. reflexivity. Qed.


(** *** The additive levels *)

Lemma parseAdd_S n :
  parseAdd type_name (S n)
  = (nd <- parseSub type_name n ;;
     binop_loop n plus (parseSub type_name n) Add nd).
Proof. reflexivity. Qed.

Lemma parseSub_S n :
  parseSub type_name (S n)
  = (nd <- parseMul type_name n ;;
     binop_loop n minus (parseMul type_name n) Sub nd).
Proof. reflexivity. Qed.

Lemma binop_loop_more n skipOp operand mk nd p p1 nd2 p2 :
  skipOp p = (Ret true, p1) ->
  operand p1 = (Ret nd2, p2) ->
  binop_loop (S n) skipOp operand mk nd p
  = binop_loop n skipOp operand mk (mk (lineno nd) (colno nd) nd nd2) p2.
Proof.
  intros H1 H2. simpl.
  rewrite (bind_Ret _ _ _ _ _ H1). rewrite (bind_Ret _ _ _ _ _ H2).
  reflexivity.
Qed.

Lemma binop_loop_done n skipOp operand mk nd p p1 :
  skipOp p = (Ret false, p1) ->
  binop_loop (S n) skipOp operand mk nd p = (Ret nd, p1).
Proof. intros H. simpl. rewrite (bind_Ret _ _ _ _ _ H). reflexivity. Qed.

(** The two loops on the rest of a chain: the loop of [parseSub] with
    [group], followed by the loop of [parseAdd] with the sum closed by the
    result. *)
Lemma additive_loops n items : forall p p' sum group kin kout,
  reads_chain type_name n p items p' ->
  length items < n -> length items < kin -> length items < kout ->
  bind (binop_loop kin minus (parseMul type_name n) Sub group)
    (fun g => binop_loop kout plus (parseSub type_name (S n)) Add
                (close_group sum g)) p
  = (Ret (chain_tree sum group items), p').
Proof.
  intros p p' sum group kin kout R. revert sum group kin kout.
  induction R as [p p1 p2 Hm Hp
                 | p p1 b p2 items p' Hm Hb R IH
                 | p p1 p2 b p3 items p' Hm Hp Hb R IH];
    intros sum group kin kout Hn Hin Hout; simpl in Hn, Hin, Hout.
  - destruct kin as [| kin]; [lia |]. destruct kout as [| kout]; [lia |].
    rewrite (bind_Ret _ _ _ _ _ (binop_loop_done _ _ _ _ _ _ _ Hm)).
    exact (binop_loop_done _ _ _ _ _ _ _ Hp).
  - destruct kin as [| kin]; [lia |].
    unfold bind at 1. rewrite (binop_loop_more _ _ _ _ _ _ _ _ _ Hm Hb).
    apply (IH sum _ kin kout); lia.
  - destruct kin as [| kin]; [lia |]. destruct kout as [| kout]; [lia |].
    rewrite (bind_Ret _ _ _ _ _ (binop_loop_done _ _ _ _ _ _ _ Hm)).
    cbn [binop_loop]. rewrite (bind_Ret _ _ _ _ _ Hp).
    rewrite parseSub_S. rewrite bind_assoc.
    rewrite (bind_Ret _ _ _ _ _ Hb).
    apply (IH (Some (close_group sum group)) b n kout); lia.
Qed.

(** C2, as the code has it: [+] and [-] are two levels, [-] binding
    tighter, each left-associative. A chain of [parseMul] operands joined
    by [+] and [-] parses to the left-nested [Add] of its runs of [-], each
    a left-nested [Sub]; so [a + b - c] is [Add(a, Sub(b, c))] and
    [a - b + c] is [Add(Sub(a, b), c)]. *)
Theorem parseAdd_chain n a items p p1 p' :
  parseMul type_name n p = (Ret a, p1) ->
  reads_chain type_name n p1 items p' ->
  length items < n ->
  parseAdd type_name (S (S n)) p = (Ret (chain_tree None a items), p')
  /\ (forall b c,
         chain_tree None a [(Plus, b); (Minus, c)]
         = Add (lineno a) (colno a) a (Sub (lineno b) (colno b) b c))
  /\ (forall b c,
         chain_tree None a [(Minus, b); (Plus, c)]
         = Add (lineno a) (colno a) (Sub (lineno a) (colno a) a b) c).
Proof.
  intros Ha R Hn. split; [| split; reflexivity].
  rewrite parseAdd_S, parseSub_S, bind_assoc.
  rewrite (bind_Ret _ _ _ _ _ Ha).
  apply (additive_loops n items p1 p' None a n (S n) R); lia.
Qed.

(** *** Precedence on a template *)

(** C3: the tokens of [{{ 1 + 2 * 3 ** 2 }}], wherever the lexer found
    them, parse to a root whose only child is
    [Output[Add(Literal(1), Mul(Literal(2), Pow(Literal(3), Literal(2))))]]:
    [**] binds tighter than [*], which binds tighter than [+]. Every node
    has the position of its first token, every token is consumed, and any
    fuel from 40 on gives this result. *)
Theorem parse_arith_precedence at_ fuel :
  Forall ext_monotone extensions ->
  40 <= fuel ->
  parse_lexed type_name extensions fuel (lexer_of (tokens_arith at_))
  = (Ret
       (Root (Some 0) (Some 0)
          [Output (line_at at_ 0) (col_at at_ 0)
             [Add (line_at at_ 2) (col_at at_ 2)
                (Literal (line_at at_ 2) (col_at at_ 2) (VNum 1))
                (Mul (line_at at_ 6) (col_at at_ 6)
                   (Literal (line_at at_ 6) (col_at at_ 6) (VNum 2))
                   (Pow (line_at at_ 10) (col_at at_ 10)
                      (Literal (line_at at_ 10) (col_at at_ 10) (VNum 3))
                      (Literal (line_at at_ 14) (col_at at_ 14)
                         (VNum 2))))]]),
     init (lexer_of [])).
Proof.
  intros Hext Hfuel.
  apply (parse_lexed_mono type_name extensions Hext 40 fuel _ _ _ Hfuel).
  - vm_compute. reflexivity.
  - discriminate.
Qed.

(** *** Whitespace control *)

Lemma readToken_latch w p tok p' :
  readToken w p = (Ret tok, p') ->
  dropLeadingWhitespace p' = dropLeadingWhitespace p.
Proof.
  unfold readToken. destruct (lex_nextToken (tokens p)) as [t l].
  destruct w.
  - intros H. injection H as _ <-. reflexivity.
  - destruct (skip_whitespace t (stream l)) as [t' ts].
    intros H. injection H as _ <-. reflexivity.
Qed.

Lemma nextToken_latch w p tok p' :
  nextToken w p = (Ret tok, p') ->
  dropLeadingWhitespace p' = dropLeadingWhitespace p.
Proof.
  unfold nextToken. destruct (peeked p) as [pk |].
  - destruct (negb w && is_whitespace pk).
    + intros H. apply readToken_latch in H. exact H.
    + intros H. injection H as _ <-. reflexivity.
  - apply readToken_latch.
Qed.

Lemma peekToken_returns p : exists tok p', peekToken p = (Ret tok, p').
Proof.
  unfold peekToken. destruct (peeked p) as [pk |]; [eauto |].
  destruct (nextToken_returns false p) as (tok & p1 & H).
  rewrite (bind_Ret _ _ _ _ _ H). unfold bind, modify, ret. simpl. eauto.
Qed.

Lemma peekToken_latch p tok p' :
  peekToken p = (Ret tok, p') ->
  dropLeadingWhitespace p' = dropLeadingWhitespace p.
Proof.
  unfold peekToken. destruct (peeked p) as [pk |].
  - intros H. injection H as _ <-. reflexivity.
  - destruct (nextToken_returns false p) as (t & p1 & H).
    rewrite (bind_Ret _ _ _ _ _ H). unfold bind, modify, ret. simpl.
    intros H'. injection H' as _ <-. simpl.
    exact (nextToken_latch _ _ _ _ H).
Qed.

Lemma trim_leading_clean s : no_leading_space (trim_leading s) = true.
Proof.
  induction s as [| c r IH]; simpl; [reflexivity |].
  destruct (is_space c) eqn:E; [exact IH |]. simpl. rewrite E. reflexivity.
Qed.

Lemma trim_trailing_clean s :
  no_leading_space s = true -> no_leading_space (trim_trailing s) = true.
Proof.
  destruct s as [| c r]; simpl; [reflexivity |].
  destruct (is_space c) eqn:E; simpl; [discriminate |].
  intros _. rewrite E. reflexivity.
Qed.

(** What [advanceAfterBlockEnd] returns is the block end it consumed, and
    the latch is set when its value begins with [-]. *)
Lemma advanceAfterBlockEnd_latch name p tok p1 s :
  advanceAfterBlockEnd name p = (Ret tok, p1) ->
  tok_value tok = TStr s ->
  charAt s 0 = "-" ->
  tok_type tok = TOKEN_BLOCK_END /\ dropLeadingWhitespace p1 = true.
Proof.
  intros H Hv Hs. unfold advanceAfterBlockEnd in H.
  apply bind_Ret_inv in H. destruct H as (name' & pa & _ & H).
  apply bind_Ret_inv in H. destruct H as (t & pb & _ & H).
  destruct t as [t |]; [| exfalso; exact (fail_not_Ret _ _ _ _ _ _ H)].
  unfold type_is in H.
  destruct (token_type_eq_dec (tok_type t) TOKEN_BLOCK_END) as [Ht | Ht];
    [| exfalso; exact (fail_not_Ret _ _ _ _ _ _ H)].
  apply bind_Ret_inv in H. destruct H as (dash & pc & Hd & H).
  destruct (tok_value t) as [s' | body flags] eqn:Et;
    [| discriminate Hd].
  unfold ret in Hd. injection Hd as <- <-.
  apply bind_Ret_inv in H. destruct H as (u & pd & Hm & H).
  unfold ret in H. injection H as <- <-.
  rewrite Et in Hv. injection Hv as ->. rewrite Hs in Hm. simpl in Hm.
  unfold modify in Hm. injection Hm as _ <-. split; [exact Ht | reflexivity].
Qed.

Lemma parseNodes_S n buf :
  parseNodes type_name extensions (S n) buf
  = (tok <- nextToken false ;;
     match tok with
     | None => ret buf
     | Some t =>
         if type_is (tok_type t) TOKEN_DATA
         then nd <- parseNodes_data t ;;
              parseNodes type_name extensions n (buf ++ [nd])
         else if type_is (tok_type t) TOKEN_BLOCK_START
         then modify (set_dropLeadingWhitespace false) ;;
              nd <- parseStatement type_name extensions n ;;
              if is_null nd then ret buf
              else parseNodes type_name extensions n (buf ++ [nd])
         else if type_is (tok_type t) TOKEN_VARIABLE_START
         then e <- parseExpression type_name n ;;
              modify (set_dropLeadingWhitespace false) ;;
              advanceAfterVariableEnd ;;
              parseNodes type_name extensions n
                (buf ++ [Output (lineno_of t) (colno_of t) [e]])
         else if type_is (tok_type t) TOKEN_COMMENT
         then tg <- get (fun p => tags (tokens p)) ;;
              dash <- value_charAt_is_dash (tok_value t)
                        (value_length (tok_value t)
                         - strlen (COMMENT_END tg) - 1) ;;
              modify (set_dropLeadingWhitespace dash) ;;
              parseNodes type_name extensions n buf
         else fail ("Unexpected token at top-level: "
                    ++ type_name (tok_type t))
                (lineno_of t) (colno_of t)
     end).
Proof. reflexivity. Qed.

(** The node for a [TOKEN_DATA] token when the latch is set: the text with
    its leading whitespace removed (and its trailing whitespace too when
    [strip] says that the next marker asks for it); the latch is cleared. *)
Lemma parseNodes_data_latched data text p :
  tok_value data = TStr text ->
  dropLeadingWhitespace p = true ->
  (forall nt p', peekToken p = (Ret (Some nt), p') ->
                 exists v, tok_value nt = TStr v) ->
  exists strip p',
    parseNodes_data data p
    = (Ret (Output (lineno_of data) (colno_of data)
              [TemplateData (lineno_of data) (colno_of data)
                 (TStr (trimmed strip text))]), p')
    /\ dropLeadingWhitespace p' = false.
Proof.
  intros Hv Hd Hnext.
  destruct (peekToken_returns p) as (nt & p0 & Hp).
  pose proof (peekToken_latch _ _ _ Hp) as Hl. rewrite Hd in Hl.
  assert (Hnv : match nt with
                | Some nt0 => exists v, tok_value nt0 = TStr v
                | None => True
                end).
  { destruct nt as [nt0 |]; [exact (Hnext nt0 p0 Hp) | exact I]. }
  unfold parseNodes_data. rewrite (bind_Ret _ _ _ _ _ Hp).
  cbv beta iota zeta delta [bind ret get modify].
  rewrite Hl, Hv. cbv beta iota.
  destruct nt as [nt0 |].
  - destruct Hnv as (v & Hnv). rewrite Hnv.
    unfold value_charAt_is_dash, ret.
    destruct (type_is (tok_type nt0) TOKEN_BLOCK_START);
      [| destruct (type_is (tok_type nt0) TOKEN_VARIABLE_START);
         [| destruct (type_is (tok_type nt0) TOKEN_COMMENT)]];
      try match goal with
          | |- context [String.eqb ?a ?b] => destruct (String.eqb a b)
          end;
      first [ exists true; eexists; split; reflexivity
            | exists false; eexists; split; reflexivity ].
  - exists false. eexists. split; reflexivity.
Qed.

(** X24: the latch on the way through [advanceAfterBlockEnd]. When it
    has consumed a block end whose value begins with [-], the latch is set;
    when the token the node parser reads next is a [TOKEN_DATA] token, the
    node it pushes holds the token's text without its leading whitespace,
    the latch is cleared, and the loop goes on from there. (The tokens are
    as the lexer makes them: what follows the text carries a string.) *)
Theorem block_end_dash_trims_next_data name p tok p1 s :
  advanceAfterBlockEnd name p = (Ret tok, p1) ->
  tok_value tok = TStr s ->
  charAt s 0 = "-" ->
  tok_type tok = TOKEN_BLOCK_END
  /\ dropLeadingWhitespace p1 = true
  /\ forall data text p2,
      nextToken false p1 = (Ret (Some data), p2) ->
      tok_type data = TOKEN_DATA ->
      tok_value data = TStr text ->
      (forall nt p3, peekToken p2 = (Ret (Some nt), p3) ->
                     exists v, tok_value nt = TStr v) ->
      exists strip p3,
        let emitted := trimmed strip text in
        let out :=
          Output (lineno_of data) (colno_of data)
            [TemplateData (lineno_of data) (colno_of data) (TStr emitted)] in
        parseNodes_data data p2 = (Ret out, p3)
        /\ no_leading_space emitted = true
        /\ dropLeadingWhitespace p3 = false
        /\ forall fuel buf,
            parseNodes type_name extensions (S fuel) buf p1
            = parseNodes type_name extensions fuel (buf ++ [out]) p3.
Proof.
  intros H Hv Hs.
  destruct (advanceAfterBlockEnd_latch _ _ _ _ _ H Hv Hs) as [Ht Hl].
  split; [exact Ht |]. split; [exact Hl |].
  intros data text p2 Hn Hty Htext Hnext.
  pose proof (nextToken_latch _ _ _ _ Hn) as Hl2. rewrite Hl in Hl2.
  destruct (parseNodes_data_latched data text p2 Htext Hl2 Hnext)
    as (strip & p3 & Hd & Hc).
  exists strip, p3. cbv zeta. split; [exact Hd |]. split.
  - unfold trimmed. destruct strip.
    + apply trim_trailing_clean, trim_leading_clean.
    + apply trim_leading_clean.
  - split; [exact Hc |].
    intros fuel buf. rewrite parseNodes_S.
    rewrite (bind_Ret _ _ _ _ _ Hn). rewrite Hty.
    change (type_is TOKEN_DATA TOKEN_DATA) with true. cbv iota.
    rewrite (bind_Ret _ _ _ _ _ Hd). reflexivity.
Qed.

(** *** Errors *)

(** [fail] throws a [TemplateError] with the message it is given. *)
Lemma fail_throws {A} msg l c p :
  exists l' c' p',
    @fail A msg l c p = (Throw (TemplateError msg l' c'), p').
Proof.
  unfold fail.
  destruct (is_undefined l || is_undefined c).
  - destruct (peekToken_returns p) as ([t |] & p0 & Hp).
    + assert (Hp0 : peekToken p0 = (Ret (Some t), p0)).
      { unfold peekToken in *. destruct (peeked p) as [pk |] eqn:E.
        - injection Hp as <- <-. rewrite E. reflexivity.
        - apply bind_Ret_inv in Hp. destruct Hp as (t' & p1 & _ & Hp).
          unfold bind, modify, ret in Hp. simpl in Hp.
          injection Hp as -> <-. reflexivity. }
      rewrite bind_assoc. rewrite (bind_Ret _ _ _ _ _ Hp).
      rewrite bind_assoc. rewrite (bind_Ret _ _ _ _ _ Hp0).
      eexists _, _, _. reflexivity.
    + rewrite bind_assoc. rewrite (bind_Ret _ _ _ _ _ Hp).
      eexists _, _, _. reflexivity.
  - eexists _, _, _. reflexivity.
Qed.

(** [expect] on a stream that still has a token: the token is returned when
    its type is the requested one; otherwise the error names both types and
    carries the position of the token, counted from 1. *)
Lemma expect_next_token type p tok p' :
  nextToken false p = (Ret (Some tok), p') ->
  expect type_name type p
  = if type_is (tok_type tok) type
    then (Ret tok, p')
    else (Throw (TemplateError
                   ("expected " ++ type_name type ++ ", got "
                    ++ type_name (tok_type tok))
                   (Some (S (tok_lineno tok))) (Some (S (tok_colno tok)))),
          p').
Proof.
  intros H. unfold expect. rewrite (bind_Ret _ _ _ _ _ H).
  unfold deref. rewrite bind_ret.
  destruct (type_is (tok_type tok) type); reflexivity.
Qed.

(** [expect] on an exhausted stream reads [tok.type] of [null]. *)
Lemma expect_exhausted type p p' :
  nextToken false p = (Ret None, p') ->
  expect type_name type p
  = (Throw (TypeError "Cannot read properties of null"), p').
Proof. intros H. unfold expect. rewrite (bind_Ret _ _ _ _ _ H). reflexivity. Qed.

(** *** from ... import *)

(** C9, as the code has it: in the loop of [parseFrom] over the imported
    names, at the first name or after a comma, a name that is a symbol
    beginning with an underscore stops the parse with the error below, at
    the position of the name counted from 1. *)
Theorem parseFrom_rejects_underscore
  n fromTok names withContext p nextTok p0 p1 l c s p2 :
  peekToken p = (Ret (Some nextTok), p0) ->
  type_is (tok_type nextTok) TOKEN_BLOCK_END = false ->
  (if (0 <? length names)%nat
   then skip TOKEN_COMMA p0 = (Ret true, p1)
   else p1 = p0) ->
  parsePrimary type_name n false p1
  = (Ret (Symbol (Some l) (Some c) (TStr s)), p2) ->
  charAt s 0 = "_" ->
  parseFrom_loop type_name (S n) fromTok names withContext p
  = (Throw (TemplateError
              "parseFrom: names starting with an underscore cannot be imported"
              (Some (S l)) (Some (S c))), p2).
Proof.
  intros Hpeek Hty Hcomma Hname Hs.
  cbn [parseFrom_loop].
  rewrite (bind_Ret _ _ _ _ _ Hpeek). unfold deref at 1.
  unfold bind at 1. unfold ret at 1. rewrite Hty.
  unfold bind at 1.
  assert (Hc : (if (0 <? length names)%nat
                then b <- skip TOKEN_COMMA ;; ret (negb b)
                else ret false) p0 = (Ret false, p1)).
  { destruct (0 <? length names)%nat.
    - rewrite (bind_Ret _ _ _ _ _ Hcomma). reflexivity.
    - subst p1. reflexivity. }
  rewrite Hc. unfold fail_if at 1. unfold bind at 1. unfold ret at 1.
  rewrite (bind_Ret _ _ _ _ _ Hname).
  unfold starts_with_underscore, value_string. rewrite Hs.
  reflexivity.
Qed.

(** *** for *)

Lemma peekToken_peeked p tok p0 :
  peekToken p = (Ret (Some tok), p0) -> peeked p0 = Some tok.
Proof.
  unfold peekToken. destruct (peeked p) as [pk |] eqn:E.
  - intros H. injection H as <- <-. exact E.
  - intros H. apply bind_Ret_inv in H. destruct H as (t & p1 & _ & H).
    unfold bind, modify, ret in H. simpl in H. injection H as -> <-.
    reflexivity.
Qed.

(** [skipSymbol] when the pushback slot holds a symbol: the symbol is
    consumed when it is the one asked for, and stays in the slot when not. *)
Lemma skipSymbol_peeked p tok kw v :
  peeked p = Some tok ->
  tok_type tok = TOKEN_SYMBOL ->
  tok_value tok = TStr kw ->
  skipSymbol (TStr v) p
  = if String.eqb kw v then (Ret true, set_peeked None p) else (Ret false, p).
Proof.
  intros Hp Ht Hv. unfold skipSymbol, skipValue.
  assert (Hn : nextToken false p = (Ret (Some tok), set_peeked None p)).
  { unfold nextToken. rewrite Hp. unfold is_whitespace. rewrite Ht.
    reflexivity. }
  rewrite (bind_Ret _ _ _ _ _ Hn). rewrite Ht, Hv.
  change (type_is TOKEN_SYMBOL TOKEN_SYMBOL) with true.
  unfold tokval_eqb, value_is. simpl.
  destruct (String.eqb kw v); [reflexivity |].
  unfold bind, pushToken, ret. simpl. rewrite (set_peeked_back _ _ Hp).
  reflexivity.
Qed.

(** The beginning of [parseFor], up to the check of the first target. *)
Lemma parseFor_S n :
  exists rest,
    parseFor type_name extensions (S n)
    = (forTok <- peekToken ;;
       kind <- (f <- skipSymbol (TStr "for") ;;
                if f then ret (For, "endfor")
                else
                  e <- skipSymbol (TStr "asyncEach") ;;
                  if e then ret (AsyncEach, "endeach")
                  else
                    a <- skipSymbol (TStr "asyncAll") ;;
                    if a then ret (AsyncAll, "endall")
                    else forTok <- deref forTok ;;
                         fail "parseFor: expected for{Async}"
                           (lineno_of forTok) (colno_of forTok)) ;;
       forTok <- deref forTok ;;
       name <- parsePrimary type_name n false ;;
       fail_if (negb (is_Symbol name))
         "parseFor: variable name expected for loop" None None ;;
       rest kind forTok name).
Proof. eexists. reflexivity. Qed.

(** The keyword of the block is consumed. *)
Lemma parseFor_keyword p0 forTok kw :
  peeked p0 = Some forTok ->
  tok_type forTok = TOKEN_SYMBOL ->
  tok_value forTok = TStr kw ->
  List.In kw ["for"; "asyncEach"; "asyncAll"] ->
  exists kind,
    (f <- skipSymbol (TStr "for") ;;
     if f then ret (For, "endfor")
     else
       e <- skipSymbol (TStr "asyncEach") ;;
       if e then ret (AsyncEach, "endeach")
       else
         a <- skipSymbol (TStr "asyncAll") ;;
         if a then ret (AsyncAll, "endall")
         else forTok <- deref (Some forTok) ;;
              fail "parseFor: expected for{Async}"
                (lineno_of forTok) (colno_of forTok)) p0
    = (Ret kind, set_peeked None p0).
Proof.
  intros Hpk Ht Hv Hkw. unfold bind.
  destruct Hkw as [<- | [<- | [<- | []]]];
    repeat (rewrite (skipSymbol_peeked _ _ _ _ Hpk Ht Hv); simpl);
    eexists; reflexivity.
Qed.

(** A regex literal that [new RegExp] rejects: the [SyntaxError] of the
    engine leaves [parsePrimary] as it is. *)
Lemma parsePrimary_regexp_rejected n noPostfix p t p1 body flags msg :
  nextToken false p = (Ret (Some t), p1) ->
  tok_type t = TOKEN_REGEX ->
  tok_value t = TRegex body flags ->
  regexp_syntax_error body flags = Some msg ->
  parsePrimary type_name (S n) noPostfix p = (Throw (SyntaxError msg), p1).
Proof.
  intros Hn Hty Hval Herr. simpl.
  rewrite (bind_Ret _ _ _ _ _ Hn). unfold literal_value.
  rewrite Hty, Hval. cbn [js_RegExp]. rewrite Herr. reflexivity.
Qed.

(** C10, as the code has it: in a [for], [asyncEach] or [asyncAll] block,
    a first target that parses to a node other than a [Symbol] stops the
    parse with [parseFor: variable name expected for loop]; a first target
    that does not parse stops it with its own error, before that test: a
    regex literal that [new RegExp] rejects with the [SyntaxError] of the
    engine. The loop over the targets after a comma appends whatever
    [parsePrimary] returns and checks nothing, so that
    [{% for k, 1, [a] in d %}x{% endfor %}] parses with a literal and an
    array among the targets. *)
Theorem parseFor_targets_check n :
  (forall p forTok p0 kw nm p2,
      peekToken p = (Ret (Some forTok), p0) ->
      tok_type forTok = TOKEN_SYMBOL ->
      tok_value forTok = TStr kw ->
      List.In kw ["for"; "asyncEach"; "asyncAll"] ->
      parsePrimary type_name n false (set_peeked None p0) = (Ret nm, p2) ->
      is_Symbol nm = false ->
      exists l c p3,
        parseFor type_name extensions (S n) p
        = (Throw (TemplateError "parseFor: variable name expected for loop"
                    l c), p3))
  /\ (forall p forTok p0 kw t p1 body flags msg,
         peekToken p = (Ret (Some forTok), p0) ->
         tok_type forTok = TOKEN_SYMBOL ->
         tok_value forTok = TStr kw ->
         List.In kw ["for"; "asyncEach"; "asyncAll"] ->
         nextToken false (set_peeked None p0) = (Ret (Some t), p1) ->
         tok_type t = TOKEN_REGEX ->
         tok_value t = TRegex body flags ->
         regexp_syntax_error body flags = Some msg ->
         parseFor type_name extensions (S (S n)) p
         = (Throw (SyntaxError msg), p1))
  /\ (forall children p p1 prim p2,
         skip TOKEN_COMMA p = (Ret true, p1) ->
         parsePrimary type_name n false p1 = (Ret prim, p2) ->
         parseFor_targets type_name (S n) children p
         = parseFor_targets type_name n (children ++ [prim]) p2)
  /\ parse_lexed type_name extensions 40 (lexer_of tokens_for_targets)
     = (Ret
          (Root (Some 0) (Some 0)
             [For (Some 0) (Some 3) (Symbol (Some 0) (Some 20) (TStr "d"))
                (Array (Some 0) (Some 7)
                   [Symbol (Some 0) (Some 7) (TStr "k");
                    Literal (Some 0) (Some 10) (VNum 1);
                    Array (Some 0) (Some 13)
                      [Symbol (Some 0) (Some 14) (TStr "a")]])
                (NodeList (Some 0) (Some 0)
                   [Output (Some 0) (Some 24)
                      [TemplateData (Some 0) (Some 24) (TStr "x")]])
                Null]),
        init (lexer_of [])).
Proof.
  split; [| split; [| split]].
  - intros p forTok p0 kw nm p2 Hpeek Ht Hv Hkw Hprim Hsym.
    pose proof (peekToken_peeked _ _ _ Hpeek) as Hpk.
    destruct (parseFor_S n) as [rest E]. rewrite E.
    rewrite (bind_Ret _ _ _ _ _ Hpeek).
    destruct (parseFor_keyword p0 forTok kw Hpk Ht Hv Hkw) as [kind K].
    rewrite (bind_Ret _ _ _ _ _ K).
    unfold deref at 1. unfold bind at 1. unfold ret at 1.
    rewrite (bind_Ret _ _ _ _ _ Hprim). rewrite Hsym. simpl negb.
    unfold fail_if.
    destruct (@fail_throws unit "parseFor: variable name expected for loop"
                None None p2) as (l & c & p3 & F).
    rewrite (bind_Throw _ _ _ _ _ F). eauto.
  - intros p forTok p0 kw t p1 body flags msg Hpeek Ht Hv Hkw Hn Hty Hval
      Herr.
    pose proof (peekToken_peeked _ _ _ Hpeek) as Hpk.
    destruct (parseFor_S (S n)) as [rest E]. rewrite E.
    rewrite (bind_Ret _ _ _ _ _ Hpeek).
    destruct (parseFor_keyword p0 forTok kw Hpk Ht Hv Hkw) as [kind K].
    rewrite (bind_Ret _ _ _ _ _ K).
    unfold deref at 1. unfold bind at 1. unfold ret at 1.
    rewrite (bind_Throw _ _ _ _ _
               (parsePrimary_regexp_rejected n false _ _ _ _ _ _
                  Hn Hty Hval Herr)).
    reflexivity.
  - intros children p p1 prim p2 Hc Hp. cbn [parseFor_targets].
    rewrite (bind_Ret _ _ _ _ _ Hc). rewrite (bind_Ret _ _ _ _ _ Hp).
    reflexivity.
  - vm_compute. reflexivity.
Qed.

End GrammarFacts.

Section Stream.

Lemma same_context_refl p : same_context p p.
Proof. repeat split. Qed.

Lemma same_context_trans p q r :
  same_context p q -> same_context q r -> same_context p r.
Proof.
  intros (A1 & A2 & A3) (B1 & B2 & B3).
  repeat split; congruence.
Qed.

Lemma significant_head t ts r :
  significant ts = t :: r -> is_whitespace t = false.
Proof.
  unfold significant. intros H.
  assert (K : List.In t (filter (fun t => negb (is_whitespace t)) ts)).
  { rewrite H. left. reflexivity. }
  apply filter_In in K. destruct K as [_ K].
  apply negb_true_iff in K. exact K.
Qed.

(** The loop of [nextToken] stops at the first token that is no
    whitespace. *)
Lemma skip_whitespace_significant ts : forall t,
  exists ts',
    skip_whitespace (Some t) ts = (hd_error (significant (t :: ts)), ts')
    /\ significant ts' = tl (significant (t :: ts)).
Proof.
  induction ts as [| t' r IH]; intros t.
  - simpl. destruct (is_whitespace t); simpl.
    + exists []. split; reflexivity.
    + exists []. split; reflexivity.
  - cbn [skip_whitespace]. destruct (is_whitespace t) eqn:E.
    + destruct (IH t') as (ts' & H1 & H2). exists ts'.
      change (significant (t :: t' :: r))
        with (if negb (is_whitespace t) then t :: significant (t' :: r)
              else significant (t' :: r)).
      rewrite E. simpl negb. cbv iota. split; assumption.
    + exists (t' :: r).
      change (significant (t :: t' :: r))
        with (if negb (is_whitespace t) then t :: significant (t' :: r)
              else significant (t' :: r)).
      rewrite E. simpl negb. cbv iota. split; reflexivity.
Qed.

Lemma readToken_upcoming p :
  peeked p = None ->
  exists p',
    readToken false p = (Ret (hd_error (upcoming p)), p')
    /\ upcoming p' = tl (upcoming p)
    /\ peeked p' = None
    /\ same_context p p'.
Proof.
  intros Hp. unfold readToken, lex_nextToken, upcoming, pending.
  rewrite Hp. destruct p as [l pk b d]. simpl in *. subst pk.
  destruct (stream l) as [| t r] eqn:E.
  - simpl. rewrite E. simpl. eexists. split; [reflexivity |]. simpl.
    repeat split.
  - destruct (skip_whitespace_significant r t) as (ts' & H1 & H2).
    simpl stream. rewrite H1.
    eexists. split; [reflexivity |]. simpl. split; [exact H2 |].
    repeat split.
Qed.

(** [nextToken()] returns the first of the upcoming tokens, [null] when
    there is none, and leaves the rest. *)
Lemma nextToken_upcoming p :
  exists p',
    nextToken false p = (Ret (hd_error (upcoming p)), p')
    /\ upcoming p' = tl (upcoming p)
    /\ peeked p' = None
    /\ same_context p p'.
Proof.
  unfold nextToken. destruct (peeked p) as [t |] eqn:Hp.
  - simpl negb. cbv iota beta. simpl andb.
    destruct (is_whitespace t) eqn:E.
    + destruct (readToken_upcoming (set_peeked None p) eq_refl)
        as (p' & H1 & H2 & H3 & H4).
      exists p'.
      assert (U : upcoming p = upcoming (set_peeked None p)).
      { unfold upcoming, pending. rewrite Hp. simpl.
        rewrite E. reflexivity. }
      rewrite U. repeat split; try assumption; try apply H4.
    + exists (set_peeked None p).
      unfold upcoming, pending. rewrite Hp. simpl. rewrite E. simpl.
      repeat split.
  - apply readToken_upcoming. exact Hp.
Qed.

Lemma upcoming_peeked p t :
  peeked p = Some t -> is_whitespace t = false ->
  upcoming p = t :: upcoming (set_peeked None p).
Proof.
  intros Hp E. unfold upcoming, pending. rewrite Hp. simpl. rewrite E.
  reflexivity.
Qed.

(** [peekToken()] on a clean parser returns the first of the upcoming
    tokens and consumes nothing. *)
Lemma peekToken_upcoming p :
  clean p ->
  exists p',
    peekToken p = (Ret (hd_error (upcoming p)), p')
    /\ upcoming p' = upcoming p
    /\ peeked p' = hd_error (upcoming p)
    /\ clean p'
    /\ same_context p p'.
Proof.
  intros Hc. unfold peekToken. destruct (peeked p) as [t |] eqn:Hp.
  - unfold clean in Hc. rewrite Hp in Hc.
    rewrite (upcoming_peeked _ _ Hp Hc). simpl.
    exists p. split; [reflexivity |].
    split; [exact (upcoming_peeked _ _ Hp Hc) |].
    split; [exact Hp |]. split; [unfold clean; rewrite Hp; exact Hc |].
    apply same_context_refl.
  - destruct (nextToken_upcoming p) as (p1 & H1 & H2 & H3 & H4).
    rewrite (bind_Ret _ _ _ _ _ H1). unfold bind, modify, ret. simpl.
    eexists. split; [reflexivity |].
    destruct (upcoming p) as [| t r] eqn:U; simpl in *.
    + unfold upcoming, pending in *. simpl. rewrite H3 in H2.
      repeat split; try assumption; apply H4.
    + pose proof (significant_head _ _ _ U) as E.
      unfold upcoming, pending in *. simpl. rewrite E. simpl.
      rewrite H3 in H2. rewrite H2.
      repeat split; try assumption; try apply H4.
Qed.

(** [pushToken] after [nextToken]: the slot is empty, so nothing is
    thrown, and the token is first again. *)
Lemma pushToken_upcoming p tok :
  peeked p = None ->
  match tok with Some t => is_whitespace t = false | None => True end ->
  pushToken tok p = (Ret tt, set_peeked tok p)
  /\ upcoming (set_peeked tok p)
     = match tok with Some t => t :: upcoming p | None => upcoming p end
  /\ clean (set_peeked tok p)
  /\ same_context p (set_peeked tok p).
Proof.
  intros Hp Ht. unfold pushToken. rewrite Hp. split; [reflexivity |].
  unfold upcoming, pending, clean. simpl. rewrite Hp.
  destruct tok as [t |]; simpl.
  - rewrite Ht. simpl. repeat split.
  - repeat split.
Qed.

(** The loop condition shared by [skip] and [skipValue]. *)
Lemma skip_if_upcoming (f : token -> bool) p :
  exists p',
    (tok <- nextToken false ;;
     match tok with
     | Some t => if f t then ret true else pushToken tok ;; ret false
     | None => pushToken tok ;; ret false
     end) p = (Ret (first_is f (upcoming p)), p')
    /\ upcoming p'
       = (if first_is f (upcoming p) then tl (upcoming p) else upcoming p)
    /\ clean p'
    /\ same_context p p'.
Proof.
  destruct (nextToken_upcoming p) as (p1 & H1 & H2 & H3 & H4).
  rewrite (bind_Ret _ _ _ _ _ H1).
  destruct (upcoming p) as [| t r] eqn:U; simpl in *.
  - destruct (pushToken_upcoming p1 None H3 I) as (K1 & K2 & K3 & K4).
    rewrite (bind_Ret _ _ _ _ _ K1). eexists. split; [reflexivity |].
    split; [rewrite K2; exact H2 |]. split; [exact K3 |].
    exact (same_context_trans _ _ _ H4 K4).
  - destruct (f t) eqn:F.
    + exists p1. split; [reflexivity |]. split; [exact H2 |].
      split; [unfold clean; rewrite H3; exact I | exact H4].
    + pose proof (significant_head _ _ _ U) as E.
      destruct (pushToken_upcoming p1 (Some t) H3 E) as (K1 & K2 & K3 & K4).
      rewrite (bind_Ret _ _ _ _ _ K1). eexists. split; [reflexivity |].
      split; [rewrite K2, H2; reflexivity |]. split; [exact K3 |].
      exact (same_context_trans _ _ _ H4 K4).
Qed.

Lemma skip_upcoming type p :
  exists p',
    skip type p = (Ret (first_is (has_type type) (upcoming p)), p')
    /\ upcoming p'
       = (if first_is (has_type type) (upcoming p)
          then tl (upcoming p) else upcoming p)
    /\ clean p'
    /\ same_context p p'.
Proof. exact (skip_if_upcoming (has_type type) p). Qed.

Lemma skipValue_upcoming type val p :
  exists p',
    skipValue type val p
    = (Ret (first_is (has_type_value type val) (upcoming p)), p')
    /\ upcoming p'
       = (if first_is (has_type_value type val) (upcoming p)
          then tl (upcoming p) else upcoming p)
    /\ clean p'
    /\ same_context p p'.
Proof. exact (skip_if_upcoming (has_type_value type val) p). Qed.

(** C5: [nextToken(false)] (the argument may also be left out) returns no
    token of type [TOKEN_WHITESPACE]. A whitespace token in the pushback
    slot is dropped: what is returned is the first token of the lexer that
    is no whitespace ([null] when there is none), the slot is left empty,
    and the tokens still to be read are those after the one returned. *)
Theorem nextToken_skips_whitespace p :
  (forall tok p', nextToken false p = (Ret (Some tok), p') ->
                  tok_type tok <> TOKEN_WHITESPACE)
  /\ (forall pushed,
         peeked p = Some pushed ->
         tok_type pushed = TOKEN_WHITESPACE ->
         exists p',
           nextToken false p
           = (Ret (hd_error (significant (stream (tokens p)))), p')
           /\ peeked p' = None
           /\ upcoming p' = tl (significant (stream (tokens p)))
           /\ same_context p p').
Proof.
  split.
  - intros tok p' H. apply is_whitespace_false.
    unfold nextToken in H. destruct (peeked p) as [pk |].
    + simpl in H. destruct (is_whitespace pk) eqn:E.
      * exact (readToken_result _ _ _ H).
      * injection H as -> _. exact E.
    + exact (readToken_result _ _ _ H).
  - intros pushed Hp Ht.
    destruct (nextToken_upcoming p) as (p' & H1 & H2 & H3 & H4).
    assert (U : upcoming p = significant (stream (tokens p))).
    { unfold upcoming, pending. rewrite Hp. unfold significant.
      cbn [filter]. rewrite (is_whitespace_true _ Ht). reflexivity. }
    rewrite U in H1, H2. exists p'. repeat split; try assumption.
    + exact (proj1 H4).
    + exact (proj1 (proj2 H4)).
    + exact (proj2 (proj2 H4)).
Qed.

End Stream.

Section CursorFacts.

Variable type_name : token_type -> string.

Lemma set_peeked_idem p : peeked p = None -> set_peeked None p = p.
Proof. destruct p as [l pk b d]. simpl. intros ->. reflexivity. Qed.

(** After [nextToken] the pushback slot is empty. *)
Lemma readToken_peeked w p tok p' :
  readToken w p = (Ret tok, p') -> peeked p' = peeked p.
Proof.
  unfold readToken. destruct (lex_nextToken (tokens p)) as [t l].
  destruct w.
  - intros H. injection H as _ <-. reflexivity.
  - destruct (skip_whitespace t (stream l)) as [t' ts].
    intros H. injection H as _ <-. reflexivity.
Qed.

Lemma nextToken_peeked w p tok p' :
  nextToken w p = (Ret tok, p') -> peeked p' = None.
Proof.
  unfold nextToken. destruct (peeked p) as [pk |] eqn:E.
  - destruct (negb w && is_whitespace pk).
    + intros H. apply readToken_peeked in H. exact H.
    + intros H. injection H as _ <-. reflexivity.
  - intros H. apply readToken_peeked in H. congruence.
Qed.

(** Reading an exhausted lexer again changes nothing. *)
Lemma skip_whitespace_None tok ts ts' :
  skip_whitespace tok ts = (None, ts') ->
  match tok with Some _ => ts' = [] | None => ts' = ts end.
Proof.
  revert tok. induction ts as [| t r IH]; intros tok H.
  - destruct tok as [t0 |]; simpl in H.
    + destruct (is_whitespace t0); [| discriminate H].
      injection H as <-. reflexivity.
    + injection H as <-. reflexivity.
  - destruct tok as [t0 |]; simpl in H.
    + destruct (is_whitespace t0); [| discriminate H].
      exact (IH (Some t) H).
    + injection H as <-. reflexivity.
Qed.

Lemma readToken_exhausted p p' :
  readToken false p = (Ret None, p') -> readToken false p' = (Ret None, p').
Proof.
  unfold readToken, lex_nextToken. destruct p as [l pk b d]. simpl.
  destruct (stream l) as [| t r] eqn:E.
  - rewrite E. simpl. intros H. injection H as <-. simpl. reflexivity.
  - simpl. destruct (skip_whitespace (Some t) r) as [t' ts] eqn:S.
    intros H. injection H as -> <-. simpl.
    apply skip_whitespace_None in S. subst ts. reflexivity.
Qed.

(** X1: peeking is idempotent and does not change what is read next: a
    second [peekToken()] returns the same token and leaves the parser as the
    first left it, and [peekToken()] followed by [nextToken()] returns the
    token and the parser that [nextToken()] alone gives. *)
Theorem peekToken_is_transparent p :
  (forall tok p', peekToken p = (Ret tok, p') ->
                  peekToken p' = (Ret tok, p'))
  /\ (tok <- peekToken ;; nextToken false) p = nextToken false p.
Proof.
  assert (K : forall tok p1,
             peeked p = None -> nextToken false p = (Ret tok, p1) ->
             nextToken false (set_peeked tok p1) = (Ret tok, p1)).
  { intros tok p1 Hp H. pose proof (nextToken_peeked _ _ _ _ H) as H1.
    unfold nextToken in H. rewrite Hp in H.
    destruct tok as [t |].
    - unfold nextToken. simpl.
      rewrite (readToken_result _ _ _ H). simpl.
      destruct p1 as [l pk b d]. simpl in *. subst pk. reflexivity.
    - rewrite (set_peeked_idem _ H1). unfold nextToken. rewrite H1.
      exact (readToken_exhausted _ _ H). }
  split.
  - intros tok p' H. unfold peekToken in *.
    destruct (peeked p) as [pk |] eqn:E.
    + injection H as <- <-. rewrite E. reflexivity.
    + destruct (nextToken_returns false p) as (t & p1 & H1).
      rewrite (bind_Ret _ _ _ _ _ H1) in H.
      unfold bind, modify, ret in H. simpl in H. injection H as <- <-.
      destruct t as [t |]; [reflexivity |].
      pose proof (nextToken_peeked _ _ _ _ H1) as Hn.
      pose proof (K None p1 eq_refl H1) as K1.
      rewrite (set_peeked_idem _ Hn) in *. rewrite Hn.
      rewrite (bind_Ret _ _ _ _ _ K1). unfold bind, modify, ret. simpl.
      rewrite (set_peeked_idem _ Hn). reflexivity.
  - unfold bind at 1. unfold peekToken.
    destruct (peeked p) as [pk |] eqn:E; [reflexivity |].
    destruct (nextToken_returns false p) as (t & p1 & H1).
    rewrite (bind_Ret _ _ _ _ _ H1). unfold bind, modify, ret. simpl.
    rewrite H1. exact (K t p1 eq_refl H1).
Qed.

(** X2: [skip] and [skipValue] (and so [skipSymbol]) never throw; they
    return [true] exactly when the first upcoming token is the one asked
    for, and then consume that token and no other; otherwise they consume
    nothing. Nothing but the cursor changes. *)
Theorem skip_takes_only_a_match p :
  (forall type,
      exists p',
        skip type p = (Ret (first_is (has_type type) (upcoming p)), p')
        /\ upcoming p'
           = (if first_is (has_type type) (upcoming p)
              then tl (upcoming p) else upcoming p)
        /\ same_context p p')
  /\ (forall type val,
         exists p',
           skipValue type val p
           = (Ret (first_is (has_type_value type val) (upcoming p)), p')
           /\ upcoming p'
              = (if first_is (has_type_value type val) (upcoming p)
                 then tl (upcoming p) else upcoming p)
           /\ same_context p p')
  /\ (forall val, skipSymbol val p = skipValue TOKEN_SYMBOL val p).
Proof.
  split; [| split].
  - intros type. destruct (skip_upcoming type p) as (p' & H1 & H2 & _ & H4).
    exists p'. auto.
  - intros type val.
    destruct (skipValue_upcoming type val p) as (p' & H1 & H2 & _ & H4).
    exists p'. auto.
  - reflexivity.
Qed.

(** [fail] without a position, before a token and at the end. *)
Lemma fail_at_token {A} msg l c p t p' :
  is_undefined l || is_undefined c = true ->
  peekToken p = (Ret (Some t), p') ->
  @fail A msg l c p
  = (Throw (TemplateError msg (Some (S (tok_lineno t)))
              (Some (S (tok_colno t)))), p').
Proof.
  intros Hu Hp. unfold fail. rewrite Hu.
  assert (Hp' : peekToken p' = (Ret (Some t), p')).
  { unfold peekToken. rewrite (peekToken_peeked _ _ _ Hp). reflexivity. }
  rewrite bind_assoc. rewrite (bind_Ret _ _ _ _ _ Hp).
  rewrite bind_assoc. rewrite (bind_Ret _ _ _ _ _ Hp').
  reflexivity.
Qed.

Lemma fail_at_end {A} msg l c p p' :
  is_undefined l || is_undefined c = true ->
  peekToken p = (Ret None, p') ->
  @fail A msg l c p
  = (Throw (TemplateError msg (succ_pos l) (succ_pos c)), p').
Proof.
  intros Hu Hp. unfold fail. rewrite Hu.
  rewrite bind_assoc. rewrite (bind_Ret _ _ _ _ _ Hp). reflexivity.
Qed.

(** X3: the position of a [TemplateError]. [fail] reports the position it
    is given counted from 1; when the line or the column is missing, it
    reports the position of the token that [peekToken()] returns instead,
    and no position where that is missing too (at the end of the input the
    line and the column stay as they were given). *)
Theorem fail_position {A} msg :
  (forall l c p,
      @fail A msg (Some l) (Some c) p
      = (Throw (TemplateError msg (Some (S l)) (Some (S c))), p))
  /\ (forall l c p t p',
         is_undefined l || is_undefined c = true ->
         peekToken p = (Ret (Some t), p') ->
         @fail A msg l c p
         = (Throw (TemplateError msg (Some (S (tok_lineno t)))
                     (Some (S (tok_colno t)))), p'))
  /\ (forall l c p p',
         is_undefined l || is_undefined c = true ->
         peekToken p = (Ret None, p') ->
         @fail A msg l c p
         = (Throw (TemplateError msg (succ_pos l) (succ_pos c)), p')).
Proof.
  split; [| split].
  - reflexivity.
  - intros l c p t p'. apply fail_at_token.
  - intros l c p p'. apply fail_at_end.
Qed.

End CursorFacts.

Section EndOfInput.

Variable type_name : token_type -> string.
Variable extensions : list extension.

Lemma at_end_nextToken p :
  at_end p -> exists p', nextToken false p = (Ret None, p') /\ at_end p'.
Proof.
  intros [_ U]. destruct (nextToken_upcoming p) as (p' & H1 & H2 & H3 & _).
  rewrite U in H1, H2. exists p'. split; [exact H1 |].
  split; [unfold clean; rewrite H3; exact I | exact H2].
Qed.

Lemma at_end_peekToken p :
  at_end p -> exists p', peekToken p = (Ret None, p') /\ at_end p'.
Proof.
  intros [C U]. destruct (peekToken_upcoming p C) as (p' & H1 & H2 & _ & H4 & _).
  rewrite U in H1, H2. exists p'. split; [exact H1 |].
  split; [exact H4 | exact H2].
Qed.

Lemma at_end_skipValue type val p :
  at_end p -> exists p', skipValue type val p = (Ret false, p') /\ at_end p'.
Proof.
  intros [_ U].
  destruct (skipValue_upcoming type val p) as (p' & H1 & H2 & H3 & _).
  rewrite U in H1, H2. exists p'. split; [exact H1 |].
  split; [exact H3 | exact H2].
Qed.

Lemma at_end_fail {A} msg p :
  at_end p -> throws (@fail A msg None None) p (TemplateError msg None None).
Proof.
  intros E. destruct (at_end_peekToken p E) as (p' & H & _).
  exists p'.
  exact (fail_at_end msg None None p p' eq_refl H).
Qed.

Lemma throws_bind {A B} (m : M A) (k : A -> M B) p e :
  throws m p e -> throws (bind m k) p e.
Proof. intros [p' H]. exists p'. exact (bind_Throw _ _ _ _ _ H). Qed.

Lemma throws_bind_Ret {A B} (m : M A) (k : A -> M B) p a p1 e :
  m p = (Ret a, p1) -> throws (k a) p1 e -> throws (bind m k) p e.
Proof.
  intros H [p' K]. exists p'. rewrite (bind_Ret _ _ _ _ _ H). exact K.
Qed.

Lemma at_end_parsePrimary n noPostfix p :
  at_end p -> throws (parsePrimary type_name (S n) noPostfix) p no_expression.
Proof.
  intros E. destruct (at_end_nextToken p E) as (p1 & H & E1).
  cbn [parsePrimary]. eapply throws_bind_Ret; [exact H |].
  apply at_end_fail. exact E1.
Qed.

Lemma throws_first {A B} (f : M B) (m : M A) (k : A -> M B) p e :
  f = bind m k -> throws m p e -> throws f p e.
Proof. intros ->. apply throws_bind. Qed.

Lemma parseUnary_S n noFilters :
  parseUnary type_name (S n) noFilters
  = (tok <- peekToken ;;
     nd <- (neg <- skipValue TOKEN_OPERATOR (TStr "-") ;;
            if neg
            then tok <- deref tok ;;
                 target <- parseUnary type_name n true ;;
                 ret (Neg (lineno_of tok) (colno_of tok) target)
            else
              pos <- skipValue TOKEN_OPERATOR (TStr "+") ;;
              if pos
              then tok <- deref tok ;;
                   target <- parseUnary type_name n true ;;
                   ret (Pos (lineno_of tok) (colno_of tok) target)
              else parsePrimary type_name n false) ;;
     if negb noFilters then parseFilter type_name n nd else ret nd).
Proof. reflexivity. Qed.

Lemma parseNot_S n :
  parseNot type_name (S n)
  = (tok <- peekToken ;;
     b <- skipSymbol (TStr "not") ;;
     if b
     then tok <- deref tok ;;
          target <- parseNot type_name n ;;
          ret (Not (lineno_of tok) (colno_of tok) target)
     else parseIn type_name n).
Proof. reflexivity. Qed.

Lemma at_end_parseUnary n noFilters p :
  at_end p ->
  throws (parseUnary type_name (S (S n)) noFilters) p no_expression.
Proof.
  intros E. rewrite parseUnary_S.
  destruct (at_end_peekToken p E) as (p1 & H1 & E1).
  eapply throws_bind_Ret; [exact H1 |].
  apply throws_bind.
  destruct (at_end_skipValue TOKEN_OPERATOR (TStr "-") p1 E1)
    as (p2 & H2 & E2).
  eapply throws_bind_Ret; [exact H2 |]. cbv iota.
  destruct (at_end_skipValue TOKEN_OPERATOR (TStr "+") p2 E2)
    as (p3 & H3 & E3).
  eapply throws_bind_Ret; [exact H3 |]. cbv iota.
  apply at_end_parsePrimary. exact E3.
Qed.

(** What the first operand of a level throws, the level throws. *)
Ltac first_operand :=
  let p' := fresh "p'" in
  let H := fresh "H" in
  intros [p' H]; exists p'; simpl;
  first [exact H | exact (bind_Throw _ _ _ _ _ H)].

Lemma throws_parseExpression n p e :
  throws (parseInlineIf type_name n) p e -> throws (parseExpression type_name (S n)) p e.
Proof. first_operand. Qed.

Lemma throws_parseInlineIf n p e :
  throws (parseOr type_name n) p e -> throws (parseInlineIf type_name (S n)) p e.
Proof. first_operand. Qed.

Lemma throws_parseOr n p e :
  throws (parseAnd type_name n) p e -> throws (parseOr type_name (S n)) p e.
Proof. first_operand. Qed.

Lemma throws_parseAnd n p e :
  throws (parseNot type_name n) p e -> throws (parseAnd type_name (S n)) p e.
Proof. first_operand. Qed.

Lemma throws_parseIn n p e :
  throws (parseCompare type_name n) p e -> throws (parseIn type_name (S n)) p e.
Proof. first_operand. Qed.

Lemma throws_parseCompare n p e :
  throws (parseConcat type_name n) p e -> throws (parseCompare type_name (S n)) p e.
Proof. first_operand. Qed.

Lemma throws_parseConcat n p e :
  throws (parseAdd type_name n) p e -> throws (parseConcat type_name (S n)) p e.
Proof. first_operand. Qed.

Lemma throws_parseAdd n p e :
  throws (parseSub type_name n) p e -> throws (parseAdd type_name (S n)) p e.
Proof. first_operand. Qed.

Lemma throws_parseSub n p e :
  throws (parseMul type_name n) p e -> throws (parseSub type_name (S n)) p e.
Proof. first_operand. Qed.

Lemma throws_parseMul n p e :
  throws (parseDiv type_name n) p e -> throws (parseMul type_name (S n)) p e.
Proof. first_operand. Qed.

Lemma throws_parseDiv n p e :
  throws (parseFloorDiv type_name n) p e -> throws (parseDiv type_name (S n)) p e.
Proof. first_operand. Qed.

Lemma throws_parseFloorDiv n p e :
  throws (parseMod type_name n) p e -> throws (parseFloorDiv type_name (S n)) p e.
Proof. first_operand. Qed.

Lemma throws_parseMod n p e :
  throws (parsePow type_name n) p e -> throws (parseMod type_name (S n)) p e.
Proof. first_operand. Qed.

Lemma throws_parsePow n p e :
  throws (parseUnary type_name n false) p e ->
  throws (parsePow type_name (S n)) p e.
Proof. first_operand. Qed.

(** At the end of the input every level of the expression grammar fails as
    [parsePrimary] does. *)
Lemma at_end_parseNot n p :
  at_end p -> throws (parseNot type_name (13 + n)) p no_expression.
Proof.
  intros E.
  change (13 + n) with (S (12 + n)).
  rewrite parseNot_S.
  destruct (at_end_peekToken p E) as (p1 & H1 & E1).
  eapply throws_bind_Ret; [exact H1 |].
  destruct (at_end_skipValue TOKEN_SYMBOL (TStr "not") p1 E1)
    as (p2 & H2 & E2).
  eapply throws_bind_Ret; [exact H2 |]. cbv iota.
  apply (throws_parseIn (11 + n)), (throws_parseCompare (10 + n)),
    (throws_parseConcat (9 + n)), (throws_parseAdd (8 + n)),
    (throws_parseSub (7 + n)), (throws_parseMul (6 + n)),
    (throws_parseDiv (5 + n)), (throws_parseFloorDiv (4 + n)),
    (throws_parseMod (3 + n)), (throws_parsePow (2 + n)).
  apply (at_end_parseUnary n). exact E2.
Qed.

Lemma at_end_parseExpression n p :
  at_end p -> throws (parseExpression type_name (17 + n)) p no_expression.
Proof.
  intros E.
  apply (throws_parseExpression (16 + n)), (throws_parseInlineIf (15 + n)),
    (throws_parseOr (14 + n)), (throws_parseAnd (13 + n)).
  apply at_end_parseNot. exact E.
Qed.

(** X4: at the end of the input, the routines that test for a missing
    token report a [TemplateError] without a position: [parsePrimary] and
    with it every expression, [advanceAfterBlockEnd] and
    [advanceAfterVariableEnd]. *)
Theorem end_of_input_is_reported p :
  at_end p ->
  (forall n noPostfix,
      throws (parsePrimary type_name (S n) noPostfix) p no_expression)
  /\ (forall n, throws (parseExpression type_name (17 + n)) p no_expression)
  /\ throws (advanceAfterBlockEnd None) p
       (TemplateError "unexpected end of file" None None)
  /\ (forall name,
         truthy name = true ->
         throws (advanceAfterBlockEnd (Some name)) p
           (TemplateError
              ("expected block end in " ++ to_string name ++ " statement")
              None None))
  /\ throws advanceAfterVariableEnd p
       (TemplateError "expected variable end" None None).
Proof.
  intros E. split; [| split; [| split; [| split]]].
  - intros n noPostfix. apply at_end_parsePrimary. exact E.
  - intros n. apply at_end_parseExpression. exact E.
  - unfold advanceAfterBlockEnd. simpl name_is_falsy. cbv iota.
    apply throws_bind.
    destruct (at_end_peekToken p E) as (p1 & H1 & E1).
    eapply throws_bind_Ret; [exact H1 |].
    apply at_end_fail. exact E1.
  - intros name Hn. unfold advanceAfterBlockEnd. simpl name_is_falsy.
    rewrite Hn. simpl negb. cbv iota.
    eapply throws_bind_Ret; [reflexivity |].
    destruct (at_end_nextToken p E) as (p1 & H1 & E1).
    eapply throws_bind_Ret; [exact H1 |].
    apply at_end_fail. exact E1.
  - unfold advanceAfterVariableEnd.
    destruct (at_end_nextToken p E) as (p1 & H1 & E1).
    eapply throws_bind_Ret; [exact H1 |].
    assert (Hp : peeked p1 = None).
    { exact (nextToken_peeked _ _ _ _ H1). }
    eapply throws_bind_Ret.
    + unfold pushToken. rewrite Hp. reflexivity.
    + apply at_end_fail. rewrite (set_peeked_idem _ Hp). exact E1.
Qed.

(** X5: at the end of the input, the routines that read the type of the
    next token without testing for [null] end in the [TypeError] of the
    engine, not in a [TemplateError]: the statement dispatcher, an argument
    list and an aggregate that are not closed, the arguments of a filter,
    and the names of a [from ... import]. *)
Theorem end_of_input_is_not_tested p :
  at_end p ->
  (forall n, throws (parseStatement type_name extensions (S n)) p
               null_TypeError)
  /\ (forall n tolerant noParens,
         throws (parseSignature type_name (S n) tolerant noParens) p
           null_TypeError)
  /\ (forall n noParens open args kwargs checkComma,
         throws (parseSignature_loop type_name (S n) noParens open args kwargs
                   checkComma) p null_TypeError)
  /\ (forall n, throws (parseAggregate type_name (S n)) p null_TypeError)
  /\ (forall n tok dict children,
         throws (parseAggregate_loop type_name (S n) tok dict children) p
           null_TypeError)
  /\ (forall n nd, throws (parseFilterArgs type_name (S n) nd) p
                     null_TypeError)
  /\ (forall n fromTok names withContext,
         throws (parseFrom_loop type_name (S n) fromTok names withContext) p
           null_TypeError).
Proof.
  intros E.
  destruct (at_end_peekToken p E) as (p1 & H1 & _).
  destruct (at_end_nextToken p E) as (p2 & H2 & _).
  assert (P : forall B (k : token -> M B),
             throws (tok <- peekToken ;; tok <- deref tok ;; k tok) p
               null_TypeError).
  { intros B k. eapply throws_bind_Ret; [exact H1 |].
    exists p1. reflexivity. }
  assert (N : forall B (k : token -> M B),
             throws (tok <- nextToken false ;; tok <- deref tok ;; k tok) p
               null_TypeError).
  { intros B k. eapply throws_bind_Ret; [exact H2 |].
    exists p2. reflexivity. }
  repeat split; intros.
  - apply P.
  - apply P.
  - cbn [parseSignature_loop]. apply P.
  - apply N.
  - apply P.
  - apply P.
  - apply P.
Qed.

End EndOfInput.

(** ** The cursor is all that the expression grammar moves *)

Lemma moves_cursor_only_ret {A} (a : A) : moves_cursor_only (ret a).
Proof. intros p r p' H. injection H as _ <-. apply same_context_refl. Qed.

Lemma moves_cursor_only_throw {A} e : moves_cursor_only (@throw A e).
Proof. intros p r p' H. injection H as _ <-. apply same_context_refl. Qed.

Lemma moves_cursor_only_out_of_fuel {A} : moves_cursor_only (@out_of_fuel A).
Proof. intros p r p' H. injection H as _ <-. apply same_context_refl. Qed.

Lemma moves_cursor_only_bind {A B} (m : M A) (k : A -> M B) :
  moves_cursor_only m -> (forall a, moves_cursor_only (k a)) ->
  moves_cursor_only (bind m k).
Proof.
  intros Hm Hk p r p'. unfold bind.
  destruct (m p) as [[a | e |] p1] eqn:E; intros H.
  - exact (same_context_trans _ _ _ (Hm _ _ _ E) (Hk a _ _ _ H)).
  - injection H as _ <-. exact (Hm _ _ _ E).
  - injection H as _ <-. exact (Hm _ _ _ E).
Qed.

Lemma moves_cursor_only_nextToken : moves_cursor_only (nextToken false).
Proof.
  intros p r p' H. destruct (nextToken_upcoming p) as (p1 & H1 & _ & _ & C).
  rewrite H1 in H. injection H as _ <-. exact C.
Qed.

Lemma moves_cursor_only_peekToken : moves_cursor_only peekToken.
Proof.
  unfold peekToken. intros p r p'. destruct (peeked p) as [t |].
  - intros H. injection H as _ <-. apply same_context_refl.
  - revert p r p'.
    change (moves_cursor_only
              (tok <- nextToken false ;; modify (set_peeked tok) ;; ret tok)).
    apply moves_cursor_only_bind; [exact moves_cursor_only_nextToken |].
    intros tok. apply moves_cursor_only_bind.
    + intros p r p' H. injection H as _ <-. repeat split.
    + intros _. apply moves_cursor_only_ret.
Qed.

Lemma moves_cursor_only_pushToken tok : moves_cursor_only (pushToken tok).
Proof.
  intros p r p'. unfold pushToken. destruct (peeked p);
    intros H; injection H as _ <-; repeat split.
Qed.

Lemma moves_cursor_only_deref tok : moves_cursor_only (deref tok).
Proof.
  destruct tok; [apply moves_cursor_only_ret | apply moves_cursor_only_throw].
Qed.

Lemma moves_cursor_only_fail {A} msg l c : moves_cursor_only (@fail A msg l c).
Proof.
  unfold fail. apply moves_cursor_only_bind.
  - destruct (is_undefined l || is_undefined c);
      [| apply moves_cursor_only_ret].
    apply moves_cursor_only_bind; [exact moves_cursor_only_peekToken |].
    intros [t |]; [| apply moves_cursor_only_ret].
    apply moves_cursor_only_bind; [exact moves_cursor_only_peekToken |].
    intros tok. apply moves_cursor_only_bind.
    + apply moves_cursor_only_deref.
    + intros t'. apply moves_cursor_only_ret.
  - intros lc. apply moves_cursor_only_throw.
Qed.

Lemma moves_cursor_only_skip type : moves_cursor_only (skip type).
Proof.
  intros p r p' H. destruct (skip_upcoming type p) as (p1 & H1 & _ & _ & C).
  rewrite H1 in H. injection H as _ <-. exact C.
Qed.

Lemma moves_cursor_only_skipValue type val :
  moves_cursor_only (skipValue type val).
Proof.
  intros p r p' H.
  destruct (skipValue_upcoming type val p) as (p1 & H1 & _ & _ & C).
  rewrite H1 in H. injection H as _ <-. exact C.
Qed.

Lemma moves_cursor_only_skipSymbol val : moves_cursor_only (skipSymbol val).
Proof. apply moves_cursor_only_skipValue. Qed.

Lemma moves_cursor_only_args_children nd :
  moves_cursor_only (args_children nd).
Proof.
  unfold args_children. destruct (args_of nd) as [a |];
    [destruct (children_of a) |];
    first [apply moves_cursor_only_ret | apply moves_cursor_only_throw].
Qed.

(** Descend through [bind] and the case distinctions down to the cursor
    operations and the recursive calls. *)
Ltac cursor_only :=
  repeat first
    [ simple apply moves_cursor_only_ret
    | simple apply moves_cursor_only_throw
    | simple apply moves_cursor_only_out_of_fuel
    | simple apply moves_cursor_only_fail
    | simple apply moves_cursor_only_nextToken
    | simple apply moves_cursor_only_peekToken
    | simple apply moves_cursor_only_pushToken
    | simple apply moves_cursor_only_deref
    | simple apply moves_cursor_only_skip
    | simple apply moves_cursor_only_skipValue
    | simple apply moves_cursor_only_skipSymbol
    | simple apply moves_cursor_only_args_children
    | match goal with H : _ |- moves_cursor_only _ => simple apply H end
    | simple apply moves_cursor_only_bind; [| intro ]
    | match goal with
      | |- moves_cursor_only (match ?x with _ => _ end) => destruct x
      end
    | match goal with
      | |- moves_cursor_only (let (_, _) := ?x in _) => destruct x
      end
    | match goal with |- forall _, _ => intro end
    | progress cbv beta zeta ].

Section ExpressionFrame.

Variable type_name : token_type -> string.

Lemma moves_cursor_only_expect type :
  moves_cursor_only (expect type_name type).
Proof. unfold expect. cursor_only. Qed.

Lemma moves_cursor_only_binop_loop skipOp operand mk :
  moves_cursor_only skipOp -> moves_cursor_only operand ->
  forall n nd, moves_cursor_only (binop_loop n skipOp operand mk nd).
Proof.
  intros Hs Ho. induction n as [| n IH]; intros nd; simpl; cursor_only.
Qed.

Lemma moves_cursor_only_parseFilterName_loop : forall n name,
  moves_cursor_only (parseFilterName_loop type_name n name).
Proof.
  pose proof moves_cursor_only_expect as E.
  induction n as [| n IH]; intros name; simpl; cursor_only.
Qed.

Lemma moves_cursor_only_parseFilterName n :
  moves_cursor_only (parseFilterName type_name n).
Proof.
  pose proof moves_cursor_only_expect as E.
  pose proof moves_cursor_only_parseFilterName_loop as L.
  unfold parseFilterName. cursor_only.
Qed.

Lemma moves_cursor_only_literal_value tok :
  moves_cursor_only (literal_value tok).
Proof. unfold literal_value. cursor_only. Qed.

Lemma expr_moves_cursor_only_all :
  forall n, expr_all (@moves_cursor_only) type_name n.
Proof.
  induction n as [| n IH].
  - unfold expr_all.
    repeat apply conj; intros; apply moves_cursor_only_out_of_fuel.
  - unfold expr_all in IH. decompose [and] IH. clear IH.
    pose proof moves_cursor_only_binop_loop as BL.
    pose proof moves_cursor_only_parseFilterName as FN.
    pose proof moves_cursor_only_literal_value as LV.
    unfold expr_all.
    repeat apply conj; intros; simpl; solve [cursor_only].
Qed.

(** X6: parsing an expression moves the cursor and nothing else: when
    [parseExpression], [parsePrimary], [parseSignature] or [parseAggregate]
    returns, throws or runs out of fuel, the block names of the enclosing
    [parseUntilBlocks], the whitespace latch and the configuration of the
    lexer are as they were. *)
Theorem expressions_move_the_cursor_only n p :
  (forall r p', parseExpression type_name n p = (r, p') -> same_context p p')
  /\ (forall noPostfix r p',
         parsePrimary type_name n noPostfix p = (r, p') -> same_context p p')
  /\ (forall tolerant noParens r p',
         parseSignature type_name n tolerant noParens p = (r, p') ->
         same_context p p')
  /\ (forall r p', parseAggregate type_name n p = (r, p') -> same_context p p').
Proof.
  pose proof (expr_moves_cursor_only_all n) as H.
  unfold expr_all in H. decompose [and] H. clear H.
  split; [| split; [| split]]; intros;
    match goal with
    | K : ?m p = (_, _), F : moves_cursor_only ?m |- _ => exact (F _ _ _ K)
    | K : ?f ?a p = (_, _), F : forall x, moves_cursor_only (?f x) |- _ =>
        exact (F a _ _ _ K)
    | K : ?f ?a ?b p = (_, _), F : forall x y, moves_cursor_only (?f x y) |- _ =>
        exact (F a b _ _ _ K)
    end.
Qed.

End ExpressionFrame.

(** ** The block names *)

Lemma keeps_blocks_ret {A} (a : A) : keeps_blocks (ret a).
Proof. intros p r p' H. injection H as _ <-. reflexivity. Qed.

Lemma keeps_blocks_out_of_fuel {A} : keeps_blocks (@out_of_fuel A).
Proof. intros p r p' H. discriminate H. Qed.

Lemma keeps_blocks_throw {A} e : keeps_blocks (@throw A e).
Proof. intros p r p' H. discriminate H. Qed.

Lemma keeps_blocks_get {A} (f : Parser -> A) : keeps_blocks (get f).
Proof. intros p r p' H. injection H as _ <-. reflexivity. Qed.

Lemma keeps_blocks_latch b :
  keeps_blocks (modify (set_dropLeadingWhitespace b)).
Proof. intros p r p' H. unfold modify in H. inversion H. reflexivity. Qed.

Lemma keeps_blocks_bind {A B} (m : M A) (k : A -> M B) :
  keeps_blocks m -> (forall a, keeps_blocks (k a)) -> keeps_blocks (bind m k).
Proof.
  intros Hm Hk p b p' H. apply bind_Ret_inv in H.
  destruct H as (a & p1 & H1 & H2).
  rewrite (Hk a _ _ _ H2). exact (Hm _ _ _ H1).
Qed.

Lemma keeps_blocks_cursor {A} (m : M A) :
  moves_cursor_only m -> keeps_blocks m.
Proof. intros H p a p' E. exact (proj1 (H _ _ _ E)). Qed.

Lemma keeps_blocks_extractRegex tagName : keeps_blocks (extractRegex tagName).
Proof.
  intros p a p'. unfold extractRegex.
  destruct (_extractRegex (tokens p) tagName (stream (tokens p))) as [m ts].
  intros H. injection H as _ <-. reflexivity.
Qed.

Lemma keeps_blocks_lexer_backN n : keeps_blocks (lexer_backN n).
Proof.
  intros p a p' H. unfold lexer_backN, modify in H. inversion H.
  reflexivity.
Qed.

(** Descend through [bind] and the case distinctions; what is left are
    routines known to keep the block names, or to move the cursor only. *)
Ltac blocks :=
  repeat first
    [ simple apply keeps_blocks_ret
    | simple apply keeps_blocks_out_of_fuel
    | simple apply keeps_blocks_throw
    | simple apply keeps_blocks_get
    | simple apply keeps_blocks_latch
    | simple apply keeps_blocks_extractRegex
    | simple apply keeps_blocks_lexer_backN
    | match goal with H : _ |- keeps_blocks _ => simple apply H end
    | simple apply keeps_blocks_bind; [| intro ]
    | match goal with
      | |- keeps_blocks (match ?x with _ => _ end) => destruct x eqn:?
      end
    | solve [simple apply keeps_blocks_cursor; cursor_only]
    | match goal with |- forall _, _ => intro end
    | progress cbv beta zeta ].

Section Blocks.

Variable type_name : token_type -> string.

Lemma keeps_blocks_value_charAt_is_dash v i :
  keeps_blocks (value_charAt_is_dash v i).
Proof. unfold value_charAt_is_dash. blocks. Qed.

Lemma keeps_blocks_advanceAfterBlockEnd name :
  keeps_blocks (advanceAfterBlockEnd name).
Proof.
  pose proof keeps_blocks_value_charAt_is_dash as D.
  unfold advanceAfterBlockEnd. blocks.
Qed.

Lemma keeps_blocks_advanceAfterVariableEnd :
  keeps_blocks advanceAfterVariableEnd.
Proof.
  pose proof keeps_blocks_value_charAt_is_dash as D.
  unfold advanceAfterVariableEnd. blocks.
Qed.

Lemma moves_cursor_only_parseWithContext :
  moves_cursor_only parseWithContext.
Proof. unfold parseWithContext. cursor_only. Qed.

Lemma keeps_blocks_fail_if c msg l k : keeps_blocks (fail_if c msg l k).
Proof. unfold fail_if. blocks. Qed.

Lemma keeps_blocks_orM a b :
  keeps_blocks a -> keeps_blocks b -> keeps_blocks (orM a b).
Proof. intros Ha Hb. unfold orM. blocks. Qed.

Lemma keeps_blocks_starts_with_underscore nd :
  keeps_blocks (starts_with_underscore nd).
Proof. unfold starts_with_underscore. blocks. Qed.

Lemma keeps_blocks_add_caller a b : keeps_blocks (add_caller a b).
Proof. unfold add_caller. blocks. Qed.

Lemma keeps_blocks_parseNodes_data tok : keeps_blocks (parseNodes_data tok).
Proof.
  pose proof keeps_blocks_value_charAt_is_dash as D.
  unfold parseNodes_data. blocks.
Qed.

Lemma keeps_blocks_parseRaw_loop : forall n tagName endTagName rawLevel str,
  keeps_blocks (parseRaw_loop n tagName endTagName rawLevel str).
Proof.
  induction n as [| n IH]; intros; simpl; blocks.
Qed.

Lemma keeps_blocks_parseRaw n tagName : keeps_blocks (parseRaw n tagName).
Proof.
  pose proof keeps_blocks_advanceAfterBlockEnd as AB.
  pose proof keeps_blocks_parseRaw_loop as RL.
  unfold parseRaw. blocks.
Qed.

(** The routines of the expression grammar, as they are used below. *)
Ltac expr_cursor n :=
  let E := fresh "E" in
  pose proof (expr_moves_cursor_only_all type_name n) as E;
  unfold expr_all in E; decompose [and] E; clear E;
  pose proof moves_cursor_only_parseWithContext;
  pose proof (moves_cursor_only_parseFilterName type_name n);
  pose proof keeps_blocks_advanceAfterBlockEnd;
  pose proof keeps_blocks_advanceAfterVariableEnd;
  pose proof keeps_blocks_fail_if;
  pose proof keeps_blocks_orM;
  pose proof keeps_blocks_starts_with_underscore;
  pose proof keeps_blocks_value_charAt_is_dash.

Lemma keeps_blocks_parseFrom_loop : forall n fromTok names withContext,
  keeps_blocks (parseFrom_loop type_name n fromTok names withContext).
Proof.
  induction n as [| n IH]; intros; simpl; [blocks |].
  expr_cursor n. blocks.
Qed.

Lemma keeps_blocks_parseFrom n : keeps_blocks (parseFrom type_name n).
Proof.
  pose proof keeps_blocks_parseFrom_loop as FL. expr_cursor n.
  unfold parseFrom. blocks.
Qed.

Lemma keeps_blocks_parseImport n : keeps_blocks (parseImport type_name n).
Proof. expr_cursor n. unfold parseImport. blocks. Qed.

Lemma keeps_blocks_parseExtends n : keeps_blocks (parseExtends type_name n).
Proof. expr_cursor n. unfold parseExtends. blocks. Qed.

Lemma keeps_blocks_parseInclude n : keeps_blocks (parseInclude type_name n).
Proof. expr_cursor n. unfold parseInclude. blocks. Qed.

Lemma keeps_blocks_parseFor_targets : forall n children,
  keeps_blocks (parseFor_targets type_name n children).
Proof.
  induction n as [| n IH]; intros; simpl; [blocks |].
  expr_cursor n. blocks.
Qed.

Lemma keeps_blocks_parseSet_targets : forall n targets,
  keeps_blocks (parseSet_targets type_name n targets).
Proof.
  induction n as [| n IH]; intros; simpl; [blocks |].
  expr_cursor n. blocks.
Qed.

Variable extensions : list extension.
Hypothesis extensions_tidy : Forall ext_tidy extensions.

(** [parseUntilBlocks] puts the block names back itself. *)
Lemma keeps_blocks_parseUntilBlocks n blockNames :
  keeps_blocks (parseUntilBlocks type_name extensions n blockNames).
Proof.
  intros p a p' H. destruct n as [| n]; [discriminate H |].
  rewrite parseUntilBlocks_S in H. unfold bind, get, modify, ret in H.
  simpl in H.
  destruct (parse type_name extensions n
              (set_breakOnBlocks (Some blockNames) p)) as [[r1 | e1 |] p1];
    [| discriminate H | discriminate H].
  injection H as _ <-. reflexivity.
Qed.

Lemma stmt_keeps_blocks_all :
  forall n, stmt_all (@keeps_blocks) type_name extensions n.
Proof.
  induction n as [| n IH].
  - unfold stmt_all.
    repeat apply conj; intros; apply keeps_blocks_out_of_fuel.
  - pose proof keeps_blocks_parseUntilBlocks as UB.
    pose proof keeps_blocks_parseFor_targets as FT.
    pose proof keeps_blocks_parseSet_targets as ST.
    pose proof keeps_blocks_parseRaw as RW.
    pose proof keeps_blocks_parseExtends as PE.
    pose proof keeps_blocks_parseInclude as PI.
    pose proof keeps_blocks_parseImport as PM.
    pose proof keeps_blocks_parseFrom as PF.
    pose proof keeps_blocks_add_caller as AC.
    pose proof keeps_blocks_parseNodes_data as ND.
    unfold stmt_all in IH. decompose [and] IH. clear IH.
    expr_cursor n.
    unfold stmt_all.
    repeat apply conj; intros; try exact (UB _ _); simpl; try solve [blocks].
    blocks.
    match goal with
    | F : find _ extensions = Some ?e |- _ =>
        apply find_some in F; destruct F as [F _];
        apply (proj1 (Forall_forall _ _) extensions_tidy e F)
    end.
    unfold api_all. simpl. repeat apply conj; intros; blocks.
Qed.

Lemma api_keeps_blocks_at n :
  api_all (@keeps_blocks)
    (mkApi (parseExpression type_name n) (parsePrimary type_name n)
       (parseSignature type_name n)
       (parseUntilBlocks type_name extensions n)).
Proof.
  pose proof keeps_blocks_parseUntilBlocks as UB. expr_cursor n.
  unfold api_all. simpl. repeat apply conj; intros; blocks.
Qed.

(** ** The nodes of the statements *)

Lemma returns_not_null_parseRaw n tagName :
  returns not_null (parseRaw n tagName).
Proof. unfold parseRaw. nn. Qed.

Lemma returns_not_null_parseImport n :
  returns not_null (parseImport type_name n).
Proof. unfold parseImport. nn. Qed.

Lemma returns_not_null_parseFrom n :
  returns not_null (parseFrom type_name n).
Proof. unfold parseFrom. nn. Qed.

Lemma returns_not_null_parseExtends n :
  returns not_null (parseExtends type_name n).
Proof. unfold parseExtends. nn. Qed.

Lemma returns_not_null_parseInclude n :
  returns not_null (parseInclude type_name n).
Proof. unfold parseInclude. nn. Qed.

Lemma returns_not_null_parseFor n :
  returns not_null (parseFor type_name extensions n).
Proof.
  destruct n as [| n]; [apply returns_out_of_fuel |].
  cbn [parseFor].
  eapply returns_bind; [apply returns_any | intros forTok _].
  eapply (returns_bind
            (fun k => forall l c a b d e, not_null (fst k l c a b d e))).
  - nn.
  - intros kind Hk. nn. apply Hk.
Qed.

Lemma returns_not_null_parseIf n :
  returns not_null (parseIf type_name extensions n).
Proof.
  destruct n as [| n]; [apply returns_out_of_fuel |].
  cbn [parseIf].
  eapply returns_bind; [apply returns_any | intros tag _].
  eapply returns_bind; [apply returns_any | intros i _].
  eapply (returns_bind (fun mk => forall l c a b d, not_null (mk l c a b d))).
  - nn.
  - intros mk Hk. nn. apply Hk.
Qed.

Lemma returns_not_null_statements n :
  returns not_null (parseMacro type_name extensions n)
  /\ returns not_null (parseCall type_name extensions n)
  /\ returns not_null (parseBlock type_name extensions n)
  /\ returns not_null (parseSet type_name extensions n)
  /\ returns not_null (parseFilterStatement type_name extensions n).
Proof.
  destruct n as [| n].
  - repeat apply conj; apply returns_out_of_fuel.
  - repeat apply conj; simpl; nn.
Qed.

(** ** Where the node parser stops *)

Lemma nextToken_None_pending p p' :
  nextToken false p = (Ret None, p') -> pending p' = [].
Proof.
  intros H. pose proof (nextToken_peeked _ _ _ _ H) as Hp.
  unfold pending. rewrite Hp.
  assert (R : forall q q', readToken false q = (Ret None, q') ->
                           stream (tokens q') = []).
  { intros q q'. unfold readToken, lex_nextToken.
    destruct (stream (tokens q)) as [| t r] eqn:E.
    - simpl. rewrite E. simpl. intros K. injection K as <-. reflexivity.
    - simpl. destruct (skip_whitespace (Some t) r) as [t' ts] eqn:S.
      intros K. injection K as -> <-. simpl.
      exact (skip_whitespace_None _ _ _ S). }
  unfold nextToken in H. destruct (peeked p) as [pk |].
  - destruct (negb false && is_whitespace pk).
    + exact (R _ _ H).
    + discriminate H.
  - exact (R _ _ H).
Qed.

(** [parseStatement] returns [null] only before a tag named in
    [breakOnBlocks], which it leaves in the pushback slot. *)
Lemma parseStatement_break n p p' :
  parseStatement type_name extensions n p = (Ret Null, p') ->
  exists names, breakOnBlocks p' = Some names /\ at_block names p'.
Proof.
  destruct n as [| n]; [discriminate |]. cbn [parseStatement]. intros H.
  apply bind_Ret_inv in H. destruct H as (tok0 & p1 & Hpeek & H).
  apply bind_Ret_inv in H. destruct H as (tok & p2 & Hderef & H).
  destruct tok0 as [t |]; [| discriminate Hderef].
  injection Hderef as <- <-.
  apply bind_Ret_inv in H. destruct H as (u & p3 & Hfi & H).
  unfold fail_if in Hfi.
  destruct (type_is (tok_type t) TOKEN_SYMBOL) eqn:Ht;
    [| exfalso; exact (fail_not_Ret _ _ _ _ _ _ Hfi)].
  injection Hfi as _ <-.
  apply bind_Ret_inv in H. destruct H as (blocks & p4 & Hget & H).
  injection Hget as <- <-.
  match type of H with
  | (if _ then _ else ?m) _ = _ => assert (N : returns not_null m)
  end.
  { pose proof returns_not_null_parseRaw as RW.
    pose proof returns_not_null_parseImport as PM.
    pose proof returns_not_null_parseFrom as PF.
    pose proof returns_not_null_parseExtends as PE.
    pose proof returns_not_null_parseInclude as PI.
    pose proof returns_not_null_parseFor as FO.
    pose proof returns_not_null_parseIf as FI.
    destruct (returns_not_null_statements n) as (S1 & S2 & S3 & S4 & S5).
    nn.
    match goal with
    | F : find _ extensions = Some ?e |- _ =>
        apply find_some in F; destruct F as [F _];
        apply (proj1 (Forall_forall _ _) extensions_tidy e F)
    end.
    apply api_keeps_blocks_at. }
  destruct (breakOnBlocks p1) as [names |] eqn:Hb;
    [| discriminate (N _ _ _ H)].
  destruct (indexOf_found names (tok_value t)) eqn:Hf;
    [| discriminate (N _ _ _ H)].
  injection H as <-. exists names. split; [exact Hb |].
  exists t. split; [exact (peekToken_peeked _ _ _ Hpeek) |].
  split; [| exact Hf].
  unfold type_is in Ht.
  destruct (token_type_eq_dec (tok_type t) TOKEN_SYMBOL);
    [assumption | discriminate Ht].
Qed.

Lemma is_null_Null nd : is_null nd = true -> nd = Null.
Proof. destruct nd; try discriminate. reflexivity. Qed.

Lemma parseNodes_stopped : forall n buf p r p',
  parseNodes type_name extensions n buf p = (Ret r, p') -> stopped p'.
Proof.
  induction n as [| n IH]; intros buf p r p' H; [discriminate H |].
  rewrite parseNodes_S in H.
  apply bind_Ret_inv in H. destruct H as (tok & p1 & Hn & H).
  destruct tok as [t |].
  - destruct (type_is (tok_type t) TOKEN_DATA).
    { apply bind_Ret_inv in H. destruct H as (nd & p2 & _ & H).
      exact (IH _ _ _ _ H). }
    destruct (type_is (tok_type t) TOKEN_BLOCK_START).
    { apply bind_Ret_inv in H. destruct H as (u & p2 & _ & H).
      apply bind_Ret_inv in H. destruct H as (nd & p3 & Hs & H).
      destruct (is_null nd) eqn:E.
      - injection H as _ <-. apply is_null_Null in E. subst nd.
        right. exact (parseStatement_break _ _ _ Hs).
      - exact (IH _ _ _ _ H). }
    destruct (type_is (tok_type t) TOKEN_VARIABLE_START).
    { apply bind_Ret_inv in H. destruct H as (e & p2 & _ & H).
      apply bind_Ret_inv in H. destruct H as (u & p3 & _ & H).
      apply bind_Ret_inv in H. destruct H as (u' & p4 & _ & H).
      exact (IH _ _ _ _ H). }
    destruct (type_is (tok_type t) TOKEN_COMMENT).
    { apply bind_Ret_inv in H. destruct H as (tg & p2 & _ & H).
      apply bind_Ret_inv in H. destruct H as (dash & p3 & _ & H).
      apply bind_Ret_inv in H. destruct H as (u & p4 & _ & H).
      exact (IH _ _ _ _ H). }
    exfalso. exact (fail_not_Ret _ _ _ _ _ _ H).
  - injection H as _ <-. left. exact (nextToken_None_pending _ _ Hn).
Qed.

Lemma parse_S n :
  parse type_name extensions (S n)
  = (children <- parseNodes type_name extensions n [] ;;
     ret (NodeList (Some 0) (Some 0) children)).
Proof. reflexivity. Qed.

(** X7: a parse that succeeds has read the whole input. With extensions
    that are tidy (none is the default), when the exported [parse] returns,
    its result is a [Root], no token is left in the lexer or in the
    pushback slot, and no block names are left behind: a tag such as a
    stray [endif] cannot end the parse early. *)
Theorem successful_parse_reads_everything fuel lexed r p' :
  parse_lexed type_name extensions fuel lexed = (Ret r, p') ->
  pending p' = []
  /\ breakOnBlocks p' = None
  /\ exists children, r = Root (Some 0) (Some 0) children.
Proof.
  unfold parse_lexed, parseAsRoot. intros H.
  apply bind_Ret_inv in H. destruct H as (children & p1 & Hn & H).
  injection H as <- <-.
  pose proof (stmt_keeps_blocks_all fuel) as K. unfold stmt_all in K.
  decompose [and] K. clear K.
  assert (Hb : breakOnBlocks p1 = None).
  { match goal with
    | F : forall buf, keeps_blocks (parseNodes _ _ _ buf) |- _ =>
        exact (F _ _ _ _ Hn)
    end. }
  split; [| split; [exact Hb | eexists; reflexivity]].
  destruct (parseNodes_stopped _ _ _ _ _ Hn) as [E | (names & Hs & _)].
  - exact E.
  - rewrite Hb in Hs. discriminate Hs.
Qed.

(** X8: a nested parse stops only at the end of the input or before one
    of the tags it was given. With tidy extensions, when
    [parseUntilBlocks(names)] returns, either nothing is left to read, or
    the pushback slot holds a symbol whose value is among [names]: the
    callers' "got end of file" errors are raised at the end of the input
    only. *)
Theorem nested_parse_stops_at_its_blocks fuel names p r p' :
  parseUntilBlocks type_name extensions fuel names p = (Ret r, p') ->
  pending p' = [] \/ at_block names p'.
Proof.
  destruct fuel as [| n]; [discriminate |].
  rewrite parseUntilBlocks_S. intros H.
  apply bind_Ret_inv in H. destruct H as (prev & p1 & Hg & H).
  apply bind_Ret_inv in H. destruct H as (u & p2 & Hm & H).
  apply bind_Ret_inv in H. destruct H as (nd & p3 & Hp & H).
  apply bind_Ret_inv in H. destruct H as (u' & p4 & Hm' & H).
  destruct n as [| n]; [discriminate Hp |]. rewrite parse_S in Hp.
  apply bind_Ret_inv in Hp. destruct Hp as (children & p5 & Hn & Hp).
  unfold get, modify, ret in Hg, Hm, Hm', H, Hp.
  inversion Hg. inversion Hm. inversion Hm'. inversion H. inversion Hp.
  subst. clear Hg Hm Hm' H Hp.
  pose proof (stmt_keeps_blocks_all n) as K. unfold stmt_all in K.
  decompose [and] K. clear K.
  assert (Hb : breakOnBlocks p3 = Some names).
  { match goal with
    | F : forall buf, keeps_blocks (parseNodes _ _ _ buf) |- _ =>
        exact (F _ _ _ _ Hn)
    end. }
  destruct (parseNodes_stopped _ _ _ _ _ Hn) as [E | (names' & Hs & B)].
  - left. exact E.
  - right. rewrite Hb in Hs. injection Hs as <-. exact B.
Qed.

End Blocks.

Lemma throws_one_based_ret {A} (a : A) : throws_one_based (ret a).
Proof. intros p e p' H. discriminate H. Qed.

Lemma throws_one_based_out_of_fuel {A} : throws_one_based (@out_of_fuel A).
Proof. intros p e p' H. discriminate H. Qed.

Lemma throws_one_based_get {A} (f : Parser -> A) : throws_one_based (get f).
Proof. intros p e p' H. discriminate H. Qed.

Lemma throws_one_based_modify f : throws_one_based (modify f).
Proof. intros p e p' H. discriminate H. Qed.

Lemma throws_one_based_throw {A} e :
  one_based e -> throws_one_based (@throw A e).
Proof. intros He p e' p' H. injection H as <- _. exact He. Qed.

Lemma throws_one_based_bind {A B} (m : M A) (k : A -> M B) :
  throws_one_based m -> (forall a, throws_one_based (k a)) ->
  throws_one_based (bind m k).
Proof.
  intros Hm Hk p e p'. unfold bind.
  destruct (m p) as [[a | e1 |] p1] eqn:E; intros H.
  - exact (Hk a _ _ _ H).
  - injection H as <- _. exact (Hm _ _ _ E).
  - discriminate H.
Qed.

(** A routine that always returns throws nothing. *)
Lemma throws_one_based_total {A} (m : M A) :
  (forall p, exists a p', m p = (Ret a, p')) -> throws_one_based m.
Proof.
  intros T p e p' H. destruct (T p) as (a & q & K). rewrite K in H.
  discriminate H.
Qed.

Lemma throws_one_based_nextToken w : throws_one_based (nextToken w).
Proof. apply throws_one_based_total. apply nextToken_returns. Qed.

Lemma throws_one_based_peekToken : throws_one_based peekToken.
Proof. apply throws_one_based_total. apply peekToken_returns. Qed.

Lemma throws_one_based_skip type : throws_one_based (skip type).
Proof.
  apply throws_one_based_total. intros p.
  destruct (skip_upcoming type p) as (p' & H & _). eauto.
Qed.

Lemma throws_one_based_skipValue type val :
  throws_one_based (skipValue type val).
Proof.
  apply throws_one_based_total. intros p.
  destruct (skipValue_upcoming type val p) as (p' & H & _). eauto.
Qed.

Lemma throws_one_based_skipSymbol val : throws_one_based (skipSymbol val).
Proof. apply throws_one_based_skipValue. Qed.

Lemma throws_one_based_pushToken tok : throws_one_based (pushToken tok).
Proof.
  intros p e p'. unfold pushToken. destruct (peeked p); intros H.
  - injection H as <- _. exact I.
  - discriminate H.
Qed.

Lemma throws_one_based_deref tok : throws_one_based (deref tok).
Proof.
  destruct tok; [apply throws_one_based_ret |].
  apply throws_one_based_throw. exact I.
Qed.

Lemma succ_pos_not_zero x : succ_pos x <> Some 0.
Proof. destruct x; discriminate. Qed.

Lemma throws_one_based_fail {A} msg l c : throws_one_based (@fail A msg l c).
Proof.
  intros p e p' H.
  destruct (@fail_throws A msg l c p) as (l' & c' & q & K).
  unfold fail in H, K.
  match type of H with
  | bind ?m _ _ = _ => destruct (m p) as [[lc | e1 |] p1] eqn:E
  end.
  - rewrite (bind_Ret _ _ _ _ _ E) in H. injection H as <- _.
    split; apply succ_pos_not_zero.
  - exfalso. rewrite (bind_Throw _ _ _ _ _ E) in K.
    revert E.
    destruct (is_undefined l || is_undefined c); [| discriminate].
    intros E.
    destruct (peekToken_returns p) as ([t |] & p0 & Hp).
    + rewrite (bind_Ret _ _ _ _ _ Hp) in E.
      assert (Hp0 : peekToken p0 = (Ret (Some t), p0)).
      { unfold peekToken. rewrite (peekToken_peeked _ _ _ Hp). reflexivity. }
      rewrite (bind_Ret _ _ _ _ _ Hp0) in E. discriminate E.
    + rewrite (bind_Ret _ _ _ _ _ Hp) in E. discriminate E.
  - rewrite (bind_OutOfFuel _ _ _ _ E) in K. discriminate K.
Qed.

Lemma throws_one_based_value_charAt_is_dash v i :
  throws_one_based (value_charAt_is_dash v i).
Proof.
  destruct v; [apply throws_one_based_ret |].
  apply throws_one_based_throw. exact I.
Qed.

Lemma throws_one_based_args_children nd :
  throws_one_based (args_children nd).
Proof.
  unfold args_children. destruct (args_of nd) as [a |];
    [destruct (children_of a) |];
    first [apply throws_one_based_ret
          | apply throws_one_based_throw; exact I].
Qed.

Lemma throws_one_based_starts_with_underscore nd :
  throws_one_based (starts_with_underscore nd).
Proof.
  unfold starts_with_underscore. destruct (value_string nd);
    first [apply throws_one_based_ret
          | apply throws_one_based_throw; exact I].
Qed.

Lemma throws_one_based_add_caller a b : throws_one_based (add_caller a b).
Proof.
  unfold add_caller.
  repeat match goal with
         | |- throws_one_based (match ?x with _ => _ end) => destruct x
         end;
    first [apply throws_one_based_ret
          | apply throws_one_based_throw; exact I].
Qed.

Lemma throws_one_based_extractRegex tagName :
  throws_one_based (extractRegex tagName).
Proof.
  intros p e p'. unfold extractRegex.
  destruct (_extractRegex (tokens p) tagName (stream (tokens p))) as [m ts].
  discriminate.
Qed.

Lemma throws_one_based_lexer_backN n : throws_one_based (lexer_backN n).
Proof. apply throws_one_based_modify. Qed.

(** Descend through [bind] and the case distinctions down to [fail], the
    cursor operations and the recursive calls. *)
Ltac positions :=
  repeat first
    [ simple apply throws_one_based_ret
    | simple apply throws_one_based_out_of_fuel
    | simple apply throws_one_based_get
    | simple apply throws_one_based_modify
    | simple apply throws_one_based_fail
    | simple apply throws_one_based_nextToken
    | simple apply throws_one_based_peekToken
    | simple apply throws_one_based_pushToken
    | simple apply throws_one_based_deref
    | simple apply throws_one_based_skip
    | simple apply throws_one_based_skipValue
    | simple apply throws_one_based_skipSymbol
    | simple apply throws_one_based_value_charAt_is_dash
    | simple apply throws_one_based_args_children
    | simple apply throws_one_based_starts_with_underscore
    | simple apply throws_one_based_add_caller
    | simple apply throws_one_based_extractRegex
    | simple apply throws_one_based_lexer_backN
    | simple apply throws_one_based_throw; exact I
    | match goal with H : _ |- throws_one_based _ => simple apply H end
    | simple apply throws_one_based_bind; [| intro ]
    | match goal with
      | |- throws_one_based (match ?x with _ => _ end) => destruct x eqn:?
      end
    | match goal with |- forall _, _ => intro end
    | progress cbv beta zeta ].

Section Positions.

Variable type_name : token_type -> string.

Lemma throws_one_based_expect type :
  throws_one_based (expect type_name type).
Proof. unfold expect. positions. Qed.

Lemma throws_one_based_binop_loop skipOp operand mk :
  throws_one_based skipOp -> throws_one_based operand ->
  forall n nd, throws_one_based (binop_loop n skipOp operand mk nd).
Proof.
  intros Hs Ho. induction n as [| n IH]; intros nd; simpl; positions.
Qed.

Lemma throws_one_based_parseFilterName_loop : forall n name,
  throws_one_based (parseFilterName_loop type_name n name).
Proof.
  pose proof throws_one_based_expect as E.
  induction n as [| n IH]; intros name; simpl; positions.
Qed.

Lemma throws_one_based_parseFilterName n :
  throws_one_based (parseFilterName type_name n).
Proof.
  pose proof throws_one_based_expect as E.
  pose proof throws_one_based_parseFilterName_loop as L.
  unfold parseFilterName. positions.
Qed.

Lemma throws_one_based_literal_value tok :
  throws_one_based (literal_value tok).
Proof. unfold literal_value. positions. Qed.

Lemma expr_one_based_all :
  forall n, expr_all (@throws_one_based) type_name n.
Proof.
  induction n as [| n IH].
  - unfold expr_all.
    repeat apply conj; intros; apply throws_one_based_out_of_fuel.
  - unfold expr_all in IH. decompose [and] IH. clear IH.
    pose proof throws_one_based_binop_loop as BL.
    pose proof throws_one_based_parseFilterName as FN.
    pose proof throws_one_based_literal_value as LV.
    unfold expr_all.
    repeat apply conj; intros; simpl; solve [positions].
Qed.

Lemma throws_one_based_fail_if c msg l k :
  throws_one_based (fail_if c msg l k).
Proof. unfold fail_if. positions. Qed.

Lemma throws_one_based_orM a b :
  throws_one_based a -> throws_one_based b -> throws_one_based (orM a b).
Proof. intros Ha Hb. unfold orM. positions. Qed.

Lemma throws_one_based_advanceAfterBlockEnd name :
  throws_one_based (advanceAfterBlockEnd name).
Proof. unfold advanceAfterBlockEnd. positions. Qed.

Lemma throws_one_based_advanceAfterVariableEnd :
  throws_one_based advanceAfterVariableEnd.
Proof. unfold advanceAfterVariableEnd. positions. Qed.

Lemma throws_one_based_parseWithContext : throws_one_based parseWithContext.
Proof. unfold parseWithContext. positions. Qed.

Lemma throws_one_based_parseNodes_data tok :
  throws_one_based (parseNodes_data tok).
Proof. unfold parseNodes_data. positions. Qed.

Lemma throws_one_based_parseRaw_loop :
  forall n tagName endTagName rawLevel str,
    throws_one_based (parseRaw_loop n tagName endTagName rawLevel str).
Proof. induction n as [| n IH]; intros; simpl; positions. Qed.

Lemma throws_one_based_parseRaw n tagName :
  throws_one_based (parseRaw n tagName).
Proof.
  pose proof throws_one_based_advanceAfterBlockEnd as AB.
  pose proof throws_one_based_parseRaw_loop as RL.
  unfold parseRaw. positions.
Qed.

Ltac expr_positions n :=
  let E := fresh "E" in
  pose proof (expr_one_based_all n) as E;
  unfold expr_all in E; decompose [and] E; clear E;
  pose proof throws_one_based_parseWithContext;
  pose proof (throws_one_based_parseFilterName n);
  pose proof throws_one_based_advanceAfterBlockEnd;
  pose proof throws_one_based_advanceAfterVariableEnd;
  pose proof throws_one_based_fail_if;
  pose proof throws_one_based_orM.

Lemma throws_one_based_parseFrom_loop : forall n fromTok names withContext,
  throws_one_based (parseFrom_loop type_name n fromTok names withContext).
Proof.
  induction n as [| n IH]; intros; simpl; [positions |].
  expr_positions n. positions.
Qed.

Lemma throws_one_based_parseFrom n :
  throws_one_based (parseFrom type_name n).
Proof.
  pose proof throws_one_based_parseFrom_loop as FL. expr_positions n.
  unfold parseFrom. positions.
Qed.

Lemma throws_one_based_parseImport n :
  throws_one_based (parseImport type_name n).
Proof. expr_positions n. unfold parseImport. positions. Qed.

Lemma throws_one_based_parseExtends n :
  throws_one_based (parseExtends type_name n).
Proof. expr_positions n. unfold parseExtends. positions. Qed.

Lemma throws_one_based_parseInclude n :
  throws_one_based (parseInclude type_name n).
Proof. expr_positions n. unfold parseInclude. positions. Qed.

Lemma throws_one_based_parseFor_targets : forall n children,
  throws_one_based (parseFor_targets type_name n children).
Proof.
  induction n as [| n IH]; intros; simpl; [positions |].
  expr_positions n. positions.
Qed.

Lemma throws_one_based_parseSet_targets : forall n targets,
  throws_one_based (parseSet_targets type_name n targets).
Proof.
  induction n as [| n IH]; intros; simpl; [positions |].
  expr_positions n. positions.
Qed.

Variable extensions : list extension.
Hypothesis extensions_one_based : Forall ext_one_based extensions.

Lemma stmt_one_based_all :
  forall n, stmt_all (@throws_one_based) type_name extensions n.
Proof.
  induction n as [| n IH].
  - unfold stmt_all.
    repeat apply conj; intros; apply throws_one_based_out_of_fuel.
  - pose proof throws_one_based_parseFor_targets as FT.
    pose proof throws_one_based_parseSet_targets as ST.
    pose proof throws_one_based_parseRaw as RW.
    pose proof throws_one_based_parseExtends as PE.
    pose proof throws_one_based_parseInclude as PI.
    pose proof throws_one_based_parseImport as PM.
    pose proof throws_one_based_parseFrom as PF.
    pose proof throws_one_based_parseNodes_data as ND.
    unfold stmt_all in IH. decompose [and] IH. clear IH.
    expr_positions n.
    unfold stmt_all.
    repeat apply conj; intros; simpl; try solve [positions].
    positions.
    match goal with
    | F : find _ extensions = Some ?e |- _ =>
        apply find_some in F; destruct F as [F _];
        apply (proj1 (Forall_forall _ _) extensions_one_based e F)
    end.
    unfold api_all. simpl. repeat apply conj; intros; positions.
Qed.

(** X9: every position the parser reports is counted from 1. With
    extensions that report positions as the parser does (none is the
    default), a [TemplateError] that ends the exported [parse] carries no
    line and no column that is zero, whatever the template and the
    positions of its tokens: each is absent or at least 1. *)
Theorem reported_positions_are_one_based fuel lexed msg l c p' :
  parse_lexed type_name extensions fuel lexed
  = (Throw (TemplateError msg l c), p') ->
  l <> Some 0 /\ c <> Some 0.
Proof.
  unfold parse_lexed, parseAsRoot. intros H.
  pose proof (stmt_one_based_all fuel) as K. unfold stmt_all in K.
  decompose [and] K. clear K.
  assert (T : throws_one_based
                (children <- parseNodes type_name extensions fuel [] ;;
                 ret (Root (Some 0) (Some 0) children))).
  { positions. }
  exact (T _ _ _ H).
Qed.

End Positions.

Section Levels.

Variable type_name : token_type -> string.

Lemma binop_loop_operands skipOp operand mk p nds p' :
  reads_operands skipOp operand p nds p' ->
  forall k nd,
    length nds < k ->
    binop_loop k skipOp operand mk nd p = (Ret (left_nested mk nd nds), p').
Proof.
  induction 1 as [p p' Hs | p p1 nd2 p2 nds p' Hs Ho R IH];
    intros k nd Hk; (destruct k as [| k]; [simpl in Hk; lia |]).
  - exact (binop_loop_done _ _ _ _ _ _ _ Hs).
  - rewrite (binop_loop_more _ _ _ _ _ _ _ _ _ Hs Ho).
    apply IH. simpl in Hk. lia.
Qed.

Lemma level_routine_S l n :
  level_routine type_name l (S n)
  = (nd <- level_operand type_name l n ;;
     binop_loop n (level_operator l) (level_operand type_name l n)
       (level_node l) nd).
Proof. destruct l; reflexivity. Qed.

Lemma level_node_position l la ca a b :
  lineno (level_node l la ca a b) = la /\ colno (level_node l la ca a b) = ca.
Proof. destruct l; split; reflexivity. Qed.

Lemma left_nested_position l rest : forall first,
  lineno (left_nested (level_node l) first rest) = lineno first
  /\ colno (left_nested (level_node l) first rest) = colno first.
Proof.
  induction rest as [| nd rest IH]; intros first; [split; reflexivity |].
  unfold left_nested. simpl.
  destruct (IH (level_node l (lineno first) (colno first) first nd))
    as [H1 H2].
  unfold left_nested in H1, H2. rewrite H1, H2.
  apply level_node_position.
Qed.

(** X10: each of the ten binary operators [or], [and], [~], [+], [-],
    [*], [/], [//], [%] and [**] is left-associative: the routine of its
    level returns its operands joined from the left, at the position of the
    first operand. So [a ** b ** c] is [Pow(Pow(a, b), c)]. *)
Theorem binary_levels_are_left_associative l n first rest p p1 p' :
  level_operand type_name l n p = (Ret first, p1) ->
  reads_operands (level_operator l) (level_operand type_name l n)
    p1 rest p' ->
  length rest < n ->
  level_routine type_name l (S n) p
  = (Ret (left_nested (level_node l) first rest), p')
  /\ lineno (left_nested (level_node l) first rest) = lineno first
  /\ colno (left_nested (level_node l) first rest) = colno first
  /\ (forall a b c,
         left_nested (level_node l) a [b; c]
         = level_node l (lineno a) (colno a)
             (level_node l (lineno a) (colno a) a b) c).
Proof.
  intros Hf R Hn. split; [| split; [| split]].
  - rewrite level_routine_S. rewrite (bind_Ret _ _ _ _ _ Hf).
    exact (binop_loop_operands _ _ _ _ _ _ R n first Hn).
  - apply left_nested_position.
  - apply left_nested_position.
  - intros a b c. unfold left_nested. simpl.
    destruct (level_node_position l (lineno a) (colno a) a b) as [-> ->].
    reflexivity.
Qed.

(** *** Comparisons *)

Lemma parseCompare_S n :
  parseCompare type_name (S n)
  = (expr <- parseConcat type_name n ;;
     ops <- parseCompare_loop type_name n [] ;;
     match ops with
     | op0 :: _ => ret (Compare (lineno op0) (colno op0) expr ops)
     | [] => ret expr
     end).
Proof. reflexivity. Qed.

Lemma parseCompare_loop_S n ops :
  parseCompare_loop type_name (S n) ops
  = (tok <- nextToken false ;;
     match tok with
     | None => ret ops
     | Some t =>
         if indexOf_found compareOps (tok_value t)
         then expr <- parseConcat type_name n ;;
              parseCompare_loop type_name n
                (ops ++ [CompareOperand (lineno_of t) (colno_of t) expr
                           (tok_value t)])
         else pushToken tok ;; ret ops
     end).
Proof. reflexivity. Qed.

(** More fuel does not change what a routine returns. *)
Lemma parseConcat_more n k p r p' :
  n <= k -> parseConcat type_name n p = (Ret r, p') ->
  parseConcat type_name k p = (Ret r, p').
Proof.
  intros Hk H. pose proof (expr_mono_all type_name n k Hk) as E.
  unfold expr_mono in E. decompose [and] E. clear E.
  match goal with
  | F : fuel_le (parseConcat _ _) (parseConcat _ _) |- _ =>
      apply (F _ _ _ H); discriminate
  end.
Qed.

Lemma parseCompare_loop_reads n p ops p' :
  reads_comparisons type_name n p ops p' ->
  forall k acc,
    n + length ops < k ->
    parseCompare_loop type_name k acc p = (Ret (acc ++ ops), p').
Proof.
  induction 1 as [p p' Hn | p t p1 Hn Hf | p t p1 expr p2 ops p' Hn Hf He R IH];
    intros k acc Hk; (destruct k as [| k]; [lia |]);
    rewrite parseCompare_loop_S; rewrite (bind_Ret _ _ _ _ _ Hn).
  - rewrite app_nil_r. reflexivity.
  - rewrite Hf. rewrite app_nil_r.
    unfold bind, pushToken. rewrite (nextToken_peeked _ _ _ _ Hn).
    reflexivity.
  - rewrite Hf. simpl in Hk.
    rewrite (bind_Ret _ _ _ _ _ (parseConcat_more n k _ _ _ ltac:(lia) He)).
    rewrite (IH k); [| lia]. rewrite <- app_assoc. reflexivity.
Qed.

(** X11: comparisons do not nest. A chain [a op b op c ...] parses to
    one [Compare] node that holds the first operand and, in their order, one
    [CompareOperand] for each operator with the operand after it; the node
    is at the position of the first operator. A token is taken for a
    comparison operator by its value alone, whatever its type. Without an
    operator the first operand is returned as it is. *)
Theorem comparisons_are_flat n a ops p p1 p' fuel :
  parseConcat type_name n p = (Ret a, p1) ->
  reads_comparisons type_name n p1 ops p' ->
  n + length ops + 2 <= fuel ->
  parseCompare type_name fuel p = (Ret (comparison a ops), p')
  /\ (forall op0 rest,
         ops = op0 :: rest ->
         comparison a ops = Compare (lineno op0) (colno op0) a ops).
Proof.
  intros Ha R Hf. split.
  - destruct fuel as [| k]; [lia |]. rewrite parseCompare_S.
    rewrite (bind_Ret _ _ _ _ _ (parseConcat_more n k _ _ _ ltac:(lia) Ha)).
    rewrite (bind_Ret _ _ _ _ _
               (parseCompare_loop_reads n _ _ _ R k [] ltac:(lia))).
    simpl. unfold comparison. destruct ops; reflexivity.
  - intros op0 rest ->. reflexivity.
Qed.

(** *** [in] and [not in] *)

Lemma parseIn_loop_S n nd :
  parseIn_loop type_name (S n) nd
  = (tok <- nextToken false ;;
     match tok with
     | None => ret nd
     | Some t =>
         let invert :=
           type_is (tok_type t) TOKEN_SYMBOL && value_is (tok_value t) "not" in
         (if negb invert then pushToken tok else ret tt) ;;
         b <- skipSymbol (TStr "in") ;;
         if b
         then nd2 <- parseCompare type_name n ;;
              let nd' := In (lineno nd) (colno nd) nd nd2 in
              parseIn_loop type_name n
                (if invert then Not (lineno nd') (colno nd') nd' else nd')
         else (if invert then pushToken tok else ret tt) ;;
              ret nd
     end).
Proof. reflexivity. Qed.

(** X12: [not] after an operand. The loop of [parseIn] reads [not in] as
    one operator and wraps the [In] node in a [Not]; a [not] that is
    followed by a token other than [in] cannot be put back, because the
    token after it already is in the pushback slot: the parse ends with the
    plain [Error] of [pushToken], not with a [TemplateError]. *)
Theorem not_without_in n nd p t p1 :
  nextToken false p = (Ret (Some t), p1) ->
  is_symbol "not" t = true ->
  (forall p2 b p3,
      skipSymbol (TStr "in") p1 = (Ret true, p2) ->
      parseCompare type_name n p2 = (Ret b, p3) ->
      parseIn_loop type_name (S n) nd p
      = parseIn_loop type_name n
          (Not (lineno nd) (colno nd) (In (lineno nd) (colno nd) nd b)) p3)
  /\ (forall t2 p2,
         nextToken false p1 = (Ret (Some t2), p2) ->
         is_symbol "in" t2 = false ->
         parseIn_loop type_name (S n) nd p
         = (Throw
              (Error "pushToken: can only push one token on between reads"),
            set_peeked (Some t2) p2)).
Proof.
  intros Hn Hnot. unfold is_symbol in Hnot. split.
  - intros p2 b p3 Hin Hb. rewrite parseIn_loop_S.
    rewrite (bind_Ret _ _ _ _ _ Hn). cbv zeta. rewrite Hnot. simpl negb.
    cbv iota. rewrite bind_ret. rewrite (bind_Ret _ _ _ _ _ Hin).
    rewrite (bind_Ret _ _ _ _ _ Hb). reflexivity.
  - intros t2 p2 Hn2 Hin. rewrite parseIn_loop_S.
    rewrite (bind_Ret _ _ _ _ _ Hn). cbv zeta. rewrite Hnot. simpl negb.
    cbv iota. rewrite bind_ret.
    assert (Hs : skipSymbol (TStr "in") p1
                 = (Ret false, set_peeked (Some t2) p2)).
    { unfold skipSymbol, skipValue. rewrite (bind_Ret _ _ _ _ _ Hn2).
      unfold is_symbol in Hin. unfold tokval_eqb. rewrite Hin.
      unfold bind, pushToken. rewrite (nextToken_peeked _ _ _ _ Hn2).
      reflexivity. }
    rewrite (bind_Ret _ _ _ _ _ Hs). unfold bind, pushToken. simpl.
    reflexivity.
Qed.

End Levels.

Section Shapes.

Variable type_name : token_type -> string.
Variable extensions : list extension.

(** *** Dotted filter names *)

Lemma expect_upcoming type p t r :
  upcoming p = t :: r ->
  tok_type t = type ->
  exists p',
    expect type_name type p = (Ret t, p')
    /\ upcoming p' = r /\ clean p' /\ same_context p p'.
Proof.
  intros U Ht. destruct (nextToken_upcoming p) as (p' & H1 & H2 & H3 & H4).
  rewrite U in H1, H2. simpl in H1, H2. exists p'.
  split.
  - rewrite (expect_next_token type_name type p t p' H1).
    unfold type_is. rewrite Ht.
    destruct (token_type_eq_dec type type); [reflexivity | contradiction].
  - split; [exact H2 |]. split; [| exact H4].
    unfold clean. rewrite H3. exact I.
Qed.

Lemma parseFilterName_loop_dotted parts : forall n name p rest,
  upcoming p = dotted parts ++ rest ->
  Forall is_part parts ->
  first_is is_dot rest = false ->
  length parts < n ->
  exists p',
    parseFilterName_loop type_name n name p
    = (Ret (dotted_name name parts), p')
    /\ upcoming p' = rest /\ same_context p p'.
Proof.
  induction parts as [| [d s] parts IH]; intros n name p rest U F R Hn;
    (destruct n as [| n]; [simpl in Hn; lia |]); cbn [parseFilterName_loop].
  - simpl in U.
    destruct (skipValue_upcoming TOKEN_OPERATOR (TStr ".") p)
      as (p1 & H1 & H2 & _ & H4).
    rewrite U in H1, H2.
    change (first_is (has_type_value TOKEN_OPERATOR (TStr ".")) rest = false)
      in R.
    rewrite R in H1, H2.
    rewrite (bind_Ret _ _ _ _ _ H1). exists p1. repeat split; auto; apply H4.
  - cbn [dotted flat_map fst snd app] in U.
    inversion F as [| x l [Fd Fs] F']. subst. cbn [fst snd] in Fd, Fs.
    destruct (skipValue_upcoming TOKEN_OPERATOR (TStr ".") p)
      as (p1 & H1 & H2 & _ & H4).
    rewrite U in H1, H2. cbn [first_is tl app] in H1, H2.
    unfold is_dot in Fd. rewrite Fd in H1, H2.
    rewrite (bind_Ret _ _ _ _ _ H1).
    destruct (expect_upcoming TOKEN_SYMBOL p1 s _ H2 Fs)
      as (p2 & K1 & K2 & _ & K4).
    rewrite (bind_Ret _ _ _ _ _ K1).
    destruct (IH n (TStr (to_string name ++ "." ++ to_string (tok_value s)))
                p2 rest K2 F' R ltac:(simpl in Hn; lia))
      as (p' & L1 & L2 & L3).
    exists p'. split; [exact L1 |]. split; [exact L2 |].
    exact (same_context_trans _ _ _ H4 (same_context_trans _ _ _ K4 L3)).
Qed.

(** X13: the name of a filter may be dotted. [parseFilterName] reads a
    symbol and then, as long as a [.] follows, another symbol; it returns
    one [Symbol] at the position of the first part whose value is the parts
    joined by dots, and consumes exactly these tokens. *)
Theorem filter_names_are_joined n p first parts rest :
  upcoming p = first :: dotted parts ++ rest ->
  tok_type first = TOKEN_SYMBOL ->
  Forall is_part parts ->
  first_is is_dot rest = false ->
  length parts < n ->
  exists p',
    parseFilterName type_name n p
    = (Ret (Symbol (lineno_of first) (colno_of first)
              (dotted_name (tok_value first) parts)), p')
    /\ upcoming p' = rest
    /\ same_context p p'.
Proof.
  intros U Hf F R Hn. unfold parseFilterName.
  destruct (expect_upcoming TOKEN_SYMBOL p first _ U Hf)
    as (p1 & H1 & H2 & _ & H4).
  rewrite (bind_Ret _ _ _ _ _ H1).
  destruct (parseFilterName_loop_dotted parts n (tok_value first) p1 rest
              H2 F R Hn) as (p' & L1 & L2 & L3).
  rewrite (bind_Ret _ _ _ _ _ L1). exists p'.
  split; [reflexivity |]. split; [exact L2 |].
  exact (same_context_trans _ _ _ H4 L3).
Qed.

(** *** Aggregates *)

Lemma parseAggregate_S n :
  parseAggregate type_name (S n)
  = (tok <- nextToken false ;;
     tok <- deref tok ;;
     match aggregate_of (tok_type tok) with
     | None => ret Null
     | Some (mk, dict) =>
         children <- parseAggregate_loop type_name n tok dict [] ;;
         ret (mk (lineno_of tok) (colno_of tok) children)
     end).
Proof. reflexivity. Qed.

Lemma parseAggregate_loop_closing n tok dict children p t r :
  clean p ->
  upcoming p = t :: r ->
  is_closing (tok_type t) = true ->
  exists p',
    parseAggregate_loop type_name (S n) tok dict children p
    = (Ret children, p')
    /\ upcoming p' = r /\ same_context p p'.
Proof.
  intros C U Hc. cbn [parseAggregate_loop].
  destruct (peekToken_upcoming p C) as (p0 & H1 & H2 & _ & H4 & H5).
  rewrite U in H1. simpl in H1. rewrite (bind_Ret _ _ _ _ _ H1).
  unfold deref. rewrite bind_ret. rewrite Hc.
  destruct (nextToken_upcoming p0) as (p' & K1 & K2 & _ & K4).
  rewrite (bind_Ret _ _ _ _ _ K1). exists p'.
  split; [reflexivity |]. split.
  - rewrite K2, H2, U. reflexivity.
  - exact (same_context_trans _ _ _ H5 K4).
Qed.

(** X14: the delimiters of an aggregate are not matched. The token that
    opens an aggregate decides its class ([(] a [Group], [[] an [Array],
    [{] a [Dict]); any of [)], []] and [}] closes it, so that [(]] and
    [[}] are empty aggregates, and a list of children ends at whatever
    closing delimiter comes first. *)
Theorem any_delimiter_closes n p o c rest mk dict :
  upcoming p = o :: c :: rest ->
  aggregate_of (tok_type o) = Some (mk, dict) ->
  is_closing (tok_type c) = true ->
  (exists p',
      parseAggregate type_name (S (S n)) p
      = (Ret (mk (lineno_of o) (colno_of o) []), p')
      /\ upcoming p' = rest)
  /\ (forall q tok dict' children r,
         clean q -> upcoming q = c :: r ->
         exists q',
           parseAggregate_loop type_name (S n) tok dict' children q
           = (Ret children, q')
           /\ upcoming q' = r).
Proof.
  intros U Ho Hc. split.
  - rewrite parseAggregate_S.
    destruct (nextToken_upcoming p) as (p1 & H1 & H2 & H3 & _).
    rewrite U in H1, H2. simpl in H1, H2.
    rewrite (bind_Ret _ _ _ _ _ H1). unfold deref. rewrite bind_ret.
    rewrite Ho.
    assert (C1 : clean p1) by (unfold clean; rewrite H3; exact I).
    destruct (parseAggregate_loop_closing n o dict [] p1 c rest C1 H2 Hc)
      as (p' & K1 & K2 & _).
    rewrite (bind_Ret _ _ _ _ _ K1). exists p'. split; [reflexivity | exact K2].
  - intros q tok dict' children r C Uq.
    destruct (parseAggregate_loop_closing n tok dict' children q c r C Uq Hc)
      as (q' & K1 & K2 & _).
    exists q'. split; assumption.
Qed.

(** *** Templates without tags *)

Lemma is_data_not_whitespace t : is_data t -> is_whitespace t = false.
Proof.
  intros [Ht _]. unfold is_whitespace, type_is. rewrite Ht. reflexivity.
Qed.

Lemma parseNodes_data_plain data p :
  clean p ->
  is_data data ->
  dropLeadingWhitespace p = false ->
  Forall is_data (upcoming p) ->
  exists p',
    parseNodes_data data p = (Ret (data_output data), p')
    /\ upcoming p' = upcoming p /\ clean p'
    /\ same_context p p'.
Proof.
  intros C [_ [s Hs]] Hd F. unfold parseNodes_data.
  destruct (peekToken_upcoming p C) as (p0 & H1 & H2 & _ & H4 & H5).
  rewrite (bind_Ret _ _ _ _ _ H1).
  assert (Hd0 : dropLeadingWhitespace p0 = false).
  { destruct H5 as (_ & E & _). congruence. }
  unfold get at 1. unfold bind at 1. rewrite Hd0.
  unfold bind at 1. unfold ret at 1.
  unfold get at 1. unfold bind at 1.
  assert (S : match hd_error (upcoming p) with
              | Some nt =>
                  type_is (tok_type nt) TOKEN_BLOCK_START = false
                  /\ type_is (tok_type nt) TOKEN_VARIABLE_START = false
                  /\ type_is (tok_type nt) TOKEN_COMMENT = false
              | None => True
              end).
  { destruct (upcoming p) as [| nt r]; [exact I |].
    inversion F as [| x l [Ht _] F']. subst. simpl.
    unfold type_is. rewrite Ht. repeat split. }
  destruct (hd_error (upcoming p)) as [nt |].
  - destruct S as (S1 & S2 & S3). rewrite S1, S2, S3.
    unfold bind, ret. exists p0. unfold data_output.
    repeat split; try assumption; apply H5.
  - unfold bind, ret. exists p0. unfold data_output.
    repeat split; try assumption; apply H5.
Qed.

Lemma parseNodes_plain ts : forall n buf p,
  clean p ->
  upcoming p = ts ->
  Forall is_data ts ->
  dropLeadingWhitespace p = false ->
  length ts < n ->
  exists p',
    parseNodes type_name extensions n buf p
    = (Ret (buf ++ map data_output ts), p')
    /\ pending p' = [].
Proof.
  induction ts as [| t ts IH]; intros n buf p C U F Hd Hn;
    (destruct n as [| n]; [simpl in Hn; lia |]); rewrite parseNodes_S;
    destruct (nextToken_upcoming p) as (p1 & H1 & H2 & H3 & H4);
    rewrite U in H1, H2; simpl in H1, H2; rewrite (bind_Ret _ _ _ _ _ H1).
  - exists p1. rewrite app_nil_r. split; [reflexivity |].
    exact (nextToken_None_pending _ _ H1).
  - inversion F as [| x l Ft F']. subst.
    destruct Ft as [Ht Hv]. rewrite Ht.
    change (type_is TOKEN_DATA TOKEN_DATA) with true. cbv iota.
    assert (C1 : clean p1) by (unfold clean; rewrite H3; exact I).
    assert (Hd1 : dropLeadingWhitespace p1 = false).
    { destruct H4 as (_ & E & _). congruence. }
    destruct (parseNodes_data_plain t p1 C1 (conj Ht Hv) Hd1 F')
      as (p2 & K1 & K2 & K3 & K4).
    rewrite (bind_Ret _ _ _ _ _ K1).
    assert (Hd2 : dropLeadingWhitespace p2 = false).
    { destruct K4 as (_ & E & _). congruence. }
    destruct (IH n (buf ++ [data_output t]) p2 K3 K2 F' Hd2
                ltac:(simpl in Hn; lia)) as (p' & L1 & L2).
    exists p'. split; [| exact L2].
    rewrite L1. rewrite <- app_assoc. reflexivity.
Qed.

(** X15: text passes through unchanged. A template without tags, that is
    a token stream of [TOKEN_DATA] tokens only, parses to a [Root] with one
    [Output] for each token, in their order, each holding a [TemplateData]
    with the text of the token as it is and at the position of the token;
    the empty template parses to the empty [Root]. *)
Theorem text_passes_through lexed fuel :
  Forall is_data (stream lexed) ->
  length (stream lexed) < fuel ->
  exists p',
    parse_lexed type_name extensions fuel lexed
    = (Ret (Root (Some 0) (Some 0) (map data_output (stream lexed))), p')
    /\ pending p' = [].
Proof.
  intros F Hn. unfold parse_lexed, parseAsRoot.
  assert (U : upcoming (init lexed) = stream lexed).
  { unfold upcoming, pending, significant. simpl.
    induction (stream lexed) as [| t ts IH]; [reflexivity |].
    inversion F as [| x l Ft F']. subst. simpl.
    rewrite (is_data_not_whitespace _ Ft). simpl. rewrite (IH F').
    - reflexivity.
    - simpl in Hn. lia. }
  destruct (parseNodes_plain (stream lexed) fuel [] (init lexed) I U F
              eq_refl Hn) as (p' & H1 & H2).
  rewrite (bind_Ret _ _ _ _ _ H1). exists p'. split; [reflexivity | exact H2].
Qed.

(** *** Tag names *)

Lemma parseStatement_S n :
  exists dispatch,
    parseStatement type_name extensions (S n)
    = (tok <- peekToken ;;
       tok <- deref tok ;;
       fail_if (negb (type_is (tok_type tok) TOKEN_SYMBOL)) "tag name expected"
         (lineno_of tok) (colno_of tok) ;;
       blocks <- get breakOnBlocks ;;
       if match blocks with
          | Some names => indexOf_found names (tok_value tok)
          | None => false
          end
       then ret Null
       else dispatch tok)
    /\ forall tok,
        indexOf_found builtin_tags (tok_value tok) = false ->
        dispatch tok
        = match find (fun ext => indexOf_found (ext_tags ext) (tok_value tok))
                  extensions with
          | Some ext =>
              ext_parse ext
                (mkApi (parseExpression type_name n) (parsePrimary type_name n)
                   (parseSignature type_name n)
                   (parseUntilBlocks type_name extensions n))
          | None =>
              fail ("unknown block tag: " ++ to_string (tok_value tok))
                (lineno_of tok) (colno_of tok)
          end.
Proof.
  eexists. split; [reflexivity |].
  intros tok H. unfold builtin_tags, indexOf_found in H. simpl in H.
  repeat match type of H with
         | _ || _ = false => apply orb_false_elim in H; destruct H as [?E H]
         end.
  cbv beta.
  repeat match goal with
         | E : value_is _ _ = false |- _ => rewrite E; clear E
         end.
  reflexivity.
Qed.

(** X16: how a tag is dispatched. [parseStatement] wants a symbol (or
    fails with [tag name expected] at the token); a name on the list of
    block names ends the nested parse: [null] is returned and the name is
    not consumed, whatever the name is; a name that is neither a tag of the
    parser itself nor a tag of an extension is an error at the position of
    the name, so that a stray [endif], [else] or [endfor] is an
    [unknown block tag]. *)
Theorem tags_are_dispatched n p t r :
  clean p ->
  upcoming p = t :: r ->
  (tok_type t <> TOKEN_SYMBOL ->
   exists p',
     parseStatement type_name extensions (S n) p
     = (Throw (TemplateError "tag name expected"
                 (Some (S (tok_lineno t))) (Some (S (tok_colno t)))), p'))
  /\ (tok_type t = TOKEN_SYMBOL ->
      breaks_on p (tok_value t) = true ->
      exists p',
        parseStatement type_name extensions (S n) p = (Ret Null, p')
        /\ upcoming p' = upcoming p)
  /\ (tok_type t = TOKEN_SYMBOL ->
      breaks_on p (tok_value t) = false ->
      indexOf_found builtin_tags (tok_value t) = false ->
      find (fun ext => indexOf_found (ext_tags ext) (tok_value t)) extensions
      = None ->
      exists p',
        parseStatement type_name extensions (S n) p
        = (Throw (TemplateError
                    ("unknown block tag: " ++ to_string (tok_value t))
                    (Some (S (tok_lineno t))) (Some (S (tok_colno t)))), p')).
Proof.
  intros C U.
  destruct (parseStatement_S n) as (dispatch & E & D). rewrite E.
  destruct (peekToken_upcoming p C) as (p0 & H1 & H2 & _ & _ & H5).
  rewrite U in H1. simpl in H1.
  assert (B : breakOnBlocks p0 = breakOnBlocks p) by apply H5.
  split; [| split].
  - intros Ht. exists p0. rewrite (bind_Ret _ _ _ _ _ H1).
    unfold deref. rewrite bind_ret. unfold type_is.
    destruct (token_type_eq_dec (tok_type t) TOKEN_SYMBOL);
      [contradiction |].
    reflexivity.
  - intros Ht Hb. exists p0. split; [| exact H2].
    rewrite (bind_Ret _ _ _ _ _ H1). unfold deref. rewrite bind_ret.
    rewrite Ht. change (type_is TOKEN_SYMBOL TOKEN_SYMBOL) with true.
    unfold fail_if. simpl negb. cbv iota. rewrite bind_ret.
    unfold get, bind. rewrite B. unfold breaks_on in Hb. rewrite Hb.
    reflexivity.
  - intros Ht Hb Hu He. exists p0.
    rewrite (bind_Ret _ _ _ _ _ H1). unfold deref. rewrite bind_ret.
    rewrite Ht. change (type_is TOKEN_SYMBOL TOKEN_SYMBOL) with true.
    unfold fail_if. simpl negb. cbv iota. rewrite bind_ret.
    unfold get. unfold bind at 1. rewrite B. unfold breaks_on in Hb.
    rewrite Hb. rewrite (D t Hu). rewrite He. reflexivity.
Qed.

End Shapes.

Section Strings.

Lemma strlen_append a b : strlen (a ++ b) = (strlen a + strlen b)%Z.
Proof.
  unfold strlen. induction a as [| c a IH]; [reflexivity |].
  cbn [String.append String.length]. lia.
Qed.

Lemma charAt_after a c r : charAt (a ++ String c r) (strlen a) = String c "".
Proof.
  unfold charAt, strlen.
  destruct (Z.of_nat (String.length a) <? 0)%Z eqn:E;
    [apply Z.ltb_lt in E; lia |].
  rewrite Nat2Z.id.
  pose proof (append_correct2 a (String c r) 0) as G. simpl in G.
  rewrite <- G. reflexivity.
Qed.

(** What [replace(/\s*$/, '')] removes is whitespace at the end, and it
    leaves none there. *)
Lemma trim_trailing_suffix s :
  exists w, s = (trim_trailing s ++ w)%string /\ all_space w = true.
Proof.
  induction s as [| c r IH]; [exists ""; split; reflexivity |].
  cbn [trim_trailing]. destruct (all_space (String c r)) eqn:E.
  - exists (String c r). split; [reflexivity | exact E].
  - destruct IH as (w & H1 & H2). exists w. split; [| exact H2].
    cbn [String.append]. rewrite <- H1. reflexivity.
Qed.

Lemma trim_trailing_clean_end s : ends_with_space (trim_trailing s) = false.
Proof.
  induction s as [| c r IH]; [reflexivity |].
  cbn [trim_trailing]. destruct (all_space (String c r)) eqn:E;
    [reflexivity |].
  destruct (trim_trailing r) as [| c' r'] eqn:T.
  - simpl. simpl in E.
    destruct (is_space c); [| reflexivity].
    destruct (trim_trailing_suffix r) as (w & H1 & H2).
    rewrite T in H1. simpl in H1. subst w. simpl in E. congruence.
  - exact IH.
Qed.

End Strings.

Section WhitespaceControl.

Variable type_name : token_type -> string.
Variable extensions : list extension.

Lemma strips_before_dash tg nt :
  strips_before tg nt ->
  exists v,
    tok_value nt = TStr v
    /\ (if type_is (tok_type nt) TOKEN_BLOCK_START
        then String.eqb (charAt v (strlen v - 1)) "-"
        else if type_is (tok_type nt) TOKEN_VARIABLE_START
        then String.eqb (charAt v (strlen (VARIABLE_START tg))) "-"
        else if type_is (tok_type nt) TOKEN_COMMENT
        then String.eqb (charAt v (strlen (COMMENT_START tg))) "-"
        else false) = true.
Proof.
  intros [(Ht & s & Hv) | [(Ht & r & Hv) | (Ht & r & Hv)]];
    eexists; (split; [exact Hv |]); rewrite Ht.
  - change (type_is TOKEN_BLOCK_START TOKEN_BLOCK_START) with true.
    cbv iota. rewrite strlen_append.
    replace (strlen s + strlen "-" - 1)%Z with (strlen s)
      by (unfold strlen; simpl; lia).
    rewrite charAt_after. reflexivity.
  - change (type_is TOKEN_VARIABLE_START TOKEN_BLOCK_START) with false.
    change (type_is TOKEN_VARIABLE_START TOKEN_VARIABLE_START) with true.
    cbv iota. change ("-" ++ r)%string with (String "-"%char r).
    rewrite charAt_after. reflexivity.
  - change (type_is TOKEN_COMMENT TOKEN_BLOCK_START) with false.
    change (type_is TOKEN_COMMENT TOKEN_VARIABLE_START) with false.
    change (type_is TOKEN_COMMENT TOKEN_COMMENT) with true.
    cbv iota. change ("-" ++ r)%string with (String "-"%char r).
    rewrite charAt_after. reflexivity.
Qed.

(** X17: whitespace control on the left of a marker. When the token
    after a text is a block start written [{%-], a variable start written
    [{{-] or a comment written [{#-], and the latch is not set, the node
    pushed for the text holds the text without the whitespace at its end,
    and everything before that whitespace as it is. *)
Theorem marker_dash_trims_text_before data text p nt p' :
  tok_value data = TStr text ->
  dropLeadingWhitespace p = false ->
  peekToken p = (Ret (Some nt), p') ->
  strips_before (tags (tokens p')) nt ->
  parseNodes_data data p
  = (Ret (Output (lineno_of data) (colno_of data)
            [TemplateData (lineno_of data) (colno_of data)
               (TStr (trim_trailing text))]), p')
  /\ ends_with_space (trim_trailing text) = false
  /\ exists w, text = (trim_trailing text ++ w)%string /\ all_space w = true.
Proof.
  intros Hv Hd Hp Hs. split; [| split].
  - unfold parseNodes_data. rewrite (bind_Ret _ _ _ _ _ Hp).
    pose proof (peekToken_latch _ _ _ Hp) as Hl. rewrite Hd in Hl.
    unfold get at 1. unfold bind at 1. rewrite Hl.
    unfold bind at 1. unfold ret at 1.
    unfold get at 1. unfold bind at 1.
    destruct (strips_before_dash _ _ Hs) as (v & Ev & Es).
    rewrite Ev. unfold value_charAt_is_dash, value_length.
    destruct (type_is (tok_type nt) TOKEN_BLOCK_START);
      [| destruct (type_is (tok_type nt) TOKEN_VARIABLE_START);
         [| destruct (type_is (tok_type nt) TOKEN_COMMENT);
            [| discriminate Es]]];
      unfold bind, ret; rewrite Es; rewrite Hv; reflexivity.
  - apply trim_trailing_clean_end.
  - apply trim_trailing_suffix.
Qed.

(** The character before the closing delimiter of a comment. *)
Lemma comment_dash pre c close :
  String.eqb
    (charAt (pre ++ String c close)
       (strlen (pre ++ String c close) - strlen close - 1)) "-"
  = Ascii.eqb c "-".
Proof.
  replace (strlen (pre ++ String c close) - strlen close - 1)%Z
    with (strlen pre).
  - rewrite charAt_after. cbn [String.eqb].
    destruct (Ascii.eqb c "-"); reflexivity.
  - rewrite strlen_append. unfold strlen. cbn [String.length]. lia.
Qed.

(** The cursor does not look at the latch. *)
Lemma nextToken_with_latch w b p :
  nextToken w (set_dropLeadingWhitespace b p)
  = (fst (nextToken w p),
     set_dropLeadingWhitespace b (snd (nextToken w p))).
Proof.
  unfold nextToken, readToken. destruct p as [l pk bl d]. cbn.
  destruct pk as [t |].
  - destruct (negb w && is_whitespace t); [| reflexivity].
    destruct (lex_nextToken l) as [tok l']. destruct w; [reflexivity |].
    destruct (skip_whitespace tok (stream l')); reflexivity.
  - destruct (lex_nextToken l) as [tok l']. destruct w; [reflexivity |].
    destruct (skip_whitespace tok (stream l')); reflexivity.
Qed.

Lemma peekToken_with_latch b p :
  peekToken (set_dropLeadingWhitespace b p)
  = (fst (peekToken p), set_dropLeadingWhitespace b (snd (peekToken p))).
Proof.
  unfold peekToken. cbn [peeked set_dropLeadingWhitespace].
  destruct (peeked p) as [t |]; [reflexivity |].
  unfold bind. rewrite nextToken_with_latch.
  destruct (nextToken false p) as [[tok | e |] p']; reflexivity.
Qed.

(** X18: a comment gives no node and decides the latch. When the node
    parser reads a comment, it pushes nothing and goes on with the latch
    set exactly when the character before the closing delimiter of the
    comment is [-], whatever the latch was. So the text after the comment
    loses its leading whitespace after [{# ... -#}] and keeps it after
    [{# ... #}], also when a [-%}] stands before the comment. *)
Theorem comment_decides_the_latch n buf p t pre c p1 :
  nextToken false p = (Ret (Some t), p1) ->
  tok_type t = TOKEN_COMMENT ->
  tok_value t = TStr (pre ++ String c (COMMENT_END (tags (tokens p1)))) ->
  parseNodes type_name extensions (S n) buf p
  = parseNodes type_name extensions n buf
      (mkParser (tokens p1) (peeked p1) (breakOnBlocks p1) (Ascii.eqb c "-"))
  /\ (forall d s p2 p3,
         nextToken false p1 = (Ret (Some d), p2) ->
         tok_type d = TOKEN_DATA ->
         tok_value d = TStr s ->
         peekToken p2 = (Ret None, p3) ->
         parseNodes type_name extensions (S (S n)) buf p
         = parseNodes type_name extensions n
             (buf ++ [Output (lineno_of d) (colno_of d)
                        [TemplateData (lineno_of d) (colno_of d)
                           (TStr (if Ascii.eqb c "-" then trim_leading s
                                  else s))]])
             (mkParser (tokens p3) (peeked p3) (breakOnBlocks p3) false)).
Proof.
  intros Hn Ht Hv.
  assert (Step : forall m,
             parseNodes type_name extensions (S m) buf p
             = parseNodes type_name extensions m buf
                 (set_dropLeadingWhitespace (Ascii.eqb c "-") p1)).
  { intros m. rewrite parseNodes_S. rewrite (bind_Ret _ _ _ _ _ Hn).
    rewrite Ht.
    change (type_is TOKEN_COMMENT TOKEN_DATA) with false.
    change (type_is TOKEN_COMMENT TOKEN_BLOCK_START) with false.
    change (type_is TOKEN_COMMENT TOKEN_VARIABLE_START) with false.
    change (type_is TOKEN_COMMENT TOKEN_COMMENT) with true.
    cbv iota. rewrite Hv.
    rewrite <- (comment_dash pre c (COMMENT_END (tags (tokens p1)))).
    reflexivity. }
  split; [exact (Step n) |].
  intros d s p2 p3 Hd Hty Hs Hpeek. rewrite (Step (S n)).
  rewrite parseNodes_S.
  assert (Hd' : nextToken false
                  (set_dropLeadingWhitespace (Ascii.eqb c "-") p1)
                = (Ret (Some d),
                   set_dropLeadingWhitespace (Ascii.eqb c "-") p2)).
  { rewrite nextToken_with_latch. rewrite Hd. reflexivity. }
  rewrite (bind_Ret _ _ _ _ _ Hd'). rewrite Hty.
  change (type_is TOKEN_DATA TOKEN_DATA) with true. cbv iota.
  assert (Hp' : peekToken (set_dropLeadingWhitespace (Ascii.eqb c "-") p2)
                = (Ret None,
                   set_dropLeadingWhitespace (Ascii.eqb c "-") p3)).
  { rewrite peekToken_with_latch. rewrite Hpeek. reflexivity. }
  unfold parseNodes_data. rewrite bind_assoc.
  rewrite (bind_Ret _ _ _ _ _ Hp'). rewrite Hs.
  destruct (Ascii.eqb c "-"); reflexivity.
Qed.

(** *** [with context] *)

(** X19: [with context] and [without context]. [parseWithContext]
    returns [true] after [with context], [false] after [without context],
    and [null] without consuming anything when neither [with] nor [without]
    comes next; [with] or [without] before anything but [context] is an
    error, reported at the position of [with] or [without] and, also inside
    an [import], under the name of [parseFrom]. *)
Theorem with_context_is_optional p :
  clean p ->
  (forall w c r,
      upcoming p = w :: c :: r ->
      is_symbol "with" w = true -> is_symbol "context" c = true ->
      exists p', parseWithContext p = (Ret (Some true), p')
                 /\ upcoming p' = r)
  /\ (forall w c r,
         upcoming p = w :: c :: r ->
         is_symbol "without" w = true -> is_symbol "context" c = true ->
         exists p', parseWithContext p = (Ret (Some false), p')
                    /\ upcoming p' = r)
  /\ (forall w r,
         upcoming p = w :: r ->
         is_symbol "with" w || is_symbol "without" w = true ->
         first_is (is_symbol "context") r = false ->
         exists p',
           parseWithContext p
           = (Throw (TemplateError
                       "parseFrom: expected context after with/without"
                       (Some (S (tok_lineno w))) (Some (S (tok_colno w)))),
              p'))
  /\ (first_is (is_symbol "with") (upcoming p) = false ->
      first_is (is_symbol "without") (upcoming p) = false ->
      exists p', parseWithContext p = (Ret None, p')
                 /\ upcoming p' = upcoming p).
Proof.
  intros C.
  destruct (peekToken_upcoming p C) as (p0 & H1 & H2 & _ & _ & _).
  assert (S : forall name,
             exists q,
               skipSymbol (TStr name) p0
               = (Ret (first_is (is_symbol name) (upcoming p)), q)
               /\ upcoming q
                  = (if first_is (is_symbol name) (upcoming p)
                     then tl (upcoming p) else upcoming p)).
  { intros name.
    destruct (skipValue_upcoming TOKEN_SYMBOL (TStr name) p0)
      as (q & K1 & K2 & _). rewrite H2 in K1, K2.
    exists q. split; [exact K1 | exact K2]. }
  assert (S' : forall name q,
             exists q',
               skipSymbol (TStr name) q
               = (Ret (first_is (is_symbol name) (upcoming q)), q')
               /\ upcoming q'
                  = (if first_is (is_symbol name) (upcoming q)
                     then tl (upcoming q) else upcoming q)).
  { intros name q.
    destruct (skipValue_upcoming TOKEN_SYMBOL (TStr name) q)
      as (q' & K1 & K2 & _).
    exists q'. split; [exact K1 | exact K2]. }
  unfold parseWithContext. rewrite (bind_Ret _ _ _ _ _ H1).
  split; [| split; [| split]].
  - intros w c r U Hw Hc. rewrite U in *.
    destruct (S "with") as (q & K1 & K2). simpl in K1, K2.
    rewrite Hw in K1, K2. rewrite (bind_Ret _ _ _ _ _ K1).
    rewrite bind_ret.
    destruct (S' "context" q) as (q' & L1 & L2). rewrite K2 in L1, L2.
    simpl in L1, L2. rewrite Hc in L1, L2.
    rewrite (bind_Ret _ _ _ _ _ L1). exists q'. split; [reflexivity | exact L2].
  - intros w c r U Hw Hc. rewrite U in *.
    destruct (S "with") as (q & K1 & K2). simpl in K1, K2.
    assert (Hw' : is_symbol "with" w = false).
    { unfold is_symbol in *. apply andb_true_iff in Hw. destruct Hw as [_ Hw].
      destruct (tok_value w) as [s |]; [| discriminate Hw]. simpl in *.
      apply String.eqb_eq in Hw. subst s. apply andb_false_r. }
    rewrite Hw' in K1, K2. rewrite (bind_Ret _ _ _ _ _ K1).
    rewrite bind_assoc.
    destruct (S' "without" q) as (q1 & M1 & M2). rewrite K2 in M1, M2.
    simpl in M1, M2. rewrite Hw in M1, M2.
    rewrite (bind_Ret _ _ _ _ _ M1). rewrite bind_ret.
    destruct (S' "context" q1) as (q' & L1 & L2). rewrite M2 in L1, L2.
    simpl in L1, L2. rewrite Hc in L1, L2.
    rewrite (bind_Ret _ _ _ _ _ L1). exists q'. split; [reflexivity | exact L2].
  - intros w r U Hw Hc. rewrite U in *. simpl in H1.
    destruct (S "with") as (q & K1 & K2). simpl in K1, K2.
    rewrite (bind_Ret _ _ _ _ _ K1).
    destruct (is_symbol "with" w) eqn:Ew.
    + rewrite bind_ret.
      destruct (S' "context" q) as (q' & L1 & L2). rewrite K2 in L1, L2.
      simpl in L1, L2. rewrite Hc in L1.
      rewrite (bind_Ret _ _ _ _ _ L1). exists q'. reflexivity.
    + simpl in Hw. rewrite bind_assoc.
      destruct (S' "without" q) as (q1 & M1 & M2). rewrite K2 in M1, M2.
      simpl in M1, M2. rewrite Hw in M1, M2.
      rewrite (bind_Ret _ _ _ _ _ M1). rewrite bind_ret.
      destruct (S' "context" q1) as (q' & L1 & L2). rewrite M2 in L1, L2.
      simpl in L1, L2. rewrite Hc in L1.
      rewrite (bind_Ret _ _ _ _ _ L1). exists q'. reflexivity.
  - intros Hw Hwo.
    destruct (S "with") as (q & K1 & K2). rewrite Hw in K1, K2.
    rewrite (bind_Ret _ _ _ _ _ K1). rewrite bind_assoc.
    destruct (S' "without" q) as (q1 & M1 & M2). rewrite K2 in M1, M2.
    rewrite Hwo in M1, M2.
    rewrite (bind_Ret _ _ _ _ _ M1). rewrite bind_ret.
    exists q1. split; [reflexivity | exact M2].
Qed.

End WhitespaceControl.

Section Arguments.

Variable type_name : token_type -> string.

Lemma parseExpression_more n k p r p' :
  n <= k -> parseExpression type_name n p = (Ret r, p') ->
  parseExpression type_name k p = (Ret r, p').
Proof.
  intros Hk H. apply (parseExpression_mono type_name n k Hk _ _ _ H).
  discriminate.
Qed.

Lemma parseSignature_loop_S n noParens open args kwargs checkComma :
  parseSignature_loop type_name (S n) noParens open args kwargs checkComma
  = (let done :=
       ret (NodeList (lineno_of open) (colno_of open)
              (args ++ if (0 <? length kwargs)%nat
                       then [KeywordArgs (lineno_of open) (colno_of open)
                               kwargs]
                       else [])) in
     tok <- peekToken ;;
     tok <- deref tok ;;
     if negb noParens && type_is (tok_type tok) TOKEN_RIGHT_PAREN
     then nextToken false ;; done
     else if noParens && type_is (tok_type tok) TOKEN_BLOCK_END
     then done
     else
       noComma <- (if checkComma
                   then b <- skip TOKEN_COMMA ;; ret (negb b)
                   else ret false) ;;
       if noComma
       then fail "parseSignature: expected comma after expression"
              (lineno_of tok) (colno_of tok)
       else
         arg <- parseExpression type_name n ;;
         eq <- skipValue TOKEN_OPERATOR (TStr "=") ;;
         if eq
         then value <- parseExpression type_name n ;;
              parseSignature_loop type_name n noParens open args
                (kwargs ++ [Pair (lineno arg) (colno arg) arg value]) true
         else parseSignature_loop type_name n noParens open (args ++ [arg])
                kwargs true).
Proof. reflexivity. Qed.

Lemma signature_done open args kwargs :
  NodeList (lineno_of open) (colno_of open)
    (args ++ if (0 <? length kwargs)%nat
             then [KeywordArgs (lineno_of open) (colno_of open) kwargs]
             else [])
  = signature open args kwargs.
Proof. unfold signature. destruct kwargs; reflexivity. Qed.

Lemma reads_comma_no_comma checkComma p0 p1 :
  reads_comma checkComma p0 p1 ->
  (if checkComma then b <- skip TOKEN_COMMA ;; ret (negb b) else ret false) p0
  = (Ret false, p1).
Proof.
  unfold reads_comma. destruct checkComma.
  - intros H. rewrite (bind_Ret _ _ _ _ _ H). reflexivity.
  - intros ->. reflexivity.
Qed.

Lemma parseSignature_loop_reads n noParens open checkComma p items p' :
  reads_arguments type_name n noParens checkComma p items p' ->
  forall k args kwargs,
    n + length items < k ->
    parseSignature_loop type_name k noParens open args kwargs checkComma p
    = (Ret (signature open (args ++ positionals items)
              (kwargs ++ keywords items)), p').
Proof.
  induction 1 as [cc p t p0 u p' Hp Hc Hn
                 | cc p t p0 Hp Hc Hb
                 | cc p t p0 p1 arg p2 p3 items p' Hp Hc Hb Hcm Ha He R IH
                 | cc p t p0 p1 key p2 p3 value p4 items p' Hp Hc Hb Hcm Ha He
                     Hv R IH];
    intros k args kwargs Hk; (destruct k as [| k]; [lia |]);
    rewrite parseSignature_loop_S; cbv zeta;
    rewrite (bind_Ret _ _ _ _ _ Hp); unfold deref; rewrite bind_ret;
    rewrite Hc.
  - rewrite (bind_Ret _ _ _ _ _ Hn). rewrite signature_done.
    simpl. rewrite !app_nil_r. reflexivity.
  - rewrite Hb. rewrite signature_done.
    simpl. rewrite !app_nil_r. reflexivity.
  - rewrite Hb. rewrite (bind_Ret _ _ _ _ _ (reads_comma_no_comma _ _ _ Hcm)).
    cbv iota. simpl in Hk.
    rewrite (bind_Ret _ _ _ _ _
               (parseExpression_more n k _ _ _ ltac:(lia) Ha)).
    rewrite (bind_Ret _ _ _ _ _ He). cbv iota.
    rewrite (IH k); [| lia]. simpl. rewrite <- app_assoc. reflexivity.
  - rewrite Hb. rewrite (bind_Ret _ _ _ _ _ (reads_comma_no_comma _ _ _ Hcm)).
    cbv iota. simpl in Hk.
    rewrite (bind_Ret _ _ _ _ _
               (parseExpression_more n k _ _ _ ltac:(lia) Ha)).
    rewrite (bind_Ret _ _ _ _ _ He). cbv iota.
    rewrite (bind_Ret _ _ _ _ _
               (parseExpression_more n k _ _ _ ltac:(lia) Hv)).
    rewrite (IH k); [| lia]. simpl. rewrite <- app_assoc. reflexivity.
Qed.

Lemma parseSignature_S n tolerant noParens :
  parseSignature type_name (S n) tolerant noParens
  = (tok <- peekToken ;;
     tok <- deref tok ;;
     if negb noParens && negb (type_is (tok_type tok) TOKEN_LEFT_PAREN)
     then if tolerant then ret Null
          else fail "expected arguments" (lineno_of tok) (colno_of tok)
     else
       tok <- (if type_is (tok_type tok) TOKEN_LEFT_PAREN
               then t <- nextToken false ;; deref t
               else ret tok) ;;
       parseSignature_loop type_name n noParens tok [] [] false).
Proof. reflexivity. Qed.

(** X20: keyword arguments are collected. An argument list in
    parentheses parses to a [NodeList], at the position of the opening
    parenthesis, that holds the positional arguments in their order and
    then, if there is any [key = value], one [KeywordArgs] node with a
    [Pair] for each in their order: where a keyword argument stands among
    the others is not kept, and a positional argument may follow one.
    Without the parenthesis, a tolerant call returns [null] and consumes
    nothing. *)
Theorem keyword_arguments_are_collected n p open p0 p1 items p' fuel :
  peekToken p = (Ret (Some open), p0) ->
  (tok_type open = TOKEN_LEFT_PAREN ->
   nextToken false p0 = (Ret (Some open), p1) ->
   reads_arguments type_name n false false p1 items p' ->
   n + length items + 2 <= fuel ->
   forall tolerant,
     parseSignature type_name fuel tolerant false p
     = (Ret (signature open (positionals items) (keywords items)), p'))
  /\ (tok_type open <> TOKEN_LEFT_PAREN ->
      parseSignature type_name (S fuel) true false p = (Ret Null, p0)).
Proof.
  intros Hp. split.
  - intros Ht Hn R Hf tolerant. destruct fuel as [| k]; [lia |].
    rewrite parseSignature_S. rewrite (bind_Ret _ _ _ _ _ Hp).
    unfold deref at 1. rewrite bind_ret. rewrite Ht.
    change (type_is TOKEN_LEFT_PAREN TOKEN_LEFT_PAREN) with true.
    cbn [negb andb].
    rewrite bind_assoc. rewrite (bind_Ret _ _ _ _ _ Hn).
    unfold deref. rewrite bind_ret.
    exact (parseSignature_loop_reads n false open false p1 items p' R k [] []
             ltac:(lia)).
  - intros Ht. rewrite parseSignature_S. rewrite (bind_Ret _ _ _ _ _ Hp).
    unfold deref at 1. rewrite bind_ret. unfold type_is.
    destruct (token_type_eq_dec (tok_type open) TOKEN_LEFT_PAREN);
      [contradiction | reflexivity].
Qed.

(** *** Lookups *)

Lemma parsePostfix_S n nd :
  parsePostfix type_name (S n) nd
  = (tok <- peekToken ;;
     match tok with
     | None => ret nd
     | Some t =>
         if type_is (tok_type t) TOKEN_LEFT_PAREN
         then args <- parseSignature type_name n false false ;;
              parsePostfix type_name n
                (FunCall (lineno_of t) (colno_of t) nd args)
         else if type_is (tok_type t) TOKEN_LEFT_BRACKET
         then lookup <- parseAggregate type_name n ;;
              match children_of lookup with
              | None => throw (TypeError "Cannot read properties of null")
              | Some ch =>
                  (if (1 <? length ch)%nat then fail "invalid index" None None
                   else ret tt) ;;
                  parsePostfix type_name n
                    (LookupVal (lineno_of t) (colno_of t) nd (nth 0 ch Null))
              end
         else if type_is (tok_type t) TOKEN_OPERATOR
                 && value_is (tok_value t) "."
         then nextToken false ;;
              val <- nextToken false ;;
              val <- deref val ;;
              (if negb (type_is (tok_type val) TOKEN_SYMBOL)
               then fail ("expected name as lookup value, got "
                          ++ to_string (tok_value val))
                      (lineno_of val) (colno_of val)
               else ret tt) ;;
              parsePostfix type_name n
                (LookupVal (lineno_of t) (colno_of t) nd
                   (Literal (lineno_of val) (colno_of val)
                      (of_tokval (tok_value val))))
         else ret nd
     end).
Proof. reflexivity. Qed.

End Arguments.

Section Primary.

Variable type_name : token_type -> string.

Lemma parsePrimary_S n noPostfix :
  parsePrimary type_name (S n) noPostfix
  = (tok <- nextToken false ;;
     match tok with
     | None => fail "expected expression, got end of file" None None
     | Some t =>
         val <- literal_value t ;;
         nd <- match val with
               | Some v => ret (Literal (lineno_of t) (colno_of t) v)
               | None =>
                   if type_is (tok_type t) TOKEN_SYMBOL
                   then ret (Symbol (lineno_of t) (colno_of t) (tok_value t))
                   else pushToken tok ;; parseAggregate type_name n
               end ;;
         nd <- (if negb noPostfix then parsePostfix type_name n nd
                else ret nd) ;;
         if negb (is_null nd) then ret nd
         else fail ("unexpected token: " ++ to_string (tok_value t))
                (lineno_of t) (colno_of t)
     end).
Proof. reflexivity. Qed.

Lemma starts_postfix_false t :
  starts_postfix t = false ->
  type_is (tok_type t) TOKEN_LEFT_PAREN = false
  /\ type_is (tok_type t) TOKEN_LEFT_BRACKET = false
  /\ type_is (tok_type t) TOKEN_OPERATOR && value_is (tok_value t) "." = false.
Proof.
  unfold starts_postfix. intros H.
  apply orb_false_elim in H. destruct H as [H H3].
  apply orb_false_elim in H. destruct H as [H1 H2].
  repeat split; assumption.
Qed.

(** [parsePostfix] before a token that goes on with nothing. *)
Lemma parsePostfix_nothing n nd p :
  clean p ->
  first_is starts_postfix (upcoming p) = false ->
  exists p', parsePostfix type_name (S n) nd p = (Ret nd, p')
             /\ upcoming p' = upcoming p.
Proof.
  intros C H. rewrite parsePostfix_S.
  destruct (peekToken_upcoming p C) as (p0 & H1 & H2 & _).
  rewrite (bind_Ret _ _ _ _ _ H1). exists p0. split; [| exact H2].
  destruct (upcoming p) as [| t r]; [reflexivity |].
  simpl in H. destruct (starts_postfix_false t H) as (E1 & E2 & E3).
  change (hd_error (t :: r)) with (Some t). cbv iota.
  rewrite E1, E2, E3. reflexivity.
Qed.

(** X22: a token that starts no expression. Where an expression is
    wanted, a token that is no literal, no symbol and no opening delimiter,
    and that is not followed by [(], [[] or [.], stops the parse with
    [unexpected token] and the value of the token, at the position of the
    token counted from 1: so does the [}}] of [{{ }}]. *)
Theorem unexpected_token_is_reported n p t r :
  upcoming p = t :: r ->
  starts_primary (tok_type t) = false ->
  first_is starts_postfix r = false ->
  forall noPostfix,
    exists p',
      parsePrimary type_name (S (S n)) noPostfix p
      = (Throw (TemplateError
                  ("unexpected token: " ++ to_string (tok_value t))
                  (Some (S (tok_lineno t))) (Some (S (tok_colno t)))), p').
Proof.
  intros U Ht Hr noPostfix. rewrite parsePrimary_S.
  destruct (nextToken_upcoming p) as (p1 & H1 & H2 & H3 & _).
  rewrite U in H1, H2. simpl in H1, H2.
  rewrite (bind_Ret _ _ _ _ _ H1).
  assert (L : literal_value t = ret None).
  { unfold literal_value. destruct (tok_type t); try reflexivity;
      discriminate Ht. }
  rewrite L. rewrite bind_ret.
  assert (Y : type_is (tok_type t) TOKEN_SYMBOL = false).
  { destruct (tok_type t); try reflexivity; discriminate Ht. }
  rewrite Y.
  pose proof (significant_head _ _ _ U) as W.
  destruct (pushToken_upcoming p1 (Some t) H3 W) as (K1 & K2 & K3 & _).
  rewrite bind_assoc. rewrite (bind_Ret _ _ _ _ _ K1).
  rewrite parseAggregate_S.
  destruct (nextToken_upcoming (set_peeked (Some t) p1))
    as (p2 & M1 & M2 & M3 & _).
  rewrite K2 in M1, M2. simpl in M1, M2.
  rewrite bind_assoc. rewrite (bind_Ret _ _ _ _ _ M1).
  unfold deref. rewrite bind_assoc. rewrite bind_ret.
  assert (A : aggregate_of (tok_type t) = None).
  { destruct (tok_type t); try reflexivity; discriminate Ht. }
  rewrite A. rewrite bind_ret.
  assert (C2 : clean p2) by (unfold clean; rewrite M3; exact I).
  destruct noPostfix; cbn [negb].
  - rewrite bind_ret. cbn [is_null negb]. eexists. reflexivity.
  - rewrite <- H2, <- M2 in Hr.
    destruct (parsePostfix_nothing n Null p2 C2 Hr) as (p3 & N1 & _).
    rewrite (bind_Ret _ _ _ _ _ N1). cbn [is_null negb].
    eexists. reflexivity.
Qed.

(** X23: the routines of the expression grammar return nodes. What
    [parseExpression], [parseUnary] and [parsePrimary] return is never
    [null]: where no node could be made, they have thrown. Their callers
    read [lineno] and [colno] of the result without a test. *)
Theorem expressions_are_nodes n p :
  (forall nd p', parseExpression type_name n p = (Ret nd, p') -> nd <> Null)
  /\ (forall noFilters nd p',
         parseUnary type_name n noFilters p = (Ret nd, p') -> nd <> Null)
  /\ (forall noPostfix nd p',
         parsePrimary type_name n noPostfix p = (Ret nd, p') -> nd <> Null).
Proof.
  pose proof (expr_not_null_all type_name n) as N. unfold expr_not_null in N.
  decompose [and] N. clear N.
  split; [| split]; intros; intros ->;
    match goal with
    | K : ?m p = (Ret Null, _), F : returns not_null ?m |- _ =>
        discriminate (F _ _ _ K)
    | K : ?f ?a p = (Ret Null, _), F : forall x, returns not_null (?f x) |- _ =>
        discriminate (F a _ _ _ K)
    end.
Qed.

End Primary.

(** ** Termination *)

Lemma within_le l j k p : j <= k -> within l j p -> within l k p.
Proof. intros H [H1 H2]. split; [lia | exact H2]. Qed.

Lemma halts_ret {A} l (a : A) post k k' :
  post a = Some k' -> k <= k' -> halts l (fun _ => ret a) post k.
Proof.
  intros Hp Hk p W. exists 0, (Ret a), p. split; [reflexivity |].
  rewrite Hp. exact (within_le _ _ _ _ Hk W).
Qed.

Lemma halts_throw {A} l e (post : A -> option nat) k :
  halts l (fun _ => throw e) post k.
Proof. intros p W. exists 0, (Throw e), p. split; [reflexivity | exact I]. Qed.

Lemma halts_bind {A B} l (m : nat -> M A) (ka : A -> nat -> M B)
  postm post k :
  halts l m postm k ->
  (forall a k1, postm a = Some k1 -> halts l (ka a) post k1) ->
  halts l (fun n => bind (m n) (fun a => ka a n)) post k.
Proof.
  intros Hm Hk p W. destruct (Hm p W) as (n1 & r & p1 & E1 & P1).
  destruct r as [a | e |].
  - destruct (postm a) as [k1 |] eqn:Ea; [| contradiction].
    destruct (Hk a k1 Ea p1 P1) as (n2 & r2 & p2 & E2 & P2).
    exists (Nat.max n1 n2), r2, p2. split; [| exact P2].
    intros n Hn. unfold bind. rewrite (E1 n) by lia. apply E2. lia.
  - exists n1, (Throw e), p1. split; [| exact I].
    intros n Hn. unfold bind. rewrite (E1 n Hn). reflexivity.
  - contradiction.
Qed.

Lemma halts_unfold {A} l (f body : nat -> M A) post k :
  (forall n, f (S n) = body n) -> halts l body post k -> halts l f post k.
Proof.
  intros E H p W. destruct (H p W) as (n0 & r & p' & E1 & P).
  exists (S n0), r, p'. split; [| exact P].
  intros [| n] Hn; [lia |]. rewrite E. apply E1. lia.
Qed.

Lemma halts_weaken {A} l (m : nat -> M A) post1 post2 k :
  halts l m post1 k ->
  (forall a k1,
      post1 a = Some k1 -> exists k2, post2 a = Some k2 /\ k1 <= k2) ->
  halts l m post2 k.
Proof.
  intros H Hw p W. destruct (H p W) as (n0 & r & p' & E & P).
  exists n0, r, p'. split; [exact E |].
  destruct r as [a | e |]; [| exact I | exact P].
  destruct (post1 a) as [k1 |] eqn:E1; [| contradiction].
  destruct (Hw a k1 E1) as (k2 & -> & Hk).
  exact (within_le _ _ _ _ Hk P).
Qed.

Lemma halts_assoc {A B C} l (m : nat -> M A) (f : A -> nat -> M B)
  (g : B -> nat -> M C) post k :
  halts l (fun n => bind (m n) (fun x => bind (f x n) (fun y => g y n)))
    post k ->
  halts l (fun n => bind (bind (m n) (fun x => f x n)) (fun y => g y n))
    post k.
Proof.
  intros H p W. destruct (H p W) as (n0 & r & p' & E & P).
  exists n0, r, p'. split; [| exact P].
  intros n Hn. rewrite bind_assoc. exact (E n Hn).
Qed.

Lemma halts_bind_ret {A B} l (a : A) (ka : A -> nat -> M B) post k :
  halts l (ka a) post k ->
  halts l (fun n => bind (ret a) (fun x => ka x n)) post k.
Proof. intros H. exact H. Qed.

Lemma halts_bind_throw {A B} l e (ka : A -> nat -> M B) post k :
  halts l (fun n => bind (throw e) (fun x => ka x n)) post k.
Proof. intros p W. exists 0, (Throw e), p. split; [reflexivity | exact I]. Qed.

(** *** The cursor *)

Lemma skip_whitespace_length ts : forall tok tok' ts',
  skip_whitespace tok ts = (tok', ts') -> length ts' <= length ts.
Proof.
  induction ts as [| t r IH]; intros tok tok' ts' H.
  - destruct tok as [t0 |]; simpl in H.
    + destruct (is_whitespace t0); injection H as _ <-; simpl; lia.
    + injection H as _ <-. simpl. lia.
  - destruct tok as [t0 |]; simpl in H.
    + destruct (is_whitespace t0).
      * apply IH in H. simpl. lia.
      * injection H as _ <-. simpl. lia.
    + injection H as _ <-. simpl. lia.
Qed.

Lemma readToken_size w p :
  exists tok p',
    readToken w p = (Ret tok, p')
    /\ peeked p' = peeked p
    /\ length (stream (tokens p')) <= length (stream (tokens p))
    /\ (tok <> None
        -> length (stream (tokens p')) < length (stream (tokens p)))
    /\ set_stream [] (tokens p') = set_stream [] (tokens p).
Proof.
  unfold readToken, lex_nextToken.
  destruct (stream (tokens p)) as [| t r] eqn:E.
  - destruct w.
    + exists None, (set_tokens (tokens p) p). simpl. rewrite E.
      repeat split; try reflexivity; try lia. intros H. congruence.
    + rewrite E. simpl. eexists. eexists. split; [reflexivity |]. simpl.
      repeat split; try reflexivity; try lia. intros H. congruence.
  - destruct w.
    + eexists. eexists. split; [reflexivity |]. simpl.
      repeat split; try reflexivity; lia.
    + simpl stream.
      destruct (skip_whitespace (Some t) r) as [tok' ts] eqn:F.
      apply skip_whitespace_length in F.
      eexists. eexists. split; [reflexivity |]. simpl.
      repeat split; try reflexivity; lia.
Qed.

Lemma nextToken_size w p :
  exists tok p',
    nextToken w p = (Ret tok, p')
    /\ size p' <= size p
    /\ (tok <> None -> size p' < size p)
    /\ set_stream [] (tokens p') = set_stream [] (tokens p).
Proof.
  unfold nextToken, size, pending.
  destruct (peeked p) as [t |] eqn:E.
  - destruct (negb w && is_whitespace t).
    + destruct (readToken_size w (set_peeked None p))
        as (tok & p' & H1 & H2 & H3 & _ & H5).
      exists tok, p'. split; [exact H1 |]. rewrite H2. simpl in *.
      repeat split; try assumption; lia.
    + eexists. eexists. split; [reflexivity |]. simpl.
      repeat split; try reflexivity; lia.
  - destruct (readToken_size w p) as (tok & p' & H1 & H2 & H3 & H4 & H5).
    exists tok, p'. split; [exact H1 |]. rewrite H2, E.
    repeat split; assumption.
Qed.

Section Halting.

Variable lexed : tokenizer.

Lemma halts_nextToken w k :
  halts lexed (fun _ => nextToken w)
    (fun tok => match tok with Some _ => one_less k | None => Some k end) k.
Proof.
  intros p [W1 W2].
  destruct (nextToken_size w p) as (tok & p' & H1 & H2 & H3 & H4).
  exists 0, (Ret tok), p'. split; [intros; exact H1 |].
  destruct tok as [t |].
  - assert (size p' < size p) by (apply H3; discriminate).
    destruct k as [| j]; [lia |]. simpl. split; [lia | congruence].
  - split; [lia | congruence].
Qed.

Lemma halts_peekToken k :
  halts lexed (fun _ => peekToken) (fun _ => Some k) k.
Proof.
  intros p [W1 W2]. unfold peekToken.
  destruct (peeked p) as [t |] eqn:E.
  - exists 0, (Ret (Some t)), p. split; [reflexivity |]. split; assumption.
  - destruct (nextToken_size false p) as (tok & p' & H1 & H2 & H3 & H4).
    pose proof (nextToken_peeked _ _ _ _ H1) as Hn.
    exists 0, (Ret tok), (set_peeked tok p').
    split; [intros; rewrite (bind_Ret _ _ _ _ _ H1); reflexivity |].
    split; [| simpl; congruence].
    unfold size, pending in *. simpl. rewrite Hn in H2, H3.
    destruct tok as [t |]; simpl.
    + assert (length (stream (tokens p')) < length (pending p))
        by (apply H3; discriminate).
      unfold pending in *. lia.
    + lia.
Qed.

Lemma halts_pushToken tok k :
  halts lexed (fun _ => pushToken tok)
    (fun _ => Some (match tok with Some _ => S k | None => k end)) k.
Proof.
  intros p [W1 W2]. unfold pushToken.
  destruct (peeked p) as [t |] eqn:E.
  - eexists 0, _, _. split; [reflexivity | exact I].
  - eexists 0, _, _. split; [reflexivity |]. split; [| exact W2].
    unfold size, pending in *. simpl. rewrite E in W1.
    destruct tok; simpl; lia.
Qed.

Lemma halts_fail {A} msg l c (post : A -> option nat) k :
  halts lexed (fun _ => fail msg l c) post k.
Proof.
  intros p W. destruct (@fail_throws A msg l c p) as (l' & c' & p' & H).
  eexists 0, _, _. split; [intros; exact H | exact I].
Qed.

Lemma halts_deref tok k :
  halts lexed (fun _ => deref tok)
    (fun _ => match tok with Some _ => Some k | None => None end) k.
Proof.
  destruct tok as [t |].
  - apply (halts_ret _ _ _ k k); [reflexivity | lia].
  - apply halts_throw.
Qed.

Lemma halts_get {A} (f : Parser -> A) k :
  halts lexed (fun _ => get f) (fun _ => Some k) k.
Proof. intros p W. exists 0, (Ret (f p)), p. split; [reflexivity | exact W]. Qed.

Lemma halts_latch b k :
  halts lexed (fun _ => modify (set_dropLeadingWhitespace b))
    (fun _ => Some k) k.
Proof. intros p W. eexists 0, _, _. split; [reflexivity | exact W]. Qed.

Lemma halts_blocks b k :
  halts lexed (fun _ => modify (set_breakOnBlocks b)) (fun _ => Some k) k.
Proof. intros p W. eexists 0, _, _. split; [reflexivity | exact W]. Qed.

End Halting.

Lemma halts_bind_fail {A B} l msg lineno colno (ka : A -> nat -> M B)
  post k :
  halts l (fun n => bind (fail msg lineno colno) (fun x => ka x n)) post k.
Proof.
  intros p W. destruct (@fail_throws A msg lineno colno p) as (l' & c' & p' & H).
  exists 0, (Throw (TemplateError msg l' c')), p'. split; [| exact I].
  intros n Hn. rewrite (bind_Throw _ _ _ _ _ H). reflexivity.
Qed.

(** *** Routines put together *)

Ltac post_inv :=
  repeat match goal with
    | H : one_less (S _) = Some _ |- _ => cbn [one_less] in H
    | H : one_less 0 = Some _ |- _ => discriminate H
    | H : one_less ?j = Some _ |- _ => is_var j; destruct j
    | H : Some _ = Some _ |- _ => injection H as H
    | H : None = Some _ |- _ => discriminate H
    | H : S _ = S _ |- _ => injection H as H
    | H : ?a = ?a |- _ => clear H
    | H : ?a = ?b |- _ => is_var b; subst b
    | H : ?a = ?b |- _ => is_var a; subst a
    | H : (if ?b then _ else _) = Some _ |- _ =>
        is_var b; destruct b; cbv beta iota in H
    | H : match ?x with _ => _ end = Some _ |- _ =>
        is_var x; destruct x; cbv beta iota in H
    end.

(** The first variable or stuck term a boolean expression waits for. *)
Ltac bool_atom c :=
  lazymatch c with
  | negb ?x => bool_atom x
  | andb ?x _ => bool_atom x
  | orb ?x _ => bool_atom x
  | _ => c
  end.

(** The proof that a routine halts follows its text: binds are put in a
    row, a condition is decided before what depends on it, and each call is
    left to [call], with the bound it gives for what comes after. *)
Ltac halt_with call :=
  cbv beta iota delta [fail_if orM];
  lazymatch goal with
  | |- halts _ (fun n => bind (bind _ _) _) _ _ =>
      eapply halts_assoc; halt_with call
  | |- halts _ (fun n => bind (ret _) _) _ _ =>
      eapply halts_bind_ret; halt_with call
  | |- halts _ (fun n => bind (throw _) _) _ _ => apply halts_bind_throw
  | |- halts _ (fun n => bind (fail _ _ _) _) _ _ => apply halts_bind_fail
  | |- halts _ (fun n => bind (if ?c then _ else _) _) _ _ =>
      let a := bool_atom c in
      destruct a eqn:?; cbn [negb andb orb]; post_inv; halt_with call
  | |- halts _ (fun n => bind (match ?c with _ => _ end) _) _ _ =>
      destruct c eqn:?; post_inv; halt_with call
  | |- halts _ (fun n => bind _ _) _ _ =>
      eapply halts_bind; [solve [call] |];
      intros ? ? ?; cbv beta iota in *; cbn [negb andb orb] in *;
      post_inv; halt_with call
  | |- halts _ (fun n => ret _) _ _ =>
      eapply halts_ret; [cbn; reflexivity | lia]
  | |- halts _ (fun n => throw _) _ _ => apply halts_throw
  | |- halts _ (fun n => if ?c then _ else _) _ _ =>
      let a := bool_atom c in
      destruct a eqn:?; cbn [negb andb orb]; post_inv; halt_with call
  | |- halts _ (fun n => match ?c with _ => _ end) _ _ =>
      destruct c eqn:?; post_inv; halt_with call
  | |- halts _ _ _ _ =>
      first
        [ solve [call]
        | eapply halts_weaken;
          [ solve [call]
          | solve [ intros ? ? ?; cbv beta iota in *;
                    cbn [negb andb orb] in *; post_inv;
                    try (eexists; split; [cbn; reflexivity | lia]) ] ] ]
  end.

(** One step of the fuel: the body of the routine. *)
Ltac unfold_routine :=
  lazymatch goal with
  | |- halts ?l ?f ?post ?k =>
      let b := eval simpl in (fun n : nat => f (S n)) in
      apply (halts_unfold l f b post k (fun n => eq_refl))
  end.

Ltac call_ctx :=
  idtac;
  match goal with
  | H : _ |- halts _ _ _ _ =>
      lazymatch type of H with
      | context [halts] => eapply H; lia
      end
  end.

(** A call of a routine at a lower level, by the induction hypothesis. *)
Ltac call_ih :=
  idtac;
  lazymatch goal with
  | IH : forall j, j < _ -> _ |- halts _ _ _ ?j =>
      let H := fresh in
      pose proof (IH j ltac:(lia)) as H;
      cbv beta delta [expr_halts stmt_halts] in H;
      decompose [and] H; call_ctx
  end.

Section Cursor2.

Variable lexed : tokenizer.
Variable type_name : token_type -> string.

Ltac call0 :=
  idtac;
  first [ eapply halts_nextToken | eapply halts_peekToken
        | eapply halts_pushToken | eapply halts_fail | eapply halts_deref
        | eapply halts_get | eapply halts_latch | eapply halts_blocks ].

Lemma halts_skip type k :
  halts lexed (fun _ => skip type)
    (fun b : bool => if b then one_less k else Some k) k.
Proof. unfold skip. halt_with call0. Qed.

Lemma halts_skipValue type val k :
  halts lexed (fun _ => skipValue type val)
    (fun b : bool => if b then one_less k else Some k) k.
Proof. unfold skipValue. halt_with call0. Qed.

Lemma halts_skipSymbol val k :
  halts lexed (fun _ => skipSymbol val)
    (fun b : bool => if b then one_less k else Some k) k.
Proof. apply halts_skipValue. Qed.

Lemma halts_expect type k :
  halts lexed (fun _ => expect type_name type) (fun _ => one_less k) k.
Proof. unfold expect. halt_with call0. Qed.

Lemma halts_literal_value t k :
  halts lexed (fun _ => literal_value t) (fun _ => Some k) k.
Proof. unfold literal_value. halt_with call0. Qed.

Lemma halts_args_children nd k :
  halts lexed (fun _ => args_children nd) (fun _ => Some k) k.
Proof. unfold args_children. halt_with call0. Qed.

Lemma halts_value_charAt_is_dash v i k :
  halts lexed (fun _ => value_charAt_is_dash v i) (fun _ => Some k) k.
Proof. unfold value_charAt_is_dash. halt_with call0. Qed.

Lemma halts_starts_with_underscore nd k :
  halts lexed (fun _ => starts_with_underscore nd) (fun _ => Some k) k.
Proof. unfold starts_with_underscore. halt_with call0. Qed.

Lemma halts_add_caller macroCall pair k :
  halts lexed (fun _ => add_caller macroCall pair) (fun _ => Some k) k.
Proof. unfold add_caller. halt_with call0. Qed.

End Cursor2.

Ltac call1 :=
  idtac;
  first [ eapply halts_nextToken | eapply halts_peekToken
        | eapply halts_pushToken | eapply halts_fail | eapply halts_deref
        | eapply halts_get | eapply halts_latch | eapply halts_blocks
        | eapply halts_skip | eapply halts_skipValue | eapply halts_skipSymbol
        | eapply halts_expect | eapply halts_literal_value
        | eapply halts_args_children | eapply halts_value_charAt_is_dash
        | eapply halts_starts_with_underscore | eapply halts_add_caller ].

Section Loops.

Variable lexed : tokenizer.
Variable type_name : token_type -> string.

Lemma halts_parseFilterName_loop k : forall name,
  halts lexed (fun n => parseFilterName_loop type_name n name)
    (fun _ => Some k) k.
Proof.
  induction k as [k IH] using lt_wf_ind. intros name.
  unfold_routine. halt_with ltac:(idtac; first [call1 | call_ih]).
Qed.

Lemma halts_parseFilterName k :
  halts lexed (parseFilterName type_name) (fun _ => one_less k) k.
Proof.
  unfold parseFilterName.
  halt_with ltac:(idtac; first [call1 | eapply halts_parseFilterName_loop]).
Qed.

(** The loop of a binary level, whose operand is run with a fuel of its
    own. *)
Lemma binop_loop_halts skipOp (operand : nat -> M node) mk k :
  (forall j, halts lexed (fun _ => skipOp)
               (fun b : bool => if b then one_less j else Some j) j) ->
  (forall j, j <= k -> halts lexed operand (fun _ => one_less j) j) ->
  forall nd p,
    within lexed k p ->
    exists n0 r p',
      (forall n m, n0 <= n -> n0 <= m ->
                   binop_loop n skipOp (operand m) mk nd p = (r, p'))
      /\ match r with
         | Ret _ => within lexed k p'
         | Throw _ => True
         | OutOfFuel => False
         end.
Proof.
  intros Hs. induction k as [k IH] using lt_wf_ind. intros Ho nd p W.
  destruct (Hs k p W) as (n1 & r1 & p1 & E1 & P1).
  destruct r1 as [b | e |]; [| | contradiction].
  - destruct b.
    + destruct k as [| k1]; [contradiction |]. cbn [one_less] in P1.
      destruct (Ho k1 ltac:(lia) p1 P1) as (n2 & r2 & p2 & E2 & P2).
      destruct r2 as [nd2 | e |]; [| | contradiction].
      * destruct k1 as [| k2]; [contradiction |]. cbn [one_less] in P2.
        destruct (IH k2 ltac:(lia) ltac:(intros; apply Ho; lia)
                    (mk (lineno nd) (colno nd) nd nd2) p2 P2)
          as (n3 & r3 & p3 & E3 & P3).
        exists (S (Nat.max n2 n3)), r3, p3. split.
        -- intros [| n] m Hn Hm; [lia |]. cbn [binop_loop].
           rewrite (bind_Ret _ _ _ _ _ (E1 n1 (le_n _))).
           rewrite (bind_Ret _ _ _ _ _ (E2 m ltac:(lia))).
           apply E3; lia.
        -- destruct r3; try assumption.
           apply (within_le _ k2); [lia | exact P3].
      * exists (S n2), (Throw e), p2. split; [| exact I].
        intros [| n] m Hn Hm; [lia |]. cbn [binop_loop].
        rewrite (bind_Ret _ _ _ _ _ (E1 n1 (le_n _))).
        rewrite (bind_Throw _ _ _ _ _ (E2 m ltac:(lia))). reflexivity.
    + exists 1, (Ret nd), p1. split; [| exact P1].
      intros [| n] m Hn Hm; [lia |]. cbn [binop_loop].
      rewrite (bind_Ret _ _ _ _ _ (E1 n1 (le_n _))). reflexivity.
  - exists 1, (Throw e), p1. split; [| exact I].
    intros [| n] m Hn Hm; [lia |]. cbn [binop_loop].
    rewrite (bind_Throw _ _ _ _ _ (E1 n1 (le_n _))). reflexivity.
Qed.

Lemma halts_binop_loop skipOp (operand : nat -> M node) mk k :
  (forall j, halts lexed (fun _ => skipOp)
               (fun b : bool => if b then one_less j else Some j) j) ->
  (forall j, j <= k -> halts lexed operand (fun _ => one_less j) j) ->
  forall nd,
    halts lexed (fun n => binop_loop n skipOp (operand n) mk nd)
      (fun _ => Some k) k.
Proof.
  intros Hs Ho nd p W.
  destruct (binop_loop_halts skipOp operand mk k Hs Ho nd p W)
    as (n0 & r & p' & E & P).
  exists n0, r, p'. split; [intros n Hn; apply E; assumption | exact P].
Qed.

End Loops.

(** *** The expression grammar *)

Ltac call_binop :=
  idtac;
  eapply halts_binop_loop;
  [ intros; call1 | intros; first [call_ctx | call_ih] ].

Ltac call_expr :=
  idtac;
  first [ call1 | eapply halts_parseFilterName | call_binop | call_ctx
        | call_ih ].

Section ExpressionHalts.

Variable lexed : tokenizer.
Variable type_name : token_type -> string.

Lemma expr_halts_step k :
  (forall j, j < k -> expr_halts lexed type_name j) ->
  expr_halts lexed type_name k.
Proof.
  intros IH.
  assert (Hagg : halts lexed (parseAggregate type_name)
                   (fun _ => one_less k) k).
  { unfold_routine. halt_with call_expr. }
  assert (Hsig : forall tolerant,
             halts lexed (fun n => parseSignature type_name n tolerant false)
               (fun _ => if tolerant then Some k else one_less k) k).
  { intros [|]; unfold_routine; halt_with call_expr. }
  assert (Hpostfix : forall nd,
             halts lexed (fun n => parsePostfix type_name n nd)
               (fun _ => Some k) k).
  { intros nd. unfold_routine. halt_with call_expr. }
  assert (Hfargs : forall nd,
             halts lexed (fun n => parseFilterArgs type_name n nd)
               (fun _ => Some k) k).
  { intros nd. unfold_routine. halt_with call_expr. }
  assert (Hfilter : forall nd,
             halts lexed (fun n => parseFilter type_name n nd)
               (fun _ => Some k) k).
  { intros nd. unfold_routine. halt_with call_expr. }
  assert (Hprim : forall noPostfix,
             halts lexed (fun n => parsePrimary type_name n noPostfix)
               (fun _ => one_less k) k).
  { intros noPostfix. unfold_routine. halt_with call_expr. }
  assert (Hunary : forall noFilters,
             halts lexed (fun n => parseUnary type_name n noFilters)
               (fun _ => one_less k) k).
  { intros noFilters. unfold_routine. halt_with call_expr. }
  assert (Hpow : halts lexed (parsePow type_name) (fun _ => one_less k) k).
  { unfold_routine. halt_with call_expr. }
  assert (Hmod : halts lexed (parseMod type_name) (fun _ => one_less k) k).
  { unfold_routine. halt_with call_expr. }
  assert (Hfloor : halts lexed (parseFloorDiv type_name) (fun _ => one_less k) k).
  { unfold_routine. halt_with call_expr. }
  assert (Hdiv : halts lexed (parseDiv type_name) (fun _ => one_less k) k).
  { unfold_routine. halt_with call_expr. }
  assert (Hmul : halts lexed (parseMul type_name) (fun _ => one_less k) k).
  { unfold_routine. halt_with call_expr. }
  assert (Hsub : halts lexed (parseSub type_name) (fun _ => one_less k) k).
  { unfold_routine. halt_with call_expr. }
  assert (Hadd : halts lexed (parseAdd type_name) (fun _ => one_less k) k).
  { unfold_routine. halt_with call_expr. }
  assert (Hconcat : halts lexed (parseConcat type_name) (fun _ => one_less k) k).
  { unfold_routine. halt_with call_expr. }
  assert (Hcmpl : forall ops,
             halts lexed (fun n => parseCompare_loop type_name n ops)
               (fun _ => Some k) k).
  { intros ops. unfold_routine. halt_with call_expr. }
  assert (Hcmp : halts lexed (parseCompare type_name) (fun _ => one_less k) k).
  { unfold_routine. halt_with call_expr. }
  assert (Hinl : forall nd,
             halts lexed (fun n => parseIn_loop type_name n nd)
               (fun _ => Some k) k).
  { intros nd. unfold_routine. halt_with call_expr. }
  assert (Hin : halts lexed (parseIn type_name) (fun _ => one_less k) k).
  { unfold_routine. halt_with call_expr. }
  assert (Hnot : halts lexed (parseNot type_name) (fun _ => one_less k) k).
  { unfold_routine. halt_with call_expr. }
  assert (Hand : halts lexed (parseAnd type_name) (fun _ => one_less k) k).
  { unfold_routine. halt_with call_expr. }
  assert (Hor : halts lexed (parseOr type_name) (fun _ => one_less k) k).
  { unfold_routine. halt_with call_expr. }
  assert (Hif : halts lexed (parseInlineIf type_name) (fun _ => one_less k) k).
  { unfold_routine. halt_with call_expr. }
  assert (Hexpr : halts lexed (parseExpression type_name) (fun _ => one_less k) k).
  { unfold_routine. halt_with call_expr. }
  assert (Haggl : forall tok dict children,
             halts lexed
               (fun n => parseAggregate_loop type_name n tok dict children)
               (fun _ => Some k) k).
  { intros tok dict children. unfold_routine. halt_with call_expr. }
  assert (Hsigl : forall noParens open args kwargs checkComma,
             halts lexed
               (fun n => parseSignature_loop type_name n noParens open args
                           kwargs checkComma)
               (fun _ => Some k) k).
  { intros noParens open args kwargs checkComma. unfold_routine.
    halt_with call_expr. }
  assert (Hsigg : forall tolerant noParens,
             halts lexed
               (fun n => parseSignature type_name n tolerant noParens)
               (fun _ => if tolerant || noParens then Some k
                         else one_less k) k).
  { intros [|] [|]; unfold_routine; halt_with call_expr. }
  unfold expr_halts. repeat split; assumption.
Qed.

Lemma expr_halts_all k : expr_halts lexed type_name k.
Proof. induction k as [k IH] using lt_wf_ind. exact (expr_halts_step k IH). Qed.

End ExpressionHalts.

(** *** The statement grammar *)

(** A call of a routine of the expression grammar. *)
Ltac call_expr_all tn :=
  idtac;
  lazymatch goal with
  | |- halts ?l _ _ ?j =>
      let H := fresh in
      pose proof (expr_halts_all l tn j) as H;
      cbv beta delta [expr_halts] in H; decompose [and] H; call_ctx
  end.

Section StatementHalts.

Variable lexed : tokenizer.
Variable type_name : token_type -> string.
Hypothesis lexed_plain : plain_lexer lexed.

Ltac call2 :=
  idtac;
  first [ call1 | eapply halts_parseFilterName | call_ctx | call_ih
        | call_expr_all type_name ].

Lemma halts_parseWithContext k :
  halts lexed (fun _ => parseWithContext) (fun _ => Some k) k.
Proof. unfold parseWithContext. halt_with call2. Qed.

Lemma halts_advanceAfterBlockEnd name k :
  halts lexed (fun _ => advanceAfterBlockEnd name) (fun _ => one_less k) k.
Proof. unfold advanceAfterBlockEnd. halt_with call2. Qed.

Lemma halts_advanceAfterVariableEnd k :
  halts lexed (fun _ => advanceAfterVariableEnd) (fun _ => Some k) k.
Proof. unfold advanceAfterVariableEnd. halt_with call2. Qed.

Lemma halts_parseNodes_data tok k :
  halts lexed (fun _ => parseNodes_data tok) (fun _ => Some k) k.
Proof. unfold parseNodes_data. halt_with call2. Qed.

Ltac call3 :=
  idtac;
  first [ eapply halts_parseWithContext | eapply halts_advanceAfterBlockEnd
        | eapply halts_advanceAfterVariableEnd
        | eapply halts_parseNodes_data | call2 ].

Lemma halts_parseImport k :
  halts lexed (parseImport type_name) (fun _ => Some k) k.
Proof. unfold parseImport. halt_with call3. Qed.

Lemma halts_parseFrom_loop k : forall fromTok names withContext,
  halts lexed (fun n => parseFrom_loop type_name n fromTok names withContext)
    (fun _ => Some k) k.
Proof.
  induction k as [k IH] using lt_wf_ind. intros fromTok names withContext.
  unfold_routine. halt_with call3.
Qed.

Lemma halts_parseFrom k :
  halts lexed (parseFrom type_name) (fun _ => Some k) k.
Proof.
  unfold parseFrom.
  halt_with ltac:(idtac; first [eapply halts_parseFrom_loop | call3]).
Qed.

Lemma halts_parseExtends k :
  halts lexed (parseExtends type_name) (fun _ => Some k) k.
Proof. unfold parseExtends. halt_with call3. Qed.

Lemma halts_parseInclude k :
  halts lexed (parseInclude type_name) (fun _ => Some k) k.
Proof. unfold parseInclude. halt_with call3. Qed.

Lemma halts_extractRegex tagName k :
  halts lexed (fun _ => extractRegex tagName)
    (fun m => match m with Some _ => None | None => Some k end) k.
Proof.
  intros p [W1 W2]. unfold extractRegex.
  assert (E : _extractRegex (tokens p) = _extractRegex lexed).
  { change (_extractRegex (set_stream [] (tokens p))
            = _extractRegex (set_stream [] lexed)).
    rewrite W2. reflexivity. }
  rewrite E, lexed_plain.
  eexists 0, _, _. split; [reflexivity |].
  split; [exact W1 | exact W2].
Qed.

Lemma halts_parseRaw_loop tagName endTagName rawLevel str k :
  halts lexed (fun n => parseRaw_loop n tagName endTagName rawLevel str)
    (fun _ => Some k) k.
Proof.
  unfold_routine.
  halt_with ltac:(idtac; first [eapply halts_extractRegex | call3]).
Qed.

Lemma halts_parseRaw tagName k :
  halts lexed (fun n => parseRaw n tagName) (fun _ => Some k) k.
Proof.
  unfold parseRaw.
  halt_with ltac:(idtac; first [eapply halts_parseRaw_loop | call3]).
Qed.

Lemma halts_parseFor_targets k : forall children,
  halts lexed (fun n => parseFor_targets type_name n children)
    (fun _ => Some k) k.
Proof.
  induction k as [k IH] using lt_wf_ind. intros children.
  unfold_routine. halt_with call3.
Qed.

Lemma halts_parseSet_targets k : forall targets,
  halts lexed (fun n => parseSet_targets type_name n targets)
    (fun _ => Some k) k.
Proof.
  induction k as [k IH] using lt_wf_ind. intros targets.
  unfold_routine. halt_with call3.
Qed.

Ltac call4 :=
  idtac;
  first [ eapply halts_parseImport | eapply halts_parseFrom
        | eapply halts_parseExtends | eapply halts_parseInclude
        | eapply halts_parseRaw | eapply halts_parseFor_targets
        | eapply halts_parseSet_targets | call3 ].

Lemma stmt_halts_step k :
  (forall j, j < k -> stmt_halts lexed type_name j) ->
  stmt_halts lexed type_name k.
Proof.
  intros IH.
  assert (Hfor : halts lexed (parseFor type_name []) (fun _ => Some k) k).
  { unfold_routine. halt_with call4. }
  assert (Hmacro : halts lexed (parseMacro type_name []) (fun _ => Some k) k).
  { unfold_routine. halt_with call4. }
  assert (Hcall : halts lexed (parseCall type_name []) (fun _ => Some k) k).
  { unfold_routine. halt_with call4. }
  assert (Hblock : halts lexed (parseBlock type_name []) (fun _ => Some k) k).
  { unfold_routine. halt_with call4. }
  assert (Hif : halts lexed (parseIf type_name []) (fun _ => Some k) k).
  { unfold_routine. halt_with call4. }
  assert (Hset : halts lexed (parseSet type_name []) (fun _ => Some k) k).
  { unfold_routine. halt_with call4. }
  assert (Hfs : halts lexed (parseFilterStatement type_name [])
                  (fun _ => Some k) k).
  { unfold_routine. halt_with call4. }
  assert (Hst : halts lexed (parseStatement type_name [])
                  (fun _ => Some k) k).
  { unfold_routine. halt_with call4. }
  assert (Hnodes : forall buf,
             halts lexed (fun n => parseNodes type_name [] n buf)
               (fun _ => Some k) k).
  { intros buf. unfold_routine. halt_with call4. }
  assert (Hparse : halts lexed (parse type_name []) (fun _ => Some k) k).
  { unfold_routine. halt_with call4. }
  assert (Huntil : forall blockNames,
             halts lexed (fun n => parseUntilBlocks type_name [] n blockNames)
               (fun _ => Some k) k).
  { intros blockNames. unfold_routine. halt_with call4. }
  unfold stmt_halts. repeat split; assumption.
Qed.

Lemma stmt_halts_all k : stmt_halts lexed type_name k.
Proof. induction k as [k IH] using lt_wf_ind. exact (stmt_halts_step k IH). Qed.

End StatementHalts.

(** X25: parsing terminates. For every lexer that holds finitely many
    tokens and no raw block, the exported [parse] without extensions comes
    to an end: from some fuel on it returns a tree or throws, and the
    outcome and the parser it leaves do not depend on the fuel. From any
    state of the parser, so does [parseExpression]. No loop of the parser
    goes round without consuming a token. *)
Theorem parsing_terminates type_name :
  (forall lexed,
      plain_lexer lexed ->
      exists fuel r p',
        (forall n, fuel <= n -> parse_lexed type_name [] n lexed = (r, p'))
        /\ r <> OutOfFuel)
  /\ (forall p,
         exists fuel r p',
           (forall n, fuel <= n -> parseExpression type_name n p = (r, p'))
           /\ r <> OutOfFuel).
Proof.
  split.
  - intros lexed Hl.
    pose proof (stmt_halts_all lexed type_name Hl (size (init lexed))) as H.
    unfold stmt_halts in H. decompose [and] H. clear H.
    match goal with
    | K : forall buf, halts _ (fun n => parseNodes _ _ n buf) _ _ |- _ =>
        destruct (K [] (init lexed)) as (n0 & r & p' & E & P)
    end.
    { split; [apply le_n | reflexivity]. }
    destruct r as [children | e |]; [| | contradiction].
    + exists n0, (Ret (Root (Some 0) (Some 0) children)), p'.
      split; [| discriminate].
      intros n Hn. unfold parse_lexed, parseAsRoot.
      rewrite (bind_Ret _ _ _ _ _ (E n Hn)). reflexivity.
    + exists n0, (Throw e), p'. split; [| discriminate].
      intros n Hn. unfold parse_lexed, parseAsRoot.
      rewrite (bind_Throw _ _ _ _ _ (E n Hn)). reflexivity.
  - intros p.
    pose proof (expr_halts_all (tokens p) type_name (size p)) as H.
    unfold expr_halts in H. destruct H as [H _].
    destruct (H p) as (n0 & r & p' & E & P).
    { split; [apply le_n | reflexivity]. }
    exists n0, r, p'. split; [exact E |].
    destruct r; [discriminate | discriminate | contradiction].
Qed.

(** ** Names, and the index of a lookup *)

Section Names.

Variable type_name : token_type -> string.

Lemma ends_expression_inv d :
  ends_expression d = true ->
  type_is (tok_type d) TOKEN_SYMBOL = false
  /\ type_is (tok_type d) TOKEN_OPERATOR = false
  /\ type_is (tok_type d) TOKEN_TILDE = false
  /\ type_is (tok_type d) TOKEN_PIPE = false
  /\ type_is (tok_type d) TOKEN_LEFT_PAREN = false
  /\ type_is (tok_type d) TOKEN_LEFT_BRACKET = false
  /\ indexOf_found compareOps (tok_value d) = false.
Proof.
  unfold ends_expression. intros H.
  apply andb_true_iff in H. destruct H as [H1 H2].
  apply negb_true_iff in H1, H2.
  repeat (apply orb_false_elim in H1; destruct H1 as [H1 ?]).
  repeat split; assumption.
Qed.

Lemma yields_bind {A B} (m : M A) (k : A -> M B) p a r b r' :
  yields m p a r ->
  (forall p', upcoming p' = r -> clean p' -> yields (k a) p' b r') ->
  yields (bind m k) p b r'.
Proof.
  intros (p1 & H1 & H2 & H3) Hk.
  destruct (Hk p1 H2 H3) as (p2 & K1 & K2 & K3).
  exists p2. rewrite (bind_Ret _ _ _ _ _ H1). repeat split; assumption.
Qed.

Lemma bind_ret_eq {A B} (a : A) (k : A -> M B) : bind (ret a) k = k a.
Proof. reflexivity. Qed.

Lemma yields_assoc {A B C} (m : M A) (f : A -> M B) (g : B -> M C) p c r :
  yields (bind m (fun x => bind (f x) g)) p c r ->
  yields (bind (bind m f) g) p c r.
Proof.
  intros (p' & H). exists p'. rewrite bind_assoc. exact H.
Qed.

Lemma yields_ret {A} (a : A) p r :
  upcoming p = r -> clean p -> yields (ret a) p a r.
Proof. intros U C. exists p. repeat split; assumption. Qed.

Lemma yields_peekToken p r :
  upcoming p = r -> clean p -> yields peekToken p (hd_error r) r.
Proof.
  intros U C. destruct (peekToken_upcoming p C) as (p' & H1 & H2 & _ & H4 & _).
  exists p'. rewrite <- U. repeat split; assumption.
Qed.

Lemma yields_nextToken p r :
  upcoming p = r -> yields (nextToken false) p (hd_error r) (tl r).
Proof.
  intros U. destruct (nextToken_upcoming p) as (p' & H1 & H2 & H3 & _).
  exists p'. rewrite <- U. repeat split; try assumption.
  unfold clean. rewrite H3. exact I.
Qed.

Lemma yields_skipValue type val p r :
  upcoming p = r ->
  yields (skipValue type val) p (first_is (has_type_value type val) r)
    (if first_is (has_type_value type val) r then tl r else r).
Proof.
  intros U. destruct (skipValue_upcoming type val p) as (p' & H1 & H2 & H3 & _).
  exists p'. rewrite <- U. repeat split; assumption.
Qed.

Lemma yields_skip type p r :
  upcoming p = r ->
  yields (skip type) p (first_is (has_type type) r)
    (if first_is (has_type type) r then tl r else r).
Proof.
  intros U. destruct (skip_upcoming type p) as (p' & H1 & H2 & H3 & _).
  exists p'. rewrite <- U. repeat split; assumption.
Qed.

(** *** A name before a token that ends the expression *)

Section OneName.

Variables (t d : token) (r : list token).
Hypothesis t_name : is_name t = true.
Hypothesis d_ends : ends_expression d = true.

Lemma name_type : type_is (tok_type t) TOKEN_SYMBOL = true.
Proof.
  unfold is_name in t_name. apply andb_true_iff in t_name. tauto.
Qed.

Lemma name_is_symbol : tok_type t = TOKEN_SYMBOL.
Proof.
  pose proof name_type as H. unfold type_is in H.
  destruct (token_type_eq_dec (tok_type t) TOKEN_SYMBOL);
    [assumption | discriminate].
Qed.

Lemma name_not_operator val :
  first_is (has_type_value TOKEN_OPERATOR val) (t :: d :: r) = false.
Proof.
  cbn [first_is]. unfold has_type_value. rewrite name_is_symbol. reflexivity.
Qed.

Lemma end_not_value type val :
  type_is (tok_type d) type = false ->
  first_is (has_type_value type val) (d :: r) = false.
Proof.
  intros H. cbn [first_is]. unfold has_type_value. rewrite H. reflexivity.
Qed.

Lemma yields_postfix_name n nd p :
  upcoming p = d :: r -> clean p ->
  yields (parsePostfix type_name (S n) nd) p nd (d :: r).
Proof.
  intros U C. rewrite parsePostfix_S.
  eapply yields_bind; [exact (yields_peekToken p _ U C) |].
  intros p1 U1 C1. cbn [hd_error].
  destruct (ends_expression_inv d d_ends) as (_ & H2 & _ & _ & H5 & H6 & _).
  rewrite H5, H6, H2. cbn [andb]. exact (yields_ret nd p1 _ U1 C1).
Qed.

Lemma yields_primary_name n p :
  upcoming p = t :: d :: r ->
  yields (parsePrimary type_name (S (S n)) false) p (name_node t) (d :: r).
Proof.
  intros U. rewrite parsePrimary_S.
  eapply yields_bind; [exact (yields_nextToken p _ U) |].
  intros p1 U1 C1. cbn [hd_error tl] in *.
  unfold literal_value. rewrite name_is_symbol. rewrite bind_ret_eq.
  change (type_is TOKEN_SYMBOL TOKEN_SYMBOL) with true. cbv iota.
  rewrite bind_ret_eq. cbn [negb].
  eapply yields_bind; [exact (yields_postfix_name n _ p1 U1 C1) |].
  intros p2 U2 C2. cbn [is_null name_node negb].
  exact (yields_ret _ p2 _ U2 C2).
Qed.


Lemma parseFilter_S n nd :
  parseFilter type_name (S n) nd
  = (b <- skip TOKEN_PIPE ;;
     if b
     then name <- parseFilterName type_name n ;;
          args <- parseFilterArgs type_name n nd ;;
          parseFilter type_name n
            (Filter (lineno name) (colno name) name
               (NodeList (lineno name) (colno name) (nd :: args)))
     else ret nd).
Proof. reflexivity. Qed.

Lemma yields_unary_name n p :
  upcoming p = t :: d :: r -> clean p ->
  yields (parseUnary type_name (S (S (S n))) false) p (name_node t) (d :: r).
Proof.
  intros U C. rewrite parseUnary_S.
  eapply yields_bind; [exact (yields_peekToken p _ U C) |].
  intros p1 U1 C1. apply yields_assoc.
  eapply yields_bind;
    [exact (yields_skipValue TOKEN_OPERATOR (TStr "-") p1 _ U1) |].
  rewrite name_not_operator. intros p2 U2 C2. apply yields_assoc.
  eapply yields_bind;
    [exact (yields_skipValue TOKEN_OPERATOR (TStr "+") p2 _ U2) |].
  rewrite name_not_operator. intros p3 U3 C3.
  eapply yields_bind; [exact (yields_primary_name n p3 U3) |].
  intros p4 U4 C4. cbn [negb]. rewrite parseFilter_S.
  eapply yields_bind; [exact (yields_skip TOKEN_PIPE p4 _ U4) |].
  destruct (ends_expression_inv d d_ends) as (_ & _ & _ & H4 & _).
  cbn [first_is]. unfold has_type. rewrite H4.
  intros p5 U5 C5. exact (yields_ret _ p5 _ U5 C5).
Qed.

Lemma yields_no_operator l p :
  upcoming p = d :: r ->
  yields (level_operator l) p false (d :: r).
Proof.
  intros U.
  destruct (ends_expression_inv d d_ends) as (H1 & H2 & H3 & _).
  assert (K : forall type val,
             type_is (tok_type d) type = false ->
             yields (skipValue type val) p false (d :: r)).
  { intros type val H.
    pose proof (yields_skipValue type val p _ U) as Y.
    rewrite (end_not_value type val H) in Y. exact Y. }
  destruct l; unfold level_operator, skipSymbol; apply K; assumption.
Qed.

Lemma yields_level_name l n p :
  yields (level_operand type_name l (S n)) p (name_node t) (d :: r) ->
  yields (level_routine type_name l (S (S n))) p (name_node t) (d :: r).
Proof.
  intros Y. rewrite level_routine_S.
  eapply yields_bind; [exact Y |].
  intros p1 U1 C1.
  destruct (yields_no_operator l p1 U1) as (p2 & H1 & H2 & H3).
  exists p2. rewrite (binop_loop_done n _ _ _ _ _ _ H1).
  repeat split; assumption.
Qed.

Lemma yields_level_pow_name k p :
  yields (parseUnary type_name (S k) false) p (name_node t) (d :: r) ->
  yields (parsePow type_name (S (S k))) p (name_node t) (d :: r).
Proof. exact (yields_level_name level_pow k p). Qed.

Lemma yields_level_mod_name k p :
  yields (parsePow type_name (S k)) p (name_node t) (d :: r) ->
  yields (parseMod type_name (S (S k))) p (name_node t) (d :: r).
Proof. exact (yields_level_name level_mod k p). Qed.

Lemma yields_level_floordiv_name k p :
  yields (parseMod type_name (S k)) p (name_node t) (d :: r) ->
  yields (parseFloorDiv type_name (S (S k))) p (name_node t) (d :: r).
Proof. exact (yields_level_name level_floordiv k p). Qed.

Lemma yields_level_div_name k p :
  yields (parseFloorDiv type_name (S k)) p (name_node t) (d :: r) ->
  yields (parseDiv type_name (S (S k))) p (name_node t) (d :: r).
Proof. exact (yields_level_name level_div k p). Qed.

Lemma yields_level_mul_name k p :
  yields (parseDiv type_name (S k)) p (name_node t) (d :: r) ->
  yields (parseMul type_name (S (S k))) p (name_node t) (d :: r).
Proof. exact (yields_level_name level_mul k p). Qed.

Lemma yields_level_sub_name k p :
  yields (parseMul type_name (S k)) p (name_node t) (d :: r) ->
  yields (parseSub type_name (S (S k))) p (name_node t) (d :: r).
Proof. exact (yields_level_name level_sub k p). Qed.

Lemma yields_level_add_name k p :
  yields (parseSub type_name (S k)) p (name_node t) (d :: r) ->
  yields (parseAdd type_name (S (S k))) p (name_node t) (d :: r).
Proof. exact (yields_level_name level_add k p). Qed.

Lemma yields_level_concat_name k p :
  yields (parseAdd type_name (S k)) p (name_node t) (d :: r) ->
  yields (parseConcat type_name (S (S k))) p (name_node t) (d :: r).
Proof. exact (yields_level_name level_concat k p). Qed.

Lemma yields_level_and_name k p :
  yields (parseNot type_name (S k)) p (name_node t) (d :: r) ->
  yields (parseAnd type_name (S (S k))) p (name_node t) (d :: r).
Proof. exact (yields_level_name level_and k p). Qed.

Lemma yields_level_or_name k p :
  yields (parseAnd type_name (S k)) p (name_node t) (d :: r) ->
  yields (parseOr type_name (S (S k))) p (name_node t) (d :: r).
Proof. exact (yields_level_name level_or k p). Qed.

Lemma yields_concat_name n p :
  upcoming p = t :: d :: r -> clean p ->
  yields (parseConcat type_name (11 + n)) p (name_node t) (d :: r).
Proof.
  intros U C. cbn [Nat.add].
  apply yields_level_concat_name, yields_level_add_name,
    yields_level_sub_name, yields_level_mul_name, yields_level_div_name,
    yields_level_floordiv_name, yields_level_mod_name, yields_level_pow_name.
  exact (yields_unary_name n p U C).
Qed.

Lemma parseIn_S n :
  parseIn type_name (S n)
  = (nd <- parseCompare type_name n ;; parseIn_loop type_name n nd).
Proof. reflexivity. Qed.

Lemma yields_compare_name n p :
  upcoming p = t :: d :: r -> clean p ->
  yields (parseCompare type_name (12 + n)) p (name_node t) (d :: r).
Proof.
  intros U C. cbn [Nat.add]. rewrite parseCompare_S.
  pose proof (yields_concat_name n p U C) as Y. cbn [Nat.add] in Y.
  eapply yields_bind; [exact Y |].
  intros p1 U1 C1.
  eapply (yields_bind _ _ _ [] (d :: r)).
  - rewrite parseCompare_loop_S.
    destruct (ends_expression_inv d d_ends) as (_ & _ & _ & _ & _ & _ & H7).
    destruct (nextToken_upcoming p1) as (p2 & K1 & K2 & K3 & _).
    rewrite U1 in K1, K2. cbn [hd_error tl] in K1, K2.
    pose proof (significant_head _ _ _ U1) as W.
    destruct (pushToken_upcoming p2 (Some d) K3 W) as (L1 & L2 & L3 & _).
    rewrite K2 in L2.
    exists (set_peeked (Some d) p2).
    rewrite (bind_Ret _ _ _ _ _ K1). rewrite H7.
    rewrite (bind_Ret _ _ _ _ _ L1). repeat split; assumption.
  - intros p2 U2 C2. exact (yields_ret _ p2 _ U2 C2).
Qed.

Lemma yields_in_name n p :
  upcoming p = t :: d :: r -> clean p ->
  yields (parseIn type_name (13 + n)) p (name_node t) (d :: r).
Proof.
  intros U C. cbn [Nat.add]. rewrite parseIn_S.
  pose proof (yields_compare_name n p U C) as Y. cbn [Nat.add] in Y.
  eapply yields_bind; [exact Y |].
  intros p1 U1 C1. rewrite parseIn_loop_S.
  destruct (ends_expression_inv d d_ends) as (H1 & _).
  destruct (nextToken_upcoming p1) as (p2 & K1 & K2 & K3 & _).
  rewrite U1 in K1, K2. cbn [hd_error tl] in K1, K2.
  pose proof (significant_head _ _ _ U1) as W.
  destruct (pushToken_upcoming p2 (Some d) K3 W) as (L1 & L2 & L3 & _).
  rewrite K2 in L2.
  destruct (yields_skipValue TOKEN_SYMBOL (TStr "in") _ _ L2)
    as (p3 & M1 & M2 & M3).
  rewrite (end_not_value TOKEN_SYMBOL (TStr "in") H1) in M1, M2.
  exists p3. rewrite (bind_Ret _ _ _ _ _ K1). cbv zeta. rewrite H1.
  cbn [andb negb]. rewrite (bind_Ret _ _ _ _ _ L1).
  unfold skipSymbol. rewrite (bind_Ret _ _ _ _ _ M1).
  repeat split; assumption.
Qed.

Lemma yields_not_name n p :
  upcoming p = t :: d :: r -> clean p ->
  yields (parseNot type_name (14 + n)) p (name_node t) (d :: r).
Proof.
  intros U C. cbn [Nat.add]. rewrite parseNot_S.
  eapply yields_bind; [exact (yields_peekToken p _ U C) |].
  intros p1 U1 C1.
  eapply yields_bind;
    [exact (yields_skipValue TOKEN_SYMBOL (TStr "not") p1 _ U1) |].
  assert (N : first_is (has_type_value TOKEN_SYMBOL (TStr "not"))
                (t :: d :: r) = false).
  { cbn [first_is]. unfold has_type_value, tokval_eqb.
    unfold is_name in t_name. apply andb_true_iff in t_name.
    destruct t_name as [_ H]. apply negb_true_iff in H. rewrite H.
    apply andb_false_r. }
  rewrite N. intros p2 U2 C2.
  pose proof (yields_in_name n p2 U2 C2) as Y. cbn [Nat.add] in Y. exact Y.
Qed.

Lemma parseInlineIf_S n :
  parseInlineIf type_name (S n)
  = (nd <- parseOr type_name n ;;
     b <- skipSymbol (TStr "if") ;;
     if b
     then cond_node <- parseOr type_name n ;;
          e <- skipSymbol (TStr "else") ;;
          if e
          then else_ <- parseOr type_name n ;;
               ret (InlineIf (lineno nd) (colno nd) cond_node nd else_)
          else ret (InlineIf (lineno nd) (colno nd) cond_node nd Null)
     else ret nd).
Proof. reflexivity. Qed.

Lemma parseExpression_S n :
  parseExpression type_name (S n) = parseInlineIf type_name n.
Proof. reflexivity. Qed.

(** A name before a token that ends the expression is the whole
    expression. *)
Lemma yields_expression_name n p :
  upcoming p = t :: d :: r -> clean p ->
  yields (parseExpression type_name (18 + n)) p (name_node t) (d :: r).
Proof.
  intros U C. cbn [Nat.add]. rewrite parseExpression_S, parseInlineIf_S.
  pose proof (yields_not_name n p U C) as Y. cbn [Nat.add] in Y.
  eapply yields_bind;
    [apply yields_level_or_name, yields_level_and_name; exact Y |].
  intros p1 U1 C1.
  eapply yields_bind;
    [exact (yields_skipValue TOKEN_SYMBOL (TStr "if") p1 _ U1) |].
  destruct (ends_expression_inv d d_ends) as (H1 & _).
  rewrite (end_not_value TOKEN_SYMBOL (TStr "if") H1).
  intros p2 U2 C2. exact (yields_ret _ p2 _ U2 C2).
Qed.

End OneName.

Lemma yields_expression n t d r p :
  is_name t = true -> ends_expression d = true ->
  (18 <= n)%nat ->
  upcoming p = t :: d :: r -> clean p ->
  yields (parseExpression type_name n) p (name_node t) (d :: r).
Proof.
  intros Ht Hd Hn U C. replace n with (18 + (n - 18))%nat by lia.
  exact (yields_expression_name t d r Ht Hd _ p U C).
Qed.

(** *** The names of an index *)

Lemma parseAggregate_loop_S n tok dict children :
  parseAggregate_loop type_name (S n) tok dict children
  = (t <- peekToken ;;
     t <- deref t ;;
     if is_closing (tok_type t)
     then nextToken false ;; ret children
     else
       (if (0 <? length children)%nat
        then b <- skip TOKEN_COMMA ;;
             if negb b
             then fail "parseAggregate: expected comma after expression"
                    (lineno_of tok) (colno_of tok)
             else ret tt
        else ret tt) ;;
       if dict
       then key <- parsePrimary type_name n false ;;
            b <- skip TOKEN_COLON ;;
            (if negb b
             then fail "parseAggregate: expected colon after dict key"
                    (lineno_of tok) (colno_of tok)
             else ret tt) ;;
            value <- parseExpression type_name n ;;
            parseAggregate_loop type_name n tok dict
              (children ++ [Pair (lineno key) (colno key) key value])
       else expr <- parseExpression type_name n ;;
            parseAggregate_loop type_name n tok dict (children ++ [expr])).
Proof. reflexivity. Qed.

Lemma yields_closing n tok dict children p rb rest :
  is_closing (tok_type rb) = true ->
  upcoming p = rb :: rest -> clean p ->
  yields (parseAggregate_loop type_name (S n) tok dict children) p
    children rest.
Proof.
  intros Hc U C. rewrite parseAggregate_loop_S.
  eapply yields_bind; [exact (yields_peekToken p _ U C) |].
  intros p1 U1 C1. cbn [hd_error]. unfold deref. rewrite bind_ret_eq.
  rewrite Hc.
  eapply yields_bind; [exact (yields_nextToken p1 _ U1) |].
  intros p2 U2 C2. exact (yields_ret _ p2 _ U2 C2).
Qed.

(** What follows a name of an index ends the expression. *)
Lemma after_a_name more rb rest :
  separated_names more = true -> ends_expression rb = true ->
  exists d r, more_names more ++ rb :: rest = d :: r
              /\ ends_expression d = true.
Proof.
  intros Hm Hr. destruct more as [| [c b] more].
  - exists rb, rest. split; [reflexivity | exact Hr].
  - cbn [separated_names forallb fst snd] in Hm.
    apply andb_true_iff in Hm. destruct Hm as [Hm _].
    apply andb_true_iff in Hm. destruct Hm as [Hm _].
    apply andb_true_iff in Hm. destruct Hm as [_ Hm].
    eexists c, _. split; [reflexivity | exact Hm].
Qed.

Lemma name_not_closing t : is_name t = true -> is_closing (tok_type t) = false.
Proof.
  intros H. rewrite (name_is_symbol t H). reflexivity.
Qed.

Lemma comma_not_closing c :
  type_is (tok_type c) TOKEN_COMMA = true -> is_closing (tok_type c) = false.
Proof.
  unfold type_is. destruct (token_type_eq_dec (tok_type c) TOKEN_COMMA) as [-> |];
    [reflexivity | discriminate].
Qed.

(** The loop of [parseAggregate] after the first name: a comma and a name,
    as often as they come, then the closing delimiter. *)
Lemma yields_more_names tok rb rest :
  is_closing (tok_type rb) = true -> ends_expression rb = true ->
  forall more children n p,
    separated_names more = true ->
    (0 <? length children)%nat = true ->
    (18 + length more <= n)%nat ->
    upcoming p = more_names more ++ rb :: rest -> clean p ->
    yields (parseAggregate_loop type_name n tok false children) p
      (children ++ map (fun cb => name_node (snd cb)) more) rest.
Proof.
  intros Hc Hr. induction more as [| [c b] more IH];
    intros children n p Hm Hch Hn U C.
  - destruct n as [| n]; [cbn [length] in Hn; lia |].
    cbn [map]. rewrite app_nil_r.
    exact (yields_closing n tok false children p rb rest Hc U C).
  - destruct n as [| n]; [lia |]. cbn [length] in Hn.
    pose proof Hm as Hm0.
    cbn [separated_names forallb fst snd] in Hm.
    apply andb_true_iff in Hm. destruct Hm as [Hm Hm'].
    apply andb_true_iff in Hm. destruct Hm as [Hm Hb].
    apply andb_true_iff in Hm. destruct Hm as [Hcomma Hcends].
    change (separated_names more = true) in Hm'.
    cbn [more_names flat_map fst snd app] in U.
    change (flat_map (fun cb => [fst cb; snd cb]) more)
      with (more_names more) in U.
    rewrite parseAggregate_loop_S.
    eapply yields_bind; [exact (yields_peekToken p _ U C) |].
    intros p1 U1 C1. cbn [hd_error]. unfold deref. rewrite bind_ret_eq.
    rewrite (comma_not_closing c Hcomma). rewrite Hch. cbv iota.
    apply yields_assoc.
    eapply yields_bind; [exact (yields_skip TOKEN_COMMA p1 _ U1) |].
    cbn [first_is tl]. unfold has_type. rewrite Hcomma. cbn [negb].
    intros p2 U2 C2. rewrite bind_ret_eq.
    destruct (after_a_name more rb rest Hm' Hr) as (d & r & E & Hd).
    rewrite E in U2.
    eapply yields_bind;
      [exact (yields_expression n b d r p2 Hb Hd ltac:(lia) U2 C2) |].
    intros p3 U3 C3. rewrite <- E in U3.
    cbn [map snd].
    replace (children ++ name_node b
               :: map (fun cb => name_node (snd cb)) more)
      with ((children ++ [name_node b])
              ++ map (fun cb => name_node (snd cb)) more)
      by (rewrite <- app_assoc; reflexivity).
    apply IH; try assumption.
    + rewrite length_app. cbn [length].
      apply Nat.ltb_lt. lia.
    + lia.
Qed.

(** [parseAggregate] at [[], a name, more names after commas and a closing
    delimiter: an [Array] of the names. *)
Lemma yields_index_names n p lb a more rb rest :
  tok_type lb = TOKEN_LEFT_BRACKET -> is_name a = true ->
  separated_names more = true ->
  is_closing (tok_type rb) = true -> ends_expression rb = true ->
  (20 + length more <= n)%nat ->
  upcoming p = lb :: a :: more_names more ++ rb :: rest ->
  yields (parseAggregate type_name n) p
    (Array (lineno_of lb) (colno_of lb)
       (name_node a :: map (fun cb => name_node (snd cb)) more)) rest.
Proof.
  intros Hlb Ha Hm Hc Hr Hn U.
  destruct n as [| [| n]]; [lia | lia |].
  rewrite parseAggregate_S.
  eapply yields_bind; [exact (yields_nextToken p _ U) |].
  intros p1 U1 C1. cbn [hd_error tl] in *.
  unfold deref. rewrite bind_ret_eq. rewrite Hlb. cbn [aggregate_of].
  eapply yields_bind; [| intros p4 U4 C4; exact (yields_ret _ p4 _ U4 C4)].
  rewrite parseAggregate_loop_S.
  eapply yields_bind; [exact (yields_peekToken p1 _ U1 C1) |].
  intros p2 U2 C2. cbn [hd_error]. unfold deref. rewrite bind_ret_eq.
  rewrite (name_not_closing a Ha).
  change (0 <? length (@nil node))%nat with false. cbv iota.
  rewrite bind_ret_eq.
  destruct (after_a_name more rb rest Hm Hr) as (d & r & E & Hd).
  rewrite E in U2.
  eapply yields_bind;
    [exact (yields_expression n a d r p2 Ha Hd ltac:(lia) U2 C2) |].
  intros p3 U3 C3. rewrite <- E in U3. cbn [app].
  change (name_node a :: map (fun cb => name_node (snd cb)) more)
    with ([name_node a] ++ map (fun cb => name_node (snd cb)) more).
  apply (yields_more_names lb rb rest Hc Hr more [name_node a] n p3);
    try assumption; [reflexivity | lia].
Qed.

(** *** The index of a lookup *)

Lemma fail_reported {A} msg p rest :
  upcoming p = rest -> clean p ->
  exists p',
    @fail A msg None None p
    = (Throw (TemplateError msg (reported_line rest) (reported_column rest)),
       p')
    /\ upcoming p' = rest /\ clean p'.
Proof.
  intros U C. destruct (yields_peekToken p _ U C) as (p' & H & U' & C').
  exists p'. unfold reported_line, reported_column.
  split; [| split; assumption].
  destruct rest as [| t rest]; cbn [hd_error option_map] in *.
  - exact (fail_at_end msg None None p p' eq_refl H).
  - exact (fail_at_token msg None None p t p' eq_refl H).
Qed.

(** [parsePostfix] at [[]: the index is what [parseAggregate] returns. *)
Lemma postfix_bracket n target p lb rest0 ch rest :
  tok_type lb = TOKEN_LEFT_BRACKET ->
  upcoming p = lb :: rest0 -> clean p ->
  (forall p0, upcoming p0 = lb :: rest0 -> clean p0 ->
              yields (parseAggregate type_name n) p0
                (Array (lineno_of lb) (colno_of lb) ch) rest) ->
  exists p',
    parsePostfix type_name (S n) target p
    = ((if (1 <? length ch)%nat then fail "invalid index" None None
        else ret tt) ;;
       parsePostfix type_name n
         (LookupVal (lineno_of lb) (colno_of lb) target (nth 0 ch Null))) p'
    /\ upcoming p' = rest /\ clean p'.
Proof.
  intros Hlb U C Hagg. rewrite parsePostfix_S.
  destruct (yields_peekToken p _ U C) as (p0 & H0 & U0 & C0).
  rewrite (bind_Ret _ _ _ _ _ H0). cbn [hd_error]. rewrite Hlb.
  change (type_is TOKEN_LEFT_BRACKET TOKEN_LEFT_PAREN) with false.
  change (type_is TOKEN_LEFT_BRACKET TOKEN_LEFT_BRACKET) with true.
  cbv iota.
  destruct (Hagg p0 U0 C0) as (p' & H1 & U1 & C1).
  rewrite (bind_Ret _ _ _ _ _ H1). cbn [children_of].
  exists p'. repeat split; assumption.
Qed.

Lemma postfix_empty_index n target p lb rb rest :
  tok_type lb = TOKEN_LEFT_BRACKET -> is_closing (tok_type rb) = true ->
  (2 <= n)%nat ->
  upcoming p = lb :: rb :: rest -> clean p ->
  exists p',
    parsePostfix type_name (S n) target p
    = parsePostfix type_name n
        (LookupVal (lineno_of lb) (colno_of lb) target Null) p'
    /\ upcoming p' = rest /\ clean p'.
Proof.
  intros Hlb Hc Hn U C.
  destruct (postfix_bracket n target p lb (rb :: rest) [] rest Hlb U C)
    as (p' & H & U' & C').
  - intros p0 U0 C0. destruct n as [| [| n]]; [lia | lia |].
    rewrite parseAggregate_S.
    eapply yields_bind; [exact (yields_nextToken p0 _ U0) |].
    intros p1 U1 C1. cbn [hd_error tl] in *.
    unfold deref. rewrite bind_ret_eq. rewrite Hlb. cbn [aggregate_of].
    eapply yields_bind;
      [exact (yields_closing n lb false [] p1 rb rest Hc U1 C1) |].
    intros p2 U2 C2. exact (yields_ret _ p2 _ U2 C2).
  - exists p'. split; [exact H | split; assumption].
Qed.

Lemma postfix_index n target p lb a more rb rest :
  tok_type lb = TOKEN_LEFT_BRACKET -> is_name a = true ->
  separated_names more = true ->
  is_closing (tok_type rb) = true -> ends_expression rb = true ->
  (20 + length more <= n)%nat ->
  upcoming p = lb :: a :: more_names more ++ rb :: rest -> clean p ->
  exists p',
    parsePostfix type_name (S n) target p
    = match more with
      | [] => parsePostfix type_name n
                (LookupVal (lineno_of lb) (colno_of lb) target (name_node a))
                p'
      | _ :: _ => (Throw (TemplateError "invalid index" (reported_line rest)
                            (reported_column rest)), p')
      end
    /\ upcoming p' = rest /\ clean p'.
Proof.
  intros Hlb Ha Hm Hc Hr Hn U C.
  destruct (postfix_bracket n target p lb _
              (name_node a :: map (fun cb => name_node (snd cb)) more)
              rest Hlb U C)
    as (p' & H & U' & C').
  - intros p0 U0 C0.
    exact (yields_index_names n p0 lb a more rb rest Hlb Ha Hm Hc Hr Hn U0).
  - destruct more as [| cb more].
    + exists p'. split; [exact H | split; assumption].
    + destruct (@fail_reported unit "invalid index" p' rest U' C')
        as (p2 & F & U2 & C2).
      exists p2. split; [| split; assumption].
      rewrite H. cbn [map length]. change (1 <? S (S _))%nat with true.
      cbv iota. exact (bind_Throw _ _ _ _ _ F).
Qed.

Lemma dot_is_operator dot :
  is_dot dot = true -> tok_type dot = TOKEN_OPERATOR.
Proof.
  unfold is_dot, has_type_value, type_is. intros H.
  destruct (token_type_eq_dec (tok_type dot) TOKEN_OPERATOR);
    [assumption | discriminate].
Qed.

(** [parsePostfix] at [.], up to the test of the token after it. *)
Lemma postfix_dot n target p dot a rest :
  is_dot dot = true ->
  upcoming p = dot :: a :: rest -> clean p ->
  exists p',
    parsePostfix type_name (S n) target p
    = ((if negb (type_is (tok_type a) TOKEN_SYMBOL)
        then fail ("expected name as lookup value, got "
                   ++ to_string (tok_value a))
               (lineno_of a) (colno_of a)
        else ret tt) ;;
       parsePostfix type_name n
         (LookupVal (lineno_of dot) (colno_of dot) target
            (Literal (lineno_of a) (colno_of a)
               (of_tokval (tok_value a))))) p'
    /\ upcoming p' = rest /\ clean p'.
Proof.
  intros Hd U C. rewrite parsePostfix_S.
  destruct (yields_peekToken p _ U C) as (p0 & H0 & U0 & C0).
  rewrite (bind_Ret _ _ _ _ _ H0). cbn [hd_error].
  pose proof Hd as Hd'. unfold is_dot, has_type_value, tokval_eqb in Hd'.
  rewrite Hd'.
  rewrite (dot_is_operator dot Hd).
  change (type_is TOKEN_OPERATOR TOKEN_LEFT_PAREN) with false.
  change (type_is TOKEN_OPERATOR TOKEN_LEFT_BRACKET) with false.
  cbv iota.
  destruct (yields_nextToken p0 _ U0) as (p1 & H1 & U1 & C1).
  rewrite (bind_Ret _ _ _ _ _ H1). cbn [tl] in U1.
  destruct (yields_nextToken p1 _ U1) as (p2 & H2 & U2 & C2).
  rewrite (bind_Ret _ _ _ _ _ H2). cbn [hd_error tl] in *.
  unfold deref. rewrite bind_ret.
  exists p2. repeat split; assumption.
Qed.

(** X21: a lookup has one index. After a target, [[]] makes a
    [LookupVal] without an index; [[a]], with a name [a], makes one whose
    index is the symbol [a]; [[a, b]] and longer lists of names throw
    [invalid index], at the position of the token after the closing
    delimiter counted from 1, or without a position at the end of the
    input. [.a] makes a [LookupVal] whose index is the literal string [a],
    and [.] before a token that is no symbol throws
    [expected name as lookup value, got] and the value of that token, at its
    position counted from 1. In the cases that throw nothing the routine
    goes on from the new node with the tokens that follow. *)
Theorem lookup_has_one_index n target p :
  clean p ->
  (forall lb rb rest,
      tok_type lb = TOKEN_LEFT_BRACKET -> is_closing (tok_type rb) = true ->
      (2 <= n)%nat ->
      upcoming p = lb :: rb :: rest ->
      exists p',
        parsePostfix type_name (S n) target p
        = parsePostfix type_name n
            (LookupVal (lineno_of lb) (colno_of lb) target Null) p'
        /\ upcoming p' = rest /\ clean p')
  /\ (forall lb a more rb rest,
         tok_type lb = TOKEN_LEFT_BRACKET -> is_name a = true ->
         separated_names more = true ->
         is_closing (tok_type rb) = true -> ends_expression rb = true ->
         (20 + length more <= n)%nat ->
         upcoming p = lb :: a :: more_names more ++ rb :: rest ->
         exists p',
           parsePostfix type_name (S n) target p
           = match more with
             | [] => parsePostfix type_name n
                       (LookupVal (lineno_of lb) (colno_of lb) target
                          (name_node a)) p'
             | _ :: _ =>
                 (Throw (TemplateError "invalid index" (reported_line rest)
                           (reported_column rest)), p')
             end
           /\ upcoming p' = rest /\ clean p')
  /\ (forall dot a rest,
         is_dot dot = true -> tok_type a = TOKEN_SYMBOL ->
         upcoming p = dot :: a :: rest ->
         exists p',
           parsePostfix type_name (S n) target p
           = parsePostfix type_name n
               (LookupVal (lineno_of dot) (colno_of dot) target
                  (Literal (lineno_of a) (colno_of a)
                     (of_tokval (tok_value a)))) p'
           /\ upcoming p' = rest /\ clean p')
  /\ (forall dot a rest,
         is_dot dot = true -> tok_type a <> TOKEN_SYMBOL ->
         upcoming p = dot :: a :: rest ->
         exists p',
           parsePostfix type_name (S n) target p
           = (Throw (TemplateError
                       ("expected name as lookup value, got "
                        ++ to_string (tok_value a))
                       (Some (S (tok_lineno a))) (Some (S (tok_colno a)))),
              p')).
Proof.
  intros C. repeat split.
  - intros lb rb rest Hlb Hc Hn U.
    exact (postfix_empty_index n target p lb rb rest Hlb Hc Hn U C).
  - intros lb a more rb rest Hlb Ha Hm Hc Hr Hn U.
    exact (postfix_index n target p lb a more rb rest Hlb Ha Hm Hc Hr Hn U C).
  - intros dot a rest Hd Ha U.
    destruct (postfix_dot n target p dot a rest Hd U C) as (p' & H & U' & C').
    exists p'. split; [| split; assumption].
    rewrite H, Ha. reflexivity.
  - intros dot a rest Hd Ha U.
    destruct (postfix_dot n target p dot a rest Hd U C) as (p' & H & _).
    exists p'. rewrite H.
    assert (E : type_is (tok_type a) TOKEN_SYMBOL = false).
    { unfold type_is.
      destruct (token_type_eq_dec (tok_type a) TOKEN_SYMBOL);
        [contradiction | reflexivity]. }
    rewrite E. reflexivity.
Qed.

End Names.

End WithEngine.

(** * The properties on concrete templates *)

(** The examples run on [example_engine]. *)
#[export] Existing Instance example_engine.

(** ** parseUntilBlocks *)



(** ** Chains of [+] and [-] *)

Lemma parseAdd_chain_witness :
  parseAdd lexer_type_name 14 (init (lexer_of tokens_a_plus_b_minus_c))
  = (Ret (Add (Some 0) (Some 0) (sym "a" 0)
            (Sub (Some 0) (Some 4) (sym "b" 4) (sym "c" 8))),
     parser_at_variable_end).
Proof.
  refine (proj1 (parseAdd_chain lexer_type_name 12 (sym "a" 0)
                   [(Plus, sym "b" 4); (Minus, sym "c" 8)]
                   (init (lexer_of tokens_a_plus_b_minus_c)) _ _ _ _ _)).
  - vm_compute. reflexivity.
  - eapply reads_plus; [vm_compute; reflexivity ..|].
    eapply reads_minus; [vm_compute; reflexivity ..|].
    eapply reads_end; vm_compute; reflexivity.
  - simpl. lia.
Defined.

(** C2 as stated fails: [a + b - c] does not parse to
    [Sub(Add(a, b), c)], whatever positions the nodes are given. *)
Lemma a_plus_b_minus_c_is_not_left_nested :
  fst (parseAdd lexer_type_name 14 (init (lexer_of tokens_a_plus_b_minus_c)))
  = Ret (Add (Some 0) (Some 0) (sym "a" 0)
           (Sub (Some 0) (Some 4) (sym "b" 4) (sym "c" 8)))
  /\ ~ (exists l c l' c',
           fst (parseAdd lexer_type_name 14
                  (init (lexer_of tokens_a_plus_b_minus_c)))
           = Ret (Sub l c (Add l' c' (sym "a" 0) (sym "b" 4)) (sym "c" 8))).
Proof.
  assert (E : fst (parseAdd lexer_type_name 14
                     (init (lexer_of tokens_a_plus_b_minus_c)))
              = Ret (Add (Some 0) (Some 0) (sym "a" 0)
                       (Sub (Some 0) (Some 4) (sym "b" 4) (sym "c" 8)))).
  { vm_compute. reflexivity. }
  split; [exact E |].
  intros (l & c & l' & c' & H). rewrite E in H. discriminate H.
Qed.

(** ** Precedence *)

Lemma parse_arith_precedence_witness :
  parse_lexed lexer_type_name [] 64 (lexer_of (tokens_arith columns_arith))
  = (Ret
       (Root (Some 0) (Some 0)
          [Output (Some 0) (Some 0)
             [Add (Some 0) (Some 3)
                (Literal (Some 0) (Some 3) (VNum 1))
                (Mul (Some 0) (Some 7)
                   (Literal (Some 0) (Some 7) (VNum 2))
                   (Pow (Some 0) (Some 11)
                      (Literal (Some 0) (Some 11) (VNum 3))
                      (Literal (Some 0) (Some 16) (VNum 2))))]]),
     init (lexer_of [])).
Proof.
  apply (parse_arith_precedence lexer_type_name [] columns_arith 64).
  - constructor.
  - lia.
Defined.

(** ** The pushback slot *)

Lemma nextToken_skips_whitespace_witness :
  tok_type (tk TOKEN_SYMBOL "x" 5) <> TOKEN_WHITESPACE
  /\ exists p',
      nextToken false parser_with_pushed_whitespace
      = (Ret (Some (tk TOKEN_SYMBOL "x" 5)), p')
      /\ peeked p' = None
      /\ upcoming p' = []
      /\ same_context parser_with_pushed_whitespace p'.
Proof.
  destruct (nextToken_skips_whitespace parser_with_pushed_whitespace)
    as [H1 H2].
  split.
  - apply (H1 (tk TOKEN_SYMBOL "x" 5) (init (lexer_of []))). reflexivity.
  - exact (H2 (ws 3) eq_refl eq_refl).
Defined.

Lemma pushToken_then_read_witness :
  peekToken (set_peeked (Some (ws 3)) (init (lexer_of [tk TOKEN_SYMBOL "x" 5])))
  = (Ret (Some (ws 3)),
     set_peeked (Some (ws 3)) (init (lexer_of [tk TOKEN_SYMBOL "x" 5])))
  /\ nextToken true
       (set_peeked (Some (ws 3)) (init (lexer_of [tk TOKEN_SYMBOL "x" 5])))
     = (Ret (Some (ws 3)), init (lexer_of [tk TOKEN_SYMBOL "x" 5])).
Proof.
  apply (pushToken_then_read (init (lexer_of [tk TOKEN_SYMBOL "x" 5])) (ws 3)).
  reflexivity.
Defined.

Lemma pushToken_twice_witness :
  pushToken (Some (tk TOKEN_SYMBOL "x" 5)) parser_with_pushed_whitespace
  = (Throw (Error "pushToken: can only push one token on between reads"),
     parser_with_pushed_whitespace).
Proof.
  apply (pushToken_twice parser_with_pushed_whitespace
           (Some (tk TOKEN_SYMBOL "x" 5)) (ws 3)).
  reflexivity.
Defined.

(** C7 as stated fails: what [pushToken] throws on a full slot is no
    [TemplateError], and its message is not the one the claim gives; the
    same [Error] ends the parse of [{{ a not b }}]. *)
Lemma pushToken_twice_is_no_TemplateError :
  ~ (exists l c p',
        pushToken (Some (tk TOKEN_SYMBOL "x" 5)) parser_with_pushed_whitespace
        = (Throw (TemplateError
                    "pushToken: can only push one token between reads" l c),
           p'))
  /\ fst (parse_lexed lexer_type_name [] 40 (lexer_of tokens_a_not_b))
     = Throw (Error "pushToken: can only push one token on between reads").
Proof.
  split.
  - intros (l & c & p' & H). vm_compute in H. discriminate H.
  - vm_compute. reflexivity.
Qed.

(** C8, where the code departs from it: on an exhausted stream [expect]
    reads [tok.type] of [null], so that the template [{{ a |] ends in a
    [TypeError] and not in a [TemplateError]. *)
Theorem expect_at_end_of_input :
  expect lexer_type_name TOKEN_SYMBOL (init (lexer_of []))
  = (Throw (TypeError "Cannot read properties of null"), init (lexer_of []))
  /\ fst (parse_lexed lexer_type_name [] 40
            (lexer_of tokens_unfinished_filter))
     = Throw (TypeError "Cannot read properties of null").
Proof. split; vm_compute; reflexivity. Qed.

(** ** from ... import *)

Lemma parseFrom_rejects_underscore_witness :
  parseFrom_loop lexer_type_name 11 (tk TOKEN_SYMBOL "from" 3) [] None
    parser_at_import_names
  = (Throw (TemplateError
              "parseFrom: names starting with an underscore cannot be imported"
              (Some 1) (Some 20)), parser_at_block_end).
Proof.
  refine (parseFrom_rejects_underscore lexer_type_name 10
            (tk TOKEN_SYMBOL "from" 3) [] None parser_at_import_names
            (tk TOKEN_SYMBOL "_x" 19)
            (set_peeked (Some (tk TOKEN_SYMBOL "_x" 19))
               (init (lexer_of [ws 21; tk TOKEN_BLOCK_END "%}" 22])))
            (set_peeked (Some (tk TOKEN_SYMBOL "_x" 19))
               (init (lexer_of [ws 21; tk TOKEN_BLOCK_END "%}" 22])))
            0 19 "_x" parser_at_block_end _ _ _ _ _).
  - vm_compute. reflexivity.
  - reflexivity.
  - reflexivity.
  - vm_compute. reflexivity.
  - reflexivity.
Defined.

(** C9 as stated fails in the message: the error of
    [{% from "t" import _x %}] names the routine first. *)
Lemma from_import_underscore_message :
  parse_lexed lexer_type_name [] 40 (lexer_of tokens_from_underscore)
  = (Throw (TemplateError
              "parseFrom: names starting with an underscore cannot be imported"
              (Some 1) (Some 20)), parser_at_block_end)
  /\ ~ (exists l c,
           fst (parse_lexed lexer_type_name [] 40
                  (lexer_of tokens_from_underscore))
           = Throw (TemplateError
                      "names starting with an underscore cannot be imported"
                      l c)).
Proof.
  assert (E : parse_lexed lexer_type_name [] 40
                (lexer_of tokens_from_underscore)
              = (Throw (TemplateError
                          ("parseFrom: names starting with an underscore "
                           ++ "cannot be imported")
                          (Some 1) (Some 20)), parser_at_block_end)).
  { vm_compute. reflexivity. }
  split; [exact E |].
  intros (l & c & H). rewrite E in H. vm_compute in H. discriminate H.
Qed.

(** ** for *)

Lemma parseFor_targets_check_witness :
  (exists l c p3,
      parseFor lexer_type_name [] 11 parser_at_for_literal
      = (Throw (TemplateError "parseFor: variable name expected for loop" l c),
         p3))
  /\ parseFor lexer_type_name [] 12 parser_at_for_regex
     = (Throw (SyntaxError
                 "Invalid flags supplied to RegExp constructor 'gg'"),
        init (lexer_of (skipn 5 tokens_for_regex))).
Proof.
  split.
  - refine (proj1 (parseFor_targets_check lexer_type_name [] 10)
              parser_at_for_literal (tk TOKEN_SYMBOL "for" 3)
              (set_peeked (Some (tk TOKEN_SYMBOL "for" 3))
                 (init (lexer_of (skipn 3 tokens_for_literal))))
              "for" (Literal (Some 0) (Some 7) (VNum 1))
              (mkParser (lexer_of (skipn 7 tokens_for_literal))
                 (Some (tk TOKEN_SYMBOL "in" 9)) None false)
              _ _ _ _ _ _).
    + vm_compute. reflexivity.
    + reflexivity.
    + reflexivity.
    + simpl. auto.
    + vm_compute. reflexivity.
    + reflexivity.
  - refine (proj1 (proj2 (parseFor_targets_check lexer_type_name [] 10))
              parser_at_for_regex (tk TOKEN_SYMBOL "for" 3)
              (set_peeked (Some (tk TOKEN_SYMBOL "for" 3))
                 (init (lexer_of (skipn 3 tokens_for_regex))))
              "for" (mkToken TOKEN_REGEX (TRegex "a" "gg") 0 7)
              (init (lexer_of (skipn 5 tokens_for_regex)))
              "a" "gg" "Invalid flags supplied to RegExp constructor 'gg'"
              _ _ _ _ _ _ _ _).
    + vm_compute. reflexivity.
    + reflexivity.
    + reflexivity.
    + simpl. auto.
    + vm_compute. reflexivity.
    + reflexivity.
    + reflexivity.
    + reflexivity.
Defined.

(** C10 as stated fails on a first target that is a regex literal with a
    flag twice: the parse ends with the [SyntaxError] of [new RegExp], not
    with the error of the [Symbol] test. *)
Lemma for_regex_target_is_a_SyntaxError :
  parse_lexed lexer_type_name [] 40 (lexer_of tokens_for_regex)
  = (Throw (SyntaxError "Invalid flags supplied to RegExp constructor 'gg'"),
     init (lexer_of (skipn 5 tokens_for_regex)))
  /\ ~ (exists l c,
           fst (parse_lexed lexer_type_name [] 40 (lexer_of tokens_for_regex))
           = Throw (TemplateError
                      "parseFor: variable name expected for loop" l c)).
Proof.
  assert (E : parse_lexed lexer_type_name [] 40 (lexer_of tokens_for_regex)
              = (Throw (SyntaxError
                          "Invalid flags supplied to RegExp constructor 'gg'"),
                 init (lexer_of (skipn 5 tokens_for_regex)))).
  { vm_compute. reflexivity. }
  split; [exact E |].
  intros (l & c & H). rewrite E in H. discriminate H.
Qed.

(** ** Whitespace control *)

Lemma block_end_dash_trims_next_data_witness :
  exists strip p3,
    parseNodes_data (tk TOKEN_DATA "   hi " 11)
      (set_dropLeadingWhitespace true (init (lexer_of (tl tokens_after_dash))))
    = (Ret (Output (Some 0) (Some 11)
              [TemplateData (Some 0) (Some 11)
                 (TStr (trimmed strip "   hi "))]), p3)
    /\ no_leading_space (trimmed strip "   hi ") = true
    /\ dropLeadingWhitespace p3 = false
    /\ forall fuel buf,
        parseNodes lexer_type_name [] (S fuel) buf
          (set_dropLeadingWhitespace true (init (lexer_of tokens_after_dash)))
        = parseNodes lexer_type_name [] fuel
            (buf ++ [Output (Some 0) (Some 11)
                       [TemplateData (Some 0) (Some 11)
                          (TStr (trimmed strip "   hi "))]]) p3.
Proof.
  assert (H : advanceAfterBlockEnd (Some (TStr "if")) parser_at_dash
              = (Ret (tk TOKEN_BLOCK_END "-%}" 8),
                 set_dropLeadingWhitespace true
                   (init (lexer_of tokens_after_dash)))).
  { vm_compute. reflexivity. }
  destruct (block_end_dash_trims_next_data lexer_type_name []
              (Some (TStr "if")) parser_at_dash _ _ "-%}"
              H eq_refl eq_refl) as (_ & _ & K).
  apply (K (tk TOKEN_DATA "   hi " 11) "   hi "
           (set_dropLeadingWhitespace true
              (init (lexer_of (tl tokens_after_dash))))).
  - vm_compute. reflexivity.
  - reflexivity.
  - reflexivity.
  - intros nt p3 E. vm_compute in E. injection E as <- _.
    eexists. reflexivity.
Defined.

(** The whole template: the text between [-%}] and the next block loses its
    leading whitespace and keeps the rest. *)
Example parse_if_dash :
  fst (parse_lexed lexer_type_name [] 40 (lexer_of tokens_if_dash))
  = Ret (Root (Some 0) (Some 0)
           [If (Some 0) (Some 3) (Symbol (Some 0) (Some 6) (TStr "x"))
              (NodeList (Some 0) (Some 0)
                 [Output (Some 0) (Some 11)
                    [TemplateData (Some 0) (Some 11) (TStr "hi ")]])
              Null]).
Proof. vm_compute. reflexivity. Qed.

(** C4, where the code departs from it: the block form of [set] consumes
    its block end with [skip] and leaves the latch as it is, so the text
    after [{% set x -%}] keeps its leading whitespace; the block end of
    [from ... import], consumed by hand as well, does set the latch. *)
Theorem set_block_end_dash_keeps_whitespace :
  parse_lexed lexer_type_name [] 40 (lexer_of tokens_set_dash)
  = (Ret
       (Root (Some 0) (Some 0)
          [Set_ (Some 0) (Some 3) [Symbol (Some 0) (Some 7) (TStr "x")] Null
             (Capture (Some 0) (Some 3)
                (NodeList (Some 0) (Some 0)
                   [Output (Some 0) (Some 12)
                      [TemplateData (Some 0) (Some 12) (TStr "  a")]]))]),
     init (lexer_of []))
  /\ fst (parse_lexed lexer_type_name [] 40 (lexer_of tokens_from_dash))
     = Ret
         (Root (Some 0) (Some 0)
            [FromImport (Some 0) (Some 3)
               (Literal (Some 0) (Some 8) (VStr "t"))
               (NodeList None None [Symbol (Some 0) (Some 19) (TStr "x")])
               None;
             Output (Some 0) (Some 25)
               [TemplateData (Some 0) (Some 25) (TStr "a")]]).
Proof. split; vm_compute; reflexivity. Qed.

Lemma peekToken_is_transparent_witness :
  peekToken
    (set_peeked (Some (tk TOKEN_SYMBOL "x" 5)) (init (lexer_of [ws 6])))
  = (Ret (Some (tk TOKEN_SYMBOL "x" 5)),
     set_peeked (Some (tk TOKEN_SYMBOL "x" 5)) (init (lexer_of [ws 6]))).
Proof.
  apply (proj1 (peekToken_is_transparent parser_with_one_symbol)).
  vm_compute. reflexivity.
Defined.

Lemma fail_position_witness :
  @fail unit "expected variable end" None None parser_with_one_symbol
  = (Throw (TemplateError "expected variable end" (Some 1) (Some 6)),
     set_peeked (Some (tk TOKEN_SYMBOL "x" 5)) (init (lexer_of [ws 6]))).
Proof.
  apply (proj1 (proj2 (@fail_position unit "expected variable end"))
           None None parser_with_one_symbol (tk TOKEN_SYMBOL "x" 5)).
  - reflexivity.
  - vm_compute. reflexivity.
Defined.

Lemma end_of_input_is_reported_witness :
  throws (parseExpression lexer_type_name 20) parser_at_end no_expression.
Proof.
  refine (proj1 (proj2 (end_of_input_is_reported lexer_type_name
                          parser_at_end _)) 3).
  split; [exact I | reflexivity].
Defined.

Lemma end_of_input_is_not_tested_witness :
  throws (parseStatement lexer_type_name [] 1) parser_at_end null_TypeError.
Proof.
  refine (proj1 (end_of_input_is_not_tested lexer_type_name []
                   parser_at_end _) 0).
  split; [exact I | reflexivity].
Defined.

Lemma expressions_move_the_cursor_only_witness :
  same_context parser_in_condition
    (snd (parseExpression lexer_type_name 40 parser_in_condition)).
Proof.
  refine (proj1 (expressions_move_the_cursor_only lexer_type_name 40
                   parser_in_condition)
            (fst (parseExpression lexer_type_name 40 parser_in_condition))
            _ _).
  vm_compute. reflexivity.
Defined.

Lemma successful_parse_reads_everything_witness :
  pending (snd (parse_lexed lexer_type_name [] 40 (lexer_of tokens_if_dash)))
  = [].
Proof.
  refine (proj1 (successful_parse_reads_everything lexer_type_name []
                   (Forall_nil _) 40 (lexer_of tokens_if_dash)
                   (match fst (parse_lexed lexer_type_name [] 40
                                 (lexer_of tokens_if_dash)) with
                    | Ret r => r
                    | _ => Null
                    end) _ _)).
  vm_compute. reflexivity.
Defined.

Lemma nested_parse_stops_at_its_blocks_witness :
  pending
    (snd (parseUntilBlocks lexer_type_name [] 10 if_blocks parser_in_if_body))
  = []
  \/ at_block if_blocks
       (snd (parseUntilBlocks lexer_type_name [] 10 if_blocks
               parser_in_if_body)).
Proof.
  refine (nested_parse_stops_at_its_blocks lexer_type_name [] (Forall_nil _)
            10 if_blocks parser_in_if_body
            (match fst (parseUntilBlocks lexer_type_name [] 10 if_blocks
                          parser_in_if_body) with
             | Ret r => r
             | _ => Null
             end) _ _).
  vm_compute. reflexivity.
Defined.

Lemma reported_positions_are_one_based_witness :
  Some 1 <> Some 0 /\ Some 20 <> Some 0.
Proof.
  refine (reported_positions_are_one_based lexer_type_name []
            (Forall_nil _) 40 (lexer_of tokens_from_underscore)
            "parseFrom: names starting with an underscore cannot be imported"
            (Some 1) (Some 20) parser_at_block_end _).
  vm_compute. reflexivity.
Defined.

Lemma binary_levels_are_left_associative_witness :
  level_routine lexer_type_name level_pow 6
    (init (lexer_of tokens_power_tower))
  = (Ret (left_nested (level_node level_pow) (int_literal 2 3)
            [int_literal 3 8; int_literal 2 13]),
     parser_at_variable_end_15).
Proof.
  apply (binary_levels_are_left_associative lexer_type_name level_pow
           5 (int_literal 2 3) [int_literal 3 8; int_literal 2 13]
           (init (lexer_of tokens_power_tower))
           (snd (parseUnary lexer_type_name 5 false
                   (init (lexer_of tokens_power_tower))))
           parser_at_variable_end_15).
  - vm_compute. reflexivity.
  - eapply operands_more; [vm_compute; reflexivity ..|].
    eapply operands_more; [vm_compute; reflexivity ..|].
    eapply operands_end. vm_compute. reflexivity.
  - simpl. lia.
Defined.

Lemma comparisons_are_flat_witness :
  parseCompare lexer_type_name 18 (init (lexer_of tokens_comparison))
  = (Ret (comparison (sym "a" 3)
            [CompareOperand (Some 0) (Some 5) (sym "b" 7) (TStr "<");
             CompareOperand (Some 0) (Some 9) (sym "c" 12) (TStr "<=")]),
     set_peeked (Some (tk TOKEN_VARIABLE_END "}}" 14)) (init (lexer_of []))).
Proof.
  apply (comparisons_are_flat lexer_type_name 14 (sym "a" 3)
           [CompareOperand (Some 0) (Some 5) (sym "b" 7) (TStr "<");
            CompareOperand (Some 0) (Some 9) (sym "c" 12) (TStr "<=")]
           (init (lexer_of tokens_comparison))
           (snd (parseConcat lexer_type_name 14
                   (init (lexer_of tokens_comparison))))).
  - vm_compute. reflexivity.
  - eapply (comparisons_more lexer_type_name 14 _
              (tk TOKEN_OPERATOR "<" 5));
      [vm_compute; reflexivity ..|].
    eapply (comparisons_more lexer_type_name 14 _
              (tk TOKEN_OPERATOR "<=" 9));
      [vm_compute; reflexivity ..|].
    eapply (comparisons_end lexer_type_name 14 _
              (tk TOKEN_VARIABLE_END "}}" 14)
              (init (lexer_of [])));
      vm_compute; reflexivity.
  - simpl. lia.
Defined.

Lemma not_without_in_witness :
  parseIn_loop lexer_type_name 1 (sym "a" 3) parser_at_not
  = (Throw (Error "pushToken: can only push one token on between reads"),
     set_peeked (Some (tk TOKEN_SYMBOL "b" 9))
       (init (lexer_of [ws 10; tk TOKEN_VARIABLE_END "}}" 11]))).
Proof.
  apply (proj2 (not_without_in lexer_type_name 0 (sym "a" 3) parser_at_not
                  (tk TOKEN_SYMBOL "not" 5)
                  (init (lexer_of [ws 8; tk TOKEN_SYMBOL "b" 9; ws 10;
                                   tk TOKEN_VARIABLE_END "}}" 11]))
                  eq_refl eq_refl)
           (tk TOKEN_SYMBOL "b" 9)
           (init (lexer_of [ws 10; tk TOKEN_VARIABLE_END "}}" 11]))).
  - reflexivity.
  - reflexivity.
Defined.

Lemma filter_names_are_joined_witness :
  exists p',
    parseFilterName lexer_type_name 3 parser_at_filter_name
    = (Ret (Symbol (Some 0) (Some 7) (TStr "a.b.c")), p')
    /\ upcoming p' = [tk TOKEN_VARIABLE_END "}}" 13]
    /\ same_context parser_at_filter_name p'.
Proof.
  apply (filter_names_are_joined lexer_type_name 3 parser_at_filter_name
           (tk TOKEN_SYMBOL "a" 7)
           [(tk TOKEN_OPERATOR "." 8, tk TOKEN_SYMBOL "b" 9);
            (tk TOKEN_OPERATOR "." 10, tk TOKEN_SYMBOL "c" 11)]
           [tk TOKEN_VARIABLE_END "}}" 13]).
  - reflexivity.
  - reflexivity.
  - repeat constructor.
  - reflexivity.
  - simpl. lia.
Defined.

Lemma any_delimiter_closes_witness :
  exists p',
    parseAggregate lexer_type_name 2
      (init (lexer_of [tk TOKEN_LEFT_PAREN "(" 3;
                       tk TOKEN_RIGHT_BRACKET "]" 4;
                       tk TOKEN_VARIABLE_END "}}" 6]))
    = (Ret (Group (Some 0) (Some 3) []), p')
    /\ upcoming p' = [tk TOKEN_VARIABLE_END "}}" 6].
Proof.
  apply (proj1 (any_delimiter_closes lexer_type_name 0
                  (init (lexer_of [tk TOKEN_LEFT_PAREN "(" 3;
                                   tk TOKEN_RIGHT_BRACKET "]" 4;
                                   tk TOKEN_VARIABLE_END "}}" 6]))
                  (tk TOKEN_LEFT_PAREN "(" 3) (tk TOKEN_RIGHT_BRACKET "]" 4)
                  [tk TOKEN_VARIABLE_END "}}" 6] Group false
                  eq_refl eq_refl eq_refl)).
Defined.

Lemma text_passes_through_witness :
  exists p',
    parse_lexed lexer_type_name [] 3
      (lexer_of [tk TOKEN_DATA "  a " 0; tk TOKEN_DATA "b" 4])
    = (Ret (Root (Some 0) (Some 0)
              (map data_output
                 [tk TOKEN_DATA "  a " 0; tk TOKEN_DATA "b" 4])), p')
    /\ pending p' = [].
Proof.
  apply (text_passes_through lexer_type_name []
           (lexer_of [tk TOKEN_DATA "  a " 0; tk TOKEN_DATA "b" 4]) 3).
  - repeat constructor; eexists; reflexivity.
  - simpl. lia.
Defined.

Lemma tags_are_dispatched_witness :
  exists p',
    parseStatement lexer_type_name [] 1 parser_at_stray_endif
    = (Throw (TemplateError "unknown block tag: endif" (Some 1) (Some 4)),
       p').
Proof.
  apply (proj2 (proj2 (tags_are_dispatched lexer_type_name [] 0
                         parser_at_stray_endif (tk TOKEN_SYMBOL "endif" 3)
                         [tk TOKEN_BLOCK_END "%}" 9] I eq_refl)));
    reflexivity.
Defined.

Lemma marker_dash_trims_text_before_witness :
  parseNodes_data (tk TOKEN_DATA "a  " 0) parser_before_dash
  = (Ret (Output (Some 0) (Some 0)
            [TemplateData (Some 0) (Some 0) (TStr (trim_trailing "a  "))]),
     set_peeked (Some (tk TOKEN_BLOCK_START "{%-" 3))
       (init (lexer_of [ws 6; tk TOKEN_SYMBOL "if" 7])))
  /\ ends_with_space (trim_trailing "a  ") = false
  /\ exists w, "a  " = (trim_trailing "a  " ++ w)%string /\ all_space w = true.
Proof.
  apply (marker_dash_trims_text_before (tk TOKEN_DATA "a  " 0) "a  "
           parser_before_dash (tk TOKEN_BLOCK_START "{%-" 3)).
  - reflexivity.
  - reflexivity.
  - reflexivity.
  - left. split; [reflexivity |]. exists "{%". reflexivity.
Defined.

Lemma comment_decides_the_latch_witness :
  parseNodes lexer_type_name [] 3 [] parser_before_comment
  = (Ret [Output (Some 0) (Some 22)
            [TemplateData (Some 0) (Some 22) (TStr "  a")]],
     init (lexer_of [])).
Proof.
  etransitivity.
  - apply (proj2 (comment_decides_the_latch lexer_type_name [] 1 []
                    parser_before_comment (tk TOKEN_COMMENT "{# note #}" 12)
                    "{# note" " "%char
                    (set_dropLeadingWhitespace true
                       (init (lexer_of [tk TOKEN_DATA "  a" 22])))
                    eq_refl eq_refl eq_refl)
             (tk TOKEN_DATA "  a" 22) "  a"
             (set_dropLeadingWhitespace true (init (lexer_of [])))
             (set_dropLeadingWhitespace true (init (lexer_of [])))).
    + reflexivity.
    + reflexivity.
    + reflexivity.
    + reflexivity.
  - reflexivity.
Defined.

Lemma with_context_is_optional_witness :
  exists p',
    parseWithContext parser_at_with_context = (Ret (Some true), p')
    /\ upcoming p' = [tk TOKEN_BLOCK_END "%}" 34].
Proof.
  apply (proj1 (with_context_is_optional parser_at_with_context I)
           (tk TOKEN_SYMBOL "with" 21) (tk TOKEN_SYMBOL "context" 26)
           [tk TOKEN_BLOCK_END "%}" 34]); reflexivity.
Defined.

Lemma keyword_arguments_are_collected_witness :
  parseSignature lexer_type_name 26 false false
    (init (lexer_of tokens_mixed_arguments))
  = (Ret (signature (tk TOKEN_LEFT_PAREN "(" 4)
            (positionals
               [keyword (sym "x" 5) (int_literal 1 7); positional (sym "a" 10);
                keyword (sym "y" 13) (int_literal 2 15);
                positional (sym "b" 18)])
            (keywords
               [keyword (sym "x" 5) (int_literal 1 7); positional (sym "a" 10);
                keyword (sym "y" 13) (int_literal 2 15);
                positional (sym "b" 18)])),
     init (lexer_of [ws 20; tk TOKEN_VARIABLE_END "}}" 21])).
Proof.
  apply (proj1 (keyword_arguments_are_collected lexer_type_name 20
                  (init (lexer_of tokens_mixed_arguments))
                  (tk TOKEN_LEFT_PAREN "(" 4)
                  (set_peeked (Some (tk TOKEN_LEFT_PAREN "(" 4))
                     (init (lexer_of (tl tokens_mixed_arguments))))
                  (init (lexer_of (tl tokens_mixed_arguments)))
                  [keyword (sym "x" 5) (int_literal 1 7);
                   positional (sym "a" 10);
                   keyword (sym "y" 13) (int_literal 2 15);
                   positional (sym "b" 18)]
                  (init (lexer_of [ws 20; tk TOKEN_VARIABLE_END "}}" 21]))
                  26 eq_refl) eq_refl eq_refl).
  - eapply arguments_keyword; [vm_compute; reflexivity ..|].
    eapply arguments_positional; [vm_compute; reflexivity ..|].
    eapply arguments_keyword; [vm_compute; reflexivity ..|].
    eapply arguments_positional; [vm_compute; reflexivity ..|].
    eapply arguments_closed; vm_compute; reflexivity.
  - simpl. lia.
Defined.

Lemma unexpected_token_is_reported_witness :
  exists p',
    parsePrimary lexer_type_name 2 false parser_at_empty_output
    = (Throw (TemplateError "unexpected token: }}" (Some 1) (Some 4)), p').
Proof.
  apply (unexpected_token_is_reported lexer_type_name 0
           parser_at_empty_output (tk TOKEN_VARIABLE_END "}}" 3) []);
    reflexivity.
Defined.

Lemma expressions_are_nodes_witness :
  parseExpression lexer_type_name 18
    (init (lexer_of [tk TOKEN_SYMBOL "a" 3; ws 4;
                     tk TOKEN_VARIABLE_END "}}" 5]))
  = (Ret (sym "a" 3),
     set_peeked (Some (tk TOKEN_VARIABLE_END "}}" 5)) (init (lexer_of [])))
  /\ sym "a" 3 <> Null.
Proof.
  assert (H : parseExpression lexer_type_name 18
                (init (lexer_of [tk TOKEN_SYMBOL "a" 3; ws 4;
                                 tk TOKEN_VARIABLE_END "}}" 5]))
              = (Ret (sym "a" 3),
                 set_peeked (Some (tk TOKEN_VARIABLE_END "}}" 5))
                   (init (lexer_of []))))
    by (vm_compute; reflexivity).
  split; [exact H |].
  exact (proj1 (expressions_are_nodes lexer_type_name 18 _) _ _ H).
Defined.

Lemma parsing_terminates_witness :
  exists fuel r p',
    (forall n,
        fuel <= n ->
        parse_lexed lexer_type_name [] n (lexer_of tokens_if_dash) = (r, p'))
    /\ r <> OutOfFuel.
Proof.
  apply (proj1 (parsing_terminates lexer_type_name)
           (lexer_of tokens_if_dash)).
  intros tagName ts. reflexivity.
Defined.

Lemma lookup_has_one_index_witness :
  (exists p',
      parsePostfix lexer_type_name 3 (sym "x" 3) parser_at_empty_index
      = parsePostfix lexer_type_name 2
          (LookupVal (Some 0) (Some 4) (sym "x" 3) Null) p'
      /\ upcoming p' = [tk TOKEN_VARIABLE_END "}}" 7] /\ clean p')
  /\ (exists p',
         parsePostfix lexer_type_name 21 (sym "x" 3) parser_at_one_index
         = parsePostfix lexer_type_name 20
             (LookupVal (Some 0) (Some 4) (sym "x" 3) (sym "a" 5)) p'
         /\ upcoming p' = [tk TOKEN_VARIABLE_END "}}" 8] /\ clean p')
  /\ (exists p',
         parsePostfix lexer_type_name 22 (sym "x" 3) parser_at_two_indices
         = (Throw (TemplateError "invalid index" (Some 1) (Some 12)), p')
         /\ upcoming p' = [tk TOKEN_VARIABLE_END "}}" 11] /\ clean p')
  /\ (exists p',
         parsePostfix lexer_type_name 1 (sym "x" 3) parser_at_dot_name
         = parsePostfix lexer_type_name 0
             (LookupVal (Some 0) (Some 4) (sym "x" 3)
                (Literal (Some 0) (Some 5) (VStr "a"))) p'
         /\ upcoming p' = [tk TOKEN_VARIABLE_END "}}" 7] /\ clean p')
  /\ (exists p',
         parsePostfix lexer_type_name 1 (sym "x" 3) parser_at_dot_number
         = (Throw (TemplateError "expected name as lookup value, got 1"
                     (Some 1) (Some 6)), p')).
Proof.
  split; [| split; [| split; [| split]]].
  - exact (proj1 (lookup_has_one_index lexer_type_name 2 (sym "x" 3)
                    parser_at_empty_index I)
             (tk TOKEN_LEFT_BRACKET "[" 4) (tk TOKEN_RIGHT_BRACKET "]" 5)
             [tk TOKEN_VARIABLE_END "}}" 7] eq_refl eq_refl (le_n 2)
             eq_refl).
  - exact (proj1 (proj2 (lookup_has_one_index lexer_type_name 20 (sym "x" 3)
                           parser_at_one_index I))
             (tk TOKEN_LEFT_BRACKET "[" 4) (tk TOKEN_SYMBOL "a" 5) []
             (tk TOKEN_RIGHT_BRACKET "]" 6) [tk TOKEN_VARIABLE_END "}}" 8]
             eq_refl eq_refl eq_refl eq_refl eq_refl (le_n 20) eq_refl).
  - exact (proj1 (proj2 (lookup_has_one_index lexer_type_name 21 (sym "x" 3)
                           parser_at_two_indices I))
             (tk TOKEN_LEFT_BRACKET "[" 4) (tk TOKEN_SYMBOL "a" 5)
             [(tk TOKEN_COMMA "," 6, tk TOKEN_SYMBOL "b" 8)]
             (tk TOKEN_RIGHT_BRACKET "]" 9) [tk TOKEN_VARIABLE_END "}}" 11]
             eq_refl eq_refl eq_refl eq_refl eq_refl (le_n 21) eq_refl).
  - exact (proj1 (proj2 (proj2 (lookup_has_one_index lexer_type_name 0
                                  (sym "x" 3) parser_at_dot_name I)))
             (tk TOKEN_OPERATOR "." 4) (tk TOKEN_SYMBOL "a" 5)
             [tk TOKEN_VARIABLE_END "}}" 7] eq_refl eq_refl eq_refl).
  - exact (proj2 (proj2 (proj2 (lookup_has_one_index lexer_type_name 0
                                  (sym "x" 3) parser_at_dot_number I)))
             (tk TOKEN_OPERATOR "." 4) (tk TOKEN_INT "1" 5)
             [tk TOKEN_VARIABLE_END "}}" 7] eq_refl
             ltac:(discriminate) eq_refl).
Defined.
